(** * Party Poker backend: hand evaluator and hand state machine

    A shallow embedding of the TypeScript backend
    ([backend/src/game/PokerEngine.ts], [backend/src/game/GameManager.ts],
    [backend/src/utils/helpers.ts], [backend/src/types/index.ts]) and of the
    side-pot helper of the Swift client ([PokerEngine.swift]).

    Conventions.
    - JavaScript numbers that hold chip amounts, ranks and counters are
      integers; they are modelled as [Z].  Array positions are [nat].
    - A [throw] is modelled by the [Err] constructor of [result]; in the
      stateful part the state reached at the moment of the [throw] is kept,
      because the engine mutates the room in place.
    - An object reference to a player of [room.players] is modelled as the
      position of that player in the list. *)

From Stdlib Require Import ZArith List String Bool Lia Sorted.
From stdpp Require Import base list gmap strings.
Import ListNotations.

Local Open Scope Z_scope.

(** ** Results of fallible code *)

(** The [Error]s thrown by the modelled code, one constructor per message:
    - [NeedFiveCards]: "Need at least 5 cards to evaluate hand"
    - [NotExactlyFiveCards]: "Must evaluate exactly 5 cards"
    - [InsufficientCards]: "Insufficient cards in deck"
    - [NoActivePlayers]: "No active players to determine winner"
    - [InvalidPlayerOrTurn]: "Invalid player or not player's turn"
    - [CannotCheck]: "Cannot check when there is a bet to call"
    - [InsufficientChipsToCall]: "Insufficient chips to call"
    - [MinimumRaiseIs m]: "Minimum raise is m"
    - [InsufficientChipsToRaise]: "Insufficient chips to raise"
    - [StackOverflow], [NullHand] and [UndefinedPlayer] stand for what the
      JavaScript runtime does where the source has no guard of its own:
      unbounded recursion, a [null] handed back through a non-null
      assertion, and a property read on [undefined]. *)
Inductive Error : Type :=
| NeedFiveCards
| NotExactlyFiveCards
| InsufficientCards
| NoActivePlayers
| InvalidPlayerOrTurn
| CannotCheck
| InsufficientChipsToCall
| MinimumRaiseIs (minRaise : Z)
| InsufficientChipsToRaise
| StackOverflow
| NullHand
| UndefinedPlayer.

Inductive result (A : Type) : Type :=
| Ok (a : A)
| Err (e : Error).
Arguments Ok {A} a.
Arguments Err {A} e.

(** ** [Array.prototype.sort] with a comparator

    The ECMAScript sort is stable; for a comparator that is a consistent
    ordering every stable sort returns the same array.  The model is the
    stable insertion sort: an element is placed before the first element it
    does not exceed. *)

Section JsSort.
Context {A : Type} (cmp : A -> A -> Z).

Fixpoint insert_sorted (x : A) (l : list A) : list A :=
  match l with
  | [] => [x]
  | y :: l' => if cmp x y <=? 0 then x :: y :: l' else y :: insert_sorted x l'
  end.

Definition js_sort (l : list A) : list A := foldr insert_sorted [] l.
End JsSort.

(** [arr.slice(0, n)]: a negative [n] counts from the end. *)
Definition slice0 {A : Type} (l : list A) (n : Z) : list A :=
  if n <? 0 then firstn (Z.to_nat (Z.of_nat (length l) + n)) l
  else firstn (Z.to_nat n) l.

(** ** Cards and hands ([types/index.ts]) *)

Inductive CardRank : Type :=
| Two | Three | Four | Five | Six | Seven | Eight | Nine | Ten
| Jack | Queen | King | Ace.

Definition rankValue (r : CardRank) : Z :=
  match r with
  | Two => 2 | Three => 3 | Four => 4 | Five => 5 | Six => 6 | Seven => 7
  | Eight => 8 | Nine => 9 | Ten => 10 | Jack => 11 | Queen => 12
  | King => 13 | Ace => 14
  end.

Inductive CardSuit : Type := Hearts | Diamonds | Clubs | Spades.

Definition suit_eqb (a b : CardSuit) : bool :=
  match a, b with
  | Hearts, Hearts | Diamonds, Diamonds | Clubs, Clubs | Spades, Spades => true
  | _, _ => false
  end.

Record Card : Type := mkCard { rank : CardRank; suit : CardSuit }.

(** The numeric rank of a card, [card.rank] in the source. *)
Definition rk (c : Card) : Z := rankValue (rank c).

Inductive HandRank : Type :=
| HighCard | Pair | TwoPair | ThreeOfAKind | Straight | Flush
| FullHouse | FourOfAKind | StraightFlush | RoyalFlush.

Definition handRankValue (h : HandRank) : Z :=
  match h with
  | HighCard => 1 | Pair => 2 | TwoPair => 3 | ThreeOfAKind => 4
  | Straight => 5 | Flush => 6 | FullHouse => 7 | FourOfAKind => 8
  | StraightFlush => 9 | RoyalFlush => 10
  end.

(** [Hand.rank] is named [handRank] here, [rank] being the field of [Card]. *)
Record Hand : Type := mkHand {
  handRank : HandRank;
  cards : list Card;
  kickers : list Card;
  description : string
}.

(** ** Players, game state and rooms ([types/index.ts])

    Of [Player], [nickname], [position] and [socketId] are left out, and of
    [Room] everything but [players], [gameState] and [settings]: the engine
    never writes them and reads them only to fill log lines and events.
    [GameState.currentBet] is named [tableBet], [currentBet] being the field
    of [Player]; [GameState.players] is never used by the engine. *)

Inductive GamePhase : Type :=
| Waiting | PreFlop | Flop | Turn | River | Showdown | HandComplete.

Inductive PlayerAction : Type := Fold | Check | Call | Raise | AllIn.

Record Player : Type := mkPlayer {
  id : string;
  chips : Z;
  holeCards : list Card;
  isActive : bool;
  isInHand : bool;
  currentBet : Z;
  totalBet : Z;
  lastAction : option PlayerAction;
  isDealer : bool;
  isSmallBlind : bool;
  isBigBlind : bool;
  hasFolded : bool;
  isAllIn : bool
}.

Record GameSettings : Type := mkGameSettings {
  smallBlind : Z;
  bigBlind : Z;
  startingChips : Z;
  maxPlayers : nat;
  minPlayers : nat
}.

Record GameState : Type := mkGameState {
  phase : GamePhase;
  communityCards : list Card;
  pot : Z;
  currentPlayerIndex : nat;
  dealerIndex : nat;
  smallBlindIndex : nat;
  bigBlindIndex : nat;
  tableBet : Z;
  minRaise : Z;
  isHandActive : bool;
  handNumber : nat;
  winners : list string
}.

Record Room : Type := mkRoom {
  players : list Player;
  gameState : GameState;
  settings : GameSettings
}.

(** A request with a whole amount.  The schema of the requests also lets
    through an amount that is not whole; [Fractional] below has the
    arithmetic of the engine on such amounts. *)
Record PlayerActionRequest : Type := mkRequest {
  playerId : string;
  action : PlayerAction;
  amount : option Z
}.

(** The events the engine returns, without their timestamps. *)
Inductive GameEvent : Type :=
| HandStarted (handNumber dealerIndex : nat) (small big : Z)
| PlayerActed (playerId : string) (action : PlayerAction) (amount : option Z)
              (chipsUsed pot : Z)
| CardsDealt (phase : GamePhase) (cards : list Card)
| PhaseChanged (phase : GamePhase) (currentPlayerIndex : nat)
| WinnerDetermined (winners : list string) (bestHand : Hand) (potAwarded : Z)
| HandEnded (handNumber : nat).

(** *** Field assignments *)

Definition set_chips (v : Z) (p : Player) : Player :=
  mkPlayer (id p) v (holeCards p) (isActive p) (isInHand p) (currentBet p)
    (totalBet p) (lastAction p) (isDealer p) (isSmallBlind p) (isBigBlind p)
    (hasFolded p) (isAllIn p).
Definition set_holeCards (v : list Card) (p : Player) : Player :=
  mkPlayer (id p) (chips p) v (isActive p) (isInHand p) (currentBet p)
    (totalBet p) (lastAction p) (isDealer p) (isSmallBlind p) (isBigBlind p)
    (hasFolded p) (isAllIn p).
Definition set_isInHand (v : bool) (p : Player) : Player :=
  mkPlayer (id p) (chips p) (holeCards p) (isActive p) v (currentBet p)
    (totalBet p) (lastAction p) (isDealer p) (isSmallBlind p) (isBigBlind p)
    (hasFolded p) (isAllIn p).
Definition set_currentBet (v : Z) (p : Player) : Player :=
  mkPlayer (id p) (chips p) (holeCards p) (isActive p) (isInHand p) v
    (totalBet p) (lastAction p) (isDealer p) (isSmallBlind p) (isBigBlind p)
    (hasFolded p) (isAllIn p).
Definition set_totalBet (v : Z) (p : Player) : Player :=
  mkPlayer (id p) (chips p) (holeCards p) (isActive p) (isInHand p)
    (currentBet p) v (lastAction p) (isDealer p) (isSmallBlind p)
    (isBigBlind p) (hasFolded p) (isAllIn p).
Definition set_lastAction (v : option PlayerAction) (p : Player) : Player :=
  mkPlayer (id p) (chips p) (holeCards p) (isActive p) (isInHand p)
    (currentBet p) (totalBet p) v (isDealer p) (isSmallBlind p)
    (isBigBlind p) (hasFolded p) (isAllIn p).
Definition set_isDealer (v : bool) (p : Player) : Player :=
  mkPlayer (id p) (chips p) (holeCards p) (isActive p) (isInHand p)
    (currentBet p) (totalBet p) (lastAction p) v (isSmallBlind p)
    (isBigBlind p) (hasFolded p) (isAllIn p).
Definition set_isSmallBlind (v : bool) (p : Player) : Player :=
  mkPlayer (id p) (chips p) (holeCards p) (isActive p) (isInHand p)
    (currentBet p) (totalBet p) (lastAction p) (isDealer p) v
    (isBigBlind p) (hasFolded p) (isAllIn p).
Definition set_isBigBlind (v : bool) (p : Player) : Player :=
  mkPlayer (id p) (chips p) (holeCards p) (isActive p) (isInHand p)
    (currentBet p) (totalBet p) (lastAction p) (isDealer p) (isSmallBlind p)
    v (hasFolded p) (isAllIn p).

Definition set_phase (v : GamePhase) (g : GameState) : GameState :=
  mkGameState v (communityCards g) (pot g) (currentPlayerIndex g)
    (dealerIndex g) (smallBlindIndex g) (bigBlindIndex g) (tableBet g)
    (minRaise g) (isHandActive g) (handNumber g) (winners g).
Definition set_communityCards (v : list Card) (g : GameState) : GameState :=
  mkGameState (phase g) v (pot g) (currentPlayerIndex g)
    (dealerIndex g) (smallBlindIndex g) (bigBlindIndex g) (tableBet g)
    (minRaise g) (isHandActive g) (handNumber g) (winners g).
Definition set_pot (v : Z) (g : GameState) : GameState :=
  mkGameState (phase g) (communityCards g) v (currentPlayerIndex g)
    (dealerIndex g) (smallBlindIndex g) (bigBlindIndex g) (tableBet g)
    (minRaise g) (isHandActive g) (handNumber g) (winners g).
Definition set_currentPlayerIndex (v : nat) (g : GameState) : GameState :=
  mkGameState (phase g) (communityCards g) (pot g) v
    (dealerIndex g) (smallBlindIndex g) (bigBlindIndex g) (tableBet g)
    (minRaise g) (isHandActive g) (handNumber g) (winners g).
Definition set_dealerIndex (v : nat) (g : GameState) : GameState :=
  mkGameState (phase g) (communityCards g) (pot g) (currentPlayerIndex g)
    v (smallBlindIndex g) (bigBlindIndex g) (tableBet g)
    (minRaise g) (isHandActive g) (handNumber g) (winners g).
Definition set_smallBlindIndex (v : nat) (g : GameState) : GameState :=
  mkGameState (phase g) (communityCards g) (pot g) (currentPlayerIndex g)
    (dealerIndex g) v (bigBlindIndex g) (tableBet g)
    (minRaise g) (isHandActive g) (handNumber g) (winners g).
Definition set_bigBlindIndex (v : nat) (g : GameState) : GameState :=
  mkGameState (phase g) (communityCards g) (pot g) (currentPlayerIndex g)
    (dealerIndex g) (smallBlindIndex g) v (tableBet g)
    (minRaise g) (isHandActive g) (handNumber g) (winners g).
Definition set_tableBet (v : Z) (g : GameState) : GameState :=
  mkGameState (phase g) (communityCards g) (pot g) (currentPlayerIndex g)
    (dealerIndex g) (smallBlindIndex g) (bigBlindIndex g) v
    (minRaise g) (isHandActive g) (handNumber g) (winners g).
Definition set_minRaise (v : Z) (g : GameState) : GameState :=
  mkGameState (phase g) (communityCards g) (pot g) (currentPlayerIndex g)
    (dealerIndex g) (smallBlindIndex g) (bigBlindIndex g) (tableBet g)
    v (isHandActive g) (handNumber g) (winners g).
Definition set_isHandActive (v : bool) (g : GameState) : GameState :=
  mkGameState (phase g) (communityCards g) (pot g) (currentPlayerIndex g)
    (dealerIndex g) (smallBlindIndex g) (bigBlindIndex g) (tableBet g)
    (minRaise g) v (handNumber g) (winners g).
Definition set_handNumber (v : nat) (g : GameState) : GameState :=
  mkGameState (phase g) (communityCards g) (pot g) (currentPlayerIndex g)
    (dealerIndex g) (smallBlindIndex g) (bigBlindIndex g) (tableBet g)
    (minRaise g) (isHandActive g) v (winners g).
Definition set_winners (v : list string) (g : GameState) : GameState :=
  mkGameState (phase g) (communityCards g) (pot g) (currentPlayerIndex g)
    (dealerIndex g) (smallBlindIndex g) (bigBlindIndex g) (tableBet g)
    (minRaise g) (isHandActive g) (handNumber g) v.

Definition set_players (v : list Player) (r : Room) : Room :=
  mkRoom v (gameState r) (settings r).
Definition set_gameState (v : GameState) (r : Room) : Room :=
  mkRoom (players r) v (settings r).

(** ** [utils/helpers.ts] *)

(** The [while] loop of [getNextActivePlayerIndex], with [left] the number
    of attempts still allowed; [None] is the exit with
    [attempts = playerCount]. *)
Fixpoint scanPlayers (isActiveCallback : nat -> bool) (playerCount : nat)
    (nextIndex : nat) (left : nat) : option nat :=
  match left with
  | O => None
  | S left' =>
      if isActiveCallback nextIndex then Some nextIndex
      else scanPlayers isActiveCallback playerCount
             ((nextIndex + 1) mod playerCount)%nat left'
  end.

(** [getNextActivePlayerIndex], for [playerCount > 0] (with no player the
    source computes [NaN] and the callback reads a property of
    [undefined]; the callers below raise [UndefinedPlayer] there). *)
Definition getNextActivePlayerIndex (currentIndex playerCount : nat)
    (isActiveCallback : nat -> bool) : nat :=
  match scanPlayers isActiveCallback playerCount
          ((currentIndex + 1) mod playerCount)%nat playerCount with
  | Some nextIndex => nextIndex
  | None => currentIndex
  end.

(** [createDeck]: the 52 cards, suit by suit in the order of the enum. *)
Definition allRanks : list CardRank :=
  [Two; Three; Four; Five; Six; Seven; Eight; Nine; Ten; Jack; Queen; King; Ace].
Definition createDeck : list Card :=
  flat_map (fun s => map (fun r => mkCard r s) allRanks)
           [Hearts; Diamonds; Clubs; Spades].

(** ** [PokerEngine.ts] *)

Module PokerEngine.

(** [[...new Set(ranks)]]: first occurrences, in insertion order. *)
Fixpoint uniq (l : list Z) : list Z :=
  match l with
  | [] => []
  | x :: l' => x :: List.filter (fun y => negb (y =? x)) (uniq l')
  end.

Definition ascending (a b : Z) : Z := a - b.
Definition descending (a b : Z) : Z := b - a.
Definition byRankDesc (a b : Card) : Z := rk b - rk a.

(** The loop of [isStraight]: each rank is its predecessor plus one. *)
Fixpoint consecutive (l : list Z) : bool :=
  match l with
  | a :: (b :: _) as t => (b =? a + 1) && consecutive t
  | _ => true
  end.

Definition isStraight (ranks : list Z) : bool :=
  let sortedRanks := js_sort ascending (uniq ranks) in
  if negb (length sortedRanks =? 5)%nat then false
  else consecutive sortedRanks.

Definition isWheelStraight (ranks : list Z) : bool :=
  let uniqueRanks := js_sort ascending (uniq ranks) in
  match uniqueRanks with
  | [r0; r1; r2; r3; r4] =>
      (r0 =? rankValue Two) && (r1 =? rankValue Three) &&
      (r2 =? rankValue Four) && (r3 =? rankValue Five) &&
      (r4 =? rankValue Ace)
  | _ => false
  end.

(** The comparator of [arrangeWheelStraight]: the Ace goes last. *)
Definition wheelOrder (a b : Card) : Z :=
  if rk a =? rankValue Ace then 1
  else if rk b =? rankValue Ace then -1
  else rk b - rk a.

Definition arrangeWheelStraight (cs : list Card) : list Card :=
  js_sort wheelOrder cs.

(** [Record<number, number>]: an object with integer keys, which
    [Object.keys] and [Object.values] enumerate in ascending key order.
    Modelled as an association list kept in ascending key order. *)
Definition RankCounts : Type := list (Z * Z).

(** [counts[rank] = (counts[rank] || 0) + 1] *)
Fixpoint bump (r : Z) (m : RankCounts) : RankCounts :=
  match m with
  | [] => [(r, 1)]
  | (k, c) :: m' =>
      if r =? k then (k, c + 1) :: m'
      else if r <? k then (r, 1) :: (k, c) :: m'
      else (k, c) :: bump r m'
  end.

Definition countRanks (ranks : list Z) : RankCounts :=
  fold_left (fun counts r => bump r counts) ranks [].

(** [rankCounts[rank]], only used at keys of [rankCounts]. *)
Fixpoint countOf (m : RankCounts) (r : Z) : Z :=
  match m with
  | [] => 0
  | (k, c) :: m' => if r =? k then c else countOf m' r
  end.

(** The comparator of [separateCardsByRank]: count first, then rank, both
    highest first. *)
Definition byCountThenRank (rankCounts : RankCounts) (a b : Z) : Z :=
  let countDiff := countOf rankCounts b - countOf rankCounts a in
  if negb (countDiff =? 0) then countDiff else b - a.

(** The state of the loop of [separateCardsByRank]. *)
Record Separation : Type := mkSeparation {
  sep_primary : list Card;
  sep_kickers : list Card;
  sep_targetIndex : nat
}.

Definition separateStep (cs : list Card) (rankCounts : RankCounts)
    (targetCounts : list Z) (st : Separation) (r : Z) : Separation :=
  let count := countOf rankCounts r in
  let cardsOfRank := List.filter (fun c => rk c =? r) cs in
  match nth_error targetCounts (sep_targetIndex st) with
  | Some t =>
      if count =? t
      then mkSeparation (sep_primary st ++ cardsOfRank) (sep_kickers st)
                        (S (sep_targetIndex st))
      else mkSeparation (sep_primary st) (sep_kickers st ++ cardsOfRank)
                        (sep_targetIndex st)
  | None => mkSeparation (sep_primary st) (sep_kickers st ++ cardsOfRank)
                         (sep_targetIndex st)
  end.

Definition separateLoop (cs : list Card) (rankCounts : RankCounts)
    (targetCounts : list Z) (sortedRanks : list Z) : Separation :=
  fold_left (separateStep cs rankCounts targetCounts) sortedRanks
            (mkSeparation [] [] 0).

Definition separateCardsByRank (cs : list Card) (rankCounts : RankCounts)
    (targetCounts : list Z) : list Card * list Card :=
  let sortedRanks := js_sort (byCountThenRank rankCounts) (map fst rankCounts) in
  let st := separateLoop cs rankCounts targetCounts sortedRanks in
  let primaryCards := js_sort byRankDesc (sep_primary st) in
  let kickers := js_sort byRankDesc (sep_kickers st) in
  (primaryCards, slice0 kickers (5 - Z.of_nat (length primaryCards))).

(** [counts[i] === v] *)
Definition countIs (counts : list Z) (i : nat) (v : Z) : bool :=
  match nth_error counts i with
  | Some c => c =? v
  | None => false
  end.

Definition allSameSuit (suits : list CardSuit) : bool :=
  match suits with
  | [] => true
  | s0 :: _ => forallb (fun s => suit_eqb s s0) suits
  end.

Definition evaluateExactHand (cs : list Card) : result Hand :=
  if negb (length cs =? 5)%nat then Err NotExactlyFiveCards else
  let sortedCards := js_sort byRankDesc cs in
  let ranks := map rk sortedCards in
  let suits := map suit sortedCards in
  let isFlush := allSameSuit suits in
  let isStraight := isStraight ranks in
  let isWheelStraight := isWheelStraight ranks in
  let rankCounts := countRanks ranks in
  let counts := js_sort descending (map snd rankCounts) in
  if isFlush && (isStraight || isWheelStraight) then
    if countIs ranks 0 (rankValue Ace) && isStraight
    then Ok (mkHand RoyalFlush sortedCards [] "Royal Flush")
    else Ok (mkHand StraightFlush
               (if isWheelStraight then arrangeWheelStraight sortedCards
                else sortedCards) [] "Straight Flush")
  else if countIs counts 0 4 then
    let '(primaryCards, kickers) := separateCardsByRank sortedCards rankCounts [4] in
    Ok (mkHand FourOfAKind primaryCards kickers "Four of a Kind")
  else if countIs counts 0 3 && countIs counts 1 2 then
    let '(primaryCards, _) := separateCardsByRank sortedCards rankCounts [3; 2] in
    Ok (mkHand FullHouse primaryCards [] "Full House")
  else if isFlush then
    Ok (mkHand Flush sortedCards [] "Flush")
  else if isStraight || isWheelStraight then
    Ok (mkHand Straight
          (if isWheelStraight then arrangeWheelStraight sortedCards
           else sortedCards) [] "Straight")
  else if countIs counts 0 3 then
    let '(primaryCards, kickers) := separateCardsByRank sortedCards rankCounts [3] in
    Ok (mkHand ThreeOfAKind primaryCards kickers "Three of a Kind")
  else if countIs counts 0 2 && countIs counts 1 2 then
    let '(primaryCards, kickers) := separateCardsByRank sortedCards rankCounts [2; 2] in
    Ok (mkHand TwoPair primaryCards kickers "Two Pair")
  else if countIs counts 0 2 then
    let '(primaryCards, kickers) := separateCardsByRank sortedCards rankCounts [2] in
    Ok (mkHand Pair primaryCards kickers "Pair")
  else
    Ok (mkHand HighCard (slice0 sortedCards 5) [] "High Card").

(** The loop of [compareHands] over [cards ++ kickers] of both hands, up to
    the shorter length. *)
Fixpoint compareCards (cards1 cards2 : list Card) : Z :=
  match cards1, cards2 with
  | c1 :: t1, c2 :: t2 =>
      if negb (rk c1 =? rk c2) then rk c1 - rk c2 else compareCards t1 t2
  | _, _ => 0
  end.

Definition compareHands (hand1 hand2 : Hand) : Z :=
  if negb (handRankValue (handRank hand1) =? handRankValue (handRank hand2))
  then handRankValue (handRank hand1) - handRankValue (handRank hand2)
  else compareCards (cards hand1 ++ kickers hand1) (cards hand2 ++ kickers hand2).

(** [getCombinations(arr, k)].  On the empty array with [k] neither [1] nor
    [0] the source calls itself on the same arguments without end; this is
    the [None] of the model.  The stack of the engine is taken here to hold
    any number of nested calls that end and any number of arguments in
    [result.push(...withoutFirst)]; [Limited] below has the same function
    on an engine with a finite call stack. *)
Fixpoint getCombinations {T : Type} (arr : list T) (k : Z) : option (list (list T)) :=
  if k =? 1 then Some (map (fun el => [el]) arr)
  else if k =? Z.of_nat (length arr) then Some [arr]
  else
    match arr with
    | [] => None
    | first :: rest =>
        match getCombinations rest (k - 1), getCombinations rest k with
        | Some withFirst, Some withoutFirst =>
            Some (map (cons first) withFirst ++ withoutFirst)
        | _, _ => None
        end
    end.

(** The [for] loop of [evaluateHand]; [bestHand] starts as [null]. *)
Fixpoint bestOf (combos : list (list Card)) (bestHand : option Hand) : result (option Hand) :=
  match combos with
  | [] => Ok bestHand
  | combination :: more =>
      match evaluateExactHand combination with
      | Err e => Err e
      | Ok hand =>
          match bestHand with
          | None => bestOf more (Some hand)
          | Some best =>
              if compareHands hand best >? 0 then bestOf more (Some hand)
              else bestOf more (Some best)
          end
      end
  end.

(** [evaluateHand].  [bestHand!] would hand back [null] for an empty list of
    combinations, and the recursion of [getCombinations] would not return on
    a list shorter than [k]; both are ruled out by the length guard and show
    as [Err] in the model. *)
Definition evaluateHand (cs : list Card) : result Hand :=
  if (length cs <? 5)%nat then Err NeedFiveCards else
  match getCombinations cs 5 with
  | None => Err StackOverflow
  | Some allCombinations =>
      match bestOf allCombinations None with
      | Err e => Err e
      | Ok None => Err NullHand
      | Ok (Some bestHand) => Ok bestHand
      end
  end.

(** [createShuffledDeck] returns [shuffle(createDeck())], a random
    permutation; the functions below take the shuffled deck as an argument. *)

(** One pass of [dealHoleCards] over the players: every player that is
    active and in the hand receives the top card.  The players already
    served keep their card when the deck runs out. *)
Fixpoint dealRound (ps : list Player) (remainingDeck : list Card)
    : list Player * result (list Card) :=
  match ps with
  | [] => ([], Ok remainingDeck)
  | player :: rest =>
      if isActive player && isInHand player then
        match remainingDeck with
        | [] => (player :: rest, Err InsufficientCards)
        | card :: deck' =>
            let player' := set_holeCards (holeCards player ++ [card]) player in
            let '(rest', r) := dealRound rest deck' in
            (player' :: rest', r)
        end
      else
        let '(rest', r) := dealRound rest remainingDeck in
        (player :: rest', r)
  end.

(** [dealHoleCards(players.filter(p => p.isActive), deck)]: the filtered
    array holds the same player objects, so the cards land in
    [room.players]; the inactive players fail the test of [dealRound]. *)
Definition dealHoleCards (ps : list Player) (deck : list Card)
    : list Player * result (list Card) :=
  match dealRound ps deck with
  | (ps1, Ok deck1) => dealRound ps1 deck1
  | (ps1, Err e) => (ps1, Err e)
  end.

(** The dealing loop of [dealCommunityCards]. *)
Fixpoint takeCards (count : nat) (remainingDeck : list Card)
    : result (list Card * list Card) :=
  match count with
  | O => Ok ([], remainingDeck)
  | S count' =>
      match remainingDeck with
      | [] => Err InsufficientCards
      | card :: deck' =>
          match takeCards count' deck' with
          | Ok (cs, deck'') => Ok (card :: cs, deck'')
          | Err e => Err e
          end
      end
  end.

Definition dealCommunityCards (deck : list Card) (count : nat) (burnCard : bool)
    : result (list Card * list Card) :=
  let remainingDeck :=
    if burnCard && (0 <? length deck)%nat then tl deck else deck in
  takeCards count remainingDeck.

(** The players paired with their position in [room.players]. *)
Definition indexed (ps : list Player) : list (nat * Player) :=
  combine (seq 0 (length ps)) ps.

(** [activePlayers.map(player => ({ player, hand: evaluateHand(...) }))] *)
Fixpoint evaluatePlayers (communityCards : list Card)
    (activePlayers : list (nat * Player)) : result (list (nat * Hand)) :=
  match activePlayers with
  | [] => Ok []
  | (i, player) :: rest =>
      match evaluateHand (holeCards player ++ communityCards) with
      | Err e => Err e
      | Ok hand =>
          match evaluatePlayers communityCards rest with
          | Err e => Err e
          | Ok hands => Ok ((i, hand) :: hands)
          end
      end
  end.

(** The loop of [determineWinners] that finds the best hand. *)
Definition findBest (bestHand : Hand) (playerHands : list (nat * Hand)) : Hand :=
  fold_left (fun best ph => if compareHands (snd ph) best >? 0 then snd ph else best)
            playerHands bestHand.

(** [determineWinners]: the winners are returned as positions in
    [room.players]. *)
Definition determineWinners (ps : list Player) (communityCards : list Card)
    : result (list nat * Hand) :=
  let activePlayers := List.filter (fun ip => isInHand (snd ip)) (indexed ps) in
  match activePlayers with
  | [] => Err NoActivePlayers
  | [(i, player)] =>
      match evaluateHand (holeCards player ++ communityCards) with
      | Err e => Err e
      | Ok hand => Ok ([i], hand)
      end
  | _ =>
      match evaluatePlayers communityCards activePlayers with
      | Err e => Err e
      | Ok [] => Err NoActivePlayers
      | Ok ((i0, hand0) :: more) =>
          let bestHand := findBest hand0 more in
          let winners :=
            map fst (List.filter (fun ph => compareHands (snd ph) bestHand =? 0)
                                 ((i0, hand0) :: more)) in
          Ok (winners, bestHand)
      end
  end.

(** The loop of [distributePot]: [winners[i].chips += sharePerWinner +
    extraChip], [i] counting from the argument. *)
Fixpoint awardChips (sharePerWinner remainder : Z) (i : Z) (winners : list nat)
    (ps : list Player) : list Player :=
  match winners with
  | [] => ps
  | w :: rest =>
      let extraChip := if i <? remainder then 1 else 0 in
      awardChips sharePerWinner remainder (i + 1) rest
        (alter (fun p => set_chips (chips p + (sharePerWinner + extraChip)) p) w ps)
  end.

(** [distributePot(pot, winners)] on whole numbers: returns the players
    after the award and the remaining pot.  [Math.floor(pot / n)] is
    [Z.div], and [%] is the truncating [Z.rem].  [Fractional.distributePot]
    below is the same function on numbers that need not be whole. *)
Definition distributePot (pot : Z) (winners : list nat) (ps : list Player)
    : list Player * Z :=
  if (length winners =? 0)%nat then (ps, pot) else
  let sharePerWinner := pot / Z.of_nat (length winners) in
  let remainder := Z.rem pot (Z.of_nat (length winners)) in
  (awardChips sharePerWinner remainder 0 winners ps, 0).

Definition getValidActions (player : Player) (currentBet' : Z) : list PlayerAction :=
  if negb (isInHand player) || negb (isActive player) then [] else
  let callAmount := currentBet' - currentBet player in
  [Fold]
  ++ (if callAmount =? 0 then [Check] else [])
  ++ (if (callAmount >? 0) && (callAmount <=? chips player) then [Call] else [])
  ++ (if chips player >? callAmount then [Raise] else [])
  ++ (if chips player >? 0 then [AllIn] else []).

End PokerEngine.

Import PokerEngine.

(** ** [GameManager.ts]

    The engine mutates the room it is given and its own [deck] field, and a
    [throw] leaves whatever was written before it.  The methods are
    functions of the monad [M] of state and errors over [Table]: the room
    of the call and the deck of the manager.  [Manager] below has the rooms
    that share the deck. *)

Record Table : Type := mkTable {
  room : Room;
  deck : list Card
}.

Definition M (A : Type) : Type := Table -> Table * result A.

Definition ret {A : Type} (a : A) : M A := fun t => (t, Ok a).
Definition throw {A : Type} (e : Error) : M A := fun t => (t, Err e).
Definition bind {A B : Type} (m : M A) (k : A -> M B) : M B :=
  fun t =>
    match m t with
    | (t', Ok a) => k a t'
    | (t', Err e) => (t', Err e)
    end.
Definition get : M Table := fun t => (t, Ok t).
Definition modify (f : Table -> Table) : M unit := fun t => (f t, Ok tt).

Notation "x <- m ;; k" := (bind m (fun x => k))
  (at level 100, m at next level, right associativity).
Notation "m ;;; k" := (bind m (fun _ => k))
  (at level 100, right associativity).

Definition onRoom (f : Room -> Room) : M unit :=
  modify (fun t => mkTable (f (room t)) (deck t)).
Definition onPlayers (f : list Player -> list Player) : M unit :=
  onRoom (fun r => set_players (f (players r)) r).
Definition onPlayer (i : nat) (f : Player -> Player) : M unit :=
  onPlayers (alter f i).
Definition onGameState (f : GameState -> GameState) : M unit :=
  onRoom (fun r => set_gameState (f (gameState r)) r).
Definition setDeck (d : list Card) : M unit :=
  modify (fun t => mkTable (room t) d).
(** Lifting a pure fallible computation. *)
Definition lift {A : Type} (r : result A) : M A := fun t => (t, r).

Module GameManager.

(** [room.players[index]] read by a callback; out of range it is [None]. *)
Definition playerAt (r : Room) (i : nat) : option Player := players r !! i.

Definition test (r : Room) (f : Player -> bool) (i : nat) : bool :=
  match playerAt r i with
  | Some p => f p
  | None => false
  end.

(** [postBlinds] *)
Definition postBlind (index : nat) (nominal : Z) (flag : Player -> Player) : M unit :=
  t <- get ;;
  match playerAt (room t) index with
  | Some blindPlayer =>
      if isActive blindPlayer then
        let blindAmount := Z.min nominal (chips blindPlayer) in
        onPlayer index (fun p =>
          flag (set_totalBet blindAmount
                 (set_currentBet blindAmount
                   (set_chips (chips p - blindAmount) p)))) ;;;
        onGameState (fun g => set_pot (pot g + blindAmount) g)
      else ret tt
  | None => ret tt
  end.

Definition postBlinds : M unit :=
  t <- get ;;
  postBlind (smallBlindIndex (gameState (room t))) (smallBlind (settings (room t)))
            (set_isSmallBlind true) ;;;
  postBlind (bigBlindIndex (gameState (room t))) (bigBlind (settings (room t)))
            (set_isBigBlind true).

(** The reset of the players at the start of [startNewHand]. *)
Definition resetForHand (player : Player) : Player :=
  if isActive player then
    set_lastAction None
      (set_totalBet 0 (set_currentBet 0 (set_holeCards [] (set_isInHand true player))))
  else player.

(** [startNewHand]; [shuffled] is the value of [createShuffledDeck()]. *)
Definition startNewHand (shuffled : list Card) : M (list GameEvent) :=
  onPlayers (map resetForHand) ;;;
  t0 <- get ;;
  onGameState (fun g =>
    set_winners []
      (set_handNumber (S (handNumber g))
        (set_isHandActive true
          (set_minRaise (bigBlind (settings (room t0)))
            (set_tableBet (bigBlind (settings (room t0)))
              (set_pot 0 (set_communityCards [] (set_phase PreFlop g)))))))) ;;;
  setDeck shuffled ;;;
  t1 <- get ;;
  match dealHoleCards (players (room t1)) (deck t1) with
  | (ps, Err e) => onPlayers (fun _ => ps) ;;; throw e
  | (ps, Ok remainingDeck) =>
      onPlayers (fun _ => ps) ;;;
      setDeck remainingDeck ;;;
      postBlinds ;;;
      t2 <- get ;;
      match players (room t2) with
      | [] => throw UndefinedPlayer
      | _ :: _ =>
          let g := gameState (room t2) in
          onGameState (set_currentPlayerIndex
            (getNextActivePlayerIndex (bigBlindIndex g) (length (players (room t2)))
               (test (room t2) (fun p => isActive p && isInHand p)))) ;;;
          ret [HandStarted (handNumber g) (dealerIndex g)
                 (smallBlind (settings (room t2))) (bigBlind (settings (room t2)))]
      end
  end.

(** [room.players.find(p => p.id === playerId)] together with
    [room.players.indexOf(player)]: the first player with that id and its
    position. *)
Fixpoint findPlayer (ps : list Player) (pid : string) (i : nat) : option (nat * Player) :=
  match ps with
  | [] => None
  | p :: rest => if String.eqb (id p) pid then Some (i, p) else findPlayer rest pid (S i)
  end.

(** The [switch] of [processPlayerAction] on the player at position [i]. *)
Definition performAction (i : nat) (req : PlayerActionRequest) : M unit :=
  t <- get ;;
  let g := gameState (room t) in
  match playerAt (room t) i with
  | None => throw UndefinedPlayer
  | Some player =>
      match action req with
      | Fold =>
          onPlayer i (fun p => set_lastAction (Some Fold) (set_isInHand false p))
      | Check =>
          if tableBet g >? currentBet player then throw CannotCheck
          else onPlayer i (set_lastAction (Some Check))
      | Call =>
          let callAmount := tableBet g - currentBet player in
          if callAmount >? chips player then throw InsufficientChipsToCall
          else
            onPlayer i (fun p =>
              set_totalBet (totalBet p + callAmount)
                (set_currentBet (currentBet p + callAmount)
                  (set_chips (chips p - callAmount) p))) ;;;
            onGameState (fun g => set_pot (pot g + callAmount) g) ;;;
            onPlayer i (set_lastAction (Some Call))
      | Raise =>
          match amount req with
          | None => throw (MinimumRaiseIs (minRaise g))
          | Some amt =>
              if (amt =? 0) || (amt <? minRaise g)
              then throw (MinimumRaiseIs (minRaise g))
              else
                let totalBet' := tableBet g + amt in
                let additionalBet := totalBet' - currentBet player in
                if additionalBet >? chips player then throw InsufficientChipsToRaise
                else
                  onPlayer i (fun p =>
                    set_totalBet (totalBet p + additionalBet)
                      (set_currentBet totalBet'
                        (set_chips (chips p - additionalBet) p))) ;;;
                  onGameState (fun g =>
                    set_minRaise amt
                      (set_tableBet totalBet' (set_pot (pot g + additionalBet) g))) ;;;
                  onPlayer i (set_lastAction (Some Raise))
          end
      | AllIn =>
          let allInAmount := chips player in
          let newBet := currentBet player + allInAmount in
          onPlayer i (fun p =>
            set_totalBet (totalBet p + allInAmount)
              (set_currentBet (currentBet p + allInAmount) (set_chips 0 p))) ;;;
          onGameState (fun g => set_pot (pot g + allInAmount) g) ;;;
          (if newBet >? tableBet g then
             let raiseAmount := newBet - tableBet g in
             onGameState (fun g =>
               set_minRaise (Z.max (minRaise g) raiseAmount) (set_tableBet newBet g))
           else ret tt) ;;;
          onPlayer i (set_lastAction (Some AllIn))
      end
  end.

(** The [for] loop of [shouldAdvanceHand] over the players in the hand. *)
Fixpoint allActed (tableBet' : Z) (activePlayers : list Player) : bool :=
  match activePlayers with
  | [] => true
  | player :: rest =>
      if (chips player >? 0) &&
         (match lastAction player with None => true | Some _ => false end
          || (currentBet player <? tableBet'))
      then false
      else allActed tableBet' rest
  end.

Definition shouldAdvanceHand (r : Room) : bool :=
  let activePlayers := List.filter isInHand (players r) in
  if (length activePlayers <=? 1)%nat then true else
  let playersWithChips := List.filter (fun p => chips p >? 0) activePlayers in
  if (length playersWithChips <=? 1)%nat then true else
  allActed (tableBet (gameState r)) activePlayers.

(** [processShowdown] *)
Definition processShowdown : M (list GameEvent) :=
  t <- get ;;
  r <- lift (determineWinners (players (room t)) (communityCards (gameState (room t)))) ;;
  let '(winnerIndexes, bestHand) := r in
  let winnerIds :=
    omap (fun i => id <$> playerAt (room t) i) winnerIndexes in
  onGameState (set_winners winnerIds) ;;;
  let '(ps, remainingPot) :=
    distributePot (pot (gameState (room t))) winnerIndexes (players (room t)) in
  onPlayers (fun _ => ps) ;;;
  onGameState (set_pot remainingPot) ;;;
  onGameState (fun g => set_isHandActive false (set_phase HandComplete g)) ;;;
  ret [WinnerDetermined winnerIds bestHand remainingPot;
       HandEnded (handNumber (gameState (room t)))].

(** The dealing of one street in [advanceHand]: the phase is written
    first, then the cards are dealt with a burn. *)
Definition dealStreet (next : GamePhase) (count : nat) : M (list GameEvent) :=
  onGameState (set_phase next) ;;;
  t <- get ;;
  r <- lift (dealCommunityCards (deck t) count true) ;;
  let '(dealt, remainingDeck) := r in
  onGameState (fun g => set_communityCards (communityCards g ++ dealt) g) ;;;
  setDeck remainingDeck ;;;
  ret [CardsDealt next dealt].

Definition isShowdown (p : GamePhase) : bool :=
  match p with Showdown => true | _ => false end.

(** The end of [advanceHand], after the [switch]: unless the phase is the
    showdown, the first player after the dealer who is active, in the hand
    and has chips is to act. *)
Definition setNextActor (events : list GameEvent) : M (list GameEvent) :=
  t <- get ;;
  let g := gameState (room t) in
  if negb (isShowdown (phase g)) then
    let next :=
      getNextActivePlayerIndex (dealerIndex g) (length (players (room t)))
        (test (room t) (fun p => isActive p && isInHand p && (chips p >? 0))) in
    onGameState (set_currentPlayerIndex next) ;;;
    ret (events ++ [PhaseChanged (phase g) next])
  else ret events.

(** [advanceHand] *)
Definition advanceHand : M (list GameEvent) :=
  onPlayers (map (fun player =>
    if isInHand player then set_lastAction None player else player)) ;;;
  t0 <- get ;;
  onGameState (fun g => set_minRaise (bigBlind (settings (room t0))) (set_tableBet 0 g)) ;;;
  match phase (gameState (room t0)) with
  | PreFlop => events <- dealStreet Flop 3 ;; setNextActor events
  | Flop => events <- dealStreet Turn 1 ;; setNextActor events
  | Turn => events <- dealStreet River 1 ;; setNextActor events
  | River => onGameState (set_phase Showdown) ;;; processShowdown
  | _ => setNextActor []
  end.

(** [processPlayerAction] *)
Definition processPlayerAction (req : PlayerActionRequest) : M (list GameEvent) :=
  t <- get ;;
  match findPlayer (players (room t)) (playerId req) 0 with
  | None => throw InvalidPlayerOrTurn
  | Some (i, player) =>
      if negb (isInHand player)
         || negb (currentPlayerIndex (gameState (room t)) =? i)%nat
      then throw InvalidPlayerOrTurn
      else
        let beforeChips := chips player in
        performAction i req ;;;
        t1 <- get ;;
        let chipsNow := match playerAt (room t1) i with
                        | Some p => chips p | None => beforeChips end in
        let event := PlayerActed (id player) (action req) (amount req)
                       (beforeChips - chipsNow) (pot (gameState (room t1))) in
        if shouldAdvanceHand (room t1) then
          events <- advanceHand ;; ret (event :: events)
        else
          let g := gameState (room t1) in
          onGameState (set_currentPlayerIndex
            (getNextActivePlayerIndex (currentPlayerIndex g)
               (length (players (room t1)))
               (test (room t1) (fun p => isActive p && isInHand p)))) ;;;
          ret [event]
  end.

(** [prepareNextHand] *)
Definition prepareNextHand : M unit :=
  t <- get ;;
  let r := room t in
  match players r with
  | [] => throw UndefinedPlayer
  | _ :: _ =>
      let n := length (players r) in
      let active := test r isActive in
      let activeCount := length (List.filter isActive (players r)) in
      let dealer := getNextActivePlayerIndex (dealerIndex (gameState r)) n active in
      let small :=
        if (activeCount =? 2)%nat then dealer
        else getNextActivePlayerIndex dealer n active in
      let big :=
        if (activeCount =? 2)%nat then getNextActivePlayerIndex dealer n active
        else getNextActivePlayerIndex small n active in
      onGameState (fun g =>
        set_bigBlindIndex big (set_smallBlindIndex small (set_dealerIndex dealer g))) ;;;
      onPlayers (map (fun player =>
        set_isInHand (isActive player)
          (set_holeCards []
            (set_lastAction None
              (set_totalBet 0
                (set_currentBet 0
                  (set_isBigBlind false
                    (set_isSmallBlind false (set_isDealer false player))))))))) ;;;
      onPlayer dealer (set_isDealer true)
  end.

(** [getValidActions] *)
Definition getValidActions (r : Room) : list PlayerAction :=
  match playerAt r (currentPlayerIndex (gameState r)) with
  | None => []
  | Some currentPlayer =>
      PokerEngine.getValidActions currentPlayer (tableBet (gameState r))
  end.

End GameManager.

Import GameManager.

(** ** The side-pot helper of the Swift client ([PokerEngine.swift])

    Only the fields [calculateSidePots] reads are kept.  [Set<String>] is a
    [gset string]; [Array(remainingPlayers)] enumerates it in an unspecified
    order, so the eligible players stay a set.  [sorted(by:)] is modelled by
    the stable sort. *)

Module SwiftEngine.

Record SwiftPlayer : Type := mkSwiftPlayer {
  sid : string;
  totalBetThisRound : Z;
  sIsAllIn : bool
}.

Record SidePotLoop : Type := mkSidePotLoop {
  sidePots : list (Z * gset string);
  previousBet : Z;
  remainingPlayers : gset string
}.

Definition sidePotStep (st : SidePotLoop) (player : SwiftPlayer) : SidePotLoop :=
  let potContribution := totalBetThisRound player - previousBet st in
  let pots :=
    if potContribution >? 0
    then sidePots st ++
         [(potContribution * Z.of_nat (size (remainingPlayers st)), remainingPlayers st)]
    else sidePots st in
  let remaining :=
    if sIsAllIn player then remainingPlayers st ∖ {[ sid player ]}
    else remainingPlayers st in
  mkSidePotLoop pots (totalBetThisRound player) remaining.

Definition calculateSidePots (ps : list SwiftPlayer) : list (Z * gset string) :=
  let sortedPlayers :=
    js_sort (fun a b => totalBetThisRound a - totalBetThisRound b)
            (List.filter (fun p => totalBetThisRound p >? 0) ps) in
  sidePots (fold_left sidePotStep sortedPlayers
              (mkSidePotLoop [] 0 (list_to_set (map sid sortedPlayers)))).

End SwiftEngine.

(** ** Quantities and predicates of the specification *)

(** The sum of the players' stacks. *)
Definition sumChips (ps : list Player) : Z :=
  foldr (fun p acc => chips p + acc) 0 ps.

Definition sumTotalBet (ps : list Player) : Z :=
  foldr (fun p acc => totalBet p + acc) 0 ps.

(** All the chips on the table: the stacks and the pot (the backend keeps
    no side pots). *)
Definition chipsInPlay (t : Table) : Z :=
  sumChips (players (room t)) + pot (gameState (room t)).

(** A hand as the socket handler starts it: [prepareNextHand] (through
    [initializeGame]), then [startNewHand] with the shuffled deck, then the
    action requests in the order they arrive.  A request that throws leaves
    the table as the engine left it. *)
Definition beginHand (shuffled : list Card) (t : Table) : Table :=
  fst (startNewHand shuffled (fst (prepareNextHand t))).

Definition playHand (shuffled : list Card) (reqs : list PlayerActionRequest)
    (t : Table) : Table :=
  fold_left (fun t req => fst (processPlayerAction req t)) reqs (beginHand shuffled t).

(** The rooms the room layer hands to the engine: no negative stack and no
    negative blind. *)
Definition sane (r : Room) : Prop :=
  Forall (fun p => 0 <= chips p) (players r) /\
  0 <= smallBlind (settings r) /\ 0 <= bigBlind (settings r).

Definition isComplete (p : GamePhase) : bool :=
  match p with HandComplete => true | _ => false end.

(** The invariant of a hand: no negative stack, bet or blind, a total
    contribution covers the current bet, and until the pot is awarded it
    holds at least the total contributions. *)
Definition handInvariant (r : Room) : Prop :=
  Forall (fun p => 0 <= chips p /\ 0 <= currentBet p <= totalBet p) (players r) /\
  0 <= bigBlind (settings r) /\
  0 <= tableBet (gameState r) /\
  0 <= minRaise (gameState r) /\
  (isComplete (phase (gameState r)) = false ->
     sumTotalBet (players r) <= pot (gameState r)).

(** The chips [distributePot] hands to [n] winners, the first of them
    being the [i]-th. *)
Fixpoint awarded (sharePerWinner remainder : Z) (i : Z) (n : nat) : Z :=
  match n with
  | O => 0
  | S n' =>
      (sharePerWinner + (if i <? remainder then 1 else 0))
      + awarded sharePerWinner remainder (i + 1) n'
  end.

(** Round completion in the words of the specification: (a) at most one
    player can still act, or (b) every player in the hand with chips has
    acted and has a bet equal to the table's. *)
Definition specRoundComplete (r : Room) : bool :=
  let canAct := List.filter (fun p => isInHand p && (chips p >? 0)) (players r) in
  (length canAct <=? 1)%nat
  || forallb (fun p =>
       match lastAction p with
       | Some _ => currentBet p =? tableBet (gameState r)
       | None => false
       end) canAct.

(** Round completion as the engine decides it: as above, with a bet not
    below the table's. *)
Definition engineRoundComplete (r : Room) : bool :=
  let canAct := List.filter (fun p => isInHand p && (chips p >? 0)) (players r) in
  (length canAct <=? 1)%nat
  || forallb (fun p =>
       match lastAction p with
       | Some _ => tableBet (gameState r) <=? currentBet p
       | None => false
       end) canAct.

(** The requests [processPlayerAction] refuses. *)
Inductive ValidationFailure (t : Table) (req : PlayerActionRequest) : Error -> Prop :=
| UnknownPlayer :
    findPlayer (players (room t)) (playerId req) 0 = None ->
    ValidationFailure t req InvalidPlayerOrTurn
| NotInHand i p :
    findPlayer (players (room t)) (playerId req) 0 = Some (i, p) ->
    isInHand p = false ->
    ValidationFailure t req InvalidPlayerOrTurn
| NotTheirTurn i p :
    findPlayer (players (room t)) (playerId req) 0 = Some (i, p) ->
    currentPlayerIndex (gameState (room t)) <> i ->
    ValidationFailure t req InvalidPlayerOrTurn
| CheckIntoBet i p :
    findPlayer (players (room t)) (playerId req) 0 = Some (i, p) ->
    isInHand p = true -> currentPlayerIndex (gameState (room t)) = i ->
    action req = Check ->
    currentBet p < tableBet (gameState (room t)) ->
    ValidationFailure t req CannotCheck
| CallNotCovered i p :
    findPlayer (players (room t)) (playerId req) 0 = Some (i, p) ->
    isInHand p = true -> currentPlayerIndex (gameState (room t)) = i ->
    action req = Call ->
    chips p < tableBet (gameState (room t)) - currentBet p ->
    ValidationFailure t req InsufficientChipsToCall
| RaiseWithoutAmount i p :
    findPlayer (players (room t)) (playerId req) 0 = Some (i, p) ->
    isInHand p = true -> currentPlayerIndex (gameState (room t)) = i ->
    action req = Raise ->
    amount req = None ->
    ValidationFailure t req (MinimumRaiseIs (minRaise (gameState (room t))))
| RaiseZeroAmount i p :
    findPlayer (players (room t)) (playerId req) 0 = Some (i, p) ->
    isInHand p = true -> currentPlayerIndex (gameState (room t)) = i ->
    action req = Raise ->
    amount req = Some 0 ->
    ValidationFailure t req (MinimumRaiseIs (minRaise (gameState (room t))))
| RaiseBelowMinimum i p amt :
    findPlayer (players (room t)) (playerId req) 0 = Some (i, p) ->
    isInHand p = true -> currentPlayerIndex (gameState (room t)) = i ->
    action req = Raise ->
    amount req = Some amt ->
    amt < minRaise (gameState (room t)) ->
    ValidationFailure t req (MinimumRaiseIs (minRaise (gameState (room t))))
| RaiseNotCovered i p amt :
    findPlayer (players (room t)) (playerId req) 0 = Some (i, p) ->
    isInHand p = true -> currentPlayerIndex (gameState (room t)) = i ->
    action req = Raise ->
    amount req = Some amt ->
    minRaise (gameState (room t)) <= amt -> amt <> 0 ->
    chips p < tableBet (gameState (room t)) + amt - currentBet p ->
    ValidationFailure t req InsufficientChipsToRaise.

(** ** Tables and decks of the worked scenarios *)

Module Scenario.

(** A player as the room layer creates it. *)
Definition seat (name : string) (stack : Z) : Player :=
  mkPlayer name stack [] true false 0 0 None false false false false false.

(** The game state of a new room, with the dealer button at [dealer]. *)
Definition newGameState (dealer : nat) : GameState :=
  mkGameState Waiting [] 0 0 dealer 0 0 0 20 false 0 [].

Definition defaultSettings : GameSettings := mkGameSettings 10 20 1000 8 2.

Definition newTable (ps : list Player) (dealer : nat) : Table :=
  mkTable (mkRoom ps (newGameState dealer) defaultSettings) [].

Definition card_eqb (a b : Card) : bool :=
  (rk a =? rk b) && suit_eqb (suit a) (suit b).

(** A deck with the cards [top] on top, followed by the other cards of
    [createDeck] in their order. *)
Definition stacked (top : list Card) : list Card :=
  top ++ List.filter (fun c => negb (existsb (card_eqb c) top)) createDeck.

Definition say (who : string) (a : PlayerAction) : PlayerActionRequest :=
  mkRequest who a None.

(** Three players at unequal stacks.  After [prepareNextHand] the button is
    on "B", "C" posts the small blind and "A" the big blind.  "A" is dealt
    a pair of aces, "C" a pair of kings, "B" a deuce and a seven; the board
    is 2-3-8-J-9. *)
Definition sidePotTable : Table :=
  newTable [seat "B" 150; seat "C" 500; seat "A" 50] 2.

Definition sidePotDeck : list Card :=
  stacked [mkCard Two Clubs; mkCard King Spades; mkCard Ace Spades;
           mkCard Seven Diamonds; mkCard King Hearts; mkCard Ace Hearts;
           mkCard Four Hearts;
           mkCard Two Spades; mkCard Three Clubs; mkCard Eight Diamonds;
           mkCard Four Spades;
           mkCard Jack Hearts;
           mkCard Four Diamonds;
           mkCard Nine Clubs].

(** "B" is all-in for 150, "C" calls 150, "A" is all-in for 50. *)
Definition sidePotBetting : list PlayerActionRequest :=
  [say "B" AllIn; say "C" Call; say "A" AllIn].

(** The checks of "C" that the engine needs to move on to the showdown. *)
Definition sidePotHand : list PlayerActionRequest :=
  sidePotBetting ++ [say "C" Check; say "C" Check; say "C" Check].

Definition sidePotBeforeShowdown : Table :=
  playHand sidePotDeck sidePotBetting sidePotTable.
Definition sidePotAfterShowdown : Table :=
  playHand sidePotDeck sidePotHand sidePotTable.

(** The seven cards of the player at position [i]. *)
Definition sevenCards (t : Table) (i : nat) : list Card :=
  match playerAt (room t) i with
  | Some p => holeCards p ++ communityCards (gameState (room t))
  | None => []
  end.

(** The same hand as the Swift helper sees it at showdown. *)
Definition sidePotSwift : list SwiftEngine.SwiftPlayer :=
  [SwiftEngine.mkSwiftPlayer "B" 150 true;
   SwiftEngine.mkSwiftPlayer "C" 150 false;
   SwiftEngine.mkSwiftPlayer "A" 50 true].

(** Heads-up at 100 chips each; the button "P0" posts the small blind. *)
Definition headsUpTable : Table :=
  newTable [seat "P0" 100; seat "P1" 100] 1.

(** The button moves all-in before the flop. *)
Definition headsUpAllIn : Table :=
  playHand createDeck [say "P0" AllIn] headsUpTable.

(** Heads-up, the big blind "P1" has 50 chips. *)
Definition shortCallTable : Table :=
  newTable [seat "P0" 1000; seat "P1" 50] 1.

(** "P0" raises by 40 to 60; "P1" would have to pay 40 and has 30. *)
Definition shortCallState : Table :=
  playHand createDeck [mkRequest "P0" Raise (Some 40)] shortCallTable.

(** Heads-up, the small blind "P0" has 5 chips. *)
Definition shortBlindTable : Table :=
  newTable [seat "P0" 5; seat "P1" 100] 1.

(** The short-blind table after [prepareNextHand] and [startNewHand]. *)
Definition beginHand_short : Table := beginHand createDeck shortBlindTable.

(** Three players at 1000 chips: everybody pays 20 before the flop, then
    "P1" and "P2" check the flop and "P0" checks last. *)
Definition threeHandedTable : Table :=
  newTable [seat "P0" 1000; seat "P1" 1000; seat "P2" 1000] 2.

Definition flopCheckedTwice : Table :=
  playHand createDeck
    [say "P0" Call; say "P1" Call; say "P2" Check; say "P1" Check; say "P2" Check]
    threeHandedTable.

(** The table at the moment [shouldAdvanceHand] is asked, after the third
    check of the flop. *)
Definition flopCheckedAround : Table :=
  fst (performAction 0 (say "P0" Check) flopCheckedTwice).

End Scenario.

(** ** Card sets of the literal evaluator cases *)

Module Cards.

(** 2C 2D 2H 5S 5D 9C 9H *)
Definition deucesAndTwoPairs : list Card :=
  [mkCard Two Clubs; mkCard Two Diamonds; mkCard Two Hearts;
   mkCard Five Spades; mkCard Five Diamonds;
   mkCard Nine Clubs; mkCard Nine Hearts].

(** AS 2H 3D 4C 5S 9H 10D *)
Definition wheelCards : list Card :=
  [mkCard Ace Spades; mkCard Two Hearts; mkCard Three Diamonds;
   mkCard Four Clubs; mkCard Five Spades; mkCard Nine Hearts;
   mkCard Ten Diamonds].

(** 2-3-4-5-6 in the given suits. *)
Definition sixHigh (s2 s3 s4 s5 s6 : CardSuit) : list Card :=
  [mkCard Two s2; mkCard Three s3; mkCard Four s4; mkCard Five s5; mkCard Six s6].

(** Deuces full of aces, and treys full of fours. *)
Definition deucesFullOfAces : list Card :=
  [mkCard Two Clubs; mkCard Two Diamonds; mkCard Two Hearts;
   mkCard Ace Spades; mkCard Ace Diamonds].
Definition treysFullOfFours : list Card :=
  [mkCard Three Clubs; mkCard Three Diamonds; mkCard Three Hearts;
   mkCard Four Spades; mkCard Four Diamonds].

(** The ranks a hand is compared by: [cards] then [kickers]. *)
Definition rankedCards (h : Hand) : list Z := map rk (cards h ++ kickers h).

(** Four cards, and eight cards: a seven-card hand with one card more. *)
Definition fourCards : list Card :=
  [mkCard Ace Spades; mkCard King Spades; mkCard Queen Spades; mkCard Jack Spades].
Definition eightCards : list Card := mkCard Six Clubs :: wheelCards.

End Cards.

(** ** Auxiliary quantities of the proofs *)

Definition sumZ (l : list Z) : Z := foldr Z.add 0 l.

(** [Object.keys(rankCounts).map(Number)] and [Object.values(rankCounts)]. *)
Definition keysOf (m : RankCounts) : list Z := map fst m.
Definition valuesOf (m : RankCounts) : list Z := map snd m.

(** [cards.filter(card => card.rank === rank)] *)
Definition cardsOfRank (cs : list Card) (r : Z) : list Card :=
  List.filter (fun c => rk c =? r) cs.

(** Two records of one player that differ at most in the hole cards. *)
Definition sameButCards (p p' : Player) : Prop :=
  p' = set_holeCards (holeCards p') p.

(** The player that posted a blind of [amount]. *)
Definition afterBlind (amount : Z) (flag : Player -> Player) (p : Player) : Player :=
  flag (set_totalBet amount (set_currentBet amount (set_chips (chips p - amount) p))).

(** A player that can still act: in the hand, with chips. *)
Definition canAct (p : Player) : bool := isInHand p && (chips p >? 0).

(** [t'] differs from [t] in nothing that counts chips: the stacks, the
    contributions and the pot add up as before, the settings are the same
    and the bounds on the players carry over. *)
Definition steady (t t' : Table) : Prop :=
  sumChips (players (room t')) = sumChips (players (room t)) /\
  sumTotalBet (players (room t')) = sumTotalBet (players (room t)) /\
  (Forall (fun p => 0 <= chips p /\ 0 <= currentBet p <= totalBet p)
          (players (room t)) ->
   Forall (fun p => 0 <= chips p /\ 0 <= currentBet p <= totalBet p)
          (players (room t'))) /\
  pot (gameState (room t')) = pot (gameState (room t)) /\
  settings (room t') = settings (room t).

(** [steady], and the table's bet and the minimum raise are the same. *)
Definition quiet (t t' : Table) : Prop :=
  steady t t' /\
  tableBet (gameState (room t')) = tableBet (gameState (room t)) /\
  minRaise (gameState (room t')) = minRaise (gameState (room t)).

(** The table after the reset that opens [advanceHand]. *)
Definition afterReset (t : Table) : Table :=
  mkTable
    (mkRoom (map (fun player => if isInHand player
                                then set_lastAction None player
                                else player) (players (room t)))
            (set_minRaise (bigBlind (settings (room t)))
               (set_tableBet 0 (gameState (room t))))
            (settings (room t)))
    (deck t).

(** The table on which [startNewHand] deals: the players and the game
    state reset, the shuffled deck in place. *)
Definition afterHandReset (shuffled : list Card) (t : Table) : Table :=
  mkTable
    (mkRoom (map resetForHand (players (room t)))
       (set_winners []
          (set_handNumber (S (handNumber (gameState (room t))))
             (set_isHandActive true
                (set_minRaise (bigBlind (settings (room t)))
                   (set_tableBet (bigBlind (settings (room t)))
                      (set_pot 0
                         (set_communityCards []
                            (set_phase PreFlop (gameState (room t))))))))))
       (settings (room t)))
    shuffled.

(** The players as a hand finds them after [prepareNextHand]. *)
Definition unbet (p : Player) : Prop :=
  0 <= chips p /\ currentBet p = 0 /\ totalBet p = 0.

(** A goal about a table in which one player and the game state were
    rewritten is reduced by [lem] to the conditions on that player. *)
Ltac rewritten_player lem Hinv Hp :=
  match goal with
  | |- handInvariant (mkRoom (alter ?F ?i _) ?G _) /\ _ =>
      apply (lem _ i _ F G Hinv Hp)
  end.

(** ** Sequences of requests and the order of the phases *)

(** The requests served one after the other; a request that throws leaves
    the table as the engine left it. *)
Definition handleRequests (reqs : list PlayerActionRequest) (t : Table) : Table :=
  fold_left (fun t req => fst (processPlayerAction req t)) reqs t.

(** The phases one call of [processPlayerAction] can leave a hand in. *)
Definition nextPhases (p : GamePhase) : list GamePhase :=
  match p with
  | PreFlop => [PreFlop; Flop]
  | Flop => [Flop; Turn]
  | Turn => [Turn; River]
  | River => [River; Showdown; HandComplete]
  | Waiting => [Waiting]
  | Showdown => [Showdown]
  | HandComplete => [HandComplete]
  end.

(** The position of a phase in the order of [GamePhase]. *)
Definition phaseIndex (p : GamePhase) : nat :=
  match p with
  | Waiting => 0 | PreFlop => 1 | Flop => 2 | Turn => 3 | River => 4
  | Showdown => 5 | HandComplete => 6
  end.

(** The table after [processShowdown] found the winners. *)
Definition afterShowdown (winnerIndexes : list nat) (t : Table) : Table :=
  let g := gameState (room t) in
  let winnerIds := omap (fun i => id <$> playerAt (room t) i) winnerIndexes in
  let '(ps, remainingPot) := distributePot (pot g) winnerIndexes (players (room t)) in
  mkTable
    (mkRoom ps
       (set_isHandActive false
          (set_phase HandComplete (set_pot remainingPot (set_winners winnerIds g))))
       (settings (room t)))
    (deck t).

(** The table with another player to act. *)
Definition withActor (next : nat) (t : Table) : Table :=
  mkTable
    (mkRoom (players (room t)) (set_currentPlayerIndex next (gameState (room t)))
            (settings (room t)))
    (deck t).

(** The table after [dealStreet] wrote the phase and, when the deck holds
    enough cards, dealt. *)
Definition afterStreet (next : GamePhase) (count : nat) (t : Table) : Table :=
  let g := gameState (room t) in
  match dealCommunityCards (deck t) count true with
  | Ok (dealt, remainingDeck) =>
      mkTable
        (mkRoom (players (room t))
           (set_communityCards (communityCards g ++ dealt) (set_phase next g))
           (settings (room t)))
        remainingDeck
  | Err _ =>
      mkTable (mkRoom (players (room t)) (set_phase next g) (settings (room t)))
              (deck t)
  end.

(** The cards the players hold, seat by seat. *)
Definition cardsHeld (ps : list Player) : list Card := flat_map holeCards ps.

(** The cards that are out: in the players' hands and on the board. *)
Definition cardsOut (t : Table) : list Card :=
  cardsHeld (players (room t)) ++ communityCards (gameState (room t)).

(** The players [dealHoleCards] deals to. *)
Definition dealtIn (p : Player) : bool := isActive p && isInHand p.

(** The number of players before seat [i] that are dealt to. *)
Definition dealtBefore (ps : list Player) (i : nat) : nat :=
  length (List.filter dealtIn (take i ps)).

(** All the cards the table keeps track of: those that are out and the
    rest of the deck. *)
Definition stock (t : Table) : list Card := cardsOut t ++ deck t.

(** The number of ways to choose [k] elements out of [n]. *)
Fixpoint binomial (n k : nat) : nat :=
  match n, k with
  | _, O => 1
  | O, S _ => 0
  | S n', S k' => binomial n' k' + binomial n' k
  end.

(** What [compareHands] reads of a hand: the category and the ranks of
    [cards] and of [kickers]. *)
Definition handKey (h : Hand) : HandRank * list Z * list Z :=
  (handRank h, map rk (cards h), map rk (kickers h)).

(** The comparator of [arrangeWheelStraight] on ranks. *)
Definition wheelOrderOfRanks (a b : Z) : Z :=
  if a =? rankValue Ace then 1
  else if b =? rankValue Ace then -1
  else b - a.

(** ** The categories of poker, by the rules

    A five-card hand is classified by how often each rank occurs in it and
    by whether its cards are all of one suit. *)

(** The values of the thirteen ranks. *)
Definition rankValues : list Z := map rankValue allRanks.

Section Category.
(** [occurs r]: the number of cards of rank [r]; [flush]: one suit. *)
Variable occurs : Z -> nat.
Variable flush : bool.

(** Some rank occurs [k] times. *)
Definition someRank (k : nat) : bool :=
  existsb (fun r => (occurs r =? k)%nat) rankValues.

(** The number of ranks that occur exactly twice. *)
Definition pairsHeld : nat :=
  length (List.filter (fun r => (occurs r =? 2)%nat) rankValues).

(** The five ranks from [low] upwards occur once each. *)
Definition runFrom (low : Z) : bool :=
  forallb (fun d => (occurs (low + d) =? 1)%nat) [0; 1; 2; 3; 4].

(** Five consecutive ranks, from 2-3-4-5-6 up to 10-J-Q-K-A. *)
Definition consecutiveRanks : bool :=
  existsb runFrom [2; 3; 4; 5; 6; 7; 8; 9; 10].

(** A-2-3-4-5 *)
Definition wheelOccurs : bool :=
  forallb (fun r => (occurs r =? 1)%nat) [14; 2; 3; 4; 5].

Definition categoryByRules : HandRank :=
  if flush && runFrom 10 then RoyalFlush
  else if flush && (consecutiveRanks || wheelOccurs) then StraightFlush
  else if someRank 4 then FourOfAKind
  else if someRank 3 && someRank 2 then FullHouse
  else if flush then Flush
  else if consecutiveRanks || wheelOccurs then Straight
  else if someRank 3 then ThreeOfAKind
  else if (pairsHeld =? 2)%nat then TwoPair
  else if someRank 2 then Pair
  else HighCard.
End Category.

(** The category of five cards by the rules. *)
Definition standardCategory (cs : list Card) : HandRank :=
  categoryByRules (fun r => length (cardsOfRank cs r)) (allSameSuit (map suit cs)).

(** The ranks from the Ace down. *)
Definition ranksDescending : list CardRank := rev allRanks.

(** The lists of [n] ranks taken from [avail] in its order, with
    repetition. *)
Fixpoint descendingLists (n : nat) (avail : list CardRank) : list (list CardRank) :=
  match n with
  | O => [[]]
  | S n' =>
      (fix from (avail : list CardRank) : list (list CardRank) :=
         match avail with
         | [] => []
         | r :: rest => map (cons r) (descendingLists n' (r :: rest)) ++ from rest
         end) avail
  end.

(** Five cards of the given ranks, of one suit or not. *)
Definition handOfRanks (ranks : list CardRank) (flush : bool) : list Card :=
  match ranks with
  | [] => []
  | r :: rest =>
      mkCard r (if flush then Hearts else Spades)
      :: map (fun r => mkCard r Hearts) rest
  end.

(** [evaluateExactHand] classifies [handOfRanks ranks flush] by the
    rules. *)
Definition classifiedByRules (ranks : list CardRank) (flush : bool) : bool :=
  let cs := handOfRanks ranks flush in
  Bool.eqb (allSameSuit (map suit cs)) flush &&
  match evaluateExactHand cs with
  | Ok h => handRankValue (handRank h) =? handRankValue (standardCategory cs)
  | Err _ => false
  end.

(** ** Shuffling ([helpers.ts], [PokerEngine.createShuffledDeck])

    [pick k n] stands for the value of [Math.floor(Math.random() * n)] at
    the [k]-th call of [Math.random], which is below [n] since
    [Math.random()] is below 1.  With both indexes inside the array the
    destructuring assignment exchanges two elements; an index outside it,
    which [Math.random] excludes, is not modelled ([None]). *)

Section Shuffle.
Context {T : Type}.
Variable pick : nat -> nat -> nat.

(** [[shuffled[i], shuffled[j]] = [shuffled[j], shuffled[i]]] *)
Definition exchange (i j : nat) (shuffled : list T) : option (list T) :=
  match shuffled !! i, shuffled !! j with
  | Some a, Some b => Some (<[j := a]> (<[i := b]> shuffled))
  | _, _ => None
  end.

(** The loop [for (let i = ...; i > 0; i--)], at the [call]-th call of
    [Math.random]. *)
Fixpoint shuffleLoop (call i : nat) (shuffled : list T) : option (list T) :=
  match i with
  | O => Some shuffled
  | S i' =>
      match exchange i (pick call (i + 1)) shuffled with
      | Some shuffled' => shuffleLoop (S call) i' shuffled'
      | None => None
      end
  end.

Definition shuffle (array : list T) : option (list T) :=
  shuffleLoop 0 (length array - 1) array.
End Shuffle.

Definition createShuffledDeck (pick : nat -> nat -> nat) : option (list Card) :=
  shuffle pick createDeck.

(** ** The straight finder and the bet check of the Swift client
    ([PokerEngine.swift])

    A card has a suit and a rank, an [Int].  [Set] is a [gset]; the array
    made of it has its elements in an unspecified order and is sorted
    next.  A Swift runtime trap is [None].  In [findStraight] the range
    [0...(uniqueRanks.count - 5)] traps when the count is below 5; with a
    count of 5 or more the subscripts [i + j] are inside the array, and
    [uniqueRanks[i] - j] cannot overflow, four smaller ranks following
    [uniqueRanks[i]]. *)

Module SwiftCards.

Record SwiftCard : Type := mkSwiftCard {
  cardSuit : string;
  cardRank : Z
}.

(** [cards.first { $0.rank == rank }] *)
Definition firstOfRank (cards : list SwiftCard) (rank : Z) : option SwiftCard :=
  List.find (fun c => cardRank c =? rank) cards.

(** The inner loop over [j in 1..<5] at [i]. *)
Definition isStraightAt (uniqueRanks : list Z) (i : nat) : bool :=
  forallb (fun j => nth (i + j) uniqueRanks 0 =? nth i uniqueRanks 0 - Z.of_nat j)
          [1; 2; 3; 4]%nat.

Definition wheelRanks : list Z := [14; 2; 3; 4; 5].

Definition findStraight (cards : list SwiftCard) : option (list SwiftCard) :=
  let uniqueRanks :=
    js_sort descending (elements (list_to_set (map cardRank cards) : gset Z)) in
  if (length uniqueRanks <? 5)%nat then None
  else
    match List.find (isStraightAt uniqueRanks) (seq 0 (length uniqueRanks - 5 + 1)) with
    | Some i =>
        let straightRanks := take 5 (drop i uniqueRanks) in
        Some (omap (firstOfRank cards) straightRanks)
    | None =>
        if forallb (fun rank => existsb (Z.eqb rank) uniqueRanks) wheelRanks
        then Some (omap (firstOfRank cards) wheelRanks)
        else Some []
    end.

(** The least and the greatest [Int]. *)
Definition intMin : Z := - 2 ^ 63.
Definition intMax : Z := 2 ^ 63 - 1.

(** [a - b] and [a + b] on [Int], which trap on overflow. *)
Definition intSub (a b : Z) : option Z :=
  let r := a - b in
  if (intMin <=? r) && (r <=? intMax) then Some r else None.

Definition intAdd (a b : Z) : option Z :=
  let r := a + b in
  if (intMin <=? r) && (r <=? intMax) then Some r else None.

(** The fields of [Player] the bet check reads. *)
Record Bettor : Type := mkBettor {
  bettorChips : Z;
  bettorCurrentBet : Z
}.

Definition calculateCallAmount (player : Bettor) (currentBet : Z) : option Z :=
  match intSub currentBet (bettorCurrentBet player) with
  | Some d => Some (Z.max 0 d)
  | None => None
  end.

Definition canPlayerRaise (player : Bettor) (currentBet minRaise : Z) : option bool :=
  match calculateCallAmount player currentBet with
  | Some callAmount =>
      match intAdd callAmount minRaise with
      | Some least => Some (bettorChips player >? least)
      | None => None
      end
  | None => None
  end.

Definition isValidBet (amount : Z) (player : Bettor) (currentBet minRaise : Z)
  : option bool :=
  match calculateCallAmount player currentBet with
  | Some callAmount =>
      if amount =? callAmount then Some (amount <=? bettorChips player)
      else
        match intAdd callAmount minRaise with
        | Some least =>
            if amount >=? least then Some (amount <=? bettorChips player)
            else Some (amount =? bettorChips player)
        | None => None
        end
  | None => None
  end.

End SwiftCards.

(** ** Room codes ([helpers.ts])

    A code is a string of the characters of [roomCodeChars], which are
    ASCII; [pick k n] is [Math.floor(Math.random() * n)] at the [k]-th call
    of [Math.random], as for [shuffle]. *)

Definition roomCodeChars : string := "ABCDEFGHIJKLMNOPQRSTUVWXYZ0123456789".

(** [s.charAt(i)]: the empty string outside the string. *)
Definition charAt (s : string) (i : nat) : string :=
  match String.get i s with
  | Some c => String c EmptyString
  | None => EmptyString
  end.

(** The loop of [generateRoomCode] with [count] rounds to go. *)
Fixpoint generateRoomCodeLoop (pick : nat -> nat -> nat) (call count : nat)
  (result : string) : string :=
  match count with
  | O => result
  | S count' =>
      generateRoomCodeLoop pick (S call) count'
        (String.append result
           (charAt roomCodeChars (pick call (String.length roomCodeChars))))
  end.

Definition generateRoomCode (pick : nat -> nat -> nat) : string :=
  generateRoomCodeLoop pick 0 6 EmptyString.

(** The class [[A-Z0-9]]. *)
Definition upperOrDigit (c : Ascii.ascii) : bool :=
  let n := Ascii.nat_of_ascii c in
  ((65 <=? n) && (n <=? 90) || (48 <=? n) && (n <=? 57))%nat.

(** [/^[A-Z0-9]{6}$/.test(code)] *)
Definition isValidRoomCode (code : string) : bool :=
  (String.length code =? 6)%nat && forallb upperOrDigit (list_ascii_of_string code).

(** ** The evaluator on an engine with a finite call stack

    The engine keeps the frames of the calls in progress and the arguments
    of a call on its stack, and throws "RangeError: Maximum call stack size
    exceeded" when they do not fit.  In [getCombinations] this happens when
    the recursion is nested too deep, as it is when it does not end, and in
    [result.push(...withoutFirst)], which passes every element of
    [withoutFirst] as an argument of one call.  [maxArguments] is the
    greatest number of arguments that fit and [frames] the number of nested
    calls of [getCombinations] that fit; both depend on the engine and its
    stack size.  Apart from these checks the definitions are those of
    [PokerEngine]; [None], and [Err StackOverflow] from [evaluateHand] on,
    stand for the RangeError. *)

Module Limited.
Section Stack.
Variable maxArguments : nat.

Fixpoint getCombinations {T : Type} (frames : nat) (arr : list T) (k : Z)
  : option (list (list T)) :=
  match frames with
  | O => None
  | S frames' =>
      if k =? 1 then Some (map (fun el => [el]) arr)
      else if k =? Z.of_nat (length arr) then Some [arr]
      else
        match arr with
        | [] => None
        | first :: rest =>
            match getCombinations frames' rest (k - 1) with
            | None => None
            | Some withFirst =>
                match getCombinations frames' rest k with
                | None => None
                | Some withoutFirst =>
                    if (maxArguments <? length withoutFirst)%nat then None
                    else Some (map (cons first) withFirst ++ withoutFirst)
                end
            end
        end
  end.

Variable maxFrames : nat.

Definition evaluateHand (cs : list Card) : result Hand :=
  if (length cs <? 5)%nat then Err NeedFiveCards else
  match getCombinations maxFrames cs 5 with
  | None => Err StackOverflow
  | Some allCombinations =>
      match bestOf allCombinations None with
      | Err e => Err e
      | Ok None => Err NullHand
      | Ok (Some bestHand) => Ok bestHand
      end
  end.

Fixpoint evaluatePlayers (communityCards : list Card)
    (activePlayers : list (nat * Player)) : result (list (nat * Hand)) :=
  match activePlayers with
  | [] => Ok []
  | (i, player) :: rest =>
      match evaluateHand (holeCards player ++ communityCards) with
      | Err e => Err e
      | Ok hand =>
          match evaluatePlayers communityCards rest with
          | Err e => Err e
          | Ok hands => Ok ((i, hand) :: hands)
          end
      end
  end.

Definition determineWinners (ps : list Player) (communityCards : list Card)
    : result (list nat * Hand) :=
  let activePlayers := List.filter (fun ip => isInHand (snd ip)) (indexed ps) in
  match activePlayers with
  | [] => Err NoActivePlayers
  | [(i, player)] =>
      match evaluateHand (holeCards player ++ communityCards) with
      | Err e => Err e
      | Ok hand => Ok ([i], hand)
      end
  | _ =>
      match evaluatePlayers communityCards activePlayers with
      | Err e => Err e
      | Ok [] => Err NoActivePlayers
      | Ok ((i0, hand0) :: more) =>
          let bestHand := findBest hand0 more in
          let winners :=
            map fst (List.filter (fun ph => compareHands (snd ph) bestHand =? 0)
                                 ((i0, hand0) :: more)) in
          Ok (winners, bestHand)
      end
  end.
End Stack.
End Limited.

(** The stack holds [getCombinations] on [n] elements and [k]: there is
    room for a call, and when the call does not return at once, for the
    combinations without the first element as arguments and for the calls
    nested down to the last element. *)
Definition stackHolds (maxArguments frames n : nat) (k : Z) : Prop :=
  (1 <= frames)%nat /\
  (1 < k < Z.of_nat n ->
   (binomial (n - 1) (Z.to_nat k) <= maxArguments)%nat /\ (n - 1 <= frames)%nat).

(** ** Amounts that are not whole numbers

    The schema of a request ([Joi.number().min(0)]) and
    [validateGameAction] do not ask for a whole number, and the amounts of
    the engine are JavaScript numbers.  This section models the
    arithmetic of the engine on numbers that need not be whole, as exact
    rationals: the checks of a request, the [Call] and [Raise] branches of
    [processPlayerAction] on the fields they read and write, and
    [distributePot] on the chips of the players. *)

From Stdlib Require QArith Qround Lqa.

Module Fractional.
Import QArith_base Qround.
Local Open Scope Q_scope.

(** [Math.floor] *)
Definition floor (x : Q) : Q := inject_Z (Qfloor x).

(** [a % n]: what is left of [a] after [n] times the quotient, the
    quotient cut towards zero. *)
Definition remainder (a n : Q) : Q :=
  let quotient := a / n in
  a - n * inject_Z (if Qle_bool 0 quotient then Qfloor quotient else Qceiling quotient).

(** [i < remainder] *)
Definition below (i : nat) (remainder : Q) : bool :=
  negb (Qle_bool remainder (inject_Z (Z.of_nat i))).

(** The loop of [distributePot] on the chips of the players, seat by
    seat. *)
Fixpoint awardChips (sharePerWinner remainder : Q) (i : nat) (winners : list nat)
    (chips : list Q) : list Q :=
  match winners with
  | [] => chips
  | w :: rest =>
      let extraChip := if below i remainder then 1 else 0 in
      awardChips sharePerWinner remainder (S i) rest
        (alter (fun c => c + (sharePerWinner + extraChip)) w chips)
  end.

Definition distributePot (pot : Q) (winners : list nat) (chips : list Q)
    : list Q * Q :=
  if (length winners =? 0)%nat then (chips, pot) else
  let n := inject_Z (Z.of_nat (length winners)) in
  let sharePerWinner := floor (pot / n) in
  let remainder := remainder pot n in
  (awardChips sharePerWinner remainder 0 winners chips, 0).

(** The rule of [playerActionSchema] for [amount]. *)
Definition schemaAllows (amount : Q) : bool := Qle_bool 0 amount.

(** [validateGameAction] for a request of the player whose turn it is. *)
Definition validateGameAction (action : PlayerAction) (amount : option Q)
    (currentBet playerChips playerCurrentBet : Q) : bool :=
  match action with
  | Fold | Check => true
  | Call => Qle_bool (currentBet - playerCurrentBet) playerChips
  | Raise =>
      match amount with
      | None => false
      | Some amount =>
          if Qle_bool amount 0 then false
          else Qle_bool (currentBet + amount - playerCurrentBet) playerChips
      end
  | AllIn => negb (Qle_bool playerChips 0)
  end.

(** The fields of the player and of the game state that [Call] and [Raise]
    read and write. *)
Record Stake : Type := mkStake {
  chips : Q;
  currentBet : Q;
  totalBet : Q
}.

Record Betting : Type := mkBetting {
  pot : Q;
  tableBet : Q;
  minRaise : Q
}.

(** [case PlayerAction.Call]; [None] is the throw. *)
Definition call (player : Stake) (g : Betting) : option (Stake * Betting) :=
  let callAmount := tableBet g - currentBet player in
  if negb (Qle_bool callAmount (chips player)) then None
  else Some (mkStake (chips player - callAmount) (currentBet player + callAmount)
                     (totalBet player + callAmount),
             mkBetting (pot g + callAmount) (tableBet g) (minRaise g)).

(** [case PlayerAction.Raise] *)
Definition raise (amount : Q) (player : Stake) (g : Betting) : option (Stake * Betting) :=
  if Qeq_bool amount 0 || negb (Qle_bool (minRaise g) amount) then None
  else
    let totalBet' := tableBet g + amount in
    let additionalBet := totalBet' - currentBet player in
    if negb (Qle_bool additionalBet (chips player)) then None
    else Some (mkStake (chips player - additionalBet) totalBet'
                       (totalBet player + additionalBet),
               mkBetting (pot g + additionalBet) totalBet' amount).

(** The extra chips of the winners listed from position [i] on. *)
Fixpoint extraChips (remainder : Q) (i count : nat) : Z :=
  match count with
  | O => 0
  | S count' =>
      ((if below i remainder then 1 else 0)
       + extraChips remainder (S i) count')%Z
  end.

(** The chips of all players. *)
Definition total (chips : list Q) : Q := foldr Qplus 0 chips.

End Fractional.

(** ** One [GameManager] for all rooms

    [SocketManager] creates one [GameManager] and hands it the room of
    every request; the deck is a field of the manager, not of the room.
    The manager is modelled by its deck and the rooms by their id; a call
    takes the room from the map, runs on the room and the manager's deck,
    and leaves both behind. *)

Inductive ManagerCall : Type :=
| StartGame (shuffled : list Card)
| Action (request : PlayerActionRequest).

Record Manager : Type := mkManager {
  managerDeck : list Card;
  managerRooms : gmap string Room
}.

(** The handlers of 'game:start' and 'game:action' on the room and the
    deck of the manager. *)
Definition serveTable (call : ManagerCall) (t : Table) : Table :=
  match call with
  | StartGame shuffled => beginHand shuffled t
  | Action request => fst (processPlayerAction request t)
  end.

Definition serve (m : Manager) (event : string * ManagerCall) : Manager :=
  match managerRooms m !! event.1 with
  | None => m
  | Some r =>
      let t := serveTable event.2 (mkTable r (managerDeck m)) in
      mkManager (deck t) (<[event.1 := room t]> (managerRooms m))
  end.

Definition serveAll (events : list (string * ManagerCall)) (m : Manager) : Manager :=
  fold_left serve events m.

(** Two heads-up rooms.  Room "A" starts a hand, room "B" starts a hand
    with a deck that has the first 48 cards of room "A"'s deck below its
    other four, and then the players of room "A" complete the first
    betting round. *)
Definition twoRooms : Manager :=
  mkManager [] (<["A" := room Scenario.headsUpTable]>
                  (<["B" := room Scenario.headsUpTable]> ∅)).

Definition twoRoomsEvents : list (string * ManagerCall) :=
  [("A", StartGame createDeck);
   ("B", StartGame (drop 48 createDeck ++ take 48 createDeck));
   ("A", Action (Scenario.say "P0" Call));
   ("A", Action (Scenario.say "P1" Check))].

(** * Properties *)

(** ** Sorting *)

Section JsSortFacts.
Context {A : Type} (cmp : A -> A -> Z).

Lemma insert_sorted_perm x l : insert_sorted cmp x l ≡ₚ x :: l.
Proof.
  induction l as [|y l IH]; simpl; [reflexivity|].
  destruct (cmp x y <=? 0); [reflexivity|].
  rewrite IH. apply Permutation_swap.
Qed.

Lemma js_sort_perm l : js_sort cmp l ≡ₚ l.
Proof.
  induction l as [|x l IH]; simpl; [reflexivity|].
  rewrite insert_sorted_perm. now rewrite IH.
Qed.

Lemma length_js_sort l : length (js_sort cmp l) = length l.
Proof. apply Permutation_length, js_sort_perm. Qed.
End JsSortFacts.

(** ** The evaluator on the literal hands *)

Import Cards.

(** C5 (as the code behaves).  On 2C 2D 2H 5S 5D 9C 9H [evaluateHand]
    returns a full house, but [separateCardsByRank] sorts the primary
    cards by rank after grouping them, so the hand lists the pair of nines
    before the triple of deuces: ranks 9,9,2,2,2 and not 2,2,2,9,9. *)
Theorem fullHouse_lists_pair_first :
  exists h, evaluateHand deucesAndTwoPairs = Ok h /\
            handRank h = FullHouse /\
            map rk (cards h) = [9; 9; 2; 2; 2] /\
            map rk (cards h) <> [2; 2; 2; 9; 9].
Proof.
  eexists. split; [vm_compute; reflexivity|].
  split; [reflexivity|]. split; [vm_compute; reflexivity|].
  vm_compute; discriminate.
Qed.

(** The order of the primary cards decides comparisons: deuces full of
    aces are ranked above treys full of fours. *)
Lemma fullHouse_compared_by_pair :
  exists h1 h2, evaluateHand deucesFullOfAces = Ok h1 /\
                evaluateHand treysFullOfFours = Ok h2 /\
                handRank h1 = FullHouse /\ handRank h2 = FullHouse /\
                compareHands h1 h2 > 0.
Proof.
  do 2 eexists. split; [vm_compute; reflexivity|].
  split; [vm_compute; reflexivity|].
  split; [reflexivity|]. split; [reflexivity|]. reflexivity.
Qed.

(** C6.  AS 2H 3D 4C 5S 9H 10D is a straight listed 5-4-3-2-A, the five
    leading and the ace last, and it loses to every six-high straight
    2-3-4-5-6, whatever the suits. *)
Theorem wheel_below_six_high :
  exists wheel, evaluateHand wheelCards = Ok wheel /\
    handRank wheel = Straight /\
    rankedCards wheel = [5; 4; 3; 2; 14] /\
    forall s2 s3 s4 s5 s6, exists six,
      evaluateHand (sixHigh s2 s3 s4 s5 s6) = Ok six /\
      compareHands wheel six < 0 /\ compareHands six wheel > 0.
Proof.
  eexists. split; [vm_compute; reflexivity|].
  split; [reflexivity|]. split; [vm_compute; reflexivity|].
  intros s2 s3 s4 s5 s6.
  destruct s2, s3, s4, s5, s6;
    (eexists; split; [vm_compute; reflexivity | split; vm_compute; reflexivity]).
Qed.

(** ** [getCombinations] enumerates the subsequences of a given length *)

Lemma sublist_same_length {T : Type} (c arr : list T) :
  c `sublist_of` arr -> length c = length arr -> c = arr.
Proof.
  induction 1 as [|x l1 l2 _ IH|x l1 l2 Hsub _]; simpl; intros Hlen.
  - reflexivity.
  - f_equal. apply IH. lia.
  - apply sublist_length in Hsub. lia.
Qed.

Lemma getCombinations_spec {T : Type} (arr : list T) :
  forall k, 1 <= k <= Z.of_nat (length arr) ->
  exists combos, getCombinations arr k = Some combos /\
    forall c, In c combos <-> (c `sublist_of` arr /\ Z.of_nat (length c) = k).
Proof.
  induction arr as [|first rest IH]; intros k Hk; [simpl in Hk; lia|].
  cbn [getCombinations].
  destruct (Z.eqb_spec k 1) as [->|Hk1].
  { eexists; split; [reflexivity|]. intros c. rewrite in_map_iff. split.
    - intros (el & <- & Hel). split; [|reflexivity].
      apply singleton_sublist_l, list_elem_of_In, Hel.
    - intros [Hsub Hlen]. destruct c as [|el [|? ?]]; simpl in Hlen; try lia.
      exists el. split; [reflexivity|].
      apply list_elem_of_In, singleton_sublist_l, Hsub. }
  destruct (Z.eqb_spec k (Z.of_nat (length (first :: rest)))) as [->|Hkn].
  { eexists; split; [reflexivity|]. intros c. simpl. split.
    - intros [<-|[]]. split; [reflexivity|]. simpl. lia.
    - intros [Hsub Hlen]. left. symmetry. apply sublist_same_length; [exact Hsub|].
      simpl in *. lia. }
  simpl length in Hk, Hkn.
  destruct (IH (k - 1)) as (withFirst & -> & HwithFirst); [lia|].
  destruct (IH k) as (withoutFirst & -> & HwithoutFirst); [lia|].
  eexists; split; [reflexivity|]. intros c.
  rewrite in_app_iff, in_map_iff, sublist_cons_r. split.
  - intros [(c' & <- & Hc')|Hc].
    + apply HwithFirst in Hc' as [Hsub Hlen]. split.
      * right. exists c'. split; [reflexivity|exact Hsub].
      * simpl length. lia.
    + apply HwithoutFirst in Hc as [Hsub Hlen]. split; [left; exact Hsub|exact Hlen].
  - intros [[Hsub|(c' & -> & Hsub)] Hlen].
    + right. apply HwithoutFirst. split; assumption.
    + left. exists c'. split; [reflexivity|]. apply HwithFirst.
      split; [exact Hsub|]. simpl length in Hlen. lia.
Qed.

(** ** The rank counts *)

Lemma sumZ_perm l l' : l ≡ₚ l' -> sumZ l = sumZ l'.
Proof. induction 1; simpl in *; lia. Qed.

Lemma bump_above lo r m :
  lo < r -> Forall (Z.lt lo) (keysOf m) -> Forall (Z.lt lo) (keysOf (bump r m)).
Proof.
  intros Hr. induction m as [|[k c] m IH]; simpl; intros Hm.
  - repeat constructor. exact Hr.
  - inversion Hm as [|? ? Hk Hm']; subst.
    destruct (Z.eqb_spec r k); [constructor; assumption|].
    destruct (Z.ltb_spec r k); simpl.
    + constructor; [exact Hr|]. constructor; assumption.
    + constructor; [exact Hk|]. apply IH, Hm'.
Qed.

Lemma bump_sorted r m :
  StronglySorted Z.lt (keysOf m) -> StronglySorted Z.lt (keysOf (bump r m)).
Proof.
  induction m as [|[k c] m IH]; simpl; intros Hm.
  - repeat constructor.
  - inversion Hm as [|? ? Hs Hall]; subst.
    destruct (Z.eqb_spec r k); [constructor; assumption|].
    destruct (Z.ltb_spec r k); simpl.
    + constructor; [exact Hm|]. constructor; [assumption|].
      eapply Forall_impl; [exact Hall|]. simpl. intros; lia.
    + constructor; [apply IH, Hs|]. apply bump_above; [lia|exact Hall].
Qed.

Lemma bump_keys r m k : In k (keysOf (bump r m)) <-> k = r \/ In k (keysOf m).
Proof.
  induction m as [|[k' c] m IH]; simpl; [intuition|].
  destruct (Z.eqb_spec r k'); simpl; [subst; intuition|].
  destruct (Z.ltb_spec r k'); simpl; [intuition|].
  rewrite IH. intuition.
Qed.

Lemma bump_positive r m :
  Forall (Z.le 1) (valuesOf m) -> Forall (Z.le 1) (valuesOf (bump r m)).
Proof.
  induction m as [|[k c] m IH]; simpl; intros Hm.
  - constructor; [lia|constructor].
  - inversion Hm; subst.
    destruct (Z.eqb_spec r k); simpl; [constructor; [lia|assumption]|].
    destruct (Z.ltb_spec r k); simpl.
    + constructor; [lia|]. constructor; assumption.
    + constructor; [assumption|]. now apply IH.
Qed.

Lemma bump_sum r m : sumZ (valuesOf (bump r m)) = sumZ (valuesOf m) + 1.
Proof.
  induction m as [|[k c] m IH]; simpl; [reflexivity|].
  destruct (Z.eqb_spec r k); simpl; [lia|].
  destruct (Z.ltb_spec r k); simpl; [lia|].
  rewrite IH. lia.
Qed.

Lemma countRanks_from ranks : forall m,
  StronglySorted Z.lt (keysOf m) -> Forall (Z.le 1) (valuesOf m) ->
  let m' := fold_left (fun counts r => bump r counts) ranks m in
  StronglySorted Z.lt (keysOf m') /\ Forall (Z.le 1) (valuesOf m') /\
  sumZ (valuesOf m') = sumZ (valuesOf m) + Z.of_nat (length ranks) /\
  forall k, In k (keysOf m') <-> In k ranks \/ In k (keysOf m).
Proof.
  induction ranks as [|r ranks IH]; simpl; intros m Hs Hp.
  - repeat split; [assumption|assumption|lia|intuition|intuition].
  - destruct (IH (bump r m) (bump_sorted r m Hs) (bump_positive r m Hp))
      as (Hs' & Hp' & Hsum & Hkeys).
    repeat split; [assumption|assumption| |intros Hk|intros Hk].
    + rewrite Hsum, bump_sum. lia.
    + apply Hkeys in Hk. rewrite bump_keys in Hk. intuition.
    + apply Hkeys. rewrite bump_keys. intuition.
Qed.

Lemma sorted_keys_NoDup l : StronglySorted Z.lt l -> List.NoDup l.
Proof.
  induction 1 as [|x l _ IH Hall]; constructor; [|exact IH].
  intros Hin. rewrite List.Forall_forall in Hall. specialize (Hall x Hin). lia.
Qed.

Lemma countRanks_facts ranks :
  List.NoDup (keysOf (countRanks ranks)) /\
  Forall (Z.le 1) (valuesOf (countRanks ranks)) /\
  sumZ (valuesOf (countRanks ranks)) = Z.of_nat (length ranks) /\
  forall k, In k (keysOf (countRanks ranks)) <-> In k ranks.
Proof.
  destruct (countRanks_from ranks []) as (Hs & Hp & Hsum & Hkeys);
    [constructor|constructor|].
  repeat split; [apply sorted_keys_NoDup, Hs|exact Hp|exact Hsum| |].
  - intros Hk. apply Hkeys in Hk. simpl in Hk. intuition.
  - intros Hk. apply Hkeys. now left.
Qed.

(** ** [separateCardsByRank] keeps every card *)

Lemma sum_list_with_add {T : Type} (f g : T -> nat) l :
  sum_list_with (fun x => f x + g x)%nat l
  = (sum_list_with f l + sum_list_with g l)%nat.
Proof. induction l as [|x l IH]; simpl; [reflexivity|]. rewrite IH. lia. Qed.

Lemma sum_indicator (x : Z) keys :
  List.NoDup keys -> In x keys ->
  sum_list_with (fun r => if x =? r then 1%nat else 0%nat) keys = 1%nat.
Proof.
  induction 1 as [|k keys Hk _ IH]; simpl; [intros []|].
  intros [->|Hin].
  - rewrite Z.eqb_refl. f_equal.
    clear IH. induction keys as [|k keys IH]; simpl; [reflexivity|].
    destruct (Z.eqb_spec x k) as [->|_]; [exfalso; apply Hk; now left|].
    apply IH. intros Hin. apply Hk. now right.
  - destruct (Z.eqb_spec x k) as [->|_]; [contradiction|]. now apply IH.
Qed.

Lemma sum_list_with_ext {T : Type} (f g : T -> nat) l :
  (forall x, f x = g x) -> sum_list_with f l = sum_list_with g l.
Proof. intros Hfg. induction l as [|x l IH]; simpl; [reflexivity|]. now rewrite Hfg, IH. Qed.

Lemma cardsOfRank_cons c cs r :
  length (cardsOfRank (c :: cs) r)
  = Nat.add (if rk c =? r then 1%nat else 0%nat) (length (cardsOfRank cs r)).
Proof. unfold cardsOfRank. simpl. destruct (rk c =? r); reflexivity. Qed.

Lemma cardsOfRank_partition cs keys :
  List.NoDup keys -> (forall c, In c cs -> In (rk c) keys) ->
  sum_list_with (fun r => length (cardsOfRank cs r)) keys = length cs.
Proof.
  intros Hnd. induction cs as [|c cs IH]; intros Hin.
  - simpl. clear. induction keys; simpl; auto.
  - rewrite (sum_list_with_ext _ _ keys (cardsOfRank_cons c cs)).
    rewrite sum_list_with_add, sum_indicator, IH; simpl;
      [reflexivity| |exact Hnd|].
    + intros c' Hc'. apply Hin. now right.
    + apply Hin. now left.
Qed.

Lemma separateLoop_from cs rankCounts targetCounts sortedRanks : forall st,
  let st' := fold_left (separateStep cs rankCounts targetCounts) sortedRanks st in
  (length (sep_primary st') + length (sep_kickers st')
   = length (sep_primary st) + length (sep_kickers st)
     + sum_list_with (fun r => length (cardsOfRank cs r)) sortedRanks)%nat.
Proof.
  induction sortedRanks as [|r rs IH]; simpl; intros st; [lia|].
  rewrite IH. unfold separateStep, cardsOfRank.
  destruct (nth_error targetCounts (sep_targetIndex st)) as [t|];
    [destruct (countOf rankCounts r =? t)|]; simpl;
    rewrite ?length_app; lia.
Qed.

Lemma separateLoop_total cs targetCounts :
  let rankCounts := countRanks (map rk cs) in
  let st := separateLoop cs rankCounts targetCounts
              (js_sort (byCountThenRank rankCounts) (keysOf rankCounts)) in
  (length (sep_primary st) + length (sep_kickers st) = length cs)%nat.
Proof.
  intros rankCounts st. unfold st, separateLoop.
  rewrite separateLoop_from. simpl.
  rewrite (js_sort_perm (byCountThenRank rankCounts) (keysOf rankCounts)).
  destruct (countRanks_facts (map rk cs)) as (Hnd & _ & _ & Hkeys).
  apply cardsOfRank_partition; [exact Hnd|].
  intros c Hc. apply Hkeys, in_map, Hc.
Qed.

Lemma length_slice0 {T : Type} (l : list T) (n : Z) :
  0 <= n -> length (slice0 l n) = Nat.min (Z.to_nat n) (length l).
Proof.
  intros Hn. unfold slice0. destruct (Z.ltb_spec n 0); [lia|].
  apply length_firstn.
Qed.

Lemma separateCardsByRank_length cs targetCounts primaryCards kickers' :
  length cs = 5%nat ->
  separateCardsByRank cs (countRanks (map rk cs)) targetCounts
    = (primaryCards, kickers') ->
  length (primaryCards ++ kickers') = 5%nat.
Proof.
  intros Hlen. unfold separateCardsByRank. intros [= <- <-].
  pose proof (separateLoop_total cs targetCounts) as Htotal. simpl in Htotal.
  fold (keysOf (countRanks (map rk cs))).
  rewrite length_app, length_slice0; rewrite !length_js_sort; lia.
Qed.

Lemma sumZ_positive l : Forall (Z.le 1) l -> 0 <= sumZ l.
Proof. induction 1; simpl; lia. Qed.

(** With counts 3 and 2 the five cards have exactly two ranks. *)
Lemma fullHouse_two_ranks (rankCounts : RankCounts) :
  List.NoDup (keysOf rankCounts) ->
  Forall (Z.le 1) (valuesOf rankCounts) ->
  sumZ (valuesOf rankCounts) = 5 ->
  let counts := js_sort descending (valuesOf rankCounts) in
  countIs counts 0 3 = true -> countIs counts 1 2 = true ->
  exists k1 k2 c1 c2, rankCounts = [(k1, c1); (k2, c2)] /\ k1 <> k2 /\
    ((c1 = 3 /\ c2 = 2) \/ (c1 = 2 /\ c2 = 3)).
Proof.
  intros Hnd Hpos Hsum counts H0 H1.
  pose proof (js_sort_perm descending (valuesOf rankCounts)) as Hperm.
  fold counts in Hperm.
  assert (Hcounts : counts = [3; 2]).
  { rewrite <- Hperm in Hpos. rewrite <- (sumZ_perm _ _ Hperm) in Hsum.
    unfold countIs in H0, H1.
    destruct counts as [|a [|b rest]]; simpl in H0, H1; try discriminate.
    apply Z.eqb_eq in H0, H1. subst a b.
    destruct rest as [|c rest]; [reflexivity|].
    inversion Hpos as [|? ? _ Hpos1]; subst.
    inversion Hpos1 as [|? ? _ Hpos2]; subst.
    inversion Hpos2 as [|? ? Hc Hpos3]; subst.
    apply sumZ_positive in Hpos3. simpl in Hsum. lia. }
  assert (Hlen : length rankCounts = 2%nat).
  { apply Permutation_length in Hperm. rewrite Hcounts in Hperm.
    unfold valuesOf in Hperm. rewrite length_map in Hperm. simpl in Hperm. lia. }
  destruct rankCounts as [|[k1 c1] [|[k2 c2] [|? ?]]]; simpl in Hlen; try lia.
  exists k1, k2, c1, c2. split; [reflexivity|]. split.
  - inversion Hnd as [|? ? Hk _]; subst. intros ->. apply Hk. now left.
  - unfold counts in Hcounts. simpl in Hcounts. unfold descending in Hcounts.
    destruct (Z.leb_spec (c2 - c1) 0); injection Hcounts as -> ->; lia.
Qed.

Lemma fullHouse_all_primary cs primaryCards kickers' :
  length cs = 5%nat ->
  let rankCounts := countRanks (map rk cs) in
  let counts := js_sort descending (valuesOf rankCounts) in
  countIs counts 0 3 = true -> countIs counts 1 2 = true ->
  separateCardsByRank cs rankCounts [3; 2] = (primaryCards, kickers') ->
  length primaryCards = 5%nat.
Proof.
  intros Hlen rankCounts counts H0 H1.
  destruct (countRanks_facts (map rk cs)) as (Hnd & Hpos & Hsum & _).
  rewrite length_map, Hlen in Hsum.
  destruct (fullHouse_two_ranks rankCounts Hnd Hpos Hsum H0 H1)
    as (k1 & k2 & c1 & c2 & Hrc & Hne & Hc).
  pose proof (separateLoop_total cs [3; 2]) as Htotal. simpl in Htotal.
  fold rankCounts in Htotal.
  unfold separateCardsByRank. intros [= <- _].
  rewrite length_js_sort.
  assert (Hk : sep_kickers (separateLoop cs rankCounts [3; 2]
                 (js_sort (byCountThenRank rankCounts) (keysOf rankCounts))) = []).
  { rewrite Hrc.
    assert (E21 : (k2 =? k1) = false) by (apply Z.eqb_neq; congruence).
    assert (E12 : (k1 =? k2) = false) by (apply Z.eqb_neq; congruence).
    destruct Hc as [[-> ->]|[-> ->]];
      unfold separateLoop, keysOf, byCountThenRank, separateStep, js_sort;
      cbn [map fst foldr insert_sorted countOf];
      rewrite ?Z.eqb_refl, ?E21, ?E12;
      match goal with
      | |- context [negb (?a =? 0)] => destruct (Z.eqb_spec a 0); [lia|]
      end;
      cbn [negb];
      match goal with
      | |- context [?a <=? 0] => destruct (Z.leb_spec a 0); try lia
      end;
      cbn [fold_left nth_error sep_targetIndex sep_kickers sep_primary];
      rewrite ?Z.eqb_refl, ?E21, ?E12;
      cbn [fold_left nth_error sep_targetIndex sep_kickers sep_primary];
      rewrite ?Z.eqb_refl, ?E21, ?E12;
      cbn [fold_left nth_error sep_targetIndex sep_kickers sep_primary];
      rewrite ?Z.eqb_refl, ?E21, ?E12; reflexivity. }
  fold (keysOf rankCounts). rewrite Hk in Htotal. simpl in Htotal. lia.
Qed.

(** Every evaluated hand is compared on exactly five cards. *)
Lemma evaluateExactHand_length cs h :
  evaluateExactHand cs = Ok h -> length (cards h ++ kickers h) = 5%nat.
Proof.
  unfold evaluateExactHand.
  destruct (Nat.eqb_spec (length cs) 5) as [Hlen|]; simpl negb; cbv iota;
    [|discriminate].
  assert (Hs : length (js_sort byRankDesc cs) = 5%nat)
    by (rewrite length_js_sort; exact Hlen).
  repeat match goal with
  | |- (if ?b then _ else _) = _ -> _ => destruct b eqn:?
  | |- (let '(_, _) := ?x in _) = _ -> _ => destruct x eqn:?
  | |- Ok (mkHand _ (if ?b then _ else _) _ _) = _ -> _ => destruct b eqn:?
  end; intros [= <-]; simpl cards; simpl kickers; rewrite ?app_nil_r;
  repeat match goal with
  | |- context [if ?b then _ else _] => destruct b
  end;
  unfold arrangeWheelStraight;
  try (rewrite ?length_js_sort; exact Hlen);
  try (eapply separateCardsByRank_length; [exact Hs|eassumption]).
  - match goal with H : (_ && _) = true |- _ => apply andb_true_iff in H as [? ?] end.
    eapply fullHouse_all_primary; [exact Hs| | |eassumption]; assumption.
  - rewrite length_slice0 by lia. rewrite Hs. reflexivity.
Qed.

(** ** [compareHands] orders the evaluated hands *)

Lemma compareCards_flip la : forall lb,
  compareCards la lb > 0 -> compareCards lb la < 0.
Proof.
  induction la as [|a la IH]; intros [|b lb]; simpl; try lia.
  destruct (Z.eqb_spec (rk a) (rk b)) as [Hab|Hab]; simpl.
  - rewrite <- Hab, Z.eqb_refl. simpl. apply IH.
  - destruct (Z.eqb_spec (rk b) (rk a)); simpl; lia.
Qed.

Lemma compareCards_trans la : forall lb lc,
  length la = length lb -> length lb = length lc ->
  compareCards la lb <= 0 -> compareCards lb lc <= 0 -> compareCards la lc <= 0.
Proof.
  induction la as [|a la IH]; intros [|b lb] [|c lc]; simpl; try lia.
  intros Hab Hbc.
  destruct (Z.eqb_spec (rk a) (rk b)), (Z.eqb_spec (rk b) (rk c)),
           (Z.eqb_spec (rk a) (rk c)); simpl; try lia.
  apply IH; lia.
Qed.

Lemma compareHands_flip h1 h2 :
  compareHands h1 h2 > 0 -> compareHands h2 h1 <= 0.
Proof.
  unfold compareHands.
  destruct (Z.eqb_spec (handRankValue (handRank h1)) (handRankValue (handRank h2)))
    as [E|E]; simpl.
  - rewrite <- E, Z.eqb_refl. simpl. intros H. apply compareCards_flip in H. lia.
  - destruct (Z.eqb_spec (handRankValue (handRank h2)) (handRankValue (handRank h1)));
      simpl; lia.
Qed.

Lemma compareHands_trans h1 h2 h3 :
  length (cards h1 ++ kickers h1) = 5%nat ->
  length (cards h2 ++ kickers h2) = 5%nat ->
  length (cards h3 ++ kickers h3) = 5%nat ->
  compareHands h1 h2 <= 0 -> compareHands h2 h3 <= 0 -> compareHands h1 h3 <= 0.
Proof.
  unfold compareHands. intros L1 L2 L3.
  destruct (Z.eqb_spec (handRankValue (handRank h1)) (handRankValue (handRank h2))),
           (Z.eqb_spec (handRankValue (handRank h2)) (handRankValue (handRank h3))),
           (Z.eqb_spec (handRankValue (handRank h1)) (handRankValue (handRank h3)));
    simpl; try lia.
  apply compareCards_trans; lia.
Qed.

Lemma compareHands_refl h : compareHands h h = 0.
Proof.
  unfold compareHands. rewrite Z.eqb_refl. simpl.
  induction (cards h ++ kickers h) as [|c l IH]; simpl; [reflexivity|].
  now rewrite Z.eqb_refl.
Qed.

Lemma evaluateExactHand_ok cs :
  length cs = 5%nat -> exists h, evaluateExactHand cs = Ok h.
Proof.
  intros Hlen. unfold evaluateExactHand. rewrite Hlen. simpl negb. cbv iota.
  repeat match goal with
  | |- exists _, (if ?b then _ else _) = _ => destruct b
  | |- exists _, (let '(_, _) := ?x in _) = _ => destruct x
  end; eexists; reflexivity.
Qed.

(** The loop of [evaluateHand] returns a maximum of the hands it sees. *)
Lemma bestOf_spec combos : forall bestHand,
  Forall (fun c => length c = 5%nat) combos ->
  (forall b, bestHand = Some b -> length (cards b ++ kickers b) = 5%nat) ->
  exists r, bestOf combos bestHand = Ok r /\
    match r with
    | None => bestHand = None /\ combos = []
    | Some best =>
        (bestHand = Some best \/
         exists c, In c combos /\ evaluateExactHand c = Ok best) /\
        length (cards best ++ kickers best) = 5%nat /\
        (forall b, bestHand = Some b -> compareHands b best <= 0) /\
        (forall c h, In c combos -> evaluateExactHand c = Ok h ->
                     compareHands h best <= 0)
    end.
Proof.
  induction combos as [|c combos IH]; intros bestHand Hcombos Hbest; simpl.
  - exists bestHand. split; [reflexivity|]. destruct bestHand as [b|]; [|auto].
    repeat split; [now left|now apply Hbest| |intros ? ? []].
    intros b' [= <-]. rewrite compareHands_refl. lia.
  - inversion Hcombos as [|? ? Hc Hrest]; subst.
    destruct (evaluateExactHand_ok c Hc) as [hand Hhand]. rewrite Hhand.
    pose proof (evaluateExactHand_length c hand Hhand) as Lhand.
    assert (Hgo : forall keep,
      length (cards keep ++ kickers keep) = 5%nat ->
      compareHands hand keep <= 0 ->
      (forall b, bestHand = Some b -> compareHands b keep <= 0) ->
      (bestHand = Some keep \/ keep = hand) ->
      exists r, bestOf combos (Some keep) = Ok r /\
        match r with
        | None => False
        | Some best =>
            (bestHand = Some best \/
             exists c', In c' (c :: combos) /\ evaluateExactHand c' = Ok best) /\
            length (cards best ++ kickers best) = 5%nat /\
            (forall b, bestHand = Some b -> compareHands b best <= 0) /\
            (forall c' h, In c' (c :: combos) -> evaluateExactHand c' = Ok h ->
                          compareHands h best <= 0)
        end).
    { intros keep Lkeep Hhk Hbk Horigin.
      destruct (IH (Some keep) Hrest) as (r & Hr & Hspec).
      { intros b [= <-]. exact Lkeep. }
      exists r. split; [exact Hr|].
      destruct r as [best|]; [|destruct Hspec; discriminate].
      destruct Hspec as (Hfrom & Lbest & Hkeep & Hall).
      specialize (Hkeep keep eq_refl).
      repeat split.
      - destruct Hfrom as [[= <-]|(c' & Hin & Hc')].
        + destruct Horigin as [->| ->]; [now left|].
          right. exists c. split; [now left|exact Hhand].
        + right. exists c'. split; [now right|exact Hc'].
      - exact Lbest.
      - intros b Hb. eapply compareHands_trans; [| | | apply Hbk, Hb | exact Hkeep];
          auto.
      - intros c' h [<-|Hin] Hh.
        + rewrite Hhand in Hh. injection Hh as <-.
          eapply compareHands_trans; [| | | exact Hhk | exact Hkeep]; auto.
        + eapply Hall; eassumption. }
    destruct bestHand as [b|].
    + destruct (Z.gtb_spec (compareHands hand b) 0) as [Hgt|Hle].
      * destruct (Hgo hand Lhand) as (r & Hr & Hspec).
        -- rewrite compareHands_refl. lia.
        -- intros b' [= <-]. apply compareHands_flip. lia.
        -- now right.
        -- exists r. split; [exact Hr|]. destruct r; [exact Hspec|contradiction].
      * destruct (Hgo b (Hbest b eq_refl)) as (r & Hr & Hspec).
        -- exact Hle.
        -- intros b' [= <-]. rewrite compareHands_refl. lia.
        -- now left.
        -- exists r. split; [exact Hr|]. destruct r; [exact Hspec|contradiction].
    + destruct (Hgo hand Lhand) as (r & Hr & Hspec).
      * rewrite compareHands_refl. lia.
      * intros b' [=].
      * now right.
      * exists r. split; [exact Hr|]. destruct r; [exact Hspec|contradiction].
Qed.

(** On an engine whose stack holds any evaluation [evaluateHand] throws on
    fewer than five cards; on five cards or more,
    however many, it returns the hand of one of the five-card subsequences
    of its input, and no five-card subsequence evaluates to a hand that
    compares above it. *)
Theorem evaluateHand_best_of_five (cs : list Card) :
  ((length cs < 5)%nat -> evaluateHand cs = Err NeedFiveCards) /\
  ((5 <= length cs)%nat ->
   exists best, evaluateHand cs = Ok best /\
     (exists c, c `sublist_of` cs /\ length c = 5%nat /\
                evaluateExactHand c = Ok best) /\
     (forall c, c `sublist_of` cs -> length c = 5%nat ->
        exists h, evaluateExactHand c = Ok h /\ compareHands h best <= 0)).
Proof.
  unfold evaluateHand. split; intros Hlen.
  - destruct (Nat.ltb_spec (length cs) 5); [reflexivity|lia].
  - destruct (Nat.ltb_spec (length cs) 5); [lia|].
    destruct (getCombinations_spec cs 5) as (combos & -> & Hcombos); [lia|].
    assert (Hfive : Forall (fun c => length c = 5%nat) combos).
    { apply List.Forall_forall. intros c Hc. apply Hcombos in Hc. lia. }
    destruct (bestOf_spec combos None Hfive) as (r & -> & Hspec); [discriminate|].
    destruct r as [best|].
    + destruct Hspec as (Hfrom & _ & _ & Hall).
      exists best. split; [reflexivity|]. split.
      * destruct Hfrom as [[=]|(c & Hin & Hc)].
        apply Hcombos in Hin as [Hsub Hl]. exists c. repeat split; [exact Hsub|lia|exact Hc].
      * intros c Hsub Hl. destruct (evaluateExactHand_ok c Hl) as [h Hh].
        exists h. split; [exact Hh|]. apply (Hall c h); [|exact Hh].
        apply Hcombos. split; [exact Hsub|lia].
    + destruct Hspec as [_ ->]. exfalso.
      assert (Hin : In (take 5 cs) []).
      { apply Hcombos. split; [apply sublist_take|]. rewrite length_take. lia. }
      destruct Hin.
Qed.

Lemma evaluateHand_best_of_five_witness :
  evaluateHand fourCards = Err NeedFiveCards /\
  exists best, evaluateHand eightCards = Ok best /\
     (exists c, c `sublist_of` eightCards /\ length c = 5%nat /\
                evaluateExactHand c = Ok best) /\
     (forall c, c `sublist_of` eightCards -> length c = 5%nat ->
        exists h, evaluateExactHand c = Ok h /\ compareHands h best <= 0).
Proof.
  split.
  - apply (evaluateHand_best_of_five fourCards). simpl. lia.
  - apply (evaluateHand_best_of_five eightCards). simpl. lia.
Defined.

(** ** Refused requests *)

Lemma findPlayer_lookup ps pid : forall k i p,
  findPlayer ps pid k = Some (i, p) ->
  (k <= i)%nat /\ ps !! (i - k)%nat = Some p /\ String.eqb (id p) pid = true.
Proof.
  induction ps as [|q ps IH]; simpl; intros k i p; [discriminate|].
  destruct (String.eqb (id q) pid) eqn:E.
  - intros [= <- <-]. rewrite Nat.sub_diag. repeat split; [lia|exact E].
  - intros H. apply IH in H as (Hk & Hl & Hid).
    split; [lia|]. split; [|exact Hid].
    replace (i - k)%nat with (S (i - S k)) by lia. exact Hl.
Qed.

Lemma findPlayer_playerAt t pid i p :
  findPlayer (players (room t)) pid 0 = Some (i, p) ->
  playerAt (room t) i = Some p.
Proof.
  intros H. apply findPlayer_lookup in H as (_ & H & _).
  rewrite Nat.sub_0_r in H. exact H.
Qed.

(** C3.  A request that fails validation (unknown player, player not in
    the hand, not the acting player, a check into a bet, a raise without an
    amount or below the minimum, a call or a raise the stack does not
    cover) makes [processPlayerAction] throw, and the table it leaves is the
    table it was given: every field of the game state and of every player
    is as before. *)
Theorem validation_failure_leaves_table (t : Table) (req : PlayerActionRequest)
    (e : Error) :
  ValidationFailure t req e -> processPlayerAction req t = (t, Err e).
Proof.
  intros Hfail. unfold processPlayerAction, bind, get, throw.
  destruct Hfail as [Hfind|i p Hfind Hin|i p Hfind Hturn
                    |i p Hfind Hin Hturn Hact Hbet
                    |i p Hfind Hin Hturn Hact Hbet
                    |i p Hfind Hin Hturn Hact Hamt
                    |i p Hfind Hin Hturn Hact Hamt
                    |i p amt Hfind Hin Hturn Hact Hamt Hlow
                    |i p amt Hfind Hin Hturn Hact Hamt Hmin Hnz Hbet];
    rewrite Hfind; try reflexivity.
  - rewrite Hin. reflexivity.
  - destruct (Nat.eqb_spec (currentPlayerIndex (gameState (room t))) i);
      [contradiction|]. now rewrite orb_true_r.
  - rewrite Hin, Hturn, Nat.eqb_refl. simpl.
    unfold performAction, bind, get, throw.
    rewrite (findPlayer_playerAt _ _ _ _ Hfind), Hact.
    destruct (Z.gtb_spec (tableBet (gameState (room t))) (currentBet p)); [reflexivity|lia].
  - rewrite Hin, Hturn, Nat.eqb_refl. simpl.
    unfold performAction, bind, get, throw.
    rewrite (findPlayer_playerAt _ _ _ _ Hfind), Hact.
    destruct (Z.gtb_spec (tableBet (gameState (room t)) - currentBet p) (chips p));
      [reflexivity|lia].
  - rewrite Hin, Hturn, Nat.eqb_refl. simpl.
    unfold performAction, bind, get, throw.
    rewrite (findPlayer_playerAt _ _ _ _ Hfind), Hact, Hamt. reflexivity.
  - rewrite Hin, Hturn, Nat.eqb_refl. simpl.
    unfold performAction, bind, get, throw.
    rewrite (findPlayer_playerAt _ _ _ _ Hfind), Hact, Hamt. reflexivity.
  - rewrite Hin, Hturn, Nat.eqb_refl. simpl.
    unfold performAction, bind, get, throw.
    rewrite (findPlayer_playerAt _ _ _ _ Hfind), Hact, Hamt.
    destruct (Z.ltb_spec amt (minRaise (gameState (room t)))); [|lia].
    now rewrite orb_true_r.
  - rewrite Hin, Hturn, Nat.eqb_refl. simpl.
    unfold performAction, bind, get, throw.
    rewrite (findPlayer_playerAt _ _ _ _ Hfind), Hact, Hamt.
    destruct (Z.eqb_spec amt 0); [contradiction|].
    destruct (Z.ltb_spec amt (minRaise (gameState (room t)))); [lia|]. simpl.
    destruct (Z.gtb_spec (tableBet (gameState (room t)) + amt - currentBet p) (chips p));
      [reflexivity|lia].
Qed.

Lemma validation_failure_leaves_table_witness :
  processPlayerAction (Scenario.say "P1" Call) Scenario.shortCallState
  = (Scenario.shortCallState, Err InsufficientChipsToCall).
Proof.
  apply (validation_failure_leaves_table Scenario.shortCallState
           (Scenario.say "P1" Call) InsufficientChipsToCall).
  eapply CallNotCovered.
  - vm_compute. reflexivity.
  - reflexivity.
  - reflexivity.
  - reflexivity.
  - vm_compute. reflexivity.
Defined.

(** ** Call *)

(** The player after a call of [callAmount]. *)
Lemma performAction_call t req i p :
  action req = Call ->
  playerAt (room t) i = Some p ->
  let g := gameState (room t) in
  let callAmount := tableBet g - currentBet p in
  callAmount <= chips p ->
  performAction i req t
  = (mkTable
       (mkRoom
          (alter (set_lastAction (Some Call))
             i (alter (fun p =>
                  set_totalBet (totalBet p + callAmount)
                    (set_currentBet (currentBet p + callAmount)
                      (set_chips (chips p - callAmount) p))) i (players (room t))))
          (set_pot (pot g + callAmount) g)
          (settings (room t)))
       (deck t), Ok tt).
Proof.
  intros Hact Hp g callAmount Hle.
  unfold performAction, bind, get, throw. rewrite Hp, Hact.
  fold g. fold callAmount.
  destruct (Z.gtb_spec callAmount (chips p)); [lia|]. reflexivity.
Qed.

(** C7 (as the code behaves).  When the table's bet exceeds the player's
    and the stack covers the difference, Call moves exactly the difference
    (which is then the minimum of the difference and the stack) from the
    stack to the pot, raises the player's bet to the table's and records
    the action; the [isAllIn] flag is not written, also when the call
    takes the last chip.  When the stack is smaller than the difference the
    call is refused with "Insufficient chips to call" and the table is
    unchanged. *)
Theorem call_pays_the_difference (t : Table) (req : PlayerActionRequest)
    (i : nat) (p : Player) :
  action req = Call ->
  playerAt (room t) i = Some p ->
  currentBet p < tableBet (gameState (room t)) ->
  let g := gameState (room t) in
  let callAmount := tableBet g - currentBet p in
  (callAmount <= chips p ->
   let t' := fst (performAction i req t) in
   snd (performAction i req t) = Ok tt /\
   callAmount = Z.min callAmount (chips p) /\
   (exists p', playerAt (room t') i = Some p' /\
      chips p' = chips p - callAmount /\
      currentBet p' = tableBet g /\
      totalBet p' = totalBet p + callAmount /\
      lastAction p' = Some Call /\
      isAllIn p' = isAllIn p) /\
   (forall j, j <> i -> playerAt (room t') j = playerAt (room t) j) /\
   gameState (room t') = set_pot (pot g + callAmount) g) /\
  (chips p < callAmount ->
   performAction i req t = (t, Err InsufficientChipsToCall)).
Proof.
  intros Hact Hp Hbet g callAmount. split.
  - intros Hle. rewrite (performAction_call t req i p Hact Hp Hle). simpl.
    split; [reflexivity|]. split; [lia|]. split; [|split; [|reflexivity]].
    + unfold playerAt in *. simpl. rewrite !list_lookup_alter_eq, Hp. simpl.
      eexists. split; [reflexivity|]. simpl. fold g. fold callAmount.
      repeat split; unfold callAmount; lia.
    + intros j Hj. unfold playerAt. simpl.
      rewrite !list_lookup_alter_ne by congruence. reflexivity.
  - intros Hlt. unfold performAction, bind, get, throw. rewrite Hp, Hact.
    fold g. fold callAmount.
    destruct (Z.gtb_spec callAmount (chips p)); [reflexivity|lia].
Qed.

Lemma call_pays_the_difference_witness :
  performAction 1 (Scenario.say "P1" Call) Scenario.shortCallState
  = (Scenario.shortCallState, Err InsufficientChipsToCall).
Proof.
  eapply (call_pays_the_difference Scenario.shortCallState
            (Scenario.say "P1" Call) 1).
  - reflexivity.
  - vm_compute. reflexivity.
  - vm_compute. reflexivity.
  - vm_compute. reflexivity.
Defined.

(** C7 as stated fails: with 30 chips and 40 to call, Call is legal by the
    stated precondition (the table's bet 60 exceeds the player's 20) and
    the minimum of the amount to call and the stack is 30, but the engine
    offers Fold and AllIn only, the request is refused, the pot stays at 80
    and the player keeps the 30 chips. *)
Lemma call_short_stack_refused :
  let t := Scenario.shortCallState in
  let r := processPlayerAction (Scenario.say "P1" Call) t in
  (exists p, playerAt (room t) 1 = Some p /\
     currentBet p < tableBet (gameState (room t)) /\
     Z.min (tableBet (gameState (room t)) - currentBet p) (chips p) = 30 /\
     GameManager.getValidActions (room t) = [Fold; AllIn]) /\
  snd r = Err InsufficientChipsToCall /\
  pot (gameState (room (fst r))) = pot (gameState (room t)) /\
  pot (gameState (room (fst r))) <> pot (gameState (room t)) + 30 /\
  (chips <$> playerAt (room (fst r)) 1) = Some 30.
Proof.
  cbv zeta. split.
  - eexists. split; [vm_compute; reflexivity|].
    split; [vm_compute; reflexivity|]. split; [vm_compute; reflexivity|].
    vm_compute. reflexivity.
  - vm_compute. repeat split; discriminate.
Qed.

(** ** Dealing and the blinds *)

Lemma sameButCards_refl p : sameButCards p p.
Proof. destruct p; reflexivity. Qed.

Lemma sameButCards_trans p q r : sameButCards p q -> sameButCards q r -> sameButCards p r.
Proof. unfold sameButCards. intros -> ->. reflexivity. Qed.

Lemma dealRound_same ps : forall d, Forall2 sameButCards ps (fst (dealRound ps d)).
Proof.
  induction ps as [|p ps IH]; intros d; simpl; [constructor|].
  destruct (isActive p && isInHand p).
  - destruct d as [|card d']; simpl.
    + apply Forall2_same_length_lookup_2; [reflexivity|].
      intros i x y Hx Hy. rewrite Hx in Hy. injection Hy as <-.
      apply sameButCards_refl.
    + specialize (IH d'). destruct (dealRound ps d') as [rest' r]. simpl in *.
      constructor; [|exact IH]. reflexivity.
  - specialize (IH d). destruct (dealRound ps d) as [rest' r]. simpl in *.
    constructor; [apply sameButCards_refl|exact IH].
Qed.

Lemma dealHoleCards_same ps d : Forall2 sameButCards ps (fst (dealHoleCards ps d)).
Proof.
  unfold dealHoleCards. pose proof (dealRound_same ps d) as H1.
  destruct (dealRound ps d) as [ps1 [d1|e]]; simpl in *; [|exact H1].
  pose proof (dealRound_same ps1 d1) as H2.
  destruct (dealRound ps1 d1) as [ps2 r]; simpl in *.
  clear -H1 H2. revert ps2 H2.
  induction H1 as [|p q ps ps1 Hpq _ IH]; intros ps2 H2; inversion H2; subst;
    constructor; [eapply sameButCards_trans; eassumption|now apply IH].
Qed.

(** What [postBlind] does for an active player at [index]. *)
Lemma postBlind_active t index nominal flag p :
  playerAt (room t) index = Some p -> isActive p = true ->
  let amount := Z.min nominal (chips p) in
  postBlind index nominal flag t
  = (mkTable
       (mkRoom (alter (afterBlind amount flag) index (players (room t)))
               (set_pot (pot (gameState (room t)) + amount) (gameState (room t)))
               (settings (room t)))
       (deck t), Ok tt).
Proof.
  intros Hp Ha amount. unfold postBlind, bind, get. rewrite Hp, Ha.
  fold amount. reflexivity.
Qed.

Lemma postBlinds_active t ps pb :
  let g := gameState (room t) in
  smallBlindIndex g <> bigBlindIndex g ->
  playerAt (room t) (smallBlindIndex g) = Some ps -> isActive ps = true ->
  playerAt (room t) (bigBlindIndex g) = Some pb -> isActive pb = true ->
  let small := Z.min (smallBlind (settings (room t))) (chips ps) in
  let big := Z.min (bigBlind (settings (room t))) (chips pb) in
  postBlinds t
  = (mkTable
       (mkRoom
          (alter (afterBlind big (set_isBigBlind true)) (bigBlindIndex g)
             (alter (afterBlind small (set_isSmallBlind true)) (smallBlindIndex g)
                (players (room t))))
          (set_pot (pot g + small + big) g)
          (settings (room t)))
       (deck t), Ok tt).
Proof.
  intros g Hne Hs Has Hb Hab small big.
  unfold postBlinds. unfold bind at 1, get. unfold bind at 1.
  rewrite (postBlind_active t _ _ _ ps Hs Has). fold g. fold small.
  erewrite postBlind_active.
  - simpl. fold big. reflexivity.
  - unfold playerAt in *. simpl. fold g.
    rewrite list_lookup_alter_ne by exact Hne. exact Hb.
  - exact Hab.
Qed.

Lemma lookup_map {A B : Type} (f : A -> B) (l : list A) (i : nat) :
  map f l !! i = f <$> (l !! i).
Proof.
  revert i. induction l as [|x l IH]; intros [|i]; simpl; try reflexivity. apply IH.
Qed.

Lemma postBlind_ok index nominal flag t : snd (postBlind index nominal flag t) = Ok tt.
Proof.
  unfold postBlind, bind, get.
  destruct (playerAt (room t) index) as [p|]; [|reflexivity].
  destruct (isActive p); reflexivity.
Qed.

Lemma postBlinds_ok t : snd (postBlinds t) = Ok tt.
Proof.
  unfold postBlinds, bind, get.
  match goal with |- context [postBlind ?i ?n ?f t] =>
    pose proof (postBlind_ok i n f t) as H1;
    destruct (postBlind i n f t) as [t1 r1] end.
  simpl in H1. subst r1.
  match goal with |- context [postBlind ?i ?n ?f t1] =>
    pose proof (postBlind_ok i n f t1) as H2;
    destruct (postBlind i n f t1) as [t2 r2] end.
  exact H2.
Qed.

(** The table on which [startNewHand] posts the blinds: the players reset
    and dealt, the game state reset. *)
Lemma startNewHand_ok shuffled t evs :
  snd (startNewHand shuffled t) = Ok evs ->
  exists ps2 rem g1 t3 idx,
    dealHoleCards (map resetForHand (players (room t))) shuffled = (ps2, Ok rem) /\
    pot g1 = 0 /\ smallBlindIndex g1 = smallBlindIndex (gameState (room t)) /\
    bigBlindIndex g1 = bigBlindIndex (gameState (room t)) /\
    postBlinds (mkTable (mkRoom ps2 g1 (settings (room t))) rem) = (t3, Ok tt) /\
    fst (startNewHand shuffled t)
    = mkTable (mkRoom (players (room t3))
                 (set_currentPlayerIndex idx (gameState (room t3)))
                 (settings (room t3))) (deck t3).
Proof.
  unfold startNewHand, bind, onPlayers, onGameState, setDeck, onRoom, modify,
    get, ret, throw.
  cbn -[postBlinds dealHoleCards getNextActivePlayerIndex].
  destruct (dealHoleCards (map resetForHand (players (room t))) shuffled)
    as [ps2 [rem|e]] eqn:Hdeal;
    cbn -[postBlinds dealHoleCards getNextActivePlayerIndex]; [|discriminate].
  match goal with |- context [postBlinds ?t2] =>
    pose proof (postBlinds_ok t2) as Hr;
    destruct (postBlinds t2) as [t3 r] eqn:Hblinds end.
  simpl in Hr. subst r.
  destruct (players (room t3)) as [|p0 rest] eqn:Hps; [discriminate|].
  intros _. do 5 eexists.
  split; [reflexivity|]. split; [|split; [|split; [|split; [exact Hblinds|]]]];
    [reflexivity|reflexivity|reflexivity|].
  unfold set_gameState. simpl. rewrite ?Hps. reflexivity.
Qed.

Lemma lookup_alter_Some {A : Type} (f : A -> A) (l : list A) (i j : nat) (y : A) :
  alter f i l !! j = Some y -> exists x, l !! j = Some x /\ (y = x \/ y = f x).
Proof.
  destruct (decide (i = j)) as [->|Hne].
  - rewrite list_lookup_alter_eq. destruct (l !! j) as [x|]; simpl; [|discriminate].
    intros [= <-]. eauto.
  - rewrite list_lookup_alter_ne by exact Hne. eauto.
Qed.

Lemma dealt_player (ps ps2 : list Player) shuffled r i p :
  dealHoleCards (map resetForHand ps) shuffled = (ps2, r) ->
  ps !! i = Some p ->
  exists q, ps2 !! i = Some q /\ sameButCards (resetForHand p) q.
Proof.
  intros Hdeal Hp.
  pose proof (dealHoleCards_same (map resetForHand ps) shuffled) as Hsame.
  rewrite Hdeal in Hsame. simpl in Hsame.
  eapply Forall2_lookup_l in Hsame as (q & Hq & Hpq);
    [|rewrite lookup_map, Hp; reflexivity].
  eauto.
Qed.

Lemma dealt_player_inv (ps ps2 : list Player) shuffled r i q :
  dealHoleCards (map resetForHand ps) shuffled = (ps2, r) ->
  ps2 !! i = Some q ->
  exists p, ps !! i = Some p /\ sameButCards (resetForHand p) q.
Proof.
  intros Hdeal Hq.
  pose proof (dealHoleCards_same (map resetForHand ps) shuffled) as Hsame.
  rewrite Hdeal in Hsame. simpl in Hsame.
  eapply Forall2_lookup_r in Hsame as (p' & Hp' & Hpq); [|exact Hq].
  rewrite lookup_map in Hp'. destruct (ps !! i) as [p|]; [|discriminate].
  injection Hp' as <-. eauto.
Qed.

Lemma resetForHand_keeps p :
  chips (resetForHand p) = chips p /\ isActive (resetForHand p) = isActive p /\
  isAllIn (resetForHand p) = isAllIn p.
Proof. unfold resetForHand. destruct (isActive p) eqn:E; simpl; auto. Qed.

(** C8 (as the code behaves).  [startNewHand] posts the small blind and
    the big blind of two different active players: each pays the minimum of
    the nominal blind and the stack, which becomes the player's bet and
    total contribution, and the pot is the sum of the two payments.  No
    player's [isAllIn] flag is written, a short blind included. *)
Theorem startNewHand_posts_capped_blinds (shuffled : list Card) (t : Table)
    (ps pb : Player) (evs : list GameEvent) :
  let g := gameState (room t) in
  smallBlindIndex g <> bigBlindIndex g ->
  playerAt (room t) (smallBlindIndex g) = Some ps -> isActive ps = true ->
  playerAt (room t) (bigBlindIndex g) = Some pb -> isActive pb = true ->
  snd (startNewHand shuffled t) = Ok evs ->
  let small := Z.min (smallBlind (settings (room t))) (chips ps) in
  let big := Z.min (bigBlind (settings (room t))) (chips pb) in
  let t' := fst (startNewHand shuffled t) in
  (exists ps', playerAt (room t') (smallBlindIndex g) = Some ps' /\
     chips ps' = chips ps - small /\ currentBet ps' = small /\
     totalBet ps' = small) /\
  (exists pb', playerAt (room t') (bigBlindIndex g) = Some pb' /\
     chips pb' = chips pb - big /\ currentBet pb' = big /\
     totalBet pb' = big) /\
  pot (gameState (room t')) = small + big /\
  (forall j p', playerAt (room t') j = Some p' ->
     exists p, playerAt (room t) j = Some p /\ isAllIn p' = isAllIn p).
Proof.
  intros g Hne Hs Has Hb Hab Hok small big t'.
  destruct (startNewHand_ok shuffled t evs Hok)
    as (ps2 & rem & g1 & t3 & idx & Hdeal & Hpot & Hsi & Hbi & Hblinds & Ht').
  unfold t'. rewrite Ht'. clear t' Ht'. fold g in Hsi, Hbi.
  unfold playerAt in *.
  destruct (dealt_player _ _ _ _ _ _ Hdeal Hs) as (qs & Hqs & Hsame_s).
  destruct (dealt_player _ _ _ _ _ _ Hdeal Hb) as (qb & Hqb & Hsame_b).
  destruct (resetForHand_keeps ps) as (Hcs & Hacts & _).
  destruct (resetForHand_keeps pb) as (Hcb & Hactb & _).
  assert (Hqs_chips : chips qs = chips ps /\ isActive qs = true).
  { rewrite Hsame_s. simpl. split; congruence. }
  assert (Hqb_chips : chips qb = chips pb /\ isActive qb = true).
  { rewrite Hsame_b. simpl. split; congruence. }
  destruct Hqs_chips as [Hqsc Hqsa]. destruct Hqb_chips as [Hqbc Hqba].
  rewrite postBlinds_active with (ps := qs) (pb := qb) in Hblinds;
    simpl; rewrite ?Hsi, ?Hbi; unfold playerAt; simpl; auto.
  injection Hblinds as <-. simpl. rewrite Hsi, Hbi, Hqsc, Hqbc, Hpot.
  fold small. fold big.
  split; [|split; [|split]].
  - rewrite list_lookup_alter_ne by congruence.
    rewrite list_lookup_alter_eq, Hqs. simpl. eexists. split; [reflexivity|].
    simpl. rewrite Hqsc. auto.
  - rewrite list_lookup_alter_eq, list_lookup_alter_ne, Hqb by exact Hne.
    simpl. eexists. split; [reflexivity|]. simpl. rewrite Hqbc. auto.
  - lia.
  - intros j p' Hp'.
    apply lookup_alter_Some in Hp' as (x & Hx & Hp').
    apply lookup_alter_Some in Hx as (y & Hy & Hx).
    destruct (dealt_player_inv _ _ _ _ _ _ Hdeal Hy) as (p & Hp & Hsame).
    exists p. split; [exact Hp|].
    destruct (resetForHand_keeps p) as (_ & _ & Hflag).
    assert (Hy_flag : isAllIn y = isAllIn p) by (rewrite Hsame; simpl; exact Hflag).
    destruct Hp' as [->| ->], Hx as [->| ->]; simpl; exact Hy_flag.
Qed.

Lemma startNewHand_posts_capped_blinds_witness :
  pot (gameState (room (Scenario.beginHand_short))) = 5 + 20.
Proof.
  edestruct (startNewHand_posts_capped_blinds createDeck
               (fst (prepareNextHand Scenario.shortBlindTable)))
    as (_ & _ & Hpot & _).
  - vm_compute. discriminate.
  - vm_compute. reflexivity.
  - reflexivity.
  - vm_compute. reflexivity.
  - reflexivity.
  - vm_compute. reflexivity.
  - exact Hpot.
Defined.

(** C8 as stated fails: the small blind with 5 chips posts 5 of the nominal
    10 and is left without chips, and [isAllIn] is still [false]. *)
Lemma short_blind_not_flagged :
  exists p, playerAt (room Scenario.beginHand_short) 0 = Some p /\
    isSmallBlind p = true /\
    currentBet p = 5 /\ currentBet p < smallBlind (settings (room Scenario.beginHand_short)) /\
    chips p = 0 /\ isAllIn p = false.
Proof. eexists. split; [vm_compute; reflexivity|]. vm_compute. repeat split. Qed.

(** ** Round completion *)

Lemma filter_canAct ps :
  List.filter (fun p => chips p >? 0) (List.filter isInHand ps) = List.filter canAct ps.
Proof.
  induction ps as [|p ps IH]; simpl; [reflexivity|].
  change (canAct p) with (isInHand p && (chips p >? 0)).
  destruct (isInHand p); simpl; [|exact IH].
  destruct (chips p >? 0); simpl; now rewrite IH.
Qed.

Lemma length_filter_le {A : Type} (f : A -> bool) l :
  (length (List.filter f l) <= length l)%nat.
Proof. induction l as [|x l IH]; simpl; [lia|]. destruct (f x); simpl; lia. Qed.

Lemma allActed_forallb tb ps :
  allActed tb (List.filter isInHand ps)
  = forallb (fun p => match lastAction p with
                      | Some _ => tb <=? currentBet p
                      | None => false
                      end) (List.filter canAct ps).
Proof.
  induction ps as [|p ps IH]; simpl; [reflexivity|].
  change (canAct p) with (isInHand p && (chips p >? 0)).
  destruct (isInHand p); simpl; [|exact IH].
  destruct (chips p >? 0); simpl; [|exact IH].
  destruct (lastAction p); simpl; [|reflexivity].
  rewrite Z.leb_antisym. destruct (currentBet p <? tb); simpl; [reflexivity|exact IH].
Qed.

Lemma shouldAdvanceHand_engineRoundComplete r :
  shouldAdvanceHand r = engineRoundComplete r.
Proof.
  unfold shouldAdvanceHand, engineRoundComplete.
  rewrite filter_canAct, allActed_forallb. fold canAct.
  change (List.filter (fun p => isInHand p && (chips p >? 0)) (players r))
    with (List.filter canAct (players r)).
  destruct (Nat.leb_spec (length (List.filter isInHand (players r))) 1) as [H1|H1].
  - pose proof (length_filter_le (fun p => chips p >? 0)
                  (List.filter isInHand (players r))) as Hle.
    rewrite filter_canAct in Hle.
    destruct (Nat.leb_spec (length (List.filter canAct (players r))) 1); [reflexivity|lia].
  - destruct (Nat.leb_spec (length (List.filter canAct (players r))) 1); reflexivity.
Qed.

(** C9 (as the code behaves).  [shouldAdvanceHand] holds exactly when at
    most one player can still act, or every player who can still act has
    acted and has a bet that is not below the table's.  So a round in
    which three players have checked, each with a bet not below the
    table's as the guard of Check requires, is complete; and a round in
    which two players or more can act and one of them has not acted is not
    complete. *)
Theorem round_complete_iff (r : Room) :
  (shouldAdvanceHand r = true <->
   (length (List.filter canAct (players r)) <= 1)%nat \/
   (forall p, In p (players r) -> isInHand p = true -> 0 < chips p ->
      lastAction p <> None /\ tableBet (gameState r) <= currentBet p)) /\
  (forall p1 p2 p3, players r = [p1; p2; p3] ->
     (forall p, In p (players r) ->
        lastAction p = Some Check /\ tableBet (gameState r) <= currentBet p) ->
     shouldAdvanceHand r = true) /\
  (forall p, In p (players r) -> isInHand p = true -> 0 < chips p ->
     lastAction p = None ->
     (2 <= length (List.filter canAct (players r)))%nat ->
     shouldAdvanceHand r = false).
Proof.
  assert (Hiff : shouldAdvanceHand r = true <->
   (length (List.filter canAct (players r)) <= 1)%nat \/
   (forall p, In p (players r) -> isInHand p = true -> 0 < chips p ->
      lastAction p <> None /\ tableBet (gameState r) <= currentBet p)).
  { rewrite shouldAdvanceHand_engineRoundComplete. unfold engineRoundComplete.
    change (List.filter (fun p => isInHand p && (chips p >? 0)) (players r))
      with (List.filter canAct (players r)).
    rewrite orb_true_iff, Nat.leb_le, forallb_forall.
    split; (intros [Hone|Hall]; [left; exact Hone|right]).
    - intros p Hin Hhand Hchips.
      specialize (Hall p). rewrite filter_In in Hall.
      assert (Hcan : canAct p = true).
      { unfold canAct. rewrite Hhand. simpl. apply Z.gtb_lt. lia. }
      specialize (Hall (conj Hin Hcan)).
      destruct (lastAction p); [|discriminate]. split; [discriminate|].
      apply Z.leb_le, Hall.
    - intros p Hp. apply filter_In in Hp as [Hin Hcan].
      unfold canAct in Hcan. apply andb_true_iff in Hcan as [Hhand Hchips].
      apply Z.gtb_lt in Hchips.
      destruct (Hall p Hin Hhand) as [Hacted Hbet]; [lia|].
      destruct (lastAction p); [|contradiction]. apply Z.leb_le, Hbet. }
  split; [exact Hiff|]. split.
  - intros p1 p2 p3 _ Hchecked. apply Hiff. right.
    intros p Hin _ _. destruct (Hchecked p Hin) as [-> Hbet].
    split; [discriminate|exact Hbet].
  - intros p Hin Hhand Hchips Hnone Htwo.
    apply not_true_is_false. intros E.
    apply Hiff in E as [Hone|Hall]; [lia|].
    destruct (Hall p Hin Hhand Hchips) as [Hacted _]. contradiction.
Qed.

Lemma round_complete_iff_witness :
  shouldAdvanceHand (room Scenario.flopCheckedAround) = true.
Proof.
  eapply (proj1 (proj2 (round_complete_iff (room Scenario.flopCheckedAround)))).
  - vm_compute. reflexivity.
  - assert (Htable : tableBet (gameState (room Scenario.flopCheckedAround)) = 0)
      by (vm_compute; reflexivity).
    assert (H : forallb (fun p =>
                  match lastAction p with
                  | Some Check => 0 <=? currentBet p
                  | _ => false
                  end) (players (room Scenario.flopCheckedAround)) = true)
      by (vm_compute; reflexivity).
    rewrite Htable. clear Htable.
    generalize dependent (players (room Scenario.flopCheckedAround)).
    intros ps H p Hin. rewrite forallb_forall in H. specialize (H p Hin).
    destruct (lastAction p) as [[]|]; try discriminate H.
    split; [reflexivity|]. apply Z.leb_le, H.
Defined.

(** C9 as stated fails: after the third check of the flop every player
    has acted, but the bets of 20 are those of the previous street and the
    table's bet is 0, so condition (b) of the specification, which asks
    for equal bets, does not hold, nor does (a); the engine nevertheless
    completes the round. *)
Lemma stale_bets_complete_round :
  shouldAdvanceHand (room Scenario.flopCheckedAround) = true /\
  specRoundComplete (room Scenario.flopCheckedAround) = false /\
  map (fun p => (lastAction p, currentBet p))
      (players (room Scenario.flopCheckedAround))
  = [(Some Check, 20); (Some Check, 20); (Some Check, 20)] /\
  tableBet (gameState (room Scenario.flopCheckedAround)) = 0.
Proof. vm_compute. repeat split. Qed.

(** ** All-in before the river *)

(** C4 (as the code behaves).  Heads-up before the flop the button moves
    all-in; the big blind is the only player with chips left.
    [processPlayerAction] deals the flop and stops: the hand is still
    active on the flop with the pot undistributed, and it takes three more
    requests of the big blind to reach the showdown. *)
Theorem all_in_advances_one_street :
  let t := Scenario.headsUpAllIn in
  map (fun p => (isInHand p, chips p)) (players (room t)) = [(true, 0); (true, 80)] /\
  shouldAdvanceHand (room t) = true /\
  phase (gameState (room t)) = Flop /\
  length (communityCards (gameState (room t))) = 3%nat /\
  pot (gameState (room t)) = 120 /\
  isHandActive (gameState (room t)) = true /\
  winners (gameState (room t)) = [] /\
  map (fun req => phase (gameState (room (fst (processPlayerAction req t)))))
      [Scenario.say "P1" Check] = [Turn] /\
  phase (gameState (room
    (fold_left (fun t req => fst (processPlayerAction req t))
       [Scenario.say "P1" Check; Scenario.say "P1" Check; Scenario.say "P1" Check] t)))
  = HandComplete.
Proof. vm_compute. repeat split. Qed.

(** ** Side pots *)

(** C1 (as the code behaves).  "B" is all-in for 150, "C" calls 150 and
    "A" is all-in for 50; "A" holds the best hand, "C" the second best and
    "B" the worst.  [processShowdown] hands the whole pot of 350 to "A":
    "A" ends with 350 chips, not the 150 of the first layer, and "C" wins
    nothing, not the 200 of the second layer. *)
Theorem showdown_awards_whole_pot_to_best_hand :
  let before := Scenario.sidePotBeforeShowdown in
  let after := Scenario.sidePotAfterShowdown in
  map (fun p => (id p, totalBet p, chips p)) (players (room before))
  = [("B"%string, 150, 0); ("C"%string, 150, 350); ("A"%string, 50, 0)] /\
  pot (gameState (room before)) = 350 /\
  (exists hB hC hA,
     evaluateHand (Scenario.sevenCards after 0) = Ok hB /\
     evaluateHand (Scenario.sevenCards after 1) = Ok hC /\
     evaluateHand (Scenario.sevenCards after 2) = Ok hA /\
     compareHands hA hC > 0 /\ compareHands hC hB > 0) /\
  phase (gameState (room after)) = HandComplete /\
  winners (gameState (room after)) = ["A"%string] /\
  map (fun p => (id p, chips p)) (players (room after))
  = [("B"%string, 0); ("C"%string, 350); ("A"%string, 350)] /\
  pot (gameState (room after)) = 0.
Proof.
  cbv zeta. split; [vm_compute; reflexivity|]. split; [vm_compute; reflexivity|].
  split.
  - do 3 eexists. split; [vm_compute; reflexivity|].
    split; [vm_compute; reflexivity|]. split; [vm_compute; reflexivity|].
    split; vm_compute; reflexivity.
  - vm_compute. repeat split.
Qed.

(** The Swift helper cuts the same contributions into the two layers of
    the specification: 150 contested by all three and 200 contested by "B"
    and "C". *)
Lemma swift_side_pots :
  SwiftEngine.calculateSidePots Scenario.sidePotSwift
  = [(150, {[ "A"%string; "B"%string; "C"%string ]});
     (200, {[ "B"%string; "C"%string ]})].
Proof. vm_compute. reflexivity. Qed.

(** ** Chip conservation *)

Lemma sumChips_alter f i ps p :
  ps !! i = Some p ->
  sumChips (alter f i ps) = sumChips ps - chips p + chips (f p).
Proof.
  revert i. induction ps as [|q ps IH]; intros [|i]; simpl; try discriminate.
  - intros [= ->]. lia.
  - intros H. specialize (IH i H). unfold alter in IH. lia.
Qed.

Lemma sumTotalBet_alter f i ps p :
  ps !! i = Some p ->
  sumTotalBet (alter f i ps) = sumTotalBet ps - totalBet p + totalBet (f p).
Proof.
  revert i. induction ps as [|q ps IH]; intros [|i]; simpl; try discriminate.
  - intros [= ->]. lia.
  - intros H. specialize (IH i H). unfold alter in IH. lia.
Qed.

Lemma alter_out_of_range {A : Type} (f : A -> A) i (l : list A) :
  l !! i = None -> alter f i l = l.
Proof.
  revert i. induction l as [|x l IH]; intros [|i]; simpl; try discriminate;
    try reflexivity.
  intros H. f_equal. apply IH, H.
Qed.

Lemma sumChips_map f ps :
  (forall p, chips (f p) = chips p) -> sumChips (map f ps) = sumChips ps.
Proof. intros Hf. induction ps as [|p ps IH]; simpl; [reflexivity|]. now rewrite Hf, IH. Qed.

Lemma sumTotalBet_map f ps :
  (forall p, totalBet (f p) = totalBet p) -> sumTotalBet (map f ps) = sumTotalBet ps.
Proof. intros Hf. induction ps as [|p ps IH]; simpl; [reflexivity|]. now rewrite Hf, IH. Qed.

Lemma sumTotalBet_nonneg ps :
  Forall (fun p => 0 <= chips p /\ 0 <= currentBet p <= totalBet p) ps ->
  0 <= sumTotalBet ps.
Proof. induction 1; simpl; lia. Qed.

Lemma Forall_map_keep (P : Player -> Prop) f ps :
  (forall p, P p -> P (f p)) -> Forall P ps -> Forall P (map f ps).
Proof. intros Hf. induction 1; simpl; constructor; auto. Qed.

(** One player and the game state are rewritten: the conditions under
    which the invariant and the chips in play are kept. *)
Lemma rewrite_player_preserves t i p F G :
  handInvariant (room t) ->
  playerAt (room t) i = Some p ->
  chips (F p) + pot G = chips p + pot (gameState (room t)) ->
  totalBet (F p) - totalBet p <= pot G - pot (gameState (room t)) ->
  0 <= chips (F p) -> 0 <= currentBet (F p) <= totalBet (F p) ->
  0 <= tableBet G -> 0 <= minRaise G ->
  phase G = phase (gameState (room t)) ->
  let t' := mkTable (mkRoom (alter F i (players (room t))) G (settings (room t)))
                    (deck t) in
  handInvariant (room t') /\ chipsInPlay t' = chipsInPlay t /\
  phase (gameState (room t')) = phase (gameState (room t)).
Proof.
  intros (Hall & Hbb & Htb & Hmr & Hpot) Hp Hchips Htotal Hc Hb HtG HmG Hphase t'.
  unfold playerAt in Hp. split; [|split; [|exact Hphase]].
  - unfold handInvariant. simpl. repeat split; try assumption.
    + apply Forall_alter; [exact Hall|]. intros x Hx. rewrite Hp in Hx.
      injection Hx as <-. intros _. split; assumption.
    + rewrite Hphase. intros Hnc. specialize (Hpot Hnc).
      rewrite (sumTotalBet_alter F i _ p Hp). lia.
  - unfold chipsInPlay. simpl. rewrite (sumChips_alter F i _ p Hp). lia.
Qed.

Lemma handInvariant_player t i p :
  handInvariant (room t) -> playerAt (room t) i = Some p ->
  0 <= chips p /\ 0 <= currentBet p <= totalBet p.
Proof.
  intros (Hall & _) Hp. unfold playerAt in Hp.
  exact (Forall_lookup_1 _ _ _ _ Hall Hp).
Qed.

Lemma alter_alter {A : Type} (f g : A -> A) i (l : list A) :
  alter f i (alter g i l) = alter (fun x => f (g x)) i l.
Proof.
  revert i. induction l as [|x l IH]; intros [|i]; simpl; try reflexivity.
  f_equal. apply IH.
Qed.

(** The [switch] of [processPlayerAction] keeps the invariant, the chips
    in play and the phase, whether it throws or not. *)
Lemma performAction_preserves i req t :
  handInvariant (room t) ->
  let t' := fst (performAction i req t) in
  handInvariant (room t') /\ chipsInPlay t' = chipsInPlay t /\
  phase (gameState (room t')) = phase (gameState (room t)).
Proof.
  intros Hinv. unfold performAction, bind, get.
  destruct (playerAt (room t) i) as [p|] eqn:Hp; [|simpl; auto].
  destruct (handInvariant_player t i p Hinv Hp) as (Hchips & Hbet0 & Hbet).
  pose proof Hinv as (_ & Hbb & Htb & Hmr & _).
  destruct (action req).
  - (* Fold *)
    unfold onPlayer, onPlayers, onRoom, modify, set_players, set_gameState; simpl.
    rewritten_player rewrite_player_preserves Hinv Hp;
      simpl; try reflexivity; lia.
  - (* Check *)
    destruct (tableBet (gameState (room t)) >? currentBet p); [simpl; auto|].
    unfold onPlayer, onPlayers, onRoom, modify, set_players, set_gameState; simpl.
    rewritten_player rewrite_player_preserves Hinv Hp;
      simpl; try reflexivity; lia.
  - (* Call *)
    destruct (Z.gtb_spec (tableBet (gameState (room t)) - currentBet p) (chips p));
      [simpl; auto|].
    unfold onPlayer, onPlayers, onGameState, onRoom, modify, set_players,
      set_gameState; simpl.
    rewrite alter_alter.
    rewritten_player rewrite_player_preserves Hinv Hp; simpl; try reflexivity; lia.
  - (* Raise *)
    destruct (amount req) as [amt|]; [|simpl; auto].
    destruct (Z.eqb_spec amt 0); [simpl; auto|].
    destruct (Z.ltb_spec amt (minRaise (gameState (room t)))); [simpl; auto|].
    simpl orb. cbv iota.
    destruct (Z.gtb_spec (tableBet (gameState (room t)) + amt - currentBet p) (chips p));
      [simpl; auto|].
    unfold onPlayer, onPlayers, onGameState, onRoom, modify, set_players,
      set_gameState; simpl.
    rewrite alter_alter.
    rewritten_player rewrite_player_preserves Hinv Hp; simpl; try reflexivity; lia.
  - (* AllIn *)
    destruct (Z.gtb_spec (currentBet p + chips p) (tableBet (gameState (room t))));
      unfold onPlayer, onPlayers, onGameState, onRoom, modify, ret, set_players,
        set_gameState; simpl;
      rewrite alter_alter;
      rewritten_player rewrite_player_preserves Hinv Hp; simpl; try reflexivity; lia.
Qed.

(** *** The award of the pot *)

Lemma awardChips_spec sharePerWinner remainder winnerIndexes : forall i ps,
  Forall (fun w => (w < length ps)%nat) winnerIndexes ->
  0 <= sharePerWinner ->
  Forall (fun p => 0 <= chips p /\ 0 <= currentBet p <= totalBet p) ps ->
  let ps' := awardChips sharePerWinner remainder i winnerIndexes ps in
  sumChips ps' = sumChips ps
                 + awarded sharePerWinner remainder i (length winnerIndexes) /\
  sumTotalBet ps' = sumTotalBet ps /\
  Forall (fun p => 0 <= chips p /\ 0 <= currentBet p <= totalBet p) ps'.
Proof.
  induction winnerIndexes as [|w ws IH]; intros i ps Hrange Hshare Hall; simpl.
  - repeat split; [lia|exact Hall].
  - inversion Hrange as [|? ? Hw Hws]; subst.
    destruct (lookup_lt_is_Some_2 ps w Hw) as [p Hp].
    set (extraChip := if i <? remainder then 1 else 0).
    assert (Hextra : 0 <= extraChip) by (unfold extraChip; destruct (i <? remainder); lia).
    set (ps1 := alter (fun p => set_chips (chips p + (sharePerWinner + extraChip)) p) w ps).
    destruct (IH (i + 1) ps1) as (Hsum & Htotal & Hall').
    + unfold ps1. rewrite length_alter. exact Hws.
    + exact Hshare.
    + unfold ps1. apply Forall_alter; [exact Hall|].
      intros x _ [Hx Hb]. simpl. split; [lia|exact Hb].
    + split; [|split; [|exact Hall']].
      * rewrite Hsum. unfold ps1. rewrite (sumChips_alter _ w ps p Hp). simpl. lia.
      * rewrite Htotal. unfold ps1. rewrite (sumTotalBet_alter _ w ps p Hp). simpl. lia.
Qed.

Lemma awarded_closed sharePerWinner remainder n : forall i,
  awarded sharePerWinner remainder i n
  = Z.of_nat n * sharePerWinner + Z.max 0 (Z.min (Z.of_nat n) (remainder - i)).
Proof.
  induction n as [|n IH]; intros i; simpl awarded; [lia|].
  rewrite IH. destruct (Z.ltb_spec i remainder); lia.
Qed.

(** With a pot that is not negative the winners receive the pot, no more
    and no less. *)
Lemma distributePot_spec pot' winnerIndexes ps :
  0 <= pot' ->
  Forall (fun w => (w < length ps)%nat) winnerIndexes ->
  Forall (fun p => 0 <= chips p /\ 0 <= currentBet p <= totalBet p) ps ->
  let '(ps', remainingPot) := distributePot pot' winnerIndexes ps in
  sumChips ps' + remainingPot = sumChips ps + pot' /\
  sumTotalBet ps' = sumTotalBet ps /\
  Forall (fun p => 0 <= chips p /\ 0 <= currentBet p <= totalBet p) ps' /\
  0 <= remainingPot /\
  (winnerIndexes <> [] -> remainingPot = 0).
Proof.
  intros Hpot Hrange Hall. unfold distributePot.
  destruct winnerIndexes as [|w ws] eqn:Hws; simpl Nat.eqb; cbv iota.
  - repeat split; [exact Hall|exact Hpot|congruence].
  - rewrite <- Hws in *. set (n := Z.of_nat (length winnerIndexes)).
    assert (Hn : 0 < n) by (unfold n; rewrite Hws; simpl; lia).
    assert (Hshare : 0 <= pot' / n) by (apply Z.div_pos; lia).
    destruct (awardChips_spec (pot' / n) (Z.rem pot' n) winnerIndexes 0 ps
                Hrange Hshare Hall) as (Hsum & Htotal & Hall').
    split; [|split; [exact Htotal|split; [exact Hall'|split; [lia|reflexivity]]]].
    rewrite Hsum, awarded_closed. fold n.
    rewrite Z.rem_mod_nonneg by lia.
    pose proof (Z.mod_pos_bound pot' n Hn).
    pose proof (Z.div_mod pot' n). lia.
Qed.

(** *** The winners are players of the room *)

Lemma indexed_range ps i p : In (i, p) (indexed ps) -> (i < length ps)%nat.
Proof.
  unfold indexed. intros H. apply in_combine_l in H. apply in_seq in H. lia.
Qed.

Lemma evaluatePlayers_fst communityCards activePlayers : forall hands,
  evaluatePlayers communityCards activePlayers = Ok hands ->
  map fst hands = map fst activePlayers.
Proof.
  induction activePlayers as [|[i p] rest IH]; simpl; intros hands.
  - intros [= <-]. reflexivity.
  - destruct (evaluateHand (holeCards p ++ communityCards)) as [hand|e]; [|discriminate].
    destruct (evaluatePlayers communityCards rest) as [hs|e]; [|discriminate].
    intros [= <-]. simpl. f_equal. now apply IH.
Qed.

Lemma findBest_in playerHands : forall bestHand,
  findBest bestHand playerHands = bestHand \/
  exists ph, In ph playerHands /\ snd ph = findBest bestHand playerHands.
Proof.
  unfold findBest.
  induction playerHands as [|ph rest IH]; intros bestHand; simpl; [now left|].
  destruct (compareHands (snd ph) bestHand >? 0).
  - destruct (IH (snd ph)) as [->|(ph' & Hin & Heq)].
    + right. exists ph. split; [now left|reflexivity].
    + right. exists ph'. split; [now right|exact Heq].
  - destruct (IH bestHand) as [->|(ph' & Hin & Heq)]; [now left|].
    right. exists ph'. split; [now right|exact Heq].
Qed.

Lemma determineWinners_range ps communityCards winnerIndexes bestHand :
  determineWinners ps communityCards = Ok (winnerIndexes, bestHand) ->
  winnerIndexes <> [] /\ Forall (fun w => (w < length ps)%nat) winnerIndexes.
Proof.
  unfold determineWinners.
  set (activePlayers := List.filter (fun ip => isInHand (snd ip)) (indexed ps)).
  assert (Hactive : forall i, In i (map fst activePlayers) -> (i < length ps)%nat).
  { intros i Hi. apply in_map_iff in Hi as ([i' p] & <- & Hin).
    apply filter_In in Hin as [Hin _]. apply (indexed_range ps i' p Hin). }
  assert (Hmany : match evaluatePlayers communityCards activePlayers with
                  | Err e => Err e
                  | Ok [] => Err NoActivePlayers
                  | Ok ((i0, hand0) :: more) =>
                      Ok (map fst (List.filter
                                     (fun ph => compareHands (snd ph)
                                                  (findBest hand0 more) =? 0)
                                     ((i0, hand0) :: more)),
                          findBest hand0 more)
                  end = Ok (winnerIndexes, bestHand) ->
          winnerIndexes <> [] /\ Forall (fun w => (w < length ps)%nat) winnerIndexes).
  { destruct (evaluatePlayers communityCards activePlayers) as [hands|e] eqn:Heval;
      [|discriminate].
    apply evaluatePlayers_fst in Heval.
    destruct hands as [|[i0 hand0] more]; [discriminate|].
    set (kept := List.filter
                   (fun ph => compareHands (snd ph) (findBest hand0 more) =? 0)
                   ((i0, hand0) :: more)).
    intros Hres. injection Hres as <- <-. split.
    - assert (Hbest : exists ph, In ph ((i0, hand0) :: more) /\
                                 snd ph = findBest hand0 more).
      { destruct (findBest_in more hand0) as [Heq|(ph & Hin & Heq)].
        - exists (i0, hand0). split; [now left|symmetry; exact Heq].
        - exists ph. split; [now right|exact Heq]. }
      destruct Hbest as (ph & Hin & Heq).
      assert (Hkept : In ph kept).
      { apply filter_In. split; [exact Hin|].
        rewrite Heq, compareHands_refl. reflexivity. }
      intros Hnil. apply (in_map fst) in Hkept. rewrite Hnil in Hkept. destruct Hkept.
    - apply List.Forall_forall. intros w Hw. apply Hactive. rewrite <- Heval.
      apply in_map_iff in Hw as (ph & <- & Hph). apply filter_In in Hph as [Hph _].
      apply in_map, Hph. }
  destruct activePlayers as [|[i p] [|ip2 rest]] eqn:Hlist.
  - discriminate.
  - destruct (evaluateHand (holeCards p ++ communityCards)); [|discriminate].
    intros [= <- <-]. split; [discriminate|].
    constructor; [|constructor]. apply Hactive. now left.
  - exact Hmany.
Qed.

(** *** Showdown and phase advance *)

Lemma steady_preserves t t' :
  steady t t' -> handInvariant (room t) ->
  0 <= tableBet (gameState (room t')) -> 0 <= minRaise (gameState (room t')) ->
  (isComplete (phase (gameState (room t'))) = false ->
   isComplete (phase (gameState (room t))) = false) ->
  handInvariant (room t') /\ chipsInPlay t' = chipsInPlay t.
Proof.
  intros (Hc & Ht & Hall & Hpot & Hset) (Hall0 & Hbb & _ & _ & Hinv) Htb Hmr Hphase.
  split.
  - unfold handInvariant. rewrite Hset, Ht, Hpot. repeat split; auto.
  - unfold chipsInPlay. rewrite Hc, Hpot. reflexivity.
Qed.

Lemma steady_same_players t t' :
  players (room t') = players (room t) ->
  pot (gameState (room t')) = pot (gameState (room t)) ->
  settings (room t') = settings (room t) ->
  steady t t'.
Proof. intros Hp Hpot Hset. unfold steady. rewrite Hp. auto. Qed.

Lemma steady_map t t' f :
  (forall p, chips (f p) = chips p /\ currentBet (f p) = currentBet p /\
             totalBet (f p) = totalBet p) ->
  players (room t') = map f (players (room t)) ->
  pot (gameState (room t')) = pot (gameState (room t)) ->
  settings (room t') = settings (room t) ->
  steady t t'.
Proof.
  intros Hf Hp Hpot Hset. unfold steady. rewrite Hp.
  split; [apply sumChips_map; intros p; apply Hf|].
  split; [apply sumTotalBet_map; intros p; apply Hf|].
  split; [|auto].
  apply Forall_map_keep. intros p. destruct (Hf p) as (-> & -> & ->). auto.
Qed.

Lemma processShowdown_preserves t :
  handInvariant (room t) ->
  isComplete (phase (gameState (room t))) = false ->
  let t' := fst (processShowdown t) in
  handInvariant (room t') /\ chipsInPlay t' = chipsInPlay t /\
  (isComplete (phase (gameState (room t'))) = true ->
   pot (gameState (room t')) = 0).
Proof.
  intros Hinv Hphase. pose proof Hinv as (Hall & Hbb & Htb & Hmr & Hpot).
  specialize (Hpot Hphase).
  pose proof (sumTotalBet_nonneg _ Hall) as Hnonneg.
  unfold processShowdown, bind, get, lift.
  destruct (determineWinners (players (room t))
              (communityCards (gameState (room t))))
    as [[winnerIndexes bestHand]|e] eqn:Hwin.
  2: { simpl. split; [exact Hinv|]. split; [reflexivity|].
       rewrite Hphase. discriminate. }
  destruct (determineWinners_range _ _ _ _ Hwin) as [Hsome Hrange].
  pose proof (distributePot_spec (pot (gameState (room t))) winnerIndexes
                (players (room t))) as Hdist.
  destruct (distributePot (pot (gameState (room t))) winnerIndexes
              (players (room t))) as [ps' remainingPot].
  destruct Hdist as (Hsum & Htotal & Hall' & Hrem0 & Hrem); [lia|exact Hrange|exact Hall|].
  specialize (Hrem Hsome). subst remainingPot.
  unfold onGameState, onPlayers, onRoom, modify, ret, set_players, set_gameState.
  simpl. split; [|split; [|reflexivity]].
  - unfold handInvariant. simpl. repeat split; try assumption. discriminate.
  - unfold chipsInPlay. simpl. lia.
Qed.

Lemma quiet_preserves t t' :
  quiet t t' -> handInvariant (room t) ->
  (isComplete (phase (gameState (room t'))) = false ->
   isComplete (phase (gameState (room t))) = false) ->
  handInvariant (room t') /\ chipsInPlay t' = chipsInPlay t.
Proof.
  intros (Hst & Htb & Hmr) Hinv Hphase.
  apply (steady_preserves t t' Hst Hinv); [| |exact Hphase].
  - rewrite Htb. apply Hinv.
  - rewrite Hmr. apply Hinv.
Qed.

Lemma quiet_same_players t t' :
  players (room t') = players (room t) ->
  pot (gameState (room t')) = pot (gameState (room t)) ->
  settings (room t') = settings (room t) ->
  tableBet (gameState (room t')) = tableBet (gameState (room t)) ->
  minRaise (gameState (room t')) = minRaise (gameState (room t)) ->
  quiet t t'.
Proof.
  intros Hp Hpot Hset Htb Hmr. split; [|split; assumption].
  apply steady_same_players; assumption.
Qed.

Lemma setNextActor_quiet events t :
  let t' := fst (setNextActor events t) in
  quiet t t' /\ phase (gameState (room t')) = phase (gameState (room t)).
Proof.
  unfold setNextActor, bind, get, onGameState, onRoom, modify, ret.
  destruct (negb (isShowdown (phase (gameState (room t))))); simpl;
    (split; [apply quiet_same_players|]); reflexivity.
Qed.

Lemma dealStreet_quiet next count t :
  let t' := fst (dealStreet next count t) in
  quiet t t' /\ phase (gameState (room t')) = next.
Proof.
  unfold dealStreet, bind, get, onGameState, onRoom, modify, ret, lift, setDeck.
  simpl. destruct (dealCommunityCards (deck t) count true) as [[dealt rem]|e];
    simpl; (split; [apply quiet_same_players|]); reflexivity.
Qed.

Lemma fst_bind {A B : Type} (m : M A) (k : A -> M B) t :
  fst (bind m k t)
  = match m t with
    | (t1, Ok a) => fst (k a t1)
    | (t1, Err _) => t1
    end.
Proof. unfold bind. destruct (m t) as [t1 [a|e]]; reflexivity. Qed.

Lemma advanceHand_unfold t :
  advanceHand t
  = match phase (gameState (room t)) with
    | PreFlop => bind (dealStreet Flop 3) setNextActor
    | Flop => bind (dealStreet Turn 1) setNextActor
    | Turn => bind (dealStreet River 1) setNextActor
    | River => bind (onGameState (set_phase Showdown)) (fun _ => processShowdown)
    | _ => setNextActor []
    end (afterReset t).
Proof. reflexivity. Qed.

Lemma afterReset_preserves t :
  handInvariant (room t) ->
  handInvariant (room (afterReset t)) /\
  chipsInPlay (afterReset t) = chipsInPlay t /\
  phase (gameState (room (afterReset t))) = phase (gameState (room t)).
Proof.
  intros Hinv. pose proof Hinv as (_ & Hbb & _).
  assert (Hst : steady t (afterReset t)).
  { eapply steady_map; [|reflexivity|reflexivity|reflexivity].
    intros p. simpl. destruct (isInHand p); simpl; auto. }
  destruct (steady_preserves t (afterReset t) Hst Hinv) as [H1 H2];
    [simpl; lia|exact Hbb|auto|].
  split; [exact H1|split; [exact H2|reflexivity]].
Qed.

Lemma street_preserves next count t :
  handInvariant (room t) ->
  isComplete (phase (gameState (room t))) = false ->
  isComplete next = false ->
  let t' := fst (bind (dealStreet next count) setNextActor t) in
  handInvariant (room t') /\ chipsInPlay t' = chipsInPlay t /\
  isComplete (phase (gameState (room t'))) = false.
Proof.
  intros Hinv Hphase Hnext. cbv zeta. rewrite fst_bind.
  pose proof (dealStreet_quiet next count t) as [Hq1 Hp1].
  destruct (dealStreet next count t) as [t1 [events|e]]; simpl fst in *.
  - destruct (quiet_preserves t t1 Hq1 Hinv) as [Hinv1 Hchips1]; [auto|].
    pose proof (setNextActor_quiet events t1) as [Hq2 Hp2].
    destruct (quiet_preserves t1 _ Hq2 Hinv1) as [Hinv2 Hchips2].
    + rewrite Hp2, Hp1. auto.
    + rewrite Hp2, Hp1. split; [exact Hinv2|split; [congruence|exact Hnext]].
  - destruct (quiet_preserves t t1 Hq1 Hinv) as [Hinv1 Hchips1]; [auto|].
    rewrite Hp1. split; [exact Hinv1|split; [exact Hchips1|exact Hnext]].
Qed.

Lemma showdown_preserves t :
  handInvariant (room t) ->
  isComplete (phase (gameState (room t))) = false ->
  let t' := fst (bind (onGameState (set_phase Showdown)) (fun _ => processShowdown) t) in
  handInvariant (room t') /\ chipsInPlay t' = chipsInPlay t /\
  (isComplete (phase (gameState (room t'))) = true ->
   pot (gameState (room t')) = 0).
Proof.
  intros Hinv Hphase. cbv zeta. rewrite fst_bind.
  set (ts := mkTable (set_gameState (set_phase Showdown (gameState (room t))) (room t))
                     (deck t)).
  change (onGameState (set_phase Showdown) t) with (ts, Ok tt). cbv iota beta.
  assert (Hq : quiet t ts) by (apply quiet_same_players; reflexivity).
  destruct (quiet_preserves t ts Hq Hinv) as [Hinvs Hchipss]; [auto|].
  destruct (processShowdown_preserves ts Hinvs) as (H1 & H2 & H3); [reflexivity|].
  split; [exact H1|split; [congruence|exact H3]].
Qed.

Lemma advanceHand_preserves t :
  handInvariant (room t) ->
  let t' := fst (advanceHand t) in
  handInvariant (room t') /\ chipsInPlay t' = chipsInPlay t /\
  (isComplete (phase (gameState (room t'))) = true ->
   isComplete (phase (gameState (room t))) = true \/
   pot (gameState (room t')) = 0).
Proof.
  intros Hinv. cbv zeta. rewrite advanceHand_unfold.
  destruct (afterReset_preserves t Hinv) as (Hinva & Hchipsa & Hpha).
  assert (Hdeal : forall next count,
    isComplete (phase (gameState (room t))) = false -> isComplete next = false ->
    let t' := fst (bind (dealStreet next count) setNextActor (afterReset t)) in
    handInvariant (room t') /\ chipsInPlay t' = chipsInPlay t /\
    (isComplete (phase (gameState (room t'))) = true ->
     isComplete (phase (gameState (room t))) = true \/
     pot (gameState (room t')) = 0)).
  { intros next count Hphase Hnext.
    destruct (street_preserves next count (afterReset t) Hinva) as (H1 & H2 & H3);
      [rewrite Hpha; exact Hphase|exact Hnext|].
    cbv zeta. split; [exact H1|split; [congruence|]].
    rewrite H3. discriminate. }
  assert (Hidle :
    let t' := fst (setNextActor [] (afterReset t)) in
    handInvariant (room t') /\ chipsInPlay t' = chipsInPlay t /\
    (isComplete (phase (gameState (room t'))) = true ->
     isComplete (phase (gameState (room t))) = true \/
     pot (gameState (room t')) = 0)).
  { pose proof (setNextActor_quiet [] (afterReset t)) as [Hq Hp].
    destruct (quiet_preserves (afterReset t) _ Hq Hinva) as [H1 H2].
    - rewrite Hp. auto.
    - cbv zeta. split; [exact H1|split; [congruence|]].
      rewrite Hp, Hpha. auto. }
  destruct (phase (gameState (room t))) eqn:Hph;
    try exact Hidle; try (apply Hdeal; reflexivity).
  destruct (showdown_preserves (afterReset t) Hinva) as (H1 & H2 & H3);
    [rewrite Hpha; reflexivity|].
  split; [exact H1|split; [congruence|]]. intros Hc. right. exact (H3 Hc).
Qed.

(** *** One request *)

Lemma fst_bind_ret {A B : Type} (m : M A) (f : A -> B) t :
  fst (bind m (fun a => ret (f a)) t) = fst (m t).
Proof. unfold bind, ret. destruct (m t) as [t1 [a|e]]; reflexivity. Qed.

Lemma processPlayerAction_preserves req t :
  handInvariant (room t) ->
  let t' := fst (processPlayerAction req t) in
  handInvariant (room t') /\ chipsInPlay t' = chipsInPlay t /\
  (isComplete (phase (gameState (room t'))) = true ->
   isComplete (phase (gameState (room t))) = true \/
   pot (gameState (room t')) = 0).
Proof.
  intros Hinv. cbv zeta.
  remember (fst (processPlayerAction req t)) as t' eqn:Ht'.
  unfold processPlayerAction in Ht'. rewrite fst_bind in Ht'.
  unfold get at 1 in Ht'. cbv iota beta in Ht'.
  destruct (findPlayer (players (room t)) (playerId req) 0) as [[i player]|];
    [|subst t'; simpl; auto].
  destruct (negb (isInHand player)
            || negb (currentPlayerIndex (gameState (room t)) =? i)%nat);
    [subst t'; simpl; auto|].
  rewrite fst_bind in Ht'.
  destruct (performAction_preserves i req t Hinv) as (Hinv1 & Hchips1 & Hphase1).
  destruct (performAction i req t) as [t1 [[]|e]]; simpl fst in *.
  2: { subst t'. split; [exact Hinv1|split; [exact Hchips1|]]. rewrite Hphase1. auto. }
  rewrite fst_bind in Ht'. unfold get at 1 in Ht'. cbv iota beta in Ht'.
  destruct (shouldAdvanceHand (room t1)).
  - rewrite fst_bind_ret in Ht'. subst t'.
    destruct (advanceHand_preserves t1 Hinv1) as (H1 & H2 & H3).
    split; [exact H1|split; [congruence|]].
    rewrite <- Hphase1. exact H3.
  - assert (Hq : quiet t1 t') by (subst t'; apply quiet_same_players; reflexivity).
    assert (Hp : phase (gameState (room t')) = phase (gameState (room t1)))
      by (subst t'; reflexivity).
    clear Ht'.
    destruct (quiet_preserves t1 t' Hq Hinv1) as [H1 H2]; [rewrite Hp; auto|].
    split; [exact H1|split; [congruence|]]. rewrite Hp, Hphase1. auto.
Qed.

Lemma requests_preserve reqs : forall t,
  handInvariant (room t) ->
  let t' := fold_left (fun t req => fst (processPlayerAction req t)) reqs t in
  handInvariant (room t') /\ chipsInPlay t' = chipsInPlay t.
Proof.
  induction reqs as [|req reqs IH]; intros t Hinv; simpl; [auto|].
  destruct (processPlayerAction_preserves req t Hinv) as (H1 & H2 & _).
  destruct (IH _ H1) as [H3 H4]. split; [exact H3|congruence].
Qed.

(** ** One call advances one street at most *)

Lemma performAction_phase i req t :
  phase (gameState (room (fst (performAction i req t))))
  = phase (gameState (room t)).
Proof.
  unfold performAction, bind, get.
  destruct (playerAt (room t) i) as [p|]; [|reflexivity].
  destruct (action req).
  - reflexivity.
  - destruct (tableBet (gameState (room t)) >? currentBet p); reflexivity.
  - destruct (tableBet (gameState (room t)) - currentBet p >? chips p); reflexivity.
  - destruct (amount req) as [amt|]; [|reflexivity].
    destruct ((amt =? 0) || (amt <? minRaise (gameState (room t)))); [reflexivity|].
    destruct (tableBet (gameState (room t)) + amt - currentBet p >? chips p);
      reflexivity.
  - destruct (currentBet p + chips p >? tableBet (gameState (room t))); reflexivity.
Qed.

(** Whatever the request and the table, a request processed before the
    flop leaves the hand before the flop or on the flop: no single call
    deals the turn and the river or runs the showdown. *)
Lemma preflop_request_stops_at_flop req t :
  phase (gameState (room t)) = PreFlop ->
  let t' := fst (processPlayerAction req t) in
  phase (gameState (room t')) = PreFlop \/ phase (gameState (room t')) = Flop.
Proof.
  intros Hphase. cbv zeta.
  remember (fst (processPlayerAction req t)) as t' eqn:Ht'.
  unfold processPlayerAction in Ht'. rewrite fst_bind in Ht'.
  unfold get at 1 in Ht'. cbv iota beta in Ht'.
  destruct (findPlayer (players (room t)) (playerId req) 0) as [[i player]|];
    [|subst t'; left; exact Hphase].
  destruct (negb (isInHand player)
            || negb (currentPlayerIndex (gameState (room t)) =? i)%nat);
    [subst t'; left; exact Hphase|].
  rewrite fst_bind in Ht'.
  pose proof (performAction_phase i req t) as Hp1. rewrite Hphase in Hp1.
  destruct (performAction i req t) as [t1 [[]|e]]; simpl fst in *;
    [|subst t'; left; exact Hp1].
  rewrite fst_bind in Ht'. unfold get at 1 in Ht'. cbv iota beta in Ht'.
  destruct (shouldAdvanceHand (room t1)).
  - rewrite fst_bind_ret, advanceHand_unfold in Ht'.
    change (phase (gameState (room t1))) with
      (phase (gameState (room (afterReset t1)))) in Hp1.
    replace (phase (gameState (room t1))) with PreFlop in Ht'.
    rewrite fst_bind in Ht'.
    pose proof (dealStreet_quiet Flop 3 (afterReset t1)) as [_ Hp2].
    destruct (dealStreet Flop 3 (afterReset t1)) as [t2 [events|e]];
      simpl fst in *; [|subst t'; right; exact Hp2].
    pose proof (setNextActor_quiet events t2) as [_ Hp3].
    subst t'. right. rewrite Hp3. exact Hp2.
  - subst t'. left. exact Hp1.
Qed.

(** ** A single best hand takes the whole pot *)

(** When one player holds the best hand of those in the hand,
    [processShowdown] adds the whole pot to that player's stack, whatever
    the players contributed. *)
Lemma single_winner_takes_pot t w bestHand p :
  determineWinners (players (room t)) (communityCards (gameState (room t)))
  = Ok ([w], bestHand) ->
  playerAt (room t) w = Some p ->
  let t' := fst (processShowdown t) in
  playerAt (room t') w = Some (set_chips (chips p + pot (gameState (room t))) p) /\
  pot (gameState (room t')) = 0 /\
  forall j, j <> w -> playerAt (room t') j = playerAt (room t) j.
Proof.
  intros Hwin Hp. unfold processShowdown, bind, get, lift. rewrite Hwin.
  unfold distributePot. simpl length. simpl Nat.eqb. cbv iota.
  unfold onGameState, onPlayers, onRoom, modify, ret, set_players, set_gameState.
  simpl. unfold playerAt in *. simpl.
  rewrite Z.div_1_r, Z.rem_1_r. simpl.
  split; [|split; [reflexivity|]].
  - rewrite list_lookup_alter_eq, Hp. simpl. do 2 f_equal. lia.
  - intros j Hj. rewrite list_lookup_alter_ne by congruence. reflexivity.
Qed.

(** *** The start of a hand *)

Lemma sameButCards_sums l l' :
  Forall2 sameButCards l l' ->
  sumChips l' = sumChips l /\ sumTotalBet l' = sumTotalBet l /\
  (Forall unbet l -> Forall unbet l').
Proof.
  induction 1 as [|p q l l' Hpq _ IH]; simpl; [auto|].
  destruct IH as (Hc & Ht & Hall). rewrite Hpq. simpl.
  split; [lia|split; [lia|]].
  intros Hu. inversion Hu as [|? ? Hp Hl]; subst.
  constructor; [exact Hp|apply Hall, Hl].
Qed.

Lemma resetForHand_unbet ps :
  Forall unbet ps ->
  Forall unbet (map resetForHand ps) /\
  sumChips (map resetForHand ps) = sumChips ps.
Proof.
  intros Hall. split.
  - apply Forall_map_keep; [|exact Hall].
    intros p (Hc & Hb & Ht). unfold resetForHand.
    destruct (isActive p); simpl; repeat split; assumption.
  - apply sumChips_map. intros p. apply resetForHand_keeps.
Qed.

Lemma unbet_sums ps :
  Forall unbet ps ->
  sumTotalBet ps = 0 /\
  Forall (fun p => 0 <= chips p /\ 0 <= currentBet p <= totalBet p) ps.
Proof.
  induction 1 as [|p ps (Hc & Hb & Ht) _ (IH1 & IH2)]; simpl; [auto|].
  split; [lia|]. constructor; [lia|exact IH2].
Qed.

Lemma postBlind_preserves index nominal flag t :
  (forall p, chips (flag p) = chips p /\ currentBet (flag p) = currentBet p /\
             totalBet (flag p) = totalBet p) ->
  0 <= nominal ->
  handInvariant (room t) ->
  let t' := fst (postBlind index nominal flag t) in
  handInvariant (room t') /\ chipsInPlay t' = chipsInPlay t /\
  phase (gameState (room t')) = phase (gameState (room t)).
Proof.
  intros Hflag Hnom Hinv. unfold postBlind, bind, get.
  destruct (playerAt (room t) index) as [p|] eqn:Hp; [|simpl; auto].
  destruct (isActive p); [|simpl; auto].
  destruct (handInvariant_player t index p Hinv Hp) as (Hchips & Hbet0 & Hbet).
  pose proof Hinv as (_ & _ & Htb & Hmr & _).
  unfold onPlayer, onPlayers, onGameState, onRoom, modify, set_players,
    set_gameState; simpl.
  rewritten_player rewrite_player_preserves Hinv Hp; simpl;
    repeat match goal with
    | |- context [flag ?x] =>
        let E1 := fresh in let E2 := fresh in let E3 := fresh in
        destruct (Hflag x) as (E1 & E2 & E3); rewrite ?E1, ?E2, ?E3;
        clear E1 E2 E3
    end; simpl; try reflexivity; lia.
Qed.

Lemma postBlinds_preserves t :
  0 <= smallBlind (settings (room t)) -> 0 <= bigBlind (settings (room t)) ->
  handInvariant (room t) ->
  let t' := fst (postBlinds t) in
  handInvariant (room t') /\ chipsInPlay t' = chipsInPlay t /\
  phase (gameState (room t')) = phase (gameState (room t)).
Proof.
  intros Hsb Hbb Hinv. cbv zeta.
  remember (fst (postBlinds t)) as t' eqn:Ht'.
  unfold postBlinds in Ht'. rewrite fst_bind in Ht'.
  unfold get at 1 in Ht'. cbv iota beta in Ht'. rewrite fst_bind in Ht'.
  destruct (postBlind_preserves (smallBlindIndex (gameState (room t)))
              (smallBlind (settings (room t))) (set_isSmallBlind true) t)
    as (H1 & H2 & H3); [intros p; simpl; auto|exact Hsb|exact Hinv|].
  pose proof (postBlind_ok (smallBlindIndex (gameState (room t)))
                (smallBlind (settings (room t))) (set_isSmallBlind true) t) as Hok.
  destruct (postBlind (smallBlindIndex (gameState (room t)))
              (smallBlind (settings (room t))) (set_isSmallBlind true) t)
    as [t1 r]. simpl in Hok, H1, H2, H3. subst r.
  destruct (postBlind_preserves (bigBlindIndex (gameState (room t)))
              (bigBlind (settings (room t))) (set_isBigBlind true) t1)
    as (H4 & H5 & H6); [intros p; simpl; auto|exact Hbb|exact H1|].
  cbv beta iota in Ht'. subst t'. split; [exact H4|split; congruence].
Qed.

Lemma startNewHand_unfold shuffled t :
  startNewHand shuffled t
  = match dealHoleCards (players (room (afterHandReset shuffled t))) shuffled with
    | (ps, Err e) => bind (onPlayers (fun _ => ps)) (fun _ => throw e)
    | (ps, Ok remainingDeck) =>
        onPlayers (fun _ => ps) ;;;
        setDeck remainingDeck ;;;
        postBlinds ;;;
        t2 <- get ;;
        match players (room t2) with
        | [] => throw UndefinedPlayer
        | _ :: _ =>
            let g := gameState (room t2) in
            onGameState (set_currentPlayerIndex
              (getNextActivePlayerIndex (bigBlindIndex g) (length (players (room t2)))
                 (test (room t2) (fun p => isActive p && isInHand p)))) ;;;
            ret [HandStarted (handNumber g) (dealerIndex g)
                   (smallBlind (settings (room t2))) (bigBlind (settings (room t2)))]
        end
    end (afterHandReset shuffled t).
Proof. reflexivity. Qed.

(** [startNewHand] on players without bets: the invariant holds on the
    table it leaves, and the chips in play are the stacks it found. *)
Lemma startNewHand_establishes shuffled t :
  Forall unbet (players (room t)) ->
  0 <= smallBlind (settings (room t)) -> 0 <= bigBlind (settings (room t)) ->
  let t' := fst (startNewHand shuffled t) in
  handInvariant (room t') /\ chipsInPlay t' = sumChips (players (room t)).
Proof.
  intros Hall Hsb Hbb. cbv zeta.
  remember (fst (startNewHand shuffled t)) as t' eqn:Ht'.
  rewrite startNewHand_unfold in Ht'.
  destruct (resetForHand_unbet _ Hall) as [Hreset Hresetsum].
  pose proof (dealHoleCards_same (map resetForHand (players (room t))) shuffled)
    as Hsame.
  change (players (room (afterHandReset shuffled t)))
    with (map resetForHand (players (room t))) in Ht'.
  destruct (dealHoleCards (map resetForHand (players (room t))) shuffled)
    as [ps r]. simpl in Hsame.
  destruct (sameButCards_sums _ _ Hsame) as (Hc & Ht & Hu).
  specialize (Hu Hreset). destruct (unbet_sums ps Hu) as [Hzero Hbounds].
  assert (Hdealt : forall d,
    let td := mkTable (mkRoom ps (gameState (room (afterHandReset shuffled t)))
                         (settings (room t))) d in
    handInvariant (room td) /\ chipsInPlay td = sumChips (players (room t))).
  { intros d. split.
    - unfold handInvariant. simpl. repeat split; try assumption. lia.
    - unfold chipsInPlay. simpl. lia. }
  destruct r as [remainingDeck|e].
  - rewrite fst_bind in Ht'. unfold onPlayers at 1, onRoom, modify in Ht'.
    cbv iota beta in Ht'.
    rewrite fst_bind in Ht'. unfold setDeck at 1, modify in Ht'.
    cbv iota beta in Ht'. unfold set_players in Ht'. simpl room in Ht'.
    simpl deck in Ht'. simpl gameState in Ht'. simpl settings in Ht'.
    destruct (Hdealt remainingDeck) as [Hinvd Hchipsd].
    rewrite fst_bind in Ht'.
    match type of Ht' with context [postBlinds ?td] =>
      destruct (postBlinds_preserves td Hsb Hbb Hinvd) as (H1 & H2 & H3);
      pose proof (postBlinds_ok td) as Hok;
      destruct (postBlinds td) as [t2 r2]
    end.
    simpl in Hok, H1, H2, H3. subst r2.
    rewrite fst_bind in Ht'. unfold get at 1 in Ht'. cbv iota beta in Ht'.
    destruct (players (room t2)) as [|p0 rest] eqn:Hps.
    + subst t'. simpl. split; [exact H1|rewrite H2; exact Hchipsd].
    + assert (Hq : quiet t2 t') by (subst t'; apply quiet_same_players; reflexivity).
      clear Ht'.
      destruct (quiet_preserves t2 t' Hq H1) as [H4 H5];
        [rewrite H3; reflexivity|].
      split; [exact H4|rewrite H5, H2; exact Hchipsd].
  - rewrite fst_bind in Ht'. unfold onPlayers at 1, onRoom, modify in Ht'.
    cbv iota beta in Ht'. subst t'. simpl. exact (Hdealt shuffled).
Qed.

Lemma sumChips_alter_keep f i ps :
  (forall p, chips (f p) = chips p) -> sumChips (alter f i ps) = sumChips ps.
Proof.
  intros Hf. destruct (ps !! i) as [p|] eqn:Hp.
  - rewrite (sumChips_alter f i ps p Hp), Hf. lia.
  - now rewrite alter_out_of_range.
Qed.

Lemma prepareNextHand_resets t :
  Forall (fun p => 0 <= chips p) (players (room t)) ->
  let t1 := fst (prepareNextHand t) in
  Forall unbet (players (room t1)) /\
  sumChips (players (room t1)) = sumChips (players (room t)) /\
  settings (room t1) = settings (room t).
Proof.
  intros Hall. cbv zeta.
  remember (fst (prepareNextHand t)) as t1 eqn:Ht1.
  unfold prepareNextHand in Ht1. rewrite fst_bind in Ht1.
  unfold get at 1 in Ht1. cbv iota beta in Ht1.
  destruct (players (room t)) as [|p0 rest] eqn:Hps.
  - subst t1. simpl. rewrite Hps. repeat split. constructor.
  - rewrite <- Hps in *. cbv zeta in Ht1.
    unfold bind, onGameState, onPlayers, onPlayer, onPlayers, onRoom, modify,
      set_players, set_gameState in Ht1.
    simpl in Ht1. subst t1. simpl. split; [|split; [|reflexivity]].
    + apply Forall_alter.
      * clear -Hall. revert Hall. generalize (players (room t)).
        intros ps Hall. induction Hall as [|p ps Hp _ IH]; simpl; constructor;
          [|exact IH].
        unfold unbet. simpl. auto.
      * intros p _ (Hc & Hb & Ht). unfold unbet. simpl. auto.
    + rewrite sumChips_alter_keep by reflexivity.
      apply sumChips_map. reflexivity.
Qed.

(** X21.  When the stacks, the blinds and the amounts of the requests are
    whole numbers: whatever the room (with no negative stack or blind), the
    deck and the requests, after [prepareNextHand], [startNewHand] and any
    sequence of requests, refused ones included, the stacks and the pot add
    up to the stacks the hand started with.  And when a request completes
    the hand, the pot is empty afterwards and the stacks have grown by
    exactly the pot. *)
Theorem chip_conservation (t : Table) (shuffled : list Card)
    (reqs : list PlayerActionRequest) :
  sane (room t) ->
  let s := playHand shuffled reqs t in
  chipsInPlay s = sumChips (players (room t)) /\
  forall req,
    let s' := fst (processPlayerAction req s) in
    isComplete (phase (gameState (room s))) = false ->
    isComplete (phase (gameState (room s'))) = true ->
    pot (gameState (room s')) = 0 /\
    sumChips (players (room s'))
    = sumChips (players (room s)) + pot (gameState (room s)).
Proof.
  intros (Hchips & Hsb & Hbb). cbv zeta.
  destruct (prepareNextHand_resets t Hchips) as (Hunbet & Hsum & Hset).
  destruct (startNewHand_establishes shuffled (fst (prepareNextHand t)) Hunbet)
    as [Hinv0 Hchips0]; [rewrite Hset; exact Hsb|rewrite Hset; exact Hbb|].
  destruct (requests_preserve reqs (beginHand shuffled t) Hinv0) as [Hinv Hsame].
  fold (playHand shuffled reqs t) in Hinv, Hsame.
  assert (Htotal : chipsInPlay (playHand shuffled reqs t)
                   = sumChips (players (room t))).
  { rewrite Hsame. unfold beginHand. rewrite Hchips0. exact Hsum. }
  split; [exact Htotal|].
  intros req Hbefore Hafter.
  destruct (processPlayerAction_preserves req _ Hinv) as (_ & Hkeep & Hdone).
  destruct (Hdone Hafter) as [Hwas|Hpot]; [congruence|].
  split; [exact Hpot|]. unfold chipsInPlay in Hkeep. lia.
Qed.

Lemma chip_conservation_witness :
  chipsInPlay (playHand Scenario.sidePotDeck Scenario.sidePotHand
                 Scenario.sidePotTable) = 700.
Proof.
  refine (proj1 (chip_conservation Scenario.sidePotTable Scenario.sidePotDeck
                   Scenario.sidePotHand _)).
  unfold sane. simpl. split; [|lia].
  repeat constructor; simpl; lia.
Defined.

(** * Further properties of the code *)

(** ** The next active seat ([getNextActivePlayerIndex]) *)

Lemma scanPlayers_spec cb n : (0 < n)%nat -> forall left next, (next < n)%nat ->
  match scanPlayers cb n next left with
  | Some r =>
      exists d, (d < left)%nat /\ r = ((next + d) mod n)%nat /\ cb r = true /\
        forall d', (d' < d)%nat -> cb ((next + d') mod n)%nat = false
  | None => forall d, (d < left)%nat -> cb ((next + d) mod n)%nat = false
  end.
Proof.
  intros Hn. induction left as [|left IH]; intros next Hnext; simpl.
  - intros d Hd. lia.
  - destruct (cb next) eqn:Hcb.
    + exists 0%nat. rewrite Nat.add_0_r, Nat.mod_small by exact Hnext.
      repeat split; [lia|exact Hcb|intros d' Hd'; lia].
    + assert (Hstep : forall d, (((next + 1) mod n + d) mod n = (next + S d) mod n)%nat).
      { intros d. rewrite Nat.Div0.add_mod_idemp_l. f_equal. lia. }
      specialize (IH ((next + 1) mod n)%nat (Nat.mod_upper_bound (next + 1) n ltac:(lia))).
      destruct (scanPlayers cb n ((next + 1) mod n)%nat left) as [r|].
      * destruct IH as (d & Hd & Hr & Hcbr & Hbefore).
        exists (S d). rewrite <- Hstep.
        repeat split; [lia|exact Hr|exact Hcbr|].
        intros [|d'] Hd'.
        -- rewrite Nat.add_0_r, Nat.mod_small by exact Hnext. exact Hcb.
        -- rewrite <- Hstep. apply Hbefore. lia.
      * intros [|d] Hd.
        -- rewrite Nat.add_0_r, Nat.mod_small by exact Hnext. exact Hcb.
        -- rewrite <- Hstep. apply IH. lia.
Qed.

(** Every seat is reached from [currentIndex + 1] in fewer than
    [playerCount] steps. *)
Lemma seat_offset cur n i :
  (i < n)%nat -> exists d, (d < n)%nat /\ ((cur + 1 + d) mod n = i)%nat.
Proof.
  intros Hi.
  exists ((i + n - (cur + 1) mod n) mod n)%nat.
  assert (Hlt : ((cur + 1) mod n < n)%nat) by (apply Nat.mod_upper_bound; lia).
  split; [apply Nat.mod_upper_bound; lia|].
  rewrite Nat.Div0.add_mod_idemp_r.
  rewrite <- Nat.Div0.add_mod_idemp_l.
  replace ((cur + 1) mod n + (i + n - (cur + 1) mod n))%nat with (i + 1 * n)%nat by lia.
  rewrite Nat.Div0.mod_add. apply Nat.mod_small. exact Hi.
Qed.

(** When some seat passes the callback, the result is the first seat after
    [currentIndex], going round the table, that passes it. *)
Lemma nextActive_first cur n cb :
  (0 < n)%nat -> (exists i, (i < n)%nat /\ cb i = true) ->
  exists d, (d < n)%nat /\
    getNextActivePlayerIndex cur n cb = ((cur + 1 + d) mod n)%nat /\
    cb (getNextActivePlayerIndex cur n cb) = true /\
    forall d', (d' < d)%nat -> cb ((cur + 1 + d') mod n)%nat = false.
Proof.
  intros Hn (i & Hi & Hcb).
  assert (Hidem : forall d, (((cur + 1) mod n + d) mod n = (cur + 1 + d) mod n)%nat).
  { intros d. apply Nat.Div0.add_mod_idemp_l. }
  unfold getNextActivePlayerIndex.
  pose proof (scanPlayers_spec cb n Hn n ((cur + 1) mod n)%nat
                (Nat.mod_upper_bound (cur + 1) n ltac:(lia))) as Hscan.
  destruct (scanPlayers cb n ((cur + 1) mod n)%nat n) as [r|].
  - destruct Hscan as (d & Hd & Hr & Hcbr & Hbefore).
    exists d. rewrite <- Hidem. repeat split; [exact Hd|exact Hr|exact Hcbr|].
    intros d' Hd'. rewrite <- Hidem. apply Hbefore, Hd'.
  - destruct (seat_offset cur n i Hi) as (d & Hd & Hdi).
    specialize (Hscan d Hd). rewrite Hidem, Hdi in Hscan. congruence.
Qed.

(** With no seat passing the callback the index stays where it is. *)
Lemma nextActive_none cur n cb :
  (0 < n)%nat -> (forall i, (i < n)%nat -> cb i = false) ->
  getNextActivePlayerIndex cur n cb = cur.
Proof.
  intros Hn Hnone. unfold getNextActivePlayerIndex.
  pose proof (scanPlayers_spec cb n Hn n ((cur + 1) mod n)%nat
                (Nat.mod_upper_bound (cur + 1) n ltac:(lia))) as Hscan.
  destruct (scanPlayers cb n ((cur + 1) mod n)%nat n) as [r|]; [|reflexivity].
  destruct Hscan as (d & _ & Hr & Hcbr & _).
  rewrite Hnone in Hcbr; [discriminate|].
  rewrite Hr. apply Nat.mod_upper_bound. lia.
Qed.

(** The result differs from [currentIndex] as soon as another seat passes
    the callback. *)
Lemma nextActive_moves cur n cb i :
  (0 < n)%nat -> (i < n)%nat -> cb i = true -> i <> cur ->
  getNextActivePlayerIndex cur n cb <> cur.
Proof.
  intros Hn Hi Hcb Hne Heq.
  destruct (nextActive_first cur n cb Hn (ex_intro _ i (conj Hi Hcb)))
    as (d & Hd & Hr & _ & Hbefore).
  rewrite Heq in Hr.
  destruct (seat_offset cur n i Hi) as (e & He & Hei).
  destruct (Nat.lt_ge_cases e d) as [Hlt|Hge].
  - specialize (Hbefore e Hlt). rewrite Hei in Hbefore. congruence.
  - (* cur = (cur + 1 + d) mod n forces d = n - 1, hence e = d and i = cur *)
    assert (Hcur : (cur < n)%nat).
    { rewrite Hr. apply Nat.mod_upper_bound. lia. }
    assert (d = (n - 1)%nat).
    { destruct (Nat.eq_dec d (n - 1)%nat) as [|Hd']; [assumption|exfalso].
      assert (Hsmall : (cur + 1 + d < n \/ (n <= cur + 1 + d < 2 * n))%nat) by lia.
      destruct Hsmall as [Hs|Hs].
      - rewrite Nat.mod_small in Hr by exact Hs. lia.
      - replace (cur + 1 + d)%nat with ((cur + 1 + d - n) + 1 * n)%nat in Hr by lia.
        rewrite Nat.Div0.mod_add, Nat.mod_small in Hr by lia. lia. }
    assert (e = d) by lia. subst e. rewrite <- Hr in Hei. congruence.
Qed.

(** X1.  [getNextActivePlayerIndex] returns the first seat after
    [currentIndex], going round the table, that passes the callback; the
    seat [currentIndex] itself is tried last.  When no seat passes, the
    result is [currentIndex], whether or not that is a seat of the table. *)
Theorem getNextActivePlayerIndex_first_after (currentIndex playerCount : nat)
    (isActiveCallback : nat -> bool) :
  (0 < playerCount)%nat ->
  let next := getNextActivePlayerIndex currentIndex playerCount isActiveCallback in
  ((forall i, (i < playerCount)%nat -> isActiveCallback i = false) ->
     next = currentIndex) /\
  ((exists i, (i < playerCount)%nat /\ isActiveCallback i = true) ->
     (next < playerCount)%nat /\ isActiveCallback next = true /\
     exists d, (d < playerCount)%nat /\
       next = ((currentIndex + 1 + d) mod playerCount)%nat /\
       forall d', (d' < d)%nat ->
         isActiveCallback ((currentIndex + 1 + d') mod playerCount)%nat = false) /\
  (forall i, (i < playerCount)%nat -> isActiveCallback i = true ->
     i <> currentIndex -> next <> currentIndex).
Proof.
  intros Hn next. split; [|split].
  - intros Hnone. apply nextActive_none; assumption.
  - intros Hsome.
    destruct (nextActive_first currentIndex playerCount isActiveCallback Hn Hsome)
      as (d & Hd & Hr & Hcb & Hbefore).
    split; [|split; [exact Hcb|]].
    + subst next. rewrite Hr. apply Nat.mod_upper_bound. lia.
    + exists d. auto.
  - intros i Hi Hcb Hne. eapply nextActive_moves; eassumption.
Qed.

Lemma getNextActivePlayerIndex_first_after_witness :
  let cb := fun i => (i =? 2)%nat || (i =? 3)%nat in
  let next := getNextActivePlayerIndex 0 4 cb in
  (next < 4)%nat /\ cb next = true.
Proof.
  destruct (getNextActivePlayerIndex_first_after 0 4
              (fun i => (i =? 2)%nat || (i =? 3)%nat) ltac:(lia)) as (_ & Hsome & _).
  destruct Hsome as (Hlt & Hcb & _); [exists 3%nat; split; [lia|reflexivity]|].
  split; assumption.
Defined.

(** ** The button and the blinds ([prepareNextHand]) *)

(** The players that pass a test, counted by seat. *)
Lemma filter_seats (f : Player -> bool) (ps : list Player) :
  length (List.filter f ps)
  = length (List.filter (fun i => match ps !! i with Some p => f p | None => false end)
                        (seq 0 (length ps))).
Proof.
  induction ps as [|p ps IH]; [reflexivity|].
  cbn [length seq]. rewrite <- seq_shift.
  cbn [List.filter lookup list_lookup].
  assert (Hshift : forall l,
    length (List.filter (fun i => match (p :: ps) !! i with
                                  | Some p => f p | None => false end) (map S l))
    = length (List.filter (fun i => match ps !! i with
                                    | Some p => f p | None => false end) l)).
  { induction l as [|x l IHl]; [reflexivity|]. cbn [map List.filter].
    change ((p :: ps) !! S x) with (ps !! x).
    destruct (ps !! x) as [q|]; [destruct (f q)|]; simpl; rewrite ?IHl; reflexivity. }
  destruct (f p); simpl; rewrite Hshift, IH; reflexivity.
Qed.

Lemma active_seats_NoDup (r : Room) :
  List.NoDup (List.filter (test r isActive) (seq 0 (length (players r)))).
Proof. apply List.NoDup_filter, seq_NoDup. Qed.

Lemma active_seats_length (r : Room) :
  length (List.filter (test r isActive) (seq 0 (length (players r))))
  = length (List.filter isActive (players r)).
Proof. symmetry. apply filter_seats. Qed.

Lemma active_seat_in (r : Room) i :
  In i (List.filter (test r isActive) (seq 0 (length (players r))))
  <-> (i < length (players r))%nat /\ test r isActive i = true.
Proof. rewrite List.filter_In, in_seq. intuition lia. Qed.

(** With two active players there is one besides any given seat. *)
Lemma another_active_seat (r : Room) a :
  (2 <= length (List.filter isActive (players r)))%nat ->
  exists i, (i < length (players r))%nat /\ test r isActive i = true /\ i <> a.
Proof.
  rewrite <- active_seats_length. intros Hlen.
  pose proof (active_seats_NoDup r) as Hnd.
  pose proof (active_seat_in r) as Hin.
  destruct (List.filter (test r isActive) (seq 0 (length (players r))))
    as [|x [|y l]]; simpl in Hlen; try lia.
  apply List.NoDup_cons_iff in Hnd. destruct Hnd as [Hxy _].
  destruct (Nat.eq_dec x a) as [->|Hx].
  - exists y. destruct (proj1 (Hin y)) as [? ?]; [right; left; reflexivity|].
    repeat split; try assumption. intros ->. apply Hxy. left. reflexivity.
  - exists x. destruct (proj1 (Hin x)) as [? ?]; [left; reflexivity|].
    repeat split; assumption.
Qed.

(** When all active seats are among two, at most two players are active. *)
Lemma active_among_two (r : Room) a s :
  (forall i, (i < length (players r))%nat -> test r isActive i = true -> i = a \/ i = s) ->
  (length (List.filter isActive (players r)) <= 2)%nat.
Proof.
  intros Hall. rewrite <- active_seats_length.
  change 2%nat with (length [a; s]).
  apply List.NoDup_incl_length; [apply active_seats_NoDup|].
  intros i Hi. apply active_seat_in in Hi. destruct Hi as [Hlt Hact].
  destruct (Hall i Hlt Hact) as [->| ->]; simpl; auto.
Qed.

Lemma mod_fixed a k n :
  (a < n)%nat -> ((a + k) mod n = a)%nat -> (k mod n = 0)%nat.
Proof.
  intros Ha Heq. rewrite <- Nat.Div0.add_mod_idemp_r in Heq.
  assert (Hr : (k mod n < n)%nat) by (apply Nat.mod_upper_bound; lia).
  destruct (Nat.lt_ge_cases (a + k mod n) n) as [Hs|Hs].
  - rewrite Nat.mod_small in Heq by exact Hs. lia.
  - replace (a + k mod n)%nat with ((a + k mod n - n) + 1 * n)%nat in Heq by lia.
    rewrite Nat.Div0.mod_add, Nat.mod_small in Heq by lia. lia.
Qed.

(** Three active players: the second active seat after [a] is not [a]. *)
Lemma second_next_differs (r : Room) a :
  let n := length (players r) in
  let active := test r isActive in
  (3 <= length (List.filter isActive (players r)))%nat ->
  (a < n)%nat ->
  getNextActivePlayerIndex (getNextActivePlayerIndex a n active) n active <> a.
Proof.
  intros n active H3 Ha Hback.
  assert (Hn : (0 < n)%nat) by lia.
  destruct (another_active_seat r a ltac:(lia)) as (i0 & Hi0 & Hact0 & _).
  assert (Hsome : exists i, (i < n)%nat /\ active i = true) by (exists i0; auto).
  destruct (nextActive_first a n active Hn Hsome) as (d1 & Hd1 & Hs & _ & Hbefore1).
  set (s := getNextActivePlayerIndex a n active) in *.
  destruct (nextActive_first s n active Hn Hsome) as (d2 & Hd2 & Hb & _ & Hbefore2).
  rewrite Hback in Hb.
  assert (Hidem : forall e, ((s + 1 + e) mod n = (a + (d1 + 2 + e)) mod n)%nat).
  { intros e. rewrite Hs. rewrite <- Nat.add_assoc, Nat.Div0.add_mod_idemp_l.
    f_equal. lia. }
  rewrite Hidem in Hb. symmetry in Hb. apply mod_fixed in Hb; [|exact Ha].
  assert (Hk : (d1 + 2 + d2 = n \/ d1 + 2 + d2 = 2 * n)%nat).
  { pose proof (Nat.Div0.div_mod (d1 + 2 + d2) n) as Hdm. rewrite Hb in Hdm.
    assert ((d1 + 2 + d2) / n < 3)%nat by (apply Nat.Div0.div_lt_upper_bound; lia).
    destruct ((d1 + 2 + d2) / n)%nat as [|[|[|q]]]; lia. }
  apply (Nat.lt_irrefl 2). eapply Nat.lt_le_trans; [exact H3|].
  apply (active_among_two r a s). fold n. fold active.
  intros i Hi Hact.
  destruct (seat_offset a n i Hi) as (e & He & Hei).
  destruct (Nat.lt_trichotomy e d1) as [Hlt|[->|Hgt]].
  - specialize (Hbefore1 e Hlt). rewrite Hei in Hbefore1. congruence.
  - right. rewrite Hs. exact (eq_sym Hei).
  - left. destruct Hk as [Hk|Hk]; [|lia].
    destruct (Nat.lt_ge_cases (e - d1 - 1) d2) as [Hlt|Hge].
    + specialize (Hbefore2 _ Hlt). rewrite Hidem in Hbefore2.
      replace (a + (d1 + 2 + (e - d1 - 1)))%nat with (a + 1 + e)%nat in Hbefore2 by lia.
      rewrite Hei in Hbefore2. congruence.
    + assert (e = (n - 1)%nat) by lia. subst e.
      rewrite <- Hei. replace (a + 1 + (n - 1))%nat with (a + 1 * n)%nat by lia.
      rewrite Nat.Div0.mod_add. apply Nat.mod_small. exact Ha.
Qed.

(** [prepareNextHand] on a table with players, step by step. *)
Lemma prepareNextHand_unfold t :
  players (room t) <> [] ->
  let r := room t in
  let n := length (players r) in
  let active := test r isActive in
  let activeCount := length (List.filter isActive (players r)) in
  let dealer := getNextActivePlayerIndex (dealerIndex (gameState r)) n active in
  let small :=
    if (activeCount =? 2)%nat then dealer
    else getNextActivePlayerIndex dealer n active in
  let big :=
    if (activeCount =? 2)%nat then getNextActivePlayerIndex dealer n active
    else getNextActivePlayerIndex small n active in
  prepareNextHand t
  = (mkTable
       (mkRoom
          (alter (set_isDealer true) dealer
             (map (fun player =>
                set_isInHand (isActive player)
                  (set_holeCards []
                    (set_lastAction None
                      (set_totalBet 0
                        (set_currentBet 0
                          (set_isBigBlind false
                            (set_isSmallBlind false (set_isDealer false player))))))))
                (players r)))
          (set_bigBlindIndex big
             (set_smallBlindIndex small (set_dealerIndex dealer (gameState r))))
          (settings r))
       (deck t), Ok tt).
Proof.
  intros Hne. unfold prepareNextHand, bind, get.
  destruct (players (room t)) as [|p ps] eqn:E; [contradiction|].
  cbv beta iota zeta. rewrite <- E. reflexivity.
Qed.

(** X2.  With at least two active players [prepareNextHand] moves the button
    to the first active seat after the old one and puts the button and both
    blinds on active players; the two blinds are on different players;
    heads-up the button posts the small blind, and with three or more
    active players the button posts no blind.  Exactly the player on the
    button carries the dealer flag. *)
Theorem prepareNextHand_seats_button_and_blinds (t : Table) :
  (2 <= length (List.filter isActive (players (room t))))%nat ->
  let n := length (players (room t)) in
  let active := test (room t) isActive in
  let t' := fst (prepareNextHand t) in
  let g' := gameState (room t') in
  snd (prepareNextHand t) = Ok tt /\
  (exists d, (d < n)%nat /\
     dealerIndex g' = ((dealerIndex (gameState (room t)) + 1 + d) mod n)%nat /\
     forall d', (d' < d)%nat ->
       active ((dealerIndex (gameState (room t)) + 1 + d') mod n)%nat = false) /\
  active (dealerIndex g') = true /\
  active (smallBlindIndex g') = true /\
  active (bigBlindIndex g') = true /\
  smallBlindIndex g' <> bigBlindIndex g' /\
  (length (List.filter isActive (players (room t))) = 2%nat ->
     smallBlindIndex g' = dealerIndex g') /\
  ((3 <= length (List.filter isActive (players (room t))))%nat ->
     dealerIndex g' <> smallBlindIndex g' /\ dealerIndex g' <> bigBlindIndex g') /\
  (forall i p', playerAt (room t') i = Some p' ->
     isDealer p' = (i =? dealerIndex g')%nat /\
     (isActive <$> playerAt (room t) i) = Some (isActive p')).
Proof.
  intros H2 n active t' g'.
  assert (Hne : players (room t) <> []).
  { intros E. rewrite E in H2. simpl in H2. lia. }
  assert (Hn : (0 < n)%nat).
  { subst n. destruct (players (room t)); [contradiction|simpl; lia]. }
  pose proof (prepareNextHand_unfold t Hne) as Hrun. cbv zeta in Hrun.
  fold n in Hrun. fold active in Hrun.
  subst g' t'. rewrite Hrun. cbn [fst snd room gameState players].
  clear Hrun.
  set (old := dealerIndex (gameState (room t))).
  set (dealer := getNextActivePlayerIndex old n active).
  destruct (another_active_seat (room t) dealer H2) as (i0 & Hi0 & Hact0 & Hne0).
  assert (Hsome : exists i, (i < n)%nat /\ active i = true) by (exists i0; auto).
  destruct (nextActive_first old n active Hn Hsome) as (d & Hd & Hr & Hcb & Hbefore).
  fold dealer in Hr, Hcb.
  assert (Hdl : (dealer < n)%nat).
  { rewrite Hr. apply Nat.mod_upper_bound. lia. }
  set (nxt := getNextActivePlayerIndex dealer n active).
  assert (Hnxt : active nxt = true /\ nxt <> dealer /\ (nxt < n)%nat).
  { destruct (nextActive_first dealer n active Hn Hsome) as (d1 & Hd1 & Hr1 & Hcb1 & _).
    fold nxt in Hr1, Hcb1. repeat split; [exact Hcb1| |].
    - apply (nextActive_moves dealer n active i0 Hn Hi0 Hact0 Hne0).
    - rewrite Hr1. apply Nat.mod_upper_bound. lia. }
  destruct Hnxt as (Hnact & Hnne & Hnlt).
  split; [reflexivity|].
  split; [exists d; auto|].
  split; [exact Hcb|].
  destruct (length (List.filter isActive (players (room t))) =? 2)%nat eqn:Etwo.
  - (* heads-up *)
    apply Nat.eqb_eq in Etwo.
    cbn [smallBlindIndex bigBlindIndex dealerIndex set_bigBlindIndex
         set_smallBlindIndex set_dealerIndex].
    split; [exact Hcb|]. split; [exact Hnact|]. split; [congruence|].
    split; [reflexivity|]. split; [intros; lia|].
    intros i p' Hp'. unfold playerAt in *. cbn [players] in Hp'.
    destruct (Nat.eq_dec i dealer) as [->|Hi].
    + rewrite list_lookup_alter_eq, lookup_map in Hp'.
      destruct (players (room t) !! dealer) as [q|]; [|discriminate].
      simpl in Hp'. injection Hp' as <-. simpl. rewrite Nat.eqb_refl. auto.
    + rewrite list_lookup_alter_ne, lookup_map in Hp' by congruence.
      destruct (players (room t) !! i) as [q|]; [|discriminate].
      simpl in Hp'. injection Hp' as <-. simpl.
      apply Nat.eqb_neq in Hi. rewrite Hi. auto.
  - apply Nat.eqb_neq in Etwo.
    cbn [smallBlindIndex bigBlindIndex dealerIndex set_bigBlindIndex
         set_smallBlindIndex set_dealerIndex].
    fold nxt.
    set (big := getNextActivePlayerIndex nxt n active).
    assert (Hbig : active big = true /\ big <> nxt).
    { destruct (nextActive_first nxt n active Hn Hsome) as (d2 & _ & _ & Hcb2 & _).
      split; [exact Hcb2|].
      apply (nextActive_moves nxt n active dealer Hn Hdl Hcb). congruence. }
    destruct Hbig as (Hbact & Hbne).
    split; [exact Hnact|]. split; [exact Hbact|]. split; [congruence|].
    split; [intros; lia|].
    split.
    { intros H3. split; [congruence|].
      intros Heq. symmetry in Heq.
      exact (second_next_differs (room t) dealer H3 Hdl Heq). }
    intros i p' Hp'. unfold playerAt in *. cbn [players] in Hp'.
    destruct (Nat.eq_dec i dealer) as [->|Hi].
    + rewrite list_lookup_alter_eq, lookup_map in Hp'.
      destruct (players (room t) !! dealer) as [q|]; [|discriminate].
      simpl in Hp'. injection Hp' as <-. simpl. rewrite Nat.eqb_refl. auto.
    + rewrite list_lookup_alter_ne, lookup_map in Hp' by congruence.
      destruct (players (room t) !! i) as [q|]; [|discriminate].
      simpl in Hp'. injection Hp' as <-. simpl.
      apply Nat.eqb_neq in Hi. rewrite Hi. auto.
Qed.

Lemma prepareNextHand_seats_button_and_blinds_witness :
  let t' := fst (prepareNextHand Scenario.threeHandedTable) in
  let g' := gameState (room t') in
  smallBlindIndex g' <> bigBlindIndex g' /\
  dealerIndex g' <> smallBlindIndex g' /\ dealerIndex g' <> bigBlindIndex g'.
Proof.
  destruct (prepareNextHand_seats_button_and_blinds Scenario.threeHandedTable)
    as (_ & _ & _ & _ & _ & Hblinds & _ & Hthree & _); [simpl; lia|].
  split; [exact Hblinds|]. apply Hthree. simpl. lia.
Defined.

(** ** Winners ([determineWinners]) *)

Lemma evaluateHand_facts cs best :
  evaluateHand cs = Ok best ->
  (5 <= length cs)%nat /\
  length (cards best ++ kickers best) = 5%nat /\
  (exists c, c `sublist_of` cs /\ length c = 5%nat /\ evaluateExactHand c = Ok best) /\
  (forall c, c `sublist_of` cs -> length c = 5%nat ->
     exists h, evaluateExactHand c = Ok h /\ compareHands h best <= 0).
Proof.
  unfold evaluateHand.
  destruct (Nat.ltb_spec (length cs) 5) as [|Hlen]; [discriminate|].
  destruct (getCombinations_spec cs 5) as (combos & -> & Hcombos); [lia|].
  assert (Hfive : Forall (fun c => length c = 5%nat) combos).
  { apply List.Forall_forall. intros c Hc. apply Hcombos in Hc. lia. }
  destruct (bestOf_spec combos None Hfive) as (r & -> & Hspec); [discriminate|].
  destruct r as [b|]; [|discriminate].
  intros [= ->]. destruct Hspec as (Hfrom & Hl & _ & Hall).
  split; [exact Hlen|]. split; [exact Hl|]. split.
  - destruct Hfrom as [[=]|(c & Hin & Hc)].
    apply Hcombos in Hin as [Hsub Hc5]. exists c. repeat split; [exact Hsub|lia|exact Hc].
  - intros c Hsub Hc5. destruct (evaluateExactHand_ok c Hc5) as [h Hh].
    exists h. split; [exact Hh|]. apply (Hall c h); [|exact Hh].
    apply Hcombos. split; [exact Hsub|lia].
Qed.

Lemma evaluateHand_ok cs :
  (5 <= length cs)%nat -> exists best, evaluateHand cs = Ok best.
Proof.
  intros Hlen. unfold evaluateHand.
  destruct (Nat.ltb_spec (length cs) 5); [lia|].
  destruct (getCombinations_spec cs 5) as (combos & -> & Hcombos); [lia|].
  assert (Hfive : Forall (fun c => length c = 5%nat) combos).
  { apply List.Forall_forall. intros c Hc. apply Hcombos in Hc. lia. }
  destruct (bestOf_spec combos None Hfive) as (r & -> & Hspec); [discriminate|].
  destruct r as [b|]; [exists b; reflexivity|].
  destruct Hspec as [_ ->]. exfalso.
  assert (Hin : In (take 5 cs) []).
  { apply Hcombos. split; [apply sublist_take|]. rewrite length_take. lia. }
  destruct Hin.
Qed.

Lemma evaluateHand_err cs e :
  evaluateHand cs = Err e -> e = NeedFiveCards /\ (length cs < 5)%nat.
Proof.
  intros Herr. destruct (Nat.lt_ge_cases (length cs) 5) as [Hlt|Hge].
  - split; [|exact Hlt]. unfold evaluateHand in Herr.
    destruct (Nat.ltb_spec (length cs) 5); [congruence|lia].
  - destruct (evaluateHand_ok cs Hge) as [b Hb]. congruence.
Qed.

Lemma indexed_lookup_from (ps : list Player) : forall k i p,
  In (i, p) (combine (seq k (length ps)) ps)
  <-> (k <= i)%nat /\ ps !! (i - k)%nat = Some p.
Proof.
  induction ps as [|q ps IH]; intros k i p; simpl.
  - split; [intros []|intros [_ H]; discriminate].
  - rewrite IH. split.
    + intros [[= <- <-]|[Hle Hl]].
      * rewrite Nat.sub_diag. split; [lia|reflexivity].
      * split; [lia|]. replace (i - k)%nat with (S (i - S k)) by lia. exact Hl.
    + intros [Hle Hl]. destruct (Nat.eq_dec i k) as [->|Hne].
      * rewrite Nat.sub_diag in Hl. left. simpl in Hl. congruence.
      * right. split; [lia|].
        replace (i - k)%nat with (S (i - S k)) in Hl by lia. exact Hl.
Qed.

Lemma indexed_lookup (ps : list Player) i p : In (i, p) (indexed ps) <-> ps !! i = Some p.
Proof.
  unfold indexed. rewrite indexed_lookup_from, Nat.sub_0_r. intuition lia.
Qed.

Lemma indexed_fst (ps : list Player) : forall k, map fst (combine (seq k (length ps)) ps) = seq k (length ps).
Proof. induction ps as [|q ps IH]; intros k; simpl; [reflexivity|]. now rewrite IH. Qed.

Lemma NoDup_fst_filter {A : Type} (f : nat * A -> bool) (l : list (nat * A)) :
  List.NoDup (map fst l) -> List.NoDup (map fst (List.filter f l)).
Proof.
  induction l as [|x l IH]; simpl; [auto|].
  intros Hnd. apply List.NoDup_cons_iff in Hnd as [Hx Hnd].
  destruct (f x); simpl; [|auto].
  constructor; [|auto]. intros Hin. apply Hx.
  apply in_map_iff in Hin as (y & Hy & Hin). apply filter_In in Hin as [Hin _].
  rewrite <- Hy. apply in_map, Hin.
Qed.

(** The players in the hand, with their seats. *)
Lemma inHand_seats ps i p :
  In (i, p) (List.filter (fun ip => isInHand (snd ip)) (indexed ps))
  <-> ps !! i = Some p /\ isInHand p = true.
Proof. rewrite filter_In, indexed_lookup. reflexivity. Qed.

Lemma evaluatePlayers_hands cc act : forall hands,
  evaluatePlayers cc act = Ok hands ->
  (forall i h, In (i, h) hands ->
     exists p, In (i, p) act /\ evaluateHand (holeCards p ++ cc) = Ok h) /\
  (forall i p, In (i, p) act ->
     exists h, In (i, h) hands /\ evaluateHand (holeCards p ++ cc) = Ok h).
Proof.
  induction act as [|[j q] rest IH]; simpl; intros hands.
  - intros [= <-]. split; [intros ? ? []|intros ? ? []].
  - destruct (evaluateHand (holeCards q ++ cc)) as [hand|e] eqn:Hq; [|discriminate].
    destruct (evaluatePlayers cc rest) as [hs|e]; [|discriminate].
    intros [= <-]. destruct (IH hs eq_refl) as [Hto Hfrom]. split.
    + intros i h [[= <- <-]|Hin].
      * exists q. split; [now left|exact Hq].
      * destruct (Hto i h Hin) as (p & Hp & Hev). exists p. split; [now right|exact Hev].
    + intros i p [[= <- <-]|Hin].
      * exists hand. split; [now left|exact Hq].
      * destruct (Hfrom i p Hin) as (h & Hh & Hev). exists h. split; [now right|exact Hev].
Qed.

Lemma evaluatePlayers_err cc act e :
  evaluatePlayers cc act = Err e ->
  exists i p, In (i, p) act /\ evaluateHand (holeCards p ++ cc) = Err e.
Proof.
  induction act as [|[j q] rest IH]; simpl; [discriminate|].
  destruct (evaluateHand (holeCards q ++ cc)) as [hand|e'] eqn:Hq.
  - destruct (evaluatePlayers cc rest) as [hs|e']; [discriminate|].
    intros [= ->]. destruct (IH eq_refl) as (i & p & Hin & Hev).
    exists i, p. split; [now right|exact Hev].
  - intros [= ->]. exists j, q. split; [now left|exact Hq].
Qed.

(** [findBest] returns a hand no examined hand compares above. *)
Lemma findBest_top playerHands : forall bestHand,
  length (cards bestHand ++ kickers bestHand) = 5%nat ->
  Forall (fun ph => length (cards (snd ph) ++ kickers (snd ph)) = 5%nat) playerHands ->
  compareHands bestHand (findBest bestHand playerHands) <= 0 /\
  forall ph, In ph playerHands ->
    compareHands (snd ph) (findBest bestHand playerHands) <= 0.
Proof.
  unfold findBest.
  induction playerHands as [|ph rest IH]; intros bestHand Hb Hall; simpl.
  - rewrite compareHands_refl. split; [lia|intros ? []].
  - apply List.Forall_cons_iff in Hall as [Hph Hrest].
    assert (Hlen : forall b, length (cards b ++ kickers b) = 5%nat ->
              length (cards (fold_left
                (fun best ph0 => if compareHands (snd ph0) best >? 0 then snd ph0 else best)
                rest b) ++ kickers (fold_left
                (fun best ph0 => if compareHands (snd ph0) best >? 0 then snd ph0 else best)
                rest b)) = 5%nat).
    { intros b Hb5. destruct (findBest_in rest b) as [Heq|(ph' & Hin & Heq)];
        unfold findBest in Heq.
      - rewrite Heq. exact Hb5.
      - rewrite <- Heq. rewrite List.Forall_forall in Hrest. apply Hrest, Hin. }
    destruct (Z.gtb_spec (compareHands (snd ph) bestHand) 0) as [Hgt|Hle].
    + destruct (IH (snd ph) Hph Hrest) as [Hself Hothers]. split.
      * apply (compareHands_trans bestHand (snd ph)); auto.
        apply compareHands_flip. lia.
      * intros ph' [<-|Hin]; [exact Hself|apply Hothers, Hin].
    + destruct (IH bestHand Hb Hrest) as [Hself Hothers]. split; [exact Hself|].
      intros ph' [<-|Hin]; [|apply Hothers, Hin].
      apply (compareHands_trans (snd ph) bestHand); auto.
Qed.

(** [determineWinners] written without the special case of a single
    player, which computes the same. *)
Lemma determineWinners_unfold ps cc :
  determineWinners ps cc
  = match List.filter (fun ip => isInHand (snd ip)) (indexed ps) with
    | [] => Err NoActivePlayers
    | act =>
        match evaluatePlayers cc act with
        | Err e => Err e
        | Ok [] => Err NoActivePlayers
        | Ok ((i0, hand0) :: more) =>
            Ok (map fst (List.filter
                           (fun ph => compareHands (snd ph) (findBest hand0 more) =? 0)
                           ((i0, hand0) :: more)),
                findBest hand0 more)
        end
    end.
Proof.
  unfold determineWinners.
  destruct (List.filter (fun ip => isInHand (snd ip)) (indexed ps))
    as [|[i p] [|ip2 rest]]; [reflexivity| |reflexivity].
  simpl. destruct (evaluateHand (holeCards p ++ cc)) as [hand|e]; [|reflexivity].
  unfold findBest. simpl. rewrite compareHands_refl. reflexivity.
Qed.

(** X3.  [determineWinners] returns a hand held by one of the winners; no
    player in the hand holds a hand that compares above it, and the
    winners are exactly the players in the hand whose hand compares equal
    to it, each listed once, in seat order. *)
Theorem determineWinners_best_hands (ps : list Player) (communityCards : list Card)
    (winnerIndexes : list nat) (bestHand : Hand) :
  determineWinners ps communityCards = Ok (winnerIndexes, bestHand) ->
  winnerIndexes <> [] /\ List.NoDup winnerIndexes /\
  (exists w p, In w winnerIndexes /\ ps !! w = Some p /\
     evaluateHand (holeCards p ++ communityCards) = Ok bestHand) /\
  (forall w, In w winnerIndexes ->
     exists p, ps !! w = Some p /\ isInHand p = true) /\
  (forall i p, ps !! i = Some p -> isInHand p = true ->
     exists h, evaluateHand (holeCards p ++ communityCards) = Ok h /\
       compareHands h bestHand <= 0 /\
       (In i winnerIndexes <-> compareHands h bestHand = 0)).
Proof.
  rewrite determineWinners_unfold.
  pose proof (inHand_seats ps) as Hseats.
  assert (Hnd : List.NoDup
            (map fst (List.filter (fun ip => isInHand (snd ip)) (indexed ps)))).
  { apply NoDup_fst_filter. unfold indexed. rewrite indexed_fst. apply seq_NoDup. }
  destruct (List.filter (fun ip => isInHand (snd ip)) (indexed ps))
    as [|ip act'] eqn:Hact; [discriminate|].
  set (act := ip :: act') in *.
  destruct (evaluatePlayers communityCards act) as [hands|e] eqn:Heval; [|discriminate].
  pose proof (evaluatePlayers_fst _ _ _ Heval) as Hfst.
  destruct (evaluatePlayers_hands _ _ _ Heval) as [Hto Hfrom].
  destruct hands as [|[i0 hand0] more]; [discriminate|].
  set (hands := (i0, hand0) :: more) in *.
  set (best := findBest hand0 more).
  intros Hres.
  assert (Hw : winnerIndexes
               = map fst (List.filter
                            (fun ph => compareHands (snd ph) best =? 0) hands)
               /\ bestHand = best) by (split; congruence).
  destruct Hw as [-> ->]. clear Hres.
  assert (Hfive : Forall (fun ph => length (cards (snd ph) ++ kickers (snd ph)) = 5%nat)
                         hands).
  { apply List.Forall_forall. intros [i h] Hin.
    destruct (Hto i h Hin) as (p & _ & Hev). apply (evaluateHand_facts _ _ Hev). }
  assert (Hfive0 := Hfive). apply List.Forall_cons_iff in Hfive0 as [H0 Hmore].
  destruct (findBest_top more hand0 H0 Hmore) as [Htop0 Htop].
  fold best in Htop0, Htop.
  assert (Hall : forall ph, In ph hands -> compareHands (snd ph) best <= 0).
  { intros ph [<-|Hin]; [exact Htop0|apply Htop, Hin]. }
  assert (Hbest : exists ph, In ph hands /\ snd ph = best).
  { destruct (findBest_in more hand0) as [Heq|(ph & Hin & Heq)].
    - exists (i0, hand0). split; [now left|symmetry; exact Heq].
    - exists ph. split; [now right|exact Heq]. }
  assert (Hwin : forall i, In i (map fst (List.filter
                     (fun ph => compareHands (snd ph) best =? 0) hands))
                   <-> exists h, In (i, h) hands /\ compareHands h best = 0).
  { intros i. rewrite in_map_iff. split.
    - intros ([i' h] & <- & Hin). apply filter_In in Hin as [Hin Hz].
      exists h. split; [exact Hin|]. apply Z.eqb_eq, Hz.
    - intros (h & Hin & Hz). exists (i, h). split; [reflexivity|].
      apply filter_In. split; [exact Hin|]. apply Z.eqb_eq, Hz. }
  split; [|split; [|split; [|split]]].
  - destruct Hbest as ([i h] & Hin & Heq). simpl in Heq. subst h.
    intros Hnil. assert (Hi : In i []).
    { rewrite <- Hnil. apply Hwin. exists best. split; [exact Hin|apply compareHands_refl]. }
    destruct Hi.
  - apply NoDup_fst_filter. rewrite Hfst. exact Hnd.
  - destruct Hbest as ([i h] & Hin & Heq). simpl in Heq. subst h.
    destruct (Hto i best Hin) as (p & Hp & Hev). apply Hseats in Hp as [Hp _].
    exists i, p. split; [|split; [exact Hp|exact Hev]].
    apply Hwin. exists best. split; [exact Hin|apply compareHands_refl].
  - intros w Hw. apply Hwin in Hw as (h & Hin & _).
    destruct (Hto w h Hin) as (p & Hp & _). apply Hseats in Hp. exists p. exact Hp.
  - intros i p Hp Hin.
    destruct (Hfrom i p) as (h & Hh & Hev); [apply Hseats; auto|].
    exists h. split; [exact Hev|]. split; [apply (Hall (i, h) Hh)|].
    rewrite Hwin. split.
    + intros (h' & Hh' & Hz). destruct (Hto i h' Hh') as (p' & Hp' & Hev').
      apply Hseats in Hp' as [Hp' _]. assert (p' = p) by congruence. subst p'.
      assert (h' = h) by congruence. subst h'. exact Hz.
    + intros Hz. exists h. split; assumption.
Qed.

Lemma determineWinners_best_hands_witness :
  exists winnerIndexes bestHand,
    determineWinners (players (room Scenario.sidePotBeforeShowdown))
      (communityCards (gameState (room Scenario.sidePotAfterShowdown)))
    = Ok (winnerIndexes, bestHand) /\
    winnerIndexes <> [] /\ List.NoDup winnerIndexes.
Proof.
  eexists _, _. split; [vm_compute; reflexivity|].
  match goal with
  | |- ?w <> [] /\ List.NoDup ?w =>
      refine (let H := determineWinners_best_hands
                (players (room Scenario.sidePotBeforeShowdown))
                (communityCards (gameState (room Scenario.sidePotAfterShowdown)))
                w _ _ in conj (proj1 H) (proj1 (proj2 H)))
  end.
  vm_compute. reflexivity.
Defined.

(** ** The split of the pot ([distributePot]) *)

Lemma awardChips_lookup sharePerWinner remainder winners : forall i ps,
  List.NoDup winners ->
  (forall k w p, winners !! k = Some w -> ps !! w = Some p ->
     awardChips sharePerWinner remainder i winners ps !! w
     = Some (set_chips (chips p + (sharePerWinner
                                   + (if i + Z.of_nat k <? remainder then 1 else 0))) p)) /\
  (forall j, ~ In j winners ->
     awardChips sharePerWinner remainder i winners ps !! j = ps !! j) /\
  length (awardChips sharePerWinner remainder i winners ps) = length ps.
Proof.
  induction winners as [|w0 winners IH]; intros i ps Hnd; simpl.
  - split; [intros k w p Hk; discriminate|]. split; reflexivity.
  - apply List.NoDup_cons_iff in Hnd as [Hw0 Hnd].
    destruct (IH (i + 1)
                (alter (fun p => set_chips
                   (chips p + (sharePerWinner + (if i <? remainder then 1 else 0))) p)
                   w0 ps) Hnd) as (Hwin & Hrest & Hlen).
    split; [|split].
    + intros [|k] w p Hk Hp; simpl in Hk.
      * injection Hk as ->. rewrite (Hrest w Hw0), list_lookup_alter_eq, Hp.
        simpl. rewrite Z.add_0_r. reflexivity.
      * assert (Hne : w0 <> w).
        { intros ->. apply Hw0. rewrite <- list_elem_of_In.
          eapply list_elem_of_lookup_2, Hk. }
        rewrite (Hwin k w p Hk).
        -- do 4 f_equal. replace (i + 1 + Z.of_nat k) with (i + Z.of_nat (S k)) by lia.
           reflexivity.
        -- rewrite list_lookup_alter_ne by exact Hne. exact Hp.
    + intros j Hj. rewrite Hrest by tauto.
      apply list_lookup_alter_ne. tauto.
    + rewrite Hlen. apply length_alter.
Qed.

Lemma awardChips_sum sharePerWinner remainder winners : forall i ps,
  Forall (fun w => (w < length ps)%nat) winners ->
  sumChips (awardChips sharePerWinner remainder i winners ps)
  = sumChips ps + awarded sharePerWinner remainder i (length winners).
Proof.
  induction winners as [|w0 winners IH]; intros i ps Hrange; simpl; [lia|].
  apply List.Forall_cons_iff in Hrange as [Hw0 Hrange].
  destruct (lookup_lt_is_Some_2 ps w0 Hw0) as [p Hp].
  rewrite IH.
  - rewrite (sumChips_alter _ w0 ps p Hp). simpl. lia.
  - rewrite length_alter. exact Hrange.
Qed.

(** On whole numbers: with at least one winner [distributePot] empties the
    pot, the winner listed at position [k] receives the floor of the pot
    divided by the number of winners, plus one chip when [k] is below the
    remainder, and for a pot that is not negative the chips awarded add up
    to the pot. *)
Lemma distributePot_whole_shares (pot' : Z) (winners : list nat) (ps : list Player) :
  distributePot pot' [] ps = (ps, pot') /\
  (winners <> [] -> List.NoDup winners ->
   let n := Z.of_nat (length winners) in
   let ps' := fst (distributePot pot' winners ps) in
   snd (distributePot pot' winners ps) = 0 /\
   (forall k w p, winners !! k = Some w -> ps !! w = Some p ->
      ps' !! w = Some (set_chips (chips p + (pot' / n
                         + (if Z.of_nat k <? Z.rem pot' n then 1 else 0))) p)) /\
   (forall j, ~ In j winners -> ps' !! j = ps !! j) /\
   (0 <= pot' -> Forall (fun w => (w < length ps)%nat) winners ->
      sumChips ps' = sumChips ps + pot')).
Proof.
  split; [reflexivity|].
  intros Hne Hnd n ps'. subst ps'. unfold distributePot.
  destruct winners as [|w0 winners']; [contradiction|].
  set (winners := w0 :: winners') in *.
  replace (length winners =? 0)%nat with false by reflexivity.
  cbv iota zeta. cbn [fst snd]. fold n.
  destruct (awardChips_lookup (pot' / n) (Z.rem pot' n) winners 0 ps Hnd)
    as (Hwin & Hrest & _).
  split; [reflexivity|]. split; [|split].
  - intros k w p Hk Hp. rewrite (Hwin k w p Hk Hp). reflexivity.
  - exact Hrest.
  - intros Hpot Hrange. rewrite awardChips_sum by exact Hrange.
    rewrite awarded_closed. fold n.
    assert (Hn : 0 < n) by (subst n; simpl; lia).
    rewrite Z.rem_mod_nonneg by lia.
    pose proof (Z.mod_pos_bound pot' n Hn).
    pose proof (Z.div_mod pot' n ltac:(lia)). lia.
Qed.

(** ** One request, step by step *)

Lemma dealStreet_run next count t :
  fst (dealStreet next count t) = afterStreet next count t /\
  (forall evs, snd (dealStreet next count t) = Ok evs ->
     exists dealt remainingDeck,
       dealCommunityCards (deck t) count true = Ok (dealt, remainingDeck)).
Proof.
  unfold dealStreet, afterStreet, bind, get, onGameState, onRoom, modify, ret, lift,
    setDeck. simpl.
  destruct (dealCommunityCards (deck t) count true) as [[dealt rem]|e]; simpl.
  - split; [reflexivity|]. intros _ _. eauto.
  - split; [reflexivity|]. discriminate.
Qed.

Lemma setNextActor_run events t :
  exists next, fst (setNextActor events t)
               = if isShowdown (phase (gameState (room t))) then t else withActor next t.
Proof.
  unfold setNextActor, bind, get, onGameState, onRoom, modify, ret, withActor.
  destruct (isShowdown (phase (gameState (room t)))); simpl.
  - exists 0%nat. reflexivity.
  - eexists. reflexivity.
Qed.

Lemma processShowdown_run t :
  match determineWinners (players (room t)) (communityCards (gameState (room t))) with
  | Ok (winnerIndexes, _) =>
      fst (processShowdown t) = afterShowdown winnerIndexes t /\
      exists evs, snd (processShowdown t) = Ok evs
  | Err e => processShowdown t = (t, Err e)
  end.
Proof.
  unfold processShowdown, afterShowdown, bind, get, lift.
  destruct (determineWinners (players (room t)) (communityCards (gameState (room t))))
    as [[winnerIndexes bestHand]|e]; [|reflexivity].
  destruct (distributePot (pot (gameState (room t))) winnerIndexes (players (room t)))
    as [ps remainingPot].
  unfold onGameState, onPlayers, onRoom, modify, ret. simpl.
  split; [reflexivity|eauto].
Qed.

(** The outcomes of [advanceHand]: a street is dealt and the turn passes
    on, or the deck runs out, or the showdown runs or fails, or, outside a
    hand, only the turn passes on. *)
Lemma advanceHand_cases t :
  let t0 := afterReset t in
  let t' := fst (advanceHand t) in
  match phase (gameState (room t)) with
  | PreFlop =>
      t' = afterStreet Flop 3 t0 \/ exists next, t' = withActor next (afterStreet Flop 3 t0)
  | Flop =>
      t' = afterStreet Turn 1 t0 \/ exists next, t' = withActor next (afterStreet Turn 1 t0)
  | Turn =>
      t' = afterStreet River 1 t0 \/ exists next, t' = withActor next (afterStreet River 1 t0)
  | River =>
      let ts := mkTable (mkRoom (players (room t0))
                           (set_phase Showdown (gameState (room t0)))
                           (settings (room t0))) (deck t0) in
      match determineWinners (players (room ts))
              (communityCards (gameState (room ts))) with
      | Ok (winnerIndexes, _) =>
          t' = afterShowdown winnerIndexes ts /\ exists evs, snd (advanceHand t) = Ok evs
      | Err e => t' = ts /\ snd (advanceHand t) = Err e
      end
  | Showdown => t' = t0
  | _ => exists next, t' = withActor next t0
  end.
Proof.
  cbv zeta. rewrite advanceHand_unfold.
  assert (Hstreet : forall next count, isShowdown next = false ->
    fst (bind (dealStreet next count) setNextActor (afterReset t))
      = afterStreet next count (afterReset t) \/
    exists n, fst (bind (dealStreet next count) setNextActor (afterReset t))
              = withActor n (afterStreet next count (afterReset t))).
  { intros next count Hnext. rewrite fst_bind.
    destruct (dealStreet_run next count (afterReset t)) as [Hfst _].
    destruct (dealStreet next count (afterReset t)) as [t1 [evs|e]] eqn:Hdeal;
      simpl in Hfst; subst t1; [|now left].
    right. destruct (setNextActor_run evs (afterStreet next count (afterReset t)))
      as [n Hn].
    exists n. rewrite Hn.
    assert (Hph : phase (gameState (room (afterStreet next count (afterReset t)))) = next).
    { unfold afterStreet.
      destruct (dealCommunityCards (deck (afterReset t)) count true) as [[? ?]|?];
        reflexivity. }
    rewrite Hph, Hnext. reflexivity. }
  assert (Hidle : isShowdown (phase (gameState (room t))) = false ->
    exists n, fst (setNextActor [] (afterReset t)) = withActor n (afterReset t)).
  { intros Hph. destruct (setNextActor_run [] (afterReset t)) as [n Hn].
    exists n. rewrite Hn. simpl. rewrite Hph. reflexivity. }
  destruct (phase (gameState (room t))) eqn:Hphase;
    try (apply Hstreet; reflexivity); try (apply Hidle; reflexivity).
  - (* River *)
    set (ts := mkTable (mkRoom (players (room (afterReset t)))
                          (set_phase Showdown (gameState (room (afterReset t))))
                          (settings (room (afterReset t)))) (deck (afterReset t))).
    assert (Hsd : bind (onGameState (set_phase Showdown)) (fun _ => processShowdown)
                    (afterReset t) = processShowdown ts) by reflexivity.
    rewrite Hsd. clear Hsd.
    pose proof (processShowdown_run ts) as Hrun.
    destruct (determineWinners (players (room ts))
                (communityCards (gameState (room ts)))) as [[ws best]|e].
    + exact Hrun.
    + rewrite Hrun. split; reflexivity.
  - (* Showdown *)
    destruct (setNextActor_run [] (afterReset t)) as [n Hn].
    rewrite Hn. simpl. rewrite Hphase. reflexivity.
Qed.

(** The outcomes of [processPlayerAction]: the request is refused before
    the [switch], or the [switch] throws, or the hand advances, or the turn
    passes on. *)
Lemma processPlayerAction_cases req t :
  let t' := fst (processPlayerAction req t) in
  t' = t \/
  exists i player,
    findPlayer (players (room t)) (playerId req) 0 = Some (i, player) /\
    isInHand player = true /\
    currentPlayerIndex (gameState (room t)) = i /\
    let t1 := fst (performAction i req t) in
    (t' = t1 \/ t' = fst (advanceHand t1) \/ exists next, t' = withActor next t1).
Proof.
  cbv zeta.
  remember (fst (processPlayerAction req t)) as t' eqn:Ht'.
  unfold processPlayerAction in Ht'. rewrite fst_bind in Ht'.
  unfold get at 1 in Ht'. cbv iota beta in Ht'.
  destruct (findPlayer (players (room t)) (playerId req) 0) as [[i player]|] eqn:Hfind;
    [|left; exact Ht'].
  destruct (isInHand player) eqn:Hin; [|left; exact Ht'].
  destruct (Nat.eqb_spec (currentPlayerIndex (gameState (room t))) i) as [Hturn|Hturn];
    [|left; exact Ht'].
  right. exists i, player. repeat split; try assumption. auto.
  simpl in Ht'. rewrite fst_bind in Ht'.
  destruct (performAction i req t) as [t1 [[]|e]]; simpl fst in *; [|left; exact Ht'].
  right. rewrite fst_bind in Ht'. unfold get at 1 in Ht'. cbv iota beta in Ht'.
  destruct (shouldAdvanceHand (room t1)).
  - left. rewrite fst_bind_ret in Ht'. exact Ht'.
  - right. eexists. exact Ht'.
Qed.

(** ** The order of the phases *)

Lemma afterStreet_phase next count t :
  phase (gameState (room (afterStreet next count t))) = next.
Proof.
  unfold afterStreet.
  destruct (dealCommunityCards (deck t) count true) as [[? ?]|?]; reflexivity.
Qed.

Lemma afterShowdown_phase winnerIndexes t :
  phase (gameState (room (afterShowdown winnerIndexes t))) = HandComplete.
Proof.
  unfold afterShowdown.
  destruct (distributePot (pot (gameState (room t))) winnerIndexes (players (room t)));
    reflexivity.
Qed.

Lemma phaseIndex_next p q : In q (nextPhases p) -> (phaseIndex p <= phaseIndex q)%nat.
Proof. destruct p; simpl; intuition (subst; simpl; lia). Qed.

(** What a request does to the phase. *)
Lemma request_phase req t :
  let t' := fst (processPlayerAction req t) in
  In (phase (gameState (room t'))) (nextPhases (phase (gameState (room t)))) /\
  (phase (gameState (room t')) = Showdown ->
   phase (gameState (room t)) = Showdown \/
   exists e, determineWinners (players (room t'))
               (communityCards (gameState (room t'))) = Err e).
Proof.
  cbv zeta.
  assert (Hself : forall p, In p (nextPhases p)) by (intros []; simpl; auto).
  destruct (processPlayerAction_cases req t) as [->|(i & player & _ & _ & _ & Hcases)].
  { split; [apply Hself|auto]. }
  cbv zeta in Hcases.
  pose proof (performAction_phase i req t) as Hp1.
  set (t1 := fst (performAction i req t)) in *.
  destruct Hcases as [->|[->|[next ->]]].
  - rewrite Hp1. split; [apply Hself|auto].
  - pose proof (advanceHand_cases t1) as Hadv. cbv zeta in Hadv.
    rewrite <- Hp1.
    destruct (phase (gameState (room t1))) eqn:Hph.
    + destruct Hadv as [next ->]. simpl. rewrite Hph. split; [auto|discriminate].
    + destruct Hadv as [->|[next ->]]; simpl; rewrite afterStreet_phase;
        (split; [auto|discriminate]).
    + destruct Hadv as [->|[next ->]]; simpl; rewrite afterStreet_phase;
        (split; [auto|discriminate]).
    + destruct Hadv as [->|[next ->]]; simpl; rewrite afterStreet_phase;
        (split; [auto|discriminate]).
    + match type of Hadv with
      | match determineWinners ?ps ?cc with _ => _ end =>
          destruct (determineWinners ps cc) as [[ws best]|e] eqn:Hwin
      end.
      * destruct Hadv as [-> _]. rewrite afterShowdown_phase.
        split; [simpl; auto|discriminate].
      * destruct Hadv as [-> _]. split; [simpl; auto|].
        intros _. right. exists e. exact Hwin.
    + rewrite Hadv. simpl. rewrite Hph. split; [auto|auto].
    + destruct Hadv as [next ->]. simpl. rewrite Hph. split; [auto|discriminate].
  - simpl. rewrite Hp1. split; [apply Hself|auto].
Qed.

(** X6.  A call of [processPlayerAction] leaves the phase as it is or moves
    the hand on by one street; from the river it reaches the end of the
    hand, and stops at the showdown only when [determineWinners] fails.
    Outside a hand (waiting, showdown, hand complete) no request changes
    the phase.  Over any sequence of requests the phase never moves
    back. *)
Theorem requests_advance_one_street (req : PlayerActionRequest)
    (reqs : list PlayerActionRequest) (t : Table) :
  let t' := fst (processPlayerAction req t) in
  In (phase (gameState (room t'))) (nextPhases (phase (gameState (room t)))) /\
  (phase (gameState (room t')) = Showdown ->
   phase (gameState (room t)) = Showdown \/
   exists e, determineWinners (players (room t'))
               (communityCards (gameState (room t'))) = Err e) /\
  (phaseIndex (phase (gameState (room t)))
   <= phaseIndex (phase (gameState (room (handleRequests reqs t)))))%nat.
Proof.
  cbv zeta. destruct (request_phase req t) as [Hstep Hshow].
  split; [exact Hstep|]. split; [exact Hshow|].
  clear Hstep Hshow. revert t. unfold handleRequests.
  induction reqs as [|r reqs IH]; intros t; simpl; [lia|].
  etransitivity; [|apply IH].
  apply phaseIndex_next, request_phase.
Qed.

(** ** Players out of the hand *)

Lemma performAction_others i req t j :
  j <> i ->
  playerAt (room (fst (performAction i req t))) j = playerAt (room t) j.
Proof.
  intros Hne. unfold performAction, bind, get.
  destruct (playerAt (room t) i) as [p|]; [|reflexivity].
  unfold playerAt, onPlayer, onPlayers, onGameState, onRoom, modify, ret, throw.
  destruct (action req).
  - simpl. apply list_lookup_alter_ne. congruence.
  - destruct (tableBet (gameState (room t)) >? currentBet p); [reflexivity|].
    simpl. apply list_lookup_alter_ne. congruence.
  - destruct (tableBet (gameState (room t)) - currentBet p >? chips p); [reflexivity|].
    simpl. rewrite !list_lookup_alter_ne by congruence. reflexivity.
  - destruct (amount req) as [amt|]; [|reflexivity].
    destruct ((amt =? 0) || (amt <? minRaise (gameState (room t)))); [reflexivity|].
    destruct (tableBet (gameState (room t)) + amt - currentBet p >? chips p);
      [reflexivity|].
    simpl. rewrite !list_lookup_alter_ne by congruence. reflexivity.
  - destruct (currentBet p + chips p >? tableBet (gameState (room t)));
      simpl; rewrite !list_lookup_alter_ne by congruence; reflexivity.
Qed.

Lemma awardChips_others sharePerWinner remainder winners : forall i ps j,
  ~ In j winners ->
  awardChips sharePerWinner remainder i winners ps !! j = ps !! j.
Proof.
  induction winners as [|w winners IH]; intros i ps j Hj; simpl; [reflexivity|].
  rewrite IH by (intros H; apply Hj; right; exact H).
  apply list_lookup_alter_ne. intros ->. apply Hj. left. reflexivity.
Qed.

Lemma determineWinners_in_hand ps cc winnerIndexes bestHand w :
  determineWinners ps cc = Ok (winnerIndexes, bestHand) ->
  In w winnerIndexes -> exists p, ps !! w = Some p /\ isInHand p = true.
Proof.
  rewrite determineWinners_unfold.
  pose proof (inHand_seats ps) as Hseats.
  destruct (List.filter (fun ip => isInHand (snd ip)) (indexed ps))
    as [|ip act'] eqn:Hact; [discriminate|].
  destruct (evaluatePlayers cc (ip :: act')) as [hands|e] eqn:Heval; [|discriminate].
  destruct (evaluatePlayers_hands _ _ _ Heval) as [Hto _].
  destruct hands as [|[i0 hand0] more]; [discriminate|].
  intros Hres Hw.
  assert (Hws : winnerIndexes
                = map fst (List.filter
                    (fun ph => compareHands (snd ph) (findBest hand0 more) =? 0)
                    ((i0, hand0) :: more))) by congruence.
  rewrite Hws in Hw. apply in_map_iff in Hw as ([w' h] & <- & Hin).
  apply filter_In in Hin as [Hin _].
  destruct (Hto w' h Hin) as (p & Hp & _). apply Hseats in Hp. exists p. exact Hp.
Qed.

Lemma afterShowdown_others winnerIndexes t j :
  ~ In j winnerIndexes ->
  playerAt (room (afterShowdown winnerIndexes t)) j = playerAt (room t) j.
Proof.
  intros Hj. unfold afterShowdown, distributePot, playerAt.
  destruct (length winnerIndexes =? 0)%nat; [reflexivity|].
  simpl. apply awardChips_others, Hj.
Qed.

Lemma afterReset_folded t j p :
  playerAt (room t) j = Some p -> isInHand p = false ->
  playerAt (room (afterReset t)) j = Some p.
Proof.
  unfold playerAt, afterReset. simpl. intros Hp Hout.
  rewrite lookup_map, Hp. simpl. rewrite Hout. reflexivity.
Qed.

Lemma afterStreet_players next count t :
  players (room (afterStreet next count t)) = players (room t).
Proof.
  unfold afterStreet.
  destruct (dealCommunityCards (deck t) count true) as [[? ?]|?]; reflexivity.
Qed.

Lemma advanceHand_folded t j p :
  playerAt (room t) j = Some p -> isInHand p = false ->
  playerAt (room (fst (advanceHand t))) j = Some p.
Proof.
  intros Hp Hout. pose proof (afterReset_folded t j p Hp Hout) as Hp0.
  pose proof (advanceHand_cases t) as Hadv. cbv zeta in Hadv.
  unfold playerAt in *.
  destruct (phase (gameState (room t))).
  - destruct Hadv as [next ->]. exact Hp0.
  - destruct Hadv as [->|[next ->]]; simpl; rewrite afterStreet_players; exact Hp0.
  - destruct Hadv as [->|[next ->]]; simpl; rewrite afterStreet_players; exact Hp0.
  - destruct Hadv as [->|[next ->]]; simpl; rewrite afterStreet_players; exact Hp0.
  - match type of Hadv with
    | match determineWinners ?ps ?cc with _ => _ end =>
        destruct (determineWinners ps cc) as [[ws best]|e] eqn:Hwin
    end.
    + destruct Hadv as [-> _].
      change (playerAt (room (afterShowdown ws
                {| room := {| players := players (room (afterReset t));
                              gameState := set_phase Showdown
                                             (gameState (room (afterReset t)));
                              settings := settings (room (afterReset t)) |};
                   deck := deck (afterReset t) |})) j = Some p).
      rewrite afterShowdown_others; [exact Hp0|].
      intros Hj. destruct (determineWinners_in_hand _ _ _ _ j Hwin Hj) as (q & Hq & Hin).
      change (players (room (afterReset t)) !! j = Some q) in Hq.
      rewrite Hp0 in Hq. congruence.
    + destruct Hadv as [-> _]. exact Hp0.
  - rewrite Hadv. exact Hp0.
  - destruct Hadv as [next ->]. exact Hp0.
Qed.

Lemma request_folded req t j p :
  playerAt (room t) j = Some p -> isInHand p = false ->
  playerAt (room (fst (processPlayerAction req t))) j = Some p.
Proof.
  intros Hp Hout.
  destruct (processPlayerAction_cases req t)
    as [->|(i & player & Hfind & Hin & _ & Hcases)]; [exact Hp|].
  cbv zeta in Hcases.
  assert (Hne : j <> i).
  { intros ->. apply findPlayer_playerAt in Hfind. congruence. }
  pose proof (performAction_others i req t j Hne) as Hp1. rewrite Hp in Hp1.
  destruct Hcases as [->|[->|[next ->]]]; [exact Hp1| |exact Hp1].
  apply advanceHand_folded; assumption.
Qed.

(** X7.  A player who is out of the hand (folded, or not dealt in) is left
    alone by every later request of the hand: the chips, the bets and
    every other field of the record stay as they are, whatever the other
    players do and whoever wins the pot. *)
Theorem folded_player_is_left_alone (reqs : list PlayerActionRequest) (t : Table)
    (j : nat) (p : Player) :
  playerAt (room t) j = Some p -> isInHand p = false ->
  playerAt (room (handleRequests reqs t)) j = Some p.
Proof.
  unfold handleRequests. revert t.
  induction reqs as [|req reqs IH]; intros t Hp Hout; simpl; [exact Hp|].
  apply IH; [|exact Hout]. apply request_folded; assumption.
Qed.

Lemma folded_player_is_left_alone_witness :
  let t := handleRequests [Scenario.say "P0" Fold]
             (beginHand createDeck Scenario.threeHandedTable) in
  (chips <$> playerAt (room (handleRequests
                [Scenario.say "P1" Call; Scenario.say "P2" Check] t)) 0) = Some 1000.
Proof.
  intros t.
  rewrite (folded_player_is_left_alone
             [Scenario.say "P1" Call; Scenario.say "P2" Check] t 0
             (set_lastAction (Some Fold)
                (set_isInHand false
                   (set_holeCards [mkCard Two Hearts; mkCard Five Hearts]
                      (set_isDealer true (Scenario.seat "P0" 1000)))))).
  - reflexivity.
  - vm_compute. reflexivity.
  - reflexivity.
Defined.

(** ** The actions offered ([getValidActions]) *)

Lemma getValidActions_offers p tb a :
  In a (PokerEngine.getValidActions p tb) <->
  isInHand p = true /\ isActive p = true /\
  match a with
  | Fold => True
  | Check => tb - currentBet p = 0
  | Call => 0 < tb - currentBet p <= chips p
  | Raise => tb - currentBet p < chips p
  | AllIn => 0 < chips p
  end.
Proof.
  unfold PokerEngine.getValidActions.
  destruct (isInHand p); simpl; [|split; [intros []|intros (? & _); discriminate]].
  destruct (isActive p); simpl; [|split; [intros []|intros (_ & ? & _); discriminate]].
  rewrite !in_app_iff.
  destruct (Z.eqb_spec (tb - currentBet p) 0), (Z.gtb_spec (tb - currentBet p) 0),
    (Z.leb_spec (tb - currentBet p) (chips p)),
    (Z.gtb_spec (chips p) (tb - currentBet p)), (Z.gtb_spec (chips p) 0);
    simpl; destruct a; intuition (try discriminate; try lia).
Qed.

(** X8.  Every action [getValidActions] offers to a player, other than a
    raise, is carried out by the [switch] of [processPlayerAction] without
    an error; a raise that is offered is carried out exactly for the
    amounts that are not zero, reach the minimum raise and leave the
    player's chips covering the call and the raise.  Actions are only
    offered to a player that is active and in the hand. *)
Theorem offered_actions_are_accepted (t : Table) (i : nat) (p : Player)
    (req : PlayerActionRequest) :
  playerAt (room t) i = Some p ->
  In (action req) (PokerEngine.getValidActions p (tableBet (gameState (room t)))) ->
  let g := gameState (room t) in
  let callAmount := tableBet g - currentBet p in
  isInHand p = true /\ isActive p = true /\
  (action req <> Raise -> snd (performAction i req t) = Ok tt) /\
  (action req = Raise ->
     (amount req = None -> snd (performAction i req t) = Err (MinimumRaiseIs (minRaise g))) /\
     forall amt, amount req = Some amt ->
       (snd (performAction i req t) = Ok tt <->
        amt <> 0 /\ minRaise g <= amt /\ callAmount + amt <= chips p)).
Proof.
  intros Hp Hoffer g callAmount. apply getValidActions_offers in Hoffer.
  destruct Hoffer as (Hin & Hact & Hoffer). fold g in Hoffer. fold callAmount in Hoffer.
  split; [exact Hin|]. split; [exact Hact|].
  unfold performAction, bind, get. rewrite Hp. fold g.
  unfold onPlayer, onPlayers, onGameState, onRoom, modify, ret, throw.
  split.
  - intros Hnr. destruct (action req) eqn:Ha; try contradiction; try reflexivity.
    + destruct (Z.gtb_spec (tableBet g) (currentBet p)); [lia|reflexivity].
    + destruct (Z.gtb_spec (tableBet g - currentBet p) (chips p)); [lia|reflexivity].
    + destruct (currentBet p + chips p >? tableBet g); reflexivity.
  - intros Ha. rewrite Ha. split.
    + intros ->. reflexivity.
    + intros amt ->.
      destruct (Z.eqb_spec amt 0) as [Hz|Hz]; simpl.
      { split; [discriminate|lia]. }
      destruct (Z.ltb_spec amt (minRaise g)) as [Hlt|Hge]; simpl.
      { split; [discriminate|lia]. }
      destruct (Z.gtb_spec (tableBet g + amt - currentBet p) (chips p)) as [Hgt|Hle].
      { split; [discriminate|subst callAmount; lia]. }
      split; [intros _; subst callAmount; lia|reflexivity].
Qed.

Lemma offered_actions_are_accepted_witness :
  snd (performAction 0 (Scenario.say "P0" Call)
         (beginHand createDeck Scenario.threeHandedTable)) = Ok tt.
Proof.
  refine (proj1 (proj2 (proj2 (offered_actions_are_accepted
            (beginHand createDeck Scenario.threeHandedTable) 0
            (set_holeCards [mkCard Two Hearts; mkCard Five Hearts]
               (set_isInHand true (set_isDealer true (Scenario.seat "P0" 1000))))
            (Scenario.say "P0" Call) _ _))) _).
  - vm_compute. reflexivity.
  - vm_compute. auto.
  - discriminate.
Defined.

(** ** Dealing *)

Lemma takeCards_spec count : forall d,
  takeCards count d
  = if (count <=? length d)%nat then Ok (take count d, drop count d)
    else Err InsufficientCards.
Proof.
  induction count as [|count IH]; intros d; simpl.
  - rewrite drop_0. reflexivity.
  - destruct d as [|card d]; [reflexivity|]. rewrite IH. simpl.
    destruct (count <=? length d)%nat; reflexivity.
Qed.

(** X9.  [dealCommunityCards] removes the top card when a burn is asked for
    and the deck is not empty, then takes [count] cards from the top, in
    order, and hands back the rest of the deck; it fails with "Insufficient
    cards in deck" exactly when fewer than [count] cards are left after the
    burn.  An empty deck is not an error when no card is asked for. *)
Theorem dealCommunityCards_from_the_top (deck : list Card) (count : nat)
    (burnCard : bool) :
  let afterBurn := drop (if burnCard then 1 else 0) deck in
  ((count <= length afterBurn)%nat ->
     dealCommunityCards deck count burnCard
     = Ok (take count afterBurn, drop count afterBurn) /\
     deck = take (if burnCard then 1 else 0) deck
            ++ take count afterBurn ++ drop count afterBurn) /\
  ((length afterBurn < count)%nat ->
     dealCommunityCards deck count burnCard = Err InsufficientCards).
Proof.
  intros afterBurn. unfold dealCommunityCards. rewrite takeCards_spec.
  assert (Hburn : (if burnCard && (0 <? length deck)%nat then tl deck else deck)
                  = afterBurn).
  { subst afterBurn. destruct burnCard, deck; reflexivity. }
  rewrite Hburn. split; intros Hlen.
  - destruct (Nat.leb_spec count (length afterBurn)); [|lia].
    split; [reflexivity|]. subst afterBurn. now rewrite !take_drop.
  - destruct (Nat.leb_spec count (length afterBurn)); [lia|reflexivity].
Qed.

Lemma dealCommunityCards_from_the_top_witness :
  dealCommunityCards createDeck 3 true
  = Ok ([mkCard Three Hearts; mkCard Four Hearts; mkCard Five Hearts],
        drop 4 createDeck).
Proof.
  apply (dealCommunityCards_from_the_top createDeck 3 true). simpl. lia.
Defined.

Lemma dealtIn_set_holeCards v p : dealtIn (set_holeCards v p) = dealtIn p.
Proof. reflexivity. Qed.

Lemma sameButCards_dealtIn p p' : sameButCards p p' -> dealtIn p' = dealtIn p.
Proof. unfold sameButCards. intros ->. reflexivity. Qed.

Lemma sameButCards_dealtBefore l l' :
  Forall2 sameButCards l l' -> forall i, dealtBefore l' i = dealtBefore l i.
Proof.
  unfold dealtBefore. induction 1 as [|p p' l l' Hp _ IH]; intros i.
  - reflexivity.
  - destruct i as [|i]; [reflexivity|]. simpl.
    rewrite (sameButCards_dealtIn p p' Hp).
    destruct (dealtIn p); simpl; rewrite IH; reflexivity.
Qed.

Lemma sameButCards_dealt l l' :
  Forall2 sameButCards l l' ->
  length (List.filter dealtIn l') = length (List.filter dealtIn l).
Proof.
  induction 1 as [|p p' l l' Hp _ IH]; [reflexivity|]. simpl.
  rewrite (sameButCards_dealtIn p p' Hp).
  destruct (dealtIn p); simpl; rewrite IH; reflexivity.
Qed.

(** One round of the deal: the [k]-th player dealt to receives the [k]-th
    card of the deck. *)
Lemma dealRound_spec ps : forall d,
  let n := length (List.filter dealtIn ps) in
  ((n <= length d)%nat ->
     snd (dealRound ps d) = Ok (drop n d) /\
     forall i p, ps !! i = Some p ->
       exists p', fst (dealRound ps d) !! i = Some p' /\
         if dealtIn p
         then exists c, d !! dealtBefore ps i = Some c /\
                p' = set_holeCards (holeCards p ++ [c]) p
         else p' = p) /\
  ((length d < n)%nat -> snd (dealRound ps d) = Err InsufficientCards).
Proof.
  induction ps as [|q ps IH]; intros d; cbn [List.filter length].
  - simpl. split; [|lia]. intros _. split; [reflexivity|]. intros i p H. discriminate.
  - cbn [dealRound]. fold (dealtIn q).
    destruct (dealtIn q) eqn:Hq; cbn [length].
    + destruct d as [|card d].
      * split; [simpl; lia|reflexivity].
      * specialize (IH d). cbv zeta in IH. destruct IH as [IHok IHerr].
        destruct (dealRound ps d) as [rest' r] eqn:Hrest. simpl fst in *. simpl snd in *.
        split.
        -- intros Hlen. simpl in Hlen. destruct IHok as [Hr Hps]; [lia|].
           split; [exact Hr|].
           intros [|i] p Hp; simpl in Hp.
           ++ injection Hp as <-. eexists. split; [reflexivity|]. rewrite Hq.
              exists card. split; reflexivity.
           ++ destruct (Hps i p Hp) as (p' & Hp' & Hdesc). exists p'.
              split; [exact Hp'|].
              destruct (dealtIn p); [|exact Hdesc].
              destruct Hdesc as (c & Hc & ->). exists c. split; [|reflexivity].
              unfold dealtBefore in *. simpl. rewrite Hq. simpl. exact Hc.
        -- intros Hlen. simpl in Hlen. apply IHerr. lia.
    + specialize (IH d). cbv zeta in IH. destruct IH as [IHok IHerr].
      destruct (dealRound ps d) as [rest' r] eqn:Hrest. simpl fst in *. simpl snd in *.
      split.
      * intros Hlen. destruct IHok as [Hr Hps]; [lia|]. split; [exact Hr|].
        intros [|i] p Hp; simpl in Hp.
        -- injection Hp as <-. eexists. split; [reflexivity|]. rewrite Hq. reflexivity.
        -- destruct (Hps i p Hp) as (p' & Hp' & Hdesc). exists p'.
           split; [exact Hp'|].
           destruct (dealtIn p); [|exact Hdesc].
           destruct Hdesc as (c & Hc & ->). exists c. split; [|reflexivity].
           unfold dealtBefore in *. simpl. rewrite Hq. exact Hc.
      * intros Hlen. apply IHerr. lia.
Qed.

Lemma dealHoleCards_ok ps d :
  (2 * length (List.filter dealtIn ps) <= length d)%nat ->
  snd (dealHoleCards ps d) = Ok (drop (2 * length (List.filter dealtIn ps)) d).
Proof.
  intros Hlen. unfold dealHoleCards.
  destruct (dealRound_spec ps d) as [[Hr1 _] _]; [lia|].
  pose proof (dealRound_same ps d) as Hsame.
  destruct (dealRound ps d) as [ps1 r1]. simpl in Hr1, Hsame. subst r1.
  destruct (dealRound_spec ps1 (drop (length (List.filter dealtIn ps)) d))
    as [[Hr2 _] _].
  { rewrite (sameButCards_dealt _ _ Hsame), length_drop. lia. }
  rewrite Hr2, (sameButCards_dealt _ _ Hsame), drop_drop. f_equal. f_equal. lia.
Qed.

(** X10.  [dealHoleCards] deals one card at a time, twice round the table in
    seat order: with [n] players active and in the hand and at least [2n]
    cards, the [k]-th of them receives the [k]-th and the [(n+k)]-th card
    of the deck (counting from zero), the other players receive none, and
    the deck is handed back without its [2n] top cards.  With fewer cards
    it fails with "Insufficient cards in deck". *)
Theorem dealHoleCards_round_the_table (ps : list Player) (deck : list Card) :
  let n := length (List.filter dealtIn ps) in
  ((2 * n <= length deck)%nat ->
     snd (dealHoleCards ps deck) = Ok (drop (2 * n) deck) /\
     length (fst (dealHoleCards ps deck)) = length ps /\
     forall i p, ps !! i = Some p ->
       exists p', fst (dealHoleCards ps deck) !! i = Some p' /\
         if dealtIn p
         then exists c1 c2,
                deck !! dealtBefore ps i = Some c1 /\
                deck !! (n + dealtBefore ps i)%nat = Some c2 /\
                p' = set_holeCards (holeCards p ++ [c1; c2]) p
         else p' = p) /\
  ((length deck < 2 * n)%nat ->
     snd (dealHoleCards ps deck) = Err InsufficientCards).
Proof.
  intros n. split.
  - intros Hlen. split; [apply dealHoleCards_ok, Hlen|].
    split; [symmetry; apply (Forall2_length _ _ _ (dealHoleCards_same ps deck))|].
    unfold dealHoleCards.
    destruct (dealRound_spec ps deck) as [[Hr1 Hps1] _]; [fold n; lia|].
    pose proof (dealRound_same ps deck) as Hsame.
    destruct (dealRound ps deck) as [ps1 r1]. simpl in Hr1, Hps1, Hsame. subst r1.
    fold n in Hps1 |- *.
    destruct (dealRound_spec ps1 (drop n deck)) as [[_ Hps2] _].
    { rewrite (sameButCards_dealt _ _ Hsame), length_drop. fold n. lia. }
    intros i p Hp. destruct (Hps1 i p Hp) as (p1 & Hp1 & Hd1).
    destruct (Hps2 i p1 Hp1) as (p2 & Hp2 & Hd2).
    exists p2. split; [exact Hp2|].
    rewrite (sameButCards_dealtBefore _ _ Hsame) in Hd2.
    destruct (dealtIn p) eqn:Hdealt.
    + destruct Hd1 as (c1 & Hc1 & ->). rewrite dealtIn_set_holeCards, Hdealt in Hd2.
      destruct Hd2 as (c2 & Hc2 & ->). exists c1, c2.
      rewrite lookup_drop in Hc2.
      split; [exact Hc1|]. split; [exact Hc2|].
      simpl. rewrite <- app_assoc. reflexivity.
    + subst p1. rewrite Hdealt in Hd2. exact Hd2.
  - intros Hlen. unfold dealHoleCards.
    pose proof (dealRound_spec ps deck) as [Hok1 Herr1]. fold n in Hok1, Herr1.
    pose proof (dealRound_same ps deck) as Hsame.
    destruct (dealRound ps deck) as [ps1 r1]. simpl in Hok1, Herr1, Hsame.
    destruct (Nat.le_gt_cases n (length deck)) as [Hle|Hgt].
    + destruct (Hok1 Hle) as [-> _].
      destruct (dealRound_spec ps1 (drop n deck)) as [_ Herr2].
      apply Herr2. rewrite (sameButCards_dealt _ _ Hsame), length_drop. fold n. lia.
    + rewrite (Herr1 Hgt). reflexivity.
Qed.

Lemma dealHoleCards_round_the_table_witness :
  let ps := map resetForHand [Scenario.seat "P0" 1000; Scenario.seat "P1" 1000] in
  snd (dealHoleCards ps createDeck) = Ok (drop 4 createDeck) /\
  length (fst (dealHoleCards ps createDeck)) = 2%nat.
Proof.
  intros ps.
  destruct (dealHoleCards_round_the_table ps createDeck) as [Hok _].
  destruct Hok as (Hdeck & Hlen & _); [simpl; lia|].
  split; [exact Hdeck|exact Hlen].
Defined.

(** ** The cards of a hand *)

Lemma cardsHeld_same ps ps' :
  map holeCards ps' = map holeCards ps -> cardsHeld ps' = cardsHeld ps.
Proof. unfold cardsHeld. rewrite !flat_map_concat_map. now intros ->. Qed.

Lemma holeCards_alter f i (ps : list Player) :
  (forall p, holeCards (f p) = holeCards p) ->
  map holeCards (alter f i ps) = map holeCards ps.
Proof.
  intros Hf. revert i. induction ps as [|q ps IH]; intros [|i]; simpl; try reflexivity.
  - now rewrite Hf.
  - f_equal. apply IH.
Qed.

Lemma holeCards_map f (ps : list Player) :
  (forall p, holeCards (f p) = holeCards p) ->
  map holeCards (map f ps) = map holeCards ps.
Proof.
  intros Hf. induction ps as [|q ps IH]; simpl; [reflexivity|]. now rewrite Hf, IH.
Qed.

(** [t'] holds the same cards as [t], in the same places. *)
Lemma stock_same t t' :
  map holeCards (players (room t')) = map holeCards (players (room t)) ->
  communityCards (gameState (room t')) = communityCards (gameState (room t)) ->
  deck t' = deck t ->
  stock t' = stock t.
Proof.
  intros Hh Hc Hd. unfold stock, cardsOut. now rewrite (cardsHeld_same _ _ Hh), Hc, Hd.
Qed.

Lemma performAction_stock i req t : stock (fst (performAction i req t)) = stock t.
Proof.
  unfold performAction, bind, get.
  destruct (playerAt (room t) i) as [p|]; [|reflexivity].
  unfold onPlayer, onPlayers, onGameState, onRoom, modify, ret, throw.
  destruct (action req).
  - apply stock_same; try reflexivity. simpl. now apply holeCards_alter.
  - destruct (tableBet (gameState (room t)) >? currentBet p); [reflexivity|].
    apply stock_same; try reflexivity. simpl. now apply holeCards_alter.
  - destruct (tableBet (gameState (room t)) - currentBet p >? chips p); [reflexivity|].
    apply stock_same; try reflexivity. simpl.
    rewrite !holeCards_alter; reflexivity.
  - destruct (amount req) as [amt|]; [|reflexivity].
    destruct ((amt =? 0) || (amt <? minRaise (gameState (room t)))); [reflexivity|].
    destruct (tableBet (gameState (room t)) + amt - currentBet p >? chips p);
      [reflexivity|].
    apply stock_same; try reflexivity. simpl.
    rewrite !holeCards_alter; reflexivity.
  - destruct (currentBet p + chips p >? tableBet (gameState (room t)));
      (apply stock_same; try reflexivity; simpl;
       rewrite !holeCards_alter; reflexivity).
Qed.

Lemma afterReset_stock t : stock (afterReset t) = stock t.
Proof.
  apply stock_same; try reflexivity. unfold afterReset. simpl.
  apply holeCards_map. intros p. destruct (isInHand p); reflexivity.
Qed.

Lemma awardChips_holeCards sharePerWinner remainder winners : forall i ps,
  map holeCards (awardChips sharePerWinner remainder i winners ps) = map holeCards ps.
Proof.
  induction winners as [|w winners IH]; intros i ps; simpl; [reflexivity|].
  rewrite IH. now apply holeCards_alter.
Qed.

Lemma afterShowdown_stock winnerIndexes t : stock (afterShowdown winnerIndexes t) = stock t.
Proof.
  unfold afterShowdown, distributePot.
  destruct (length winnerIndexes =? 0)%nat; [reflexivity|].
  apply stock_same; try reflexivity. simpl. apply awardChips_holeCards.
Qed.

(** A street takes its cards from the deck. *)
Lemma afterStreet_stock next count t : stock (afterStreet next count t) ⊆+ stock t.
Proof.
  unfold afterStreet, dealCommunityCards. rewrite takeCards_spec.
  set (d := if true && (0 <? length (deck t))%nat then tl (deck t) else deck t).
  assert (Hd : d `sublist_of` deck t).
  { subst d. simpl. destruct (deck t) as [|c l]; simpl; [reflexivity|].
    apply sublist_cons, reflexivity. }
  destruct (count <=? length d)%nat; [|reflexivity].
  unfold stock, cardsOut. simpl. rewrite <- !app_assoc.
  apply submseteq_skips_l, submseteq_skips_l.
  rewrite take_drop. apply sublist_submseteq, Hd.
Qed.

Lemma advanceHand_stock t : stock (fst (advanceHand t)) ⊆+ stock t.
Proof.
  pose proof (advanceHand_cases t) as Hadv. cbv zeta in Hadv.
  rewrite <- (afterReset_stock t).
  destruct (phase (gameState (room t))).
  - destruct Hadv as [next ->]. reflexivity.
  - destruct Hadv as [->|[next ->]]; apply afterStreet_stock.
  - destruct Hadv as [->|[next ->]]; apply afterStreet_stock.
  - destruct Hadv as [->|[next ->]]; apply afterStreet_stock.
  - match type of Hadv with
    | match determineWinners ?ps ?cc with _ => _ end =>
        destruct (determineWinners ps cc) as [[ws best]|e]
    end; destruct Hadv as [-> _]; [rewrite afterShowdown_stock|]; reflexivity.
  - rewrite Hadv. reflexivity.
  - destruct Hadv as [next ->]. reflexivity.
Qed.

Lemma request_stock req t : stock (fst (processPlayerAction req t)) ⊆+ stock t.
Proof.
  destruct (processPlayerAction_cases req t) as [->|(i & player & _ & _ & _ & Hcases)];
    [reflexivity|].
  cbv zeta in Hcases. rewrite <- (performAction_stock i req t).
  destruct Hcases as [->|[->|[next ->]]]; [reflexivity| |reflexivity].
  apply advanceHand_stock.
Qed.

Lemma requests_stock reqs : forall t, stock (handleRequests reqs t) ⊆+ stock t.
Proof.
  unfold handleRequests. induction reqs as [|req reqs IH]; intros t; simpl; [reflexivity|].
  etransitivity; [apply IH|apply request_stock].
Qed.

(** The cards a round of the deal hands out come from the deck. *)
Lemma dealRound_cards ps : forall d rest,
  snd (dealRound ps d) = Ok rest ->
  cardsHeld (fst (dealRound ps d)) ++ rest ≡ₚ cardsHeld ps ++ d.
Proof.
  unfold cardsHeld.
  induction ps as [|q ps IH]; intros d rest; cbn [dealRound].
  - simpl. now intros [= ->].
  - destruct (isActive q && isInHand q).
    + destruct d as [|card d]; [discriminate|].
      specialize (IH d rest). destruct (dealRound ps d) as [rest' r]. simpl in *.
      intros Hr. rewrite <- !app_assoc. apply Permutation_app_head.
      rewrite (IH Hr). simpl.
      rewrite (Permutation_app_comm (flat_map holeCards ps) (card :: d)). simpl.
      apply Permutation_skip, Permutation_app_comm.
    + specialize (IH d rest). destruct (dealRound ps d) as [rest' r]. simpl in *.
      intros Hr. rewrite <- !app_assoc. apply Permutation_app_head, IH, Hr.
Qed.

Lemma dealHoleCards_cards ps d rest :
  snd (dealHoleCards ps d) = Ok rest ->
  cardsHeld (fst (dealHoleCards ps d)) ++ rest ≡ₚ cardsHeld ps ++ d.
Proof.
  unfold dealHoleCards. pose proof (dealRound_cards ps d) as H1.
  destruct (dealRound ps d) as [ps1 [d1|e]]; [|discriminate]. simpl in H1.
  intros H2. rewrite (dealRound_cards ps1 d1 rest H2). apply H1. reflexivity.
Qed.

Lemma postBlind_stock index nominal flag t :
  (forall p, holeCards (flag p) = holeCards p) ->
  stock (fst (postBlind index nominal flag t)) = stock t.
Proof.
  intros Hflag. unfold postBlind, bind, get.
  destruct (playerAt (room t) index) as [p|]; [|reflexivity].
  destruct (isActive p); [|reflexivity].
  unfold onPlayer, onPlayers, onGameState, onRoom, modify, ret.
  apply stock_same; try reflexivity. simpl. apply holeCards_alter.
  intros q. rewrite Hflag. reflexivity.
Qed.

Lemma postBlinds_stock t : stock (fst (postBlinds t)) = stock t.
Proof.
  unfold postBlinds. rewrite fst_bind. unfold get at 1. cbv iota beta.
  rewrite fst_bind.
  pose proof (postBlind_stock (smallBlindIndex (gameState (room t)))
                (smallBlind (settings (room t))) (set_isSmallBlind true) t
                ltac:(reflexivity)) as H1.
  pose proof (postBlind_ok (smallBlindIndex (gameState (room t)))
                (smallBlind (settings (room t))) (set_isSmallBlind true) t) as Hok.
  destruct (postBlind (smallBlindIndex (gameState (room t)))
              (smallBlind (settings (room t))) (set_isSmallBlind true) t)
    as [t1 [[]|e]]; simpl in H1, Hok; [|discriminate].
  rewrite <- H1. apply postBlind_stock. reflexivity.
Qed.

Lemma resetForHand_dealtIn ps :
  List.filter dealtIn (map resetForHand ps) = map resetForHand (List.filter isActive ps).
Proof.
  induction ps as [|p ps IH]; [reflexivity|]. cbn [map List.filter].
  assert (Hp : dealtIn (resetForHand p) = isActive p).
  { unfold dealtIn, resetForHand. destruct (isActive p) eqn:E; simpl; rewrite ?E; reflexivity. }
  rewrite Hp, IH. destruct (isActive p); reflexivity.
Qed.

Lemma resetForHand_cardsHeld ps :
  cardsHeld ps = [] -> cardsHeld (map resetForHand ps) = [].
Proof.
  unfold cardsHeld. induction ps as [|p ps IH]; simpl; [reflexivity|].
  intros Hnil. apply app_eq_nil in Hnil as [Hp Hps].
  rewrite (IH Hps), app_nil_r. unfold resetForHand.
  destruct (isActive p); simpl; [reflexivity|exact Hp].
Qed.

(** With two cards for every active player in the shuffled deck, the
    cards held after [startNewHand] and the rest of the deck are the
    shuffled deck. *)
Lemma startNewHand_stock shuffled t :
  cardsHeld (players (room t)) = [] ->
  (2 * length (List.filter isActive (players (room t))) <= length shuffled)%nat ->
  stock (fst (startNewHand shuffled t)) ≡ₚ shuffled.
Proof.
  intros Hnone Hlen. rewrite startNewHand_unfold.
  pose proof (resetForHand_cardsHeld _ Hnone) as Hreset.
  change (players (room (afterHandReset shuffled t)))
    with (map resetForHand (players (room t))).
  pose proof (dealHoleCards_ok (map resetForHand (players (room t))) shuffled) as Hok.
  rewrite resetForHand_dealtIn, length_map in Hok. specialize (Hok Hlen).
  pose proof (dealHoleCards_cards (map resetForHand (players (room t))) shuffled _ Hok)
    as Hcards.
  destruct (dealHoleCards (map resetForHand (players (room t))) shuffled)
    as [ps2 r]. cbn [fst snd] in Hok, Hcards. subst r.
  rewrite Hreset, app_nil_l in Hcards.
  set (rem := drop (2 * length (List.filter isActive (players (room t)))) shuffled) in *.
  rewrite fst_bind. unfold onPlayers at 1, onRoom, modify. cbv iota beta.
  rewrite fst_bind. unfold setDeck at 1, modify. cbv iota beta.
  rewrite fst_bind.
  match goal with
  | |- context [postBlinds ?t1] =>
      pose proof (postBlinds_stock t1) as Hpb;
      pose proof (postBlinds_ok t1) as Hpbok;
      destruct (postBlinds t1) as [t2 [[]|e]]; simpl in Hpb, Hpbok; [|discriminate]
  end.
  etransitivity; [|exact Hcards].
  match type of Hpb with
  | _ = stock ?t1 => change (stock t1) with ((cardsHeld ps2 ++ []) ++ rem) in Hpb
  end.
  rewrite app_nil_r in Hpb. rewrite <- Hpb.
  rewrite fst_bind. unfold get at 1. cbv iota beta.
  destruct (players (room t2)); reflexivity.
Qed.

Lemma active_alter f i (ps : list Player) :
  (forall p, isActive (f p) = isActive p) ->
  length (List.filter isActive (alter f i ps)) = length (List.filter isActive ps).
Proof.
  intros Hf. revert i. induction ps as [|q ps IH]; intros [|i]; simpl; try reflexivity.
  - rewrite Hf. destruct (isActive q); reflexivity.
  - unfold alter in IH. destruct (isActive q); simpl; rewrite IH; reflexivity.
Qed.

Lemma active_map f (ps : list Player) :
  (forall p, isActive (f p) = isActive p) ->
  length (List.filter isActive (map f ps)) = length (List.filter isActive ps).
Proof.
  intros Hf. induction ps as [|q ps IH]; simpl; [reflexivity|].
  rewrite Hf. destruct (isActive q); simpl; rewrite IH; reflexivity.
Qed.

Lemma cardsHeld_map_nil f (ps : list Player) :
  (forall p, holeCards (f p) = []) -> cardsHeld (map f ps) = [].
Proof.
  intros Hf. unfold cardsHeld. induction ps as [|q ps IH]; simpl; [reflexivity|].
  now rewrite Hf, IH.
Qed.

Lemma prepareNextHand_clears t :
  let t1 := fst (prepareNextHand t) in
  cardsHeld (players (room t1)) = [] /\
  length (List.filter isActive (players (room t1)))
  = length (List.filter isActive (players (room t))).
Proof.
  cbv zeta. destruct (players (room t)) as [|p0 ps0] eqn:E.
  - unfold prepareNextHand, bind, get. rewrite E. simpl. rewrite E. auto.
  - rewrite prepareNextHand_unfold by congruence. cbn [fst room players].
    rewrite E. split.
    + erewrite cardsHeld_same; [|apply holeCards_alter; reflexivity].
      apply cardsHeld_map_nil. reflexivity.
    + rewrite active_alter by reflexivity. apply active_map. reflexivity.
Qed.

(** On a table that no other room shares the deck with: when the shuffled
    deck holds every card once and two cards for every active player, the
    hole cards of all players, the board and the rest of the deck are
    distinct cards of the shuffled deck, whatever the requests. *)
Lemma cards_stay_apart (t : Table) (shuffled : list Card)
    (reqs : list PlayerActionRequest) :
  List.NoDup shuffled ->
  (2 * length (List.filter isActive (players (room t))) <= length shuffled)%nat ->
  let s := playHand shuffled reqs t in
  List.NoDup (cardsHeld (players (room s)) ++ communityCards (gameState (room s))
              ++ deck s) /\
  forall c, In c (cardsHeld (players (room s)) ++ communityCards (gameState (room s))
                  ++ deck s) -> In c shuffled.
Proof.
  intros Hnd Hlen s.
  destruct (prepareNextHand_clears t) as [Hclear Hactive]. cbv zeta in Hclear, Hactive.
  assert (Hbegin : stock (beginHand shuffled t) ≡ₚ shuffled).
  { unfold beginHand. apply startNewHand_stock; [exact Hclear|]. rewrite Hactive. exact Hlen. }
  assert (Hsub : stock s ⊆+ shuffled).
  { subst s. unfold playHand. fold (handleRequests reqs (beginHand shuffled t)).
    etransitivity; [apply requests_stock|]. apply Permutation_submseteq, Hbegin. }
  unfold stock, cardsOut in Hsub. rewrite <- app_assoc in Hsub.
  split.
  - apply NoDup_ListNoDup. apply NoDup_ListNoDup in Hnd.
    apply submseteq_sublist_r in Hsub as (l & Hperm & Hsl).
    rewrite Hperm. eapply sublist_NoDup; eassumption.
  - intros c Hc. apply list_elem_of_In. apply list_elem_of_In in Hc.
    eapply elem_of_submseteq; eassumption.
Qed.

Lemma createDeck_NoDup : List.NoDup createDeck.
Proof.
  apply NoDup_ListNoDup.
  apply (NoDup_fmap_1 (fun c => (rk c, match suit c with
                                       | Hearts => 0 | Diamonds => 1
                                       | Clubs => 2 | Spades => 3
                                       end))).
  compute_done.
Qed.

(** ** Combinations ([getCombinations]) *)

Lemma binomial_above n : forall k, (n < k)%nat -> binomial n k = 0%nat.
Proof.
  induction n as [|n IH]; intros [|k] Hk; simpl; try lia.
  rewrite !IH by lia. reflexivity.
Qed.

Lemma binomial_diag n : binomial n n = 1%nat.
Proof.
  induction n as [|n IH]; simpl; [reflexivity|].
  rewrite IH, binomial_above by lia. reflexivity.
Qed.

Lemma binomial_one n : binomial n 1 = n.
Proof. induction n as [|n IH]; simpl; [reflexivity|]. rewrite IH. destruct n; simpl; lia. Qed.

(** When the recursion of [getCombinations] comes back. *)
Lemma getCombinations_returns {T : Type} (arr : list T) : forall k,
  getCombinations arr k <> None <->
  k = 1 \/ (k = 0 /\ arr = []) \/ 1 <= k <= Z.of_nat (length arr).
Proof.
  induction arr as [|first rest IH]; intros k; cbn [getCombinations length].
  - destruct (Z.eqb_spec k 1) as [->|H1]; [split; [auto|discriminate]|].
    destruct (Z.eqb_spec k (Z.of_nat 0)) as [->|H0]; [split; [auto|discriminate]|].
    change (Z.of_nat 0) with 0 in *. split; [congruence|]. lia.
  - destruct (Z.eqb_spec k 1) as [->|H1]; [split; [auto|discriminate]|].
    destruct (Z.eqb_spec k (Z.of_nat (S (length rest)))) as [->|Hn].
    { split; [intros _; right; right; lia|discriminate]. }
    specialize (IH (k - 1)) as IH1. specialize (IH k) as IH2.
    destruct (getCombinations rest (k - 1)) as [withFirst|];
      destruct (getCombinations rest k) as [withoutFirst|].
    + split; [intros _|discriminate].
      destruct (proj1 IH1 ltac:(discriminate)) as [?|[[? ?]|?]];
        destruct (proj1 IH2 ltac:(discriminate)) as [?|[[? ?]|?]]; lia.
    + split; [congruence|]. intros [?|[[? ?]|?]]; try lia; try discriminate.
      exfalso. apply (proj2 IH2); [lia|reflexivity].
    + split; [congruence|]. intros [?|[[? ?]|?]]; try lia; try discriminate.
      exfalso. apply (proj2 IH1); [lia|reflexivity].
    + split; [congruence|]. intros [?|[[? ?]|?]]; try lia; try discriminate.
      exfalso. apply (proj2 IH1); [lia|reflexivity].
Qed.

Lemma getCombinations_length {T : Type} (arr : list T) : forall k combos,
  getCombinations arr k = Some combos ->
  length combos = binomial (length arr) (Z.to_nat k).
Proof.
  induction arr as [|first rest IH]; intros k combos Hrun.
  - cbn [getCombinations length] in Hrun.
    destruct (Z.eqb_spec k 1) as [->|H1]; [injection Hrun as <-; reflexivity|].
    destruct (Z.eqb_spec k (Z.of_nat 0)) as [->|H0]; [injection Hrun as <-; reflexivity|].
    discriminate.
  - assert (Hk : k = 1 \/ (k = 0 /\ first :: rest = []) \/
                   1 <= k <= Z.of_nat (length (first :: rest))).
    { apply getCombinations_returns. rewrite Hrun. discriminate. }
    cbn [getCombinations length] in Hrun, Hk |- *.
    destruct (Z.eqb_spec k 1) as [->|H1].
    { injection Hrun as <-.
      change (length (map (fun el => [el]) (first :: rest))
              = binomial (length (first :: rest)) 1).
      rewrite length_map. symmetry. apply binomial_one. }
    destruct (Z.eqb_spec k (Z.of_nat (S (length rest)))) as [->|Hn].
    { injection Hrun as <-. rewrite Nat2Z.id. symmetry.
      apply (binomial_diag (S (length rest))). }
    destruct (getCombinations rest (k - 1)) as [withFirst|] eqn:Hw; [|discriminate].
    destruct (getCombinations rest k) as [withoutFirst|] eqn:Hwo; [|discriminate].
    injection Hrun as <-. rewrite length_app, length_map.
    rewrite (IH _ _ Hw), (IH _ _ Hwo).
    assert (Hk2 : 2 <= k) by (destruct Hk as [?|[[? ?]|?]]; try lia; discriminate).
    replace (Z.to_nat k) with (S (Z.to_nat (k - 1))) by lia. reflexivity.
Qed.

(** On an engine whose stack holds any call that ends
    [getCombinations(arr, k)] returns for [1 <= k <= arr.length] the
    [k]-element sub-sequences of [arr], "[arr.length] choose [k]" of them;
    for [k] zero or negative on a non-empty array, or above the length, the
    recursion does not come back. *)
Lemma getCombinations_ideal {T : Type} (arr : list T) (k : Z) :
  (getCombinations arr k = None <->
   k <> 1 /\ (k < 0 \/ Z.of_nat (length arr) < k \/ (k = 0 /\ arr <> []))) /\
  (forall combos, getCombinations arr k = Some combos ->
     length combos = binomial (length arr) (Z.to_nat k) /\
     (1 <= k <= Z.of_nat (length arr) ->
      forall c, In c combos <-> c `sublist_of` arr /\ Z.of_nat (length c) = k)).
Proof.
  split.
  - pose proof (getCombinations_returns arr k) as Hret.
    destruct (getCombinations arr k) as [combos|].
    + split; [discriminate|]. intros [H1 Hout].
      destruct (proj1 Hret ltac:(discriminate)) as [?|[[? ?]|?]]; [lia| |lia].
      destruct Hout as [?|[?|[_ Hne]]]; [lia| |contradiction].
      subst arr. simpl in *. lia.
    + split; [|reflexivity]. intros _.
      assert (Hnot : ~ (k = 1 \/ (k = 0 /\ arr = []) \/ 1 <= k <= Z.of_nat (length arr))).
      { intros H. apply Hret in H. congruence. }
      split; [lia|].
      destruct (Z.eq_dec k 0) as [->|]; [|lia].
      right. right. split; [reflexivity|]. intros ->. apply Hnot. auto.
  - intros combos Hrun. split; [apply getCombinations_length, Hrun|].
    intros Hk. destruct (getCombinations_spec arr k Hk) as (combos' & Hrun' & Hspec).
    assert (combos' = combos) by congruence. subst combos'. exact Hspec.
Qed.

(** ** The order of hands ([compareHands]) *)

Lemma compareCards_opp la : forall lb, compareCards lb la = - compareCards la lb.
Proof.
  induction la as [|a la IH]; intros [|b lb]; simpl; try reflexivity.
  rewrite (Z.eqb_sym (rk b) (rk a)).
  destruct (rk a =? rk b); simpl; [apply IH|lia].
Qed.

Lemma compareCards_ranks la : forall lb la' lb',
  map rk la = map rk la' -> map rk lb = map rk lb' ->
  compareCards la lb = compareCards la' lb'.
Proof.
  induction la as [|a la IH]; intros lb la' lb' Ha Hb.
  - destruct la'; [|discriminate]. reflexivity.
  - destruct la' as [|a' la']; [discriminate|]. injection Ha as Ha Hla.
    destruct lb as [|b lb]; destruct lb' as [|b' lb']; try discriminate;
      [reflexivity|].
    injection Hb as Hb Hlb. simpl. rewrite Ha, Hb.
    destruct (rk a' =? rk b'); simpl; [apply IH; assumption|reflexivity].
Qed.

(** X13.  [compareHands] is antisymmetric, exchanging the hands changes the
    sign of the result, and it looks only at the category and at the ranks
    of the cards, never at the suits.  On the hands [evaluateHand] returns
    it is transitive, so that it orders them totally up to ties. *)
Theorem compareHands_orders_hands (hand1 hand2 : Hand) :
  compareHands hand2 hand1 = - compareHands hand1 hand2 /\
  (forall hand1' hand2',
     handRank hand1' = handRank hand1 -> handRank hand2' = handRank hand2 ->
     map rk (cards hand1' ++ kickers hand1') = map rk (cards hand1 ++ kickers hand1) ->
     map rk (cards hand2' ++ kickers hand2') = map rk (cards hand2 ++ kickers hand2) ->
     compareHands hand1' hand2' = compareHands hand1 hand2) /\
  (forall cs1 cs2 cs3 hand3,
     evaluateHand cs1 = Ok hand1 -> evaluateHand cs2 = Ok hand2 ->
     evaluateHand cs3 = Ok hand3 ->
     compareHands hand1 hand2 <= 0 -> compareHands hand2 hand3 <= 0 ->
     compareHands hand1 hand3 <= 0).
Proof.
  split; [|split].
  - unfold compareHands.
    rewrite (Z.eqb_sym (handRankValue (handRank hand2))).
    destruct (handRankValue (handRank hand1) =? handRankValue (handRank hand2));
      simpl; [apply compareCards_opp|lia].
  - intros hand1' hand2' Hr1 Hr2 Hc1 Hc2. unfold compareHands.
    rewrite Hr1, Hr2.
    destruct (handRankValue (handRank hand1) =? handRankValue (handRank hand2));
      simpl; [|reflexivity].
    apply compareCards_ranks; assumption.
  - intros cs1 cs2 cs3 hand3 H1 H2 H3.
    apply evaluateHand_facts in H1 as (_ & H1 & _).
    apply evaluateHand_facts in H2 as (_ & H2 & _).
    apply evaluateHand_facts in H3 as (_ & H3 & _).
    apply compareHands_trans; assumption.
Qed.

(** ** The cards of an evaluated hand *)

Lemma cardsOfRank_cons_perm c cs keys :
  List.NoDup keys ->
  flat_map (cardsOfRank (c :: cs)) keys
  ≡ₚ (if existsb (fun r => rk c =? r) keys then [c] else [])
     ++ flat_map (cardsOfRank cs) keys.
Proof.
  induction keys as [|r keys IH]; intros Hnd; [reflexivity|].
  apply List.NoDup_cons_iff in Hnd as [Hr Hnd]. specialize (IH Hnd).
  cbn [flat_map existsb]. unfold cardsOfRank at 1. cbn [List.filter].
  fold (cardsOfRank cs r).
  destruct (Z.eqb_spec (rk c) r) as [Heq|Hne]; cbn [orb].
  - assert (Hno : existsb (fun r => rk c =? r) keys = false).
    { apply not_true_is_false. intros Hex. apply existsb_exists in Hex as (r' & Hin & Hr').
      apply Z.eqb_eq in Hr'. apply Hr. congruence. }
    rewrite Hno in IH. simpl in IH. rewrite IH. reflexivity.
  - rewrite IH. destruct (existsb (fun r => rk c =? r) keys); simpl; [|reflexivity].
    symmetry. apply Permutation_middle.
Qed.

Lemma cardsOfRank_all cs keys :
  List.NoDup keys -> (forall c, In c cs -> In (rk c) keys) ->
  flat_map (cardsOfRank cs) keys ≡ₚ cs.
Proof.
  intros Hnd. induction cs as [|c cs IH]; intros Hkeys.
  - clear. induction keys as [|r keys IHk]; [reflexivity|exact IHk].
  - rewrite cardsOfRank_cons_perm by exact Hnd.
    assert (Hin : existsb (fun r => rk c =? r) keys = true).
    { apply existsb_exists. exists (rk c). split; [apply Hkeys; now left|apply Z.eqb_refl]. }
    rewrite Hin. simpl. apply Permutation_skip, IH.
    intros c' Hc'. apply Hkeys. now right.
Qed.

Lemma separateLoop_perm cs rankCounts targetCounts sortedRanks : forall st,
  let st' := fold_left (separateStep cs rankCounts targetCounts) sortedRanks st in
  sep_primary st' ++ sep_kickers st'
  ≡ₚ (sep_primary st ++ sep_kickers st) ++ flat_map (cardsOfRank cs) sortedRanks.
Proof.
  induction sortedRanks as [|r sortedRanks IH]; intros st; cbn [fold_left flat_map].
  - rewrite app_nil_r. reflexivity.
  - cbv zeta in IH. rewrite IH. unfold separateStep. fold (cardsOfRank cs r).
    destruct (nth_error targetCounts (sep_targetIndex st)) as [t|];
      [destruct (countOf rankCounts r =? t)|]; cbn [sep_primary sep_kickers];
      rewrite <- ?app_assoc.
    + apply Permutation_app_head. rewrite !app_assoc.
      apply Permutation_app_tail, Permutation_app_comm.
    + reflexivity.
    + reflexivity.
Qed.

Lemma slice0_all {T : Type} (l : list T) n :
  Z.of_nat (length l) <= n -> slice0 l n = l.
Proof.
  intros Hn. unfold slice0. destruct (Z.ltb_spec n 0); [lia|].
  apply firstn_all2. lia.
Qed.

Lemma separateCardsByRank_perm cs targetCounts primaryCards kickers' :
  length cs = 5%nat ->
  separateCardsByRank cs (countRanks (map rk cs)) targetCounts
    = (primaryCards, kickers') ->
  primaryCards ++ kickers' ≡ₚ cs.
Proof.
  intros Hlen. unfold separateCardsByRank.
  pose proof (separateLoop_total cs targetCounts) as Htotal. cbv zeta in Htotal.
  pose proof (separateLoop_perm cs (countRanks (map rk cs)) targetCounts
                (js_sort (byCountThenRank (countRanks (map rk cs)))
                         (keysOf (countRanks (map rk cs))))
                (mkSeparation [] [] 0)) as Hperm.
  cbv zeta in Hperm. fold (separateLoop cs (countRanks (map rk cs)) targetCounts
    (js_sort (byCountThenRank (countRanks (map rk cs)))
             (keysOf (countRanks (map rk cs))))) in Hperm.
  unfold keysOf in *.
  set (st := separateLoop cs (countRanks (map rk cs)) targetCounts
               (js_sort (byCountThenRank (countRanks (map rk cs)))
                        (map fst (countRanks (map rk cs))))) in *.
  intros [= <- <-].
  rewrite slice0_all.
  2: { rewrite !length_js_sort. lia. }
  rewrite !js_sort_perm, Hperm. simpl.
  rewrite js_sort_perm.
  destruct (countRanks_facts (map rk cs)) as (Hnd & _ & _ & Hkeys).
  apply cardsOfRank_all; [exact Hnd|].
  intros c Hc. apply Hkeys. apply in_map, Hc.
Qed.

Lemma evaluateExactHand_perm cs h :
  evaluateExactHand cs = Ok h -> cards h ++ kickers h ≡ₚ cs.
Proof.
  unfold evaluateExactHand.
  destruct (Nat.eqb_spec (length cs) 5) as [Hlen|]; [|discriminate]. simpl.
  pose proof (js_sort_perm byRankDesc cs) as Hsorted.
  assert (Hlen' : length (js_sort byRankDesc cs) = 5%nat) by now rewrite length_js_sort.
  set (sortedCards := js_sort byRankDesc cs) in *.
  assert (Hwheel : arrangeWheelStraight sortedCards ≡ₚ cs).
  { unfold arrangeWheelStraight. now rewrite js_sort_perm. }
  assert (Hsep : forall targetCounts primaryCards kickers',
            separateCardsByRank sortedCards (countRanks (map rk sortedCards)) targetCounts
            = (primaryCards, kickers') -> primaryCards ++ kickers' ≡ₚ cs).
  { intros ? ? ? H. rewrite <- Hsorted. eapply separateCardsByRank_perm; eassumption. }
  repeat match goal with
  | |- (if ?c then _ else _) = _ -> _ => destruct c eqn:?
  end; intros [= <-]; cbn [cards kickers]; rewrite ?app_nil_r;
    try exact Hsorted;
    try (destruct (isWheelStraight (map rk sortedCards)); [exact Hwheel|exact Hsorted]);
    try exact (Hsep [4] _ _ eq_refl); try exact (Hsep [3] _ _ eq_refl);
    try exact (Hsep [2; 2] _ _ eq_refl); try exact (Hsep [2] _ _ eq_refl).
  - (* full house: the kickers are dropped, and there are none *)
    destruct (separateCardsByRank sortedCards (countRanks (map rk sortedCards)) [3; 2])
      as [primaryCards kickers'] eqn:Hfh.
    pose proof (Hsep _ _ _ Hfh) as Hall.
    pose proof (separateCardsByRank_length _ _ _ _ Hlen' Hfh) as Hfive.
    assert (Hprim : length primaryCards = 5%nat).
    { match goal with
      | H : _ && _ = true |- _ => apply andb_prop in H as [H3 H2]
      end.
      eapply (fullHouse_all_primary sortedCards); eassumption. }
    rewrite length_app in Hfive.
    destruct kickers'; [|simpl in Hfive; lia].
    rewrite app_nil_r in Hall.
    injection Hfh as <- _. exact Hall.
  - (* high card *)
    rewrite slice0_all by lia. exact Hsorted.
Qed.

(** X14.  The hand [evaluateExactHand] returns is made of the five cards it
    was given, [cards] and [kickers] together holding each of them once;
    the hand [evaluateHand] returns is made of five of the cards it was
    given, none used more often than it was given. *)
Theorem evaluated_hand_uses_given_cards (cs : list Card) (hand : Hand) :
  (evaluateExactHand cs = Ok hand -> cards hand ++ kickers hand ≡ₚ cs) /\
  (evaluateHand cs = Ok hand ->
     length (cards hand ++ kickers hand) = 5%nat /\
     cards hand ++ kickers hand ⊆+ cs).
Proof.
  split; [apply evaluateExactHand_perm|].
  intros Hev. apply evaluateHand_facts in Hev as (_ & Hlen & (c & Hsub & _ & Hc) & _).
  split; [exact Hlen|].
  rewrite (evaluateExactHand_perm c hand Hc). apply sublist_submseteq, Hsub.
Qed.

Lemma evaluated_hand_uses_given_cards_witness :
  exists hand, evaluateHand Cards.wheelCards = Ok hand /\
    cards hand ++ kickers hand ⊆+ Cards.wheelCards.
Proof.
  eexists. split; [vm_compute; reflexivity|].
  refine (proj2 (proj2 (evaluated_hand_uses_given_cards Cards.wheelCards _) _)).
  vm_compute. reflexivity.
Defined.

(** ** The order of the cards does not matter *)

Section SortMap.
Context {A B : Type} (f : A -> B) (cmp : A -> A -> Z) (cmp' : B -> B -> Z).
Hypothesis cmp_f : forall a b, cmp a b = cmp' (f a) (f b).

Lemma map_insert_sorted x l :
  map f (insert_sorted cmp x l) = insert_sorted cmp' (f x) (map f l).
Proof.
  induction l as [|y l IH]; simpl; [reflexivity|].
  rewrite cmp_f. destruct (cmp' (f x) (f y) <=? 0); simpl; [reflexivity|].
  now rewrite IH.
Qed.

Lemma map_js_sort l : map f (js_sort cmp l) = js_sort cmp' (map f l).
Proof.
  induction l as [|x l IH]; simpl; [reflexivity|].
  now rewrite map_insert_sorted, IH.
Qed.
End SortMap.

Lemma insert_descending x l :
  StronglySorted (fun a b => b <= a) l ->
  StronglySorted (fun a b => b <= a) (insert_sorted descending x l).
Proof.
  induction 1 as [|y l Hs IH Hy]; simpl; [repeat constructor|].
  unfold descending at 1. destruct (Z.leb_spec (y - x) 0) as [Hle|Hgt].
  - constructor; [constructor; assumption|].
    constructor; [lia|]. eapply List.Forall_impl; [|exact Hy]. simpl. lia.
  - constructor; [exact IH|].
    rewrite (insert_sorted_perm descending x l).
    constructor; [lia|exact Hy].
Qed.

Lemma js_sort_descending l : StronglySorted (fun a b => b <= a) (js_sort descending l).
Proof.
  induction l as [|x l IH]; simpl; [constructor|]. apply insert_descending, IH.
Qed.

Lemma descending_unique l1 : forall l2,
  StronglySorted (fun a b : Z => b <= a) l1 ->
  StronglySorted (fun a b : Z => b <= a) l2 ->
  l1 ≡ₚ l2 -> l1 = l2.
Proof.
  induction l1 as [|x l1 IH]; intros l2 H1 H2 Hperm.
  - symmetry. apply Permutation_nil, Hperm.
  - destruct l2 as [|y l2]; [symmetry in Hperm; apply Permutation_nil in Hperm; discriminate|].
    apply StronglySorted_inv in H1 as [H1 Hx]. apply StronglySorted_inv in H2 as [H2 Hy].
    rewrite List.Forall_forall in Hx, Hy.
    assert (x = y).
    { assert (Hxin : In x (y :: l2)) by (eapply Permutation_in; [exact Hperm|now left]).
      assert (Hyin : In y (x :: l1))
        by (eapply Permutation_in; [symmetry; exact Hperm|now left]).
      destruct Hxin as [->|Hxin]; [reflexivity|].
      destruct Hyin as [->|Hyin]; [reflexivity|].
      specialize (Hx y Hyin). specialize (Hy x Hxin). lia. }
    subst y. f_equal. apply IH; try assumption.
    eapply Permutation_cons_inv, Hperm.
Qed.

(** Sorting ranks gives the same list whatever the order they come in. *)
Lemma js_sort_descending_perm l l' :
  l ≡ₚ l' -> js_sort descending l = js_sort descending l'.
Proof.
  intros Hperm. apply descending_unique.
  - apply js_sort_descending.
  - apply js_sort_descending.
  - now rewrite !js_sort_perm.
Qed.

Lemma sorted_ranks_perm cs cs' :
  cs ≡ₚ cs' ->
  map rk (js_sort byRankDesc cs) = map rk (js_sort byRankDesc cs').
Proof.
  intros Hperm.
  rewrite !(map_js_sort rk byRankDesc descending) by reflexivity.
  apply js_sort_descending_perm. now apply Permutation_map.
Qed.

Lemma suit_eqb_eq a b : suit_eqb a b = true <-> a = b.
Proof. destruct a, b; simpl; split; congruence. Qed.

Lemma allSameSuit_spec suits :
  allSameSuit suits = true <-> forall a b, In a suits -> In b suits -> a = b.
Proof.
  destruct suits as [|s0 suits]; [split; [intros _ ? ? []|reflexivity]|].
  unfold allSameSuit. rewrite forallb_forall. split.
  - intros H a b Ha Hb. apply H, suit_eqb_eq in Ha. apply H, suit_eqb_eq in Hb. congruence.
  - intros H s Hs. apply suit_eqb_eq. apply H; [exact Hs|now left].
Qed.

Lemma allSameSuit_perm suits suits' :
  suits ≡ₚ suits' -> allSameSuit suits = allSameSuit suits'.
Proof.
  intros Hperm. apply eq_true_iff_eq. rewrite !allSameSuit_spec.
  split; intros H a b Ha Hb; apply H;
    first [now rewrite Hperm | now rewrite <- Hperm].
Qed.

Lemma map_slice0 {T U : Type} (f : T -> U) (l : list T) n :
  map f (slice0 l n) = slice0 (map f l) n.
Proof. unfold slice0. rewrite length_map. destruct (n <? 0); now rewrite firstn_map. Qed.

Lemma cardsOfRank_ranks cs r :
  map rk (List.filter (fun c => rk c =? r) cs) = List.filter (fun x => x =? r) (map rk cs).
Proof. symmetry. apply filter_map_swap. Qed.

Lemma separateLoop_ranks cs cs' rankCounts targetCounts sortedRanks :
  map rk cs = map rk cs' ->
  forall st st',
    map rk (sep_primary st) = map rk (sep_primary st') ->
    map rk (sep_kickers st) = map rk (sep_kickers st') ->
    sep_targetIndex st = sep_targetIndex st' ->
    let s := fold_left (separateStep cs rankCounts targetCounts) sortedRanks st in
    let s' := fold_left (separateStep cs' rankCounts targetCounts) sortedRanks st' in
    map rk (sep_primary s) = map rk (sep_primary s') /\
    map rk (sep_kickers s) = map rk (sep_kickers s').
Proof.
  intros Hcs. induction sortedRanks as [|r sortedRanks IH];
    intros st st' Hp Hk Hi; cbn [fold_left]; [auto|].
  apply IH; unfold separateStep; rewrite <- Hi;
    (destruct (nth_error targetCounts (sep_targetIndex st)) as [t|];
     [destruct (countOf rankCounts r =? t)|]);
    cbn [sep_primary sep_kickers sep_targetIndex];
    rewrite ?map_app, ?cardsOfRank_ranks, ?Hcs, ?Hp, ?Hk; reflexivity.
Qed.

Lemma separateCardsByRank_ranks cs cs' rankCounts targetCounts :
  map rk cs = map rk cs' ->
  map rk (fst (separateCardsByRank cs rankCounts targetCounts))
  = map rk (fst (separateCardsByRank cs' rankCounts targetCounts)) /\
  map rk (snd (separateCardsByRank cs rankCounts targetCounts))
  = map rk (snd (separateCardsByRank cs' rankCounts targetCounts)).
Proof.
  intros Hcs. unfold separateCardsByRank, separateLoop. cbn [fst snd].
  destruct (separateLoop_ranks cs cs' rankCounts targetCounts
              (js_sort (byCountThenRank rankCounts) (map fst rankCounts)) Hcs
              (mkSeparation [] [] 0) (mkSeparation [] [] 0) eq_refl eq_refl eq_refl)
    as [Hp Hk].
  cbv zeta in Hp, Hk.
  assert (Hlen : forall (l l' : list Card), map rk l = map rk l' -> length l = length l').
  { intros l l' H. rewrite <- (length_map rk l), H. apply length_map. }
  split.
  - rewrite !(map_js_sort rk byRankDesc descending) by reflexivity. now rewrite Hp.
  - rewrite !map_slice0, !length_js_sort, (Hlen _ _ Hp).
    rewrite !(map_js_sort rk byRankDesc descending) by reflexivity. now rewrite Hk.
Qed.

Lemma arrangeWheelStraight_ranks cs :
  map rk (arrangeWheelStraight cs) = js_sort wheelOrderOfRanks (map rk cs).
Proof. apply map_js_sort. reflexivity. Qed.

(** [evaluateExactHand] reads of its cards the ranks and whether the suits
    are all the same. *)
Lemma evaluateExactHand_reads cs cs' h h' :
  map rk (js_sort byRankDesc cs) = map rk (js_sort byRankDesc cs') ->
  allSameSuit (map suit (js_sort byRankDesc cs))
  = allSameSuit (map suit (js_sort byRankDesc cs')) ->
  evaluateExactHand cs = Ok h -> evaluateExactHand cs' = Ok h' ->
  handKey h = handKey h'.
Proof.
  intros Hranks Hflush. unfold evaluateExactHand.
  destruct (negb (length cs =? 5)%nat); [discriminate|].
  destruct (negb (length cs' =? 5)%nat); [discriminate|].
  set (S1 := js_sort byRankDesc cs) in *. set (S2 := js_sort byRankDesc cs') in *.
  rewrite <- Hranks, <- Hflush.
  destruct (separateCardsByRank_ranks S1 S2 (countRanks (map rk S1)) [4] Hranks) as [P4 K4].
  destruct (separateCardsByRank_ranks S1 S2 (countRanks (map rk S1)) [3; 2] Hranks) as [P32 _].
  destruct (separateCardsByRank_ranks S1 S2 (countRanks (map rk S1)) [3] Hranks) as [P3 K3].
  destruct (separateCardsByRank_ranks S1 S2 (countRanks (map rk S1)) [2; 2] Hranks) as [P22 K22].
  destruct (separateCardsByRank_ranks S1 S2 (countRanks (map rk S1)) [2] Hranks) as [P2 K2].
  assert (Hw : map rk (arrangeWheelStraight S1) = map rk (arrangeWheelStraight S2)).
  { rewrite !arrangeWheelStraight_ranks. now rewrite Hranks. }
  assert (Hs5 : map rk (slice0 S1 5) = map rk (slice0 S2 5)).
  { rewrite !map_slice0. now rewrite Hranks. }
  unfold handKey.
  repeat match goal with
  | |- (if ?c then _ else _) = _ -> _ => destruct c
  end; intros [= <-] [= <-]; cbn [handRank cards kickers];
    (apply f_equal2; [apply f_equal2; [reflexivity|]|]);
    try assumption; try reflexivity.
  all: destruct (isWheelStraight (map rk S1)); assumption.
Qed.

Lemma evaluateExactHand_perm_key cs cs' h h' :
  cs ≡ₚ cs' ->
  evaluateExactHand cs = Ok h -> evaluateExactHand cs' = Ok h' ->
  handKey h = handKey h'.
Proof.
  intros Hperm. apply evaluateExactHand_reads.
  - apply sorted_ranks_perm, Hperm.
  - apply allSameSuit_perm, Permutation_map. now rewrite !js_sort_perm.
Qed.

Lemma handKey_compare h h' : handKey h = handKey h' -> compareHands h h' = 0.
Proof.
  unfold handKey. intros [= Hr Hc Hk]. unfold compareHands. rewrite Hr, Z.eqb_refl. simpl.
  rewrite (compareCards_ranks _ _ (cards h' ++ kickers h') (cards h' ++ kickers h')).
  - pose proof (compareHands_refl h') as Hrefl. unfold compareHands in Hrefl.
    rewrite Z.eqb_refl in Hrefl. exact Hrefl.
  - rewrite !map_app. congruence.
  - reflexivity.
Qed.

Lemma compareHands_tie_rank h h' : compareHands h h' = 0 -> handRank h = handRank h'.
Proof.
  unfold compareHands.
  destruct (Z.eqb_spec (handRankValue (handRank h)) (handRankValue (handRank h')))
    as [Heq|Hne]; simpl; [intros _|lia].
  destruct (handRank h), (handRank h'); simpl in Heq; congruence.
Qed.

(** One direction of the comparison of the hands of two orderings. *)
Lemma evaluateHand_perm_le cs cs' h h' :
  cs ≡ₚ cs' -> evaluateHand cs = Ok h -> evaluateHand cs' = Ok h' ->
  compareHands h h' <= 0.
Proof.
  intros Hperm Hh Hh'.
  apply evaluateHand_facts in Hh as (_ & Hlen & (c & Hsub & Hc5 & Hc) & _).
  apply evaluateHand_facts in Hh' as (_ & Hlen' & _ & Hbest').
  assert (Hc' : c ⊆+ cs') by (rewrite <- Hperm; apply sublist_submseteq, Hsub).
  apply submseteq_sublist_r in Hc' as (c2 & Hperm2 & Hsub2).
  assert (Hc25 : length c2 = 5%nat) by (rewrite <- Hperm2; exact Hc5).
  destruct (Hbest' c2 Hsub2 Hc25) as (h2 & Hh2 & Hle).
  apply (compareHands_trans h h2 h'); try assumption.
  - apply (evaluateExactHand_length c2), Hh2.
  - rewrite (handKey_compare h h2); [lia|].
    apply (evaluateExactHand_perm_key c c2); assumption.
Qed.

(** X15.  The result of the evaluation does not depend on the order of the
    cards: [evaluateExactHand] on the same five cards in another order, and
    [evaluateHand] on the same cards in another order (hole cards first or
    board first, say), return hands of the same category that compare
    equal. *)
Theorem evaluation_ignores_card_order (cs cs' : list Card) (hand : Hand) :
  cs ≡ₚ cs' ->
  (evaluateExactHand cs = Ok hand ->
     exists hand', evaluateExactHand cs' = Ok hand' /\
       handRank hand' = handRank hand /\ compareHands hand hand' = 0) /\
  (evaluateHand cs = Ok hand ->
     exists hand', evaluateHand cs' = Ok hand' /\
       handRank hand' = handRank hand /\ compareHands hand hand' = 0).
Proof.
  intros Hperm. split.
  - intros Hh.
    assert (Hlen : length cs' = 5%nat).
    { rewrite <- Hperm. unfold evaluateExactHand in Hh.
      destruct (Nat.eqb_spec (length cs) 5); [assumption|discriminate]. }
    destruct (evaluateExactHand_ok cs' Hlen) as [hand' Hh'].
    pose proof (handKey_compare _ _ (evaluateExactHand_perm_key _ _ _ _ Hperm Hh Hh'))
      as Htie.
    exists hand'. split; [exact Hh'|]. split; [|exact Htie].
    symmetry. apply compareHands_tie_rank, Htie.
  - intros Hh.
    assert (Hlen : (5 <= length cs')%nat).
    { rewrite <- Hperm. apply (evaluateHand_facts _ _ Hh). }
    destruct (evaluateHand_ok cs' Hlen) as [hand' Hh'].
    pose proof (evaluateHand_perm_le cs cs' hand hand' Hperm Hh Hh') as Hle.
    pose proof (evaluateHand_perm_le cs' cs hand' hand (Permutation_sym Hperm) Hh' Hh)
      as Hge.
    assert (Htie : compareHands hand hand' = 0).
    { assert (Hopp : compareHands hand' hand = - compareHands hand hand').
      { unfold compareHands.
        rewrite (Z.eqb_sym (handRankValue (handRank hand'))).
        destruct (handRankValue (handRank hand) =? handRankValue (handRank hand'));
          simpl; [apply compareCards_opp|lia]. }
      lia. }
    exists hand'. split; [exact Hh'|]. split; [|exact Htie].
    symmetry. apply compareHands_tie_rank, Htie.
Qed.

Lemma evaluation_ignores_card_order_witness :
  exists hand hand',
    evaluateHand Cards.wheelCards = Ok hand /\
    evaluateHand (rev Cards.wheelCards) = Ok hand' /\
    handRank hand' = handRank hand /\ compareHands hand hand' = 0.
Proof.
  destruct (proj2 (evaluation_ignores_card_order Cards.wheelCards
                     (rev Cards.wheelCards)
                     (mkHand Straight
                        [mkCard Five Spades; mkCard Four Clubs; mkCard Three Diamonds;
                         mkCard Two Hearts; mkCard Ace Spades] [] "Straight")
                     (Permutation_rev _)))
    as (hand' & Hh' & Hrank & Htie); [vm_compute; reflexivity|].
  eexists _, hand'. split; [vm_compute; reflexivity|].
  split; [exact Hh'|]. split; [exact Hrank|exact Htie].
Defined.

(** ** The categories of the evaluator are those of the rules *)

Lemma descendingLists_cons n a rest :
  descendingLists (S n) (a :: rest)
  = map (cons a) (descendingLists n (a :: rest)) ++ descendingLists (S n) rest.
Proof. reflexivity. Qed.

Lemma descendingLists_complete n : forall avail ranks,
  length ranks = n ->
  StronglySorted (fun a b => rankValue b <= rankValue a) ranks ->
  Forall (fun r => In r avail) ranks ->
  StronglySorted (fun a b => rankValue b < rankValue a) avail ->
  In ranks (descendingLists n avail).
Proof.
  induction n as [|n IHn]; intros avail ranks Hlen Hsorted Hin Havail.
  - destruct ranks; [now left|discriminate].
  - destruct ranks as [|x ranks]; [discriminate|].
    injection Hlen as Hlen.
    apply StronglySorted_inv in Hsorted as [Hsorted Hx].
    apply List.Forall_cons_iff in Hin as [Hxin Hin].
    induction avail as [|a rest IHa]; [destruct Hxin|].
    rewrite descendingLists_cons. apply in_app_iff.
    apply StronglySorted_inv in Havail as [Hrest Ha].
    destruct Hxin as [->|Hxrest].
    + left. apply in_map. apply IHn; try assumption. constructor; assumption.
    + right. apply IHa; try assumption.
      rewrite List.Forall_forall in Ha, Hx, Hin |- *.
      intros r Hr. destruct (Hin r Hr) as [->|Hrr]; [|exact Hrr].
      specialize (Hx r Hr). specialize (Ha x Hxrest). lia.
Qed.

Lemma ranksDescending_sorted :
  StronglySorted (fun a b => rankValue b < rankValue a) ranksDescending.
Proof.
  unfold ranksDescending. simpl.
  repeat (constructor; [|repeat (constructor; [simpl; lia|]); constructor]).
  constructor.
Qed.

Lemma rank_in_ranksDescending r : In r ranksDescending.
Proof. destruct r; simpl; tauto. Qed.

(** The check of every descending list of five ranks, of one suit and
    not. *)
Lemma all_classifiedByRules :
  forallb (fun ranks => classifiedByRules ranks true && classifiedByRules ranks false)
          (descendingLists 5 ranksDescending) = true.
Proof. vm_compute. reflexivity. Qed.

Lemma handOfRanks_rk ranks flush :
  map rk (handOfRanks ranks flush) = map rankValue ranks.
Proof.
  destruct ranks as [|r rest]; [reflexivity|]. simpl. f_equal.
  rewrite map_map. reflexivity.
Qed.

Lemma occurs_ranks cs cs' r :
  map rk cs ≡ₚ map rk cs' ->
  length (cardsOfRank cs r) = length (cardsOfRank cs' r).
Proof.
  intros Hperm. unfold cardsOfRank.
  rewrite <- (length_map rk (List.filter _ cs)), <- (length_map rk (List.filter _ cs')).
  rewrite !cardsOfRank_ranks.
  apply Permutation_length. clear -Hperm.
  induction Hperm as [|x l l' _ IH|x y l|l l' l'' _ IH1 _ IH2]; simpl.
  - reflexivity.
  - destruct (x =? r); [apply Permutation_skip|]; exact IH.
  - destruct (x =? r), (y =? r); try reflexivity. apply Permutation_swap.
  - etransitivity; eassumption.
Qed.

Lemma categoryByRules_ext (occ occ' : Z -> nat) flush :
  (forall r, occ r = occ' r) ->
  categoryByRules occ flush = categoryByRules occ' flush.
Proof.
  intros Hocc.
  unfold categoryByRules, someRank, pairsHeld, consecutiveRanks, wheelOccurs, runFrom.
  cbn [existsb forallb List.filter rankValues allRanks map rankValue].
  rewrite !Hocc. reflexivity.
Qed.

Lemma standardCategory_reads cs cs' :
  map rk cs ≡ₚ map rk cs' ->
  allSameSuit (map suit cs) = allSameSuit (map suit cs') ->
  standardCategory cs = standardCategory cs'.
Proof.
  intros Hranks Hflush. unfold standardCategory. rewrite Hflush.
  apply categoryByRules_ext. intros r. apply occurs_ranks, Hranks.
Qed.

(** X16.  [evaluateExactHand] classifies five cards as the rules of poker do,
    by how often each rank occurs and whether the cards are of one suit:
    royal flush (10 to the Ace of one suit), straight flush (five
    consecutive ranks or A-2-3-4-5, of one suit), four of a kind, full
    house (a rank three times and a rank twice), flush, straight, three of
    a kind, two pair, pair, high card, the first that applies. *)
Theorem evaluateExactHand_category (cs : list Card) (hand : Hand) :
  evaluateExactHand cs = Ok hand -> handRank hand = standardCategory cs.
Proof.
  intros Hh.
  assert (Hlen : length cs = 5%nat).
  { unfold evaluateExactHand in Hh.
    destruct (Nat.eqb_spec (length cs) 5); [assumption|discriminate]. }
  set (sorted := js_sort byRankDesc cs).
  set (ranks := map rank sorted).
  set (flush := allSameSuit (map suit cs)).
  assert (Hrk : map rankValue ranks = map rk sorted).
  { subst ranks. rewrite map_map. reflexivity. }
  assert (Hin : In ranks (descendingLists 5 ranksDescending)).
  { apply descendingLists_complete.
    - subst ranks sorted. now rewrite length_map, length_js_sort.
    - pose proof (js_sort_descending (map rk cs)) as Hs.
      rewrite <- (map_js_sort rk byRankDesc descending) in Hs by reflexivity.
      fold sorted in Hs. rewrite <- Hrk in Hs. clear -Hs.
      induction ranks as [|x ranks IH]; [constructor|].
      simpl in Hs. apply StronglySorted_inv in Hs as [Hs Hx].
      constructor; [apply IH, Hs|].
      rewrite List.Forall_forall in Hx |- *. intros r Hr. apply Hx, in_map, Hr.
    - apply List.Forall_forall. intros r _. apply rank_in_ranksDescending.
    - apply ranksDescending_sorted. }
  pose proof all_classifiedByRules as Hall. rewrite forallb_forall in Hall.
  specialize (Hall ranks Hin).
  assert (Hcheck : classifiedByRules ranks flush = true).
  { apply andb_prop in Hall as [Ht Hf]. destruct flush; assumption. }
  unfold classifiedByRules in Hcheck. cbv zeta in Hcheck.
  set (canon := handOfRanks ranks flush) in *.
  apply andb_prop in Hcheck as [Hflush Hcheck]. apply eqb_prop in Hflush.
  destruct (evaluateExactHand canon) as [h'|] eqn:Hh'; [|discriminate].
  apply Z.eqb_eq in Hcheck.
  assert (Hcanon : map rk canon = map rk sorted).
  { subst canon. rewrite handOfRanks_rk. exact Hrk. }
  assert (Hkey : handKey hand = handKey h').
  { apply (evaluateExactHand_reads cs canon); try assumption.
    - fold sorted. rewrite !(map_js_sort rk byRankDesc descending) by reflexivity.
      rewrite Hcanon. symmetry. apply descending_unique.
      + apply js_sort_descending.
      + subst sorted. rewrite (map_js_sort rk byRankDesc descending) by reflexivity.
        apply js_sort_descending.
      + apply js_sort_perm.
    - rewrite (allSameSuit_perm (map suit (js_sort byRankDesc cs)) (map suit cs))
        by (apply Permutation_map, js_sort_perm).
      rewrite (allSameSuit_perm (map suit (js_sort byRankDesc canon)) (map suit canon))
        by (apply Permutation_map, js_sort_perm).
      fold flush. symmetry. exact Hflush. }
  injection Hkey as Hrank _ _. rewrite Hrank.
  assert (Hstd : standardCategory canon = standardCategory cs).
  { apply standardCategory_reads.
    - rewrite Hcanon. subst sorted. apply Permutation_map, js_sort_perm.
    - exact Hflush. }
  rewrite <- Hstd.
  destruct (handRank h'), (standardCategory canon); simpl in Hcheck;
    congruence.
Qed.

Lemma evaluateExactHand_category_witness :
  standardCategory Cards.deucesFullOfAces = FullHouse.
Proof.
  rewrite <- (evaluateExactHand_category Cards.deucesFullOfAces
                (mkHand FullHouse
                   [mkCard Ace Spades; mkCard Ace Diamonds; mkCard Two Clubs;
                    mkCard Two Diamonds; mkCard Two Hearts] [] "Full House")).
  - reflexivity.
  - vm_compute. reflexivity.
Defined.

(** ** Shuffling *)

Lemma exchange_perm {T} i j (l : list T) :
  (i < length l)%nat -> (j < length l)%nat ->
  exists l', exchange i j l = Some l' /\ l' ≡ₚ l.
Proof.
  intros Hi Hj. unfold exchange.
  destruct (lookup_lt_is_Some_2 l i Hi) as [a Ha].
  destruct (lookup_lt_is_Some_2 l j Hj) as [b Hb].
  rewrite Ha, Hb. eexists. split; [reflexivity|].
  apply Permutation_insert_swap; assumption.
Qed.

Lemma shuffleLoop_perm {T} (pick : nat -> nat -> nat) :
  (forall k n, (0 < n)%nat -> (pick k n < n)%nat) ->
  forall i call (l : list T), (i < length l)%nat ->
  exists l', shuffleLoop pick call i l = Some l' /\ l' ≡ₚ l.
Proof.
  intros Hpick. induction i as [|i IH]; intros call l Hi; cbn [shuffleLoop].
  - exists l. split; reflexivity.
  - pose proof (Hpick call (S i + 1)%nat ltac:(lia)) as Hj.
    destruct (exchange_perm (S i) (pick call (S i + 1)%nat) l Hi ltac:(lia))
      as (l1 & -> & Hl1).
    destruct (IH (S call) l1) as (l' & Hrun & Hl').
    + rewrite (Permutation_length Hl1). lia.
    + exists l'. split; [exact Hrun|]. now rewrite Hl'.
Qed.

Lemma createDeck_length : length createDeck = 52%nat.
Proof. reflexivity. Qed.

(** X17.  With every value of [Math.floor(Math.random() * n)] below [n],
    [shuffle] returns the elements of its array in some order, each as
    often as the array has it; [createShuffledDeck] so returns the 52 cards
    of the deck, none of them twice. *)
Theorem shuffle_rearranges (pick : nat -> nat -> nat) :
  (forall k n, (0 < n)%nat -> (pick k n < n)%nat) ->
  (forall (T : Type) (array : list T),
     exists shuffled, shuffle pick array = Some shuffled /\ shuffled ≡ₚ array) /\
  exists deck, createShuffledDeck pick = Some deck /\
    deck ≡ₚ createDeck /\ length deck = 52%nat /\ List.NoDup deck.
Proof.
  intros Hpick.
  assert (Hany : forall (T : Type) (array : list T),
             exists shuffled, shuffle pick array = Some shuffled /\ shuffled ≡ₚ array).
  { intros T array. unfold shuffle. destruct array as [|x array].
    - exists []. split; reflexivity.
    - apply shuffleLoop_perm; [exact Hpick|]. simpl. lia. }
  split; [exact Hany|].
  destruct (Hany Card createDeck) as (deck & Hrun & Hperm).
  exists deck. split; [exact Hrun|]. split; [exact Hperm|]. split.
  - rewrite (Permutation_length Hperm). apply createDeck_length.
  - eapply Permutation_NoDup; [symmetry; exact Hperm|]. apply createDeck_NoDup.
Qed.

Lemma shuffle_rearranges_witness :
  let pick := fun k n : nat => ((7 * k + 3) mod n)%nat in
  shuffle pick [1; 2; 3; 4; 5] = Some [2; 1; 5; 3; 4] /\
  exists deck, createShuffledDeck pick = Some deck /\
    deck ≡ₚ createDeck /\ length deck = 52%nat /\ List.NoDup deck.
Proof.
  intros pick. split; [reflexivity|].
  apply (shuffle_rearranges pick).
  intros k n Hn. apply Nat.mod_upper_bound. lia.
Defined.

(** ** The straight finder of the Swift client *)

Import SwiftCards.

Lemma omap_firstOfRank (cards : list SwiftCard) (ranks : list Z) :
  Forall (fun r => In r (map cardRank cards)) ranks ->
  map cardRank (omap (firstOfRank cards) ranks) = ranks /\
  Forall (fun c => In c cards) (omap (firstOfRank cards) ranks).
Proof.
  induction 1 as [|r ranks Hr _ [IHr IHin]]; [split; [reflexivity|constructor]|].
  change (omap (firstOfRank cards) (r :: ranks))
    with (match firstOfRank cards r with
          | Some c => c :: omap (firstOfRank cards) ranks
          | None => omap (firstOfRank cards) ranks
          end).
  destruct (firstOfRank cards r) as [c|] eqn:Hc.
  - apply find_some in Hc as [Hin Heq]. apply Z.eqb_eq in Heq.
    split; [simpl; now rewrite Heq, IHr|constructor; assumption].
  - exfalso. apply in_map_iff in Hr as (c & Heq & Hin).
    pose proof (find_none _ _ Hc c Hin) as Hno. simpl in Hno.
    apply Z.eqb_neq in Hno. contradiction.
Qed.

Lemma find_seq_first (f : nat -> bool) n i :
  List.find f (seq 0 n) = Some i ->
  (i < n)%nat /\ f i = true /\ forall k, (k < i)%nat -> f k = false.
Proof.
  assert (Hgen : forall n start, List.find f (seq start n) = Some i ->
            (start <= i < start + n)%nat /\ f i = true /\
            forall k, (start <= k < i)%nat -> f k = false).
  { clear n. induction n as [|n IH]; intros start; simpl; [discriminate|].
    destruct (f start) eqn:Hf.
    - intros [= <-]. split; [lia|]. split; [exact Hf|]. intros k Hk. lia.
    - intros Hfind. destruct (IH _ Hfind) as (Hi & Hfi & Hbefore).
      split; [lia|]. split; [exact Hfi|]. intros k Hk.
      destruct (Nat.eq_dec k start) as [->|Hne]; [exact Hf|]. apply Hbefore. lia. }
  intros Hfind. destruct (Hgen n 0%nat Hfind) as (Hi & Hfi & Hbefore).
  split; [lia|]. split; [exact Hfi|]. intros k Hk. apply Hbefore. lia.
Qed.

Lemma strictly_descending (l : list Z) :
  StronglySorted (fun a b => b <= a) l -> List.NoDup l ->
  StronglySorted (fun a b => b < a) l.
Proof.
  induction 1 as [|x l Hl IH Hx]; intros Hnd; [constructor|].
  apply List.NoDup_cons_iff in Hnd as [Hnotin Hnd].
  constructor; [apply IH, Hnd|].
  rewrite List.Forall_forall in Hx |- *. intros y Hy.
  specialize (Hx y Hy). assert (y <> x) by (intros ->; contradiction). lia.
Qed.

Lemma next_in_run a (rest : list Z) :
  StronglySorted (fun x y => y < x) (a :: rest) ->
  In (a - 1) (a :: rest) ->
  exists rest', rest = (a - 1) :: rest'.
Proof.
  intros Hs Hin. apply StronglySorted_inv in Hs as [Hrest Ha].
  destruct Hin as [Heq|Hin]; [lia|].
  destruct rest as [|b rest']; [destruct Hin|].
  apply StronglySorted_inv in Hrest as [_ Hb].
  rewrite List.Forall_forall in Ha, Hb.
  pose proof (Ha b ltac:(now left)) as Hba.
  destruct Hin as [->|Hin]; [eexists; reflexivity|].
  specialize (Hb _ Hin). lia.
Qed.

Lemma run_in_sorted (u : list Z) h :
  StronglySorted (fun x y => y < x) u ->
  (forall d, 0 <= d <= 4 -> In (h - d) u) ->
  exists pre post, u = pre ++ [h; h - 1; h - 2; h - 3; h - 4] ++ post.
Proof.
  intros Hs Hrun.
  pose proof (Hrun 0 ltac:(lia)) as Hh. rewrite Z.sub_0_r in Hh.
  apply in_split in Hh as (pre & rest & ->). exists pre.
  assert (Hsuffix : StronglySorted (fun x y => y < x) (h :: rest)).
  { clear Hrun. induction pre as [|p pre IH]; [exact Hs|].
    apply IH. simpl in Hs. now apply StronglySorted_inv in Hs as [Hs _]. }
  assert (Hlater : forall d, 1 <= d <= 4 -> In (h - d) (h :: rest)).
  { intros d Hd. specialize (Hrun d ltac:(lia)).
    apply in_app_or in Hrun as [Hpre|Hsuf]; [|exact Hsuf]. exfalso.
    clear -Hs Hpre Hd. induction pre as [|p pre IH]; [destruct Hpre|].
    simpl in Hs. apply StronglySorted_inv in Hs as [Hs Hp].
    destruct Hpre as [->|Hpre]; [|apply IH; assumption].
    rewrite List.Forall_forall in Hp.
    specialize (Hp h ltac:(apply in_or_app; right; now left)). lia. }
  destruct (next_in_run h rest Hsuffix (Hlater 1 ltac:(lia))) as (r1 & ->).
  apply StronglySorted_inv in Hsuffix as [Hs1 _].
  assert (H2 : In (h - 1 - 1) ((h - 1) :: r1)).
  { destruct (Hlater 2 ltac:(lia)) as [?|H]; [lia|].
    replace (h - 1 - 1) with (h - 2) by lia. exact H. }
  destruct (next_in_run _ _ Hs1 H2) as (r2 & ->).
  apply StronglySorted_inv in Hs1 as [Hs2 _].
  assert (H3 : In (h - 1 - 1 - 1) ((h - 1 - 1) :: r2)).
  { destruct (Hlater 3 ltac:(lia)) as [?|[?|H]]; [lia..|].
    replace (h - 1 - 1 - 1) with (h - 3) by lia. exact H. }
  destruct (next_in_run _ _ Hs2 H3) as (r3 & ->).
  apply StronglySorted_inv in Hs2 as [Hs3 _].
  assert (H4 : In (h - 1 - 1 - 1 - 1) ((h - 1 - 1 - 1) :: r3)).
  { destruct (Hlater 4 ltac:(lia)) as [?|[?|[?|H]]]; [lia..|].
    replace (h - 1 - 1 - 1 - 1) with (h - 4) by lia. exact H. }
  destruct (next_in_run _ _ Hs3 H4) as (r4 & ->).
  exists r4. replace (h - 1 - 1 - 1 - 1) with (h - 4) by lia.
  replace (h - 1 - 1 - 1) with (h - 3) by lia.
  replace (h - 1 - 1) with (h - 2) by lia. reflexivity.
Qed.

Lemma nth_after {A} (pre l : list A) j d :
  nth (length pre + j) (pre ++ l) d = nth j l d.
Proof. rewrite app_nth2 by lia. f_equal. lia. Qed.

Lemma isStraightAt_run pre post h :
  isStraightAt (pre ++ [h; h - 1; h - 2; h - 3; h - 4] ++ post) (length pre) = true.
Proof.
  unfold isStraightAt. cbn [forallb].
  rewrite <- (Nat.add_0_r (length pre)) at 2 4 6 8.
  rewrite !nth_after. simpl. rewrite !Z.eqb_refl. reflexivity.
Qed.

Lemma isStraightAt_reads i : forall (u : list Z),
  (i + 5 <= length u)%nat -> isStraightAt u i = true ->
  take 5 (drop i u)
  = [nth i u 0; nth i u 0 - 1; nth i u 0 - 2; nth i u 0 - 3; nth i u 0 - 4].
Proof.
  induction i as [|i IH]; intros u Hlen Hrun.
  - destruct u as [|a [|b [|c [|d [|e rest]]]]]; simpl in Hlen; try lia.
    unfold isStraightAt in Hrun. simpl in Hrun.
    repeat (apply andb_prop in Hrun as [?%Z.eqb_eq Hrun]).
    subst. destruct rest; reflexivity.
  - destruct u as [|x u]; simpl in Hlen; [lia|].
    apply (IH u); [lia|exact Hrun].
Qed.

Lemma descending_nth (l : list Z) :
  StronglySorted (fun a b => b < a) l ->
  forall a b, (a <= b < length l)%nat -> nth b l 0 <= nth a l 0.
Proof.
  induction 1 as [|x l Hl IH Hx]; intros a b Hab; [simpl in Hab; lia|].
  destruct a as [|a], b as [|b]; simpl in *; try lia.
  - rewrite List.Forall_forall in Hx.
    specialize (Hx (nth b l 0) ltac:(apply nth_In; lia)). lia.
  - apply IH. lia.
Qed.

(** X18.  [findStraight] of the Swift client traps when the cards have fewer
    than five different ranks, as five cards with a pair have.  Otherwise
    it returns cards of its input: five of consecutive ranks, from the
    highest rank that starts such a run; or, without a run, five of ranks
    A-2-3-4-5 when all of them occur; or no card. *)
Theorem findStraight_result (cards : list SwiftCard) :
  let ranks : gset Z := list_to_set (map cardRank cards) in
  let run h := forall d, 0 <= d <= 4 -> h - d ∈ ranks in
  ((size ranks < 5)%nat -> findStraight cards = None) /\
  ((5 <= size ranks)%nat ->
   exists found, findStraight cards = Some found /\
     Forall (fun c => In c cards) found /\
     ((exists high, map cardRank found = [high; high - 1; high - 2; high - 3; high - 4] /\
         run high /\ forall h, run h -> h <= high) \/
      (map cardRank found = wheelRanks /\ forall h, ~ run h) \/
      (found = [] /\ (forall h, ~ run h) /\ exists r, In r wheelRanks /\ r ∉ ranks))).
Proof.
  intros ranks run. unfold findStraight. fold ranks.
  set (u := js_sort descending (elements ranks)).
  assert (Hlen : length u = size ranks).
  { subst u. rewrite length_js_sort. reflexivity. }
  assert (Hin : forall r, In r u <-> r ∈ ranks).
  { intros r. subst u. rewrite <- list_elem_of_In, js_sort_perm. apply elem_of_elements. }
  assert (Hcards : forall r, r ∈ ranks -> In r (map cardRank cards)).
  { intros r Hr. subst ranks. apply elem_of_list_to_set in Hr.
    now apply list_elem_of_In. }
  assert (Hsorted : StronglySorted (fun a b => b < a) u).
  { apply strictly_descending; [apply js_sort_descending|].
    apply NoDup_ListNoDup. subst u. rewrite js_sort_perm. apply NoDup_elements. }
  assert (Hrun : forall h, run h ->
            exists k, (k < length u - 5 + 1)%nat /\ isStraightAt u k = true /\ nth k u 0 = h).
  { intros h Hh.
    destruct (run_in_sorted u h Hsorted) as (pre & post & Hu).
    { intros d Hd. apply Hin, Hh, Hd. }
    exists (length pre). rewrite Hu. split; [|split].
    - rewrite !length_app. simpl. lia.
    - apply isStraightAt_run.
    - rewrite <- (Nat.add_0_r (length pre)). now rewrite nth_after. }
  split.
  - intros Hfew. rewrite Hlen. now apply Nat.ltb_lt in Hfew as ->.
  - intros Hmany. rewrite Hlen.
    replace (size ranks <? 5)%nat with false by (symmetry; apply Nat.ltb_ge; lia).
    rewrite <- Hlen.
    destruct (List.find (isStraightAt u) (seq 0 (length u - 5 + 1))) as [i|] eqn:Hfind.
    + apply find_seq_first in Hfind as (Hi & Hat & Hfirst).
      pose proof (isStraightAt_reads i u ltac:(lia) Hat) as Hranks.
      set (high := nth i u 0) in *.
      assert (Hhigh : run high).
      { intros d Hd. apply Hin.
        assert (Hmem : In (high - d) (take 5 (drop i u))).
        { rewrite Hranks. assert (d = 0 \/ d = 1 \/ d = 2 \/ d = 3 \/ d = 4) as Hc by lia.
          destruct Hc as [->|[->|[->|[->| ->]]]]; rewrite ?Z.sub_0_r; simpl; tauto. }
        apply list_elem_of_In in Hmem. apply list_elem_of_In.
        apply (subseteq_take 5), (subseteq_drop i) in Hmem. exact Hmem. }
      destruct (omap_firstOfRank cards (take 5 (drop i u))) as [Hmap Hall].
      { rewrite Hranks. apply List.Forall_forall. intros r Hr. apply Hcards.
        assert (exists d, 0 <= d <= 4 /\ r = high - d) as (d & Hd & ->).
        { simpl in Hr. destruct Hr as [<-|[<-|[<-|[<-|[<-|[]]]]]];
            [exists 0|exists 1|exists 2|exists 3|exists 4]; lia. }
        apply Hhigh, Hd. }
      eexists. split; [reflexivity|]. split; [exact Hall|]. left.
      exists high. rewrite Hmap. split; [exact Hranks|]. split; [exact Hhigh|].
      intros h Hh. destruct (Hrun h Hh) as (k & Hk & Hkat & <-).
      destruct (Nat.lt_ge_cases k i) as [Hlt|Hge].
      { rewrite (Hfirst k Hlt) in Hkat. discriminate. }
      subst high. apply descending_nth; [exact Hsorted|lia].
    + assert (Hnone : forall h, ~ run h).
      { intros h Hh. destruct (Hrun h Hh) as (k & Hk & Hkat & _).
        pose proof (find_none _ _ Hfind k ltac:(apply in_seq; lia)) as Hno.
        congruence. }
      destruct (forallb (fun rank => existsb (Z.eqb rank) u) wheelRanks) eqn:Hwheel.
      * destruct (omap_firstOfRank cards wheelRanks) as [Hmap Hall].
        { apply List.Forall_forall. intros r Hr. apply Hcards, Hin.
          rewrite forallb_forall in Hwheel. specialize (Hwheel r Hr).
          apply existsb_exists in Hwheel as (x & Hx & Heq).
          apply Z.eqb_eq in Heq. now subst. }
        eexists. split; [reflexivity|]. split; [exact Hall|].
        right. left. split; [exact Hmap|exact Hnone].
      * exists []. split; [reflexivity|]. split; [constructor|].
        right. right. split; [reflexivity|]. split; [exact Hnone|].
        assert (Hex : exists r, In r wheelRanks /\ existsb (Z.eqb r) u = false).
        { clear -Hwheel. unfold wheelRanks in *. cbn [forallb] in Hwheel.
          repeat match type of Hwheel with
                 | (existsb (Z.eqb ?r) u && _) = false =>
                     destruct (existsb (Z.eqb r) u) eqn:?;
                       [cbn [andb] in Hwheel|exists r; split; [simpl; tauto|assumption]]
                 end.
          discriminate. }
        destruct Hex as (r & Hr & Hno). exists r. split; [exact Hr|].
        intros Hmem. apply Hin in Hmem.
        assert (existsb (Z.eqb r) u = true) as Hyes
          by (apply existsb_exists; exists r; split; [exact Hmem|apply Z.eqb_refl]).
        congruence.
Qed.

(** ** The bet check of the Swift client *)

(** X19.  [isValidBet] of the Swift client, with a minimum raise that is not
    negative, accepts no amount above the player's chips, and none below
    the amount to call unless it is all the player's chips; it does not
    refuse a bet of all the player's chips. *)
Theorem isValidBet_within_chips (amount : Z) (player : Bettor) (currentBet minRaise : Z) :
  0 <= minRaise ->
  (isValidBet amount player currentBet minRaise = Some true ->
   amount <= bettorChips player /\
   (amount = bettorChips player \/
    Z.max 0 (currentBet - bettorCurrentBet player) <= amount)) /\
  (amount = bettorChips player ->
   isValidBet amount player currentBet minRaise <> Some false).
Proof.
  intros Hmin. unfold isValidBet, calculateCallAmount, intSub, intAdd. cbv zeta.
  destruct ((intMin <=? currentBet - bettorCurrentBet player)
            && (currentBet - bettorCurrentBet player <=? intMax));
    [|split; [discriminate|intros _; discriminate]].
  set (callAmount := Z.max 0 (currentBet - bettorCurrentBet player)).
  destruct (Z.eqb_spec amount callAmount) as [Hcall|Hcall].
  - split.
    + intros [= Hle%Z.leb_le]. split; [exact Hle|right; lia].
    + intros -> [= Hle]. apply Z.leb_gt in Hle. lia.
  - destruct ((intMin <=? callAmount + minRaise) && (callAmount + minRaise <=? intMax));
      [|split; [discriminate|intros _; discriminate]].
    destruct (Z.geb_spec amount (callAmount + minRaise)) as [Hraise|Hraise].
    + split.
      * intros [= Hle%Z.leb_le]. split; [exact Hle|right; lia].
      * intros -> [= Hle]. apply Z.leb_gt in Hle. lia.
    + split.
      * intros [= Heq%Z.eqb_eq]. split; [lia|left; exact Heq].
      * intros -> [= Hne]. apply Z.eqb_neq in Hne. lia.
Qed.

Lemma isValidBet_within_chips_witness :
  isValidBet 50 (mkBettor 50 0) 100 20 = Some true /\
  isValidBet 60 (mkBettor 200 0) 100 20 = Some false /\
  (50 <= 50 /\ (50 = 50 \/ Z.max 0 (100 - 0) <= 50)).
Proof.
  split; [reflexivity|]. split; [reflexivity|].
  apply (isValidBet_within_chips 50 (mkBettor 50 0) 100 20); [lia|reflexivity].
Defined.

(** ** Room codes *)

Lemma list_ascii_of_string_append a b :
  list_ascii_of_string (String.append a b)
  = list_ascii_of_string a ++ list_ascii_of_string b.
Proof. induction a as [|c a IH]; simpl; [reflexivity|now rewrite IH]. Qed.

Lemma string_length_list s : String.length s = length (list_ascii_of_string s).
Proof. induction s as [|c s IH]; simpl; [reflexivity|now rewrite IH]. Qed.

Lemma charAt_roomCodeChars i :
  (i < String.length roomCodeChars)%nat ->
  exists c, charAt roomCodeChars i = String c EmptyString /\ upperOrDigit c = true.
Proof.
  intros Hi.
  assert (Hall : forallb (fun i => match String.get i roomCodeChars with
                                   | Some c => upperOrDigit c
                                   | None => false
                                   end) (seq 0 (String.length roomCodeChars)) = true)
    by reflexivity.
  rewrite forallb_forall in Hall. specialize (Hall i ltac:(apply in_seq; lia)).
  unfold charAt. destruct (String.get i roomCodeChars) as [c|]; [|discriminate].
  exists c. split; [reflexivity|exact Hall].
Qed.

Lemma generateRoomCodeLoop_chars (pick : nat -> nat -> nat) :
  (forall k n, (0 < n)%nat -> (pick k n < n)%nat) ->
  forall count call result,
    forallb upperOrDigit (list_ascii_of_string result) = true ->
    let code := generateRoomCodeLoop pick call count result in
    String.length code = (String.length result + count)%nat /\
    forallb upperOrDigit (list_ascii_of_string code) = true.
Proof.
  intros Hpick. induction count as [|count IH]; intros call result Hres; simpl.
  - split; [lia|exact Hres].
  - destruct (charAt_roomCodeChars (pick call (String.length roomCodeChars)))
      as (c & Hc & Hclass).
    { apply Hpick. simpl. lia. }
    change (pick call 36%nat) with (pick call (String.length roomCodeChars)).
    rewrite Hc.
    destruct (IH (S call) (String.append result (String c EmptyString))) as [Hlen Hall].
    { rewrite list_ascii_of_string_append, forallb_app, Hres. simpl.
      now rewrite Hclass. }
    split; [|exact Hall]. rewrite Hlen.
    rewrite !string_length_list, list_ascii_of_string_append, length_app. simpl. lia.
Qed.

(** X20.  With every value of [Math.floor(Math.random() * n)] below [n], the
    code [generateRoomCode] returns is one [isValidRoomCode] accepts: six
    characters, each a capital letter or a digit. *)
Theorem generated_room_code_is_valid (pick : nat -> nat -> nat) :
  (forall k n, (0 < n)%nat -> (pick k n < n)%nat) ->
  isValidRoomCode (generateRoomCode pick) = true.
Proof.
  intros Hpick. unfold isValidRoomCode, generateRoomCode.
  destruct (generateRoomCodeLoop_chars pick Hpick 6 0 EmptyString eq_refl) as [Hlen Hall].
  cbv zeta in Hlen, Hall. rewrite Hlen, Hall. reflexivity.
Qed.

Lemma generated_room_code_is_valid_witness :
  let pick := fun k n : nat => ((7 * k + 3) mod n)%nat in
  generateRoomCode pick = "DKRY5C" /\ isValidRoomCode (generateRoomCode pick) = true.
Proof.
  intros pick. split; [reflexivity|].
  apply (generated_room_code_is_valid pick).
  intros k n Hn. apply Nat.mod_upper_bound. lia.
Defined.

(** ** The evaluator on an engine with a finite call stack *)

Lemma binomial_step n k : (binomial n k <= binomial (S n) k)%nat.
Proof. destruct n, k; simpl; lia. Qed.

Lemma binomial_grows k n m : (n <= m)%nat -> (binomial n k <= binomial m k)%nat.
Proof.
  induction 1 as [|m _ IH]; [lia|].
  etransitivity; [exact IH|apply binomial_step].
Qed.

Lemma binomial_positive n : forall k, (k <= n)%nat -> (1 <= binomial n k)%nat.
Proof.
  induction n as [|n IH]; intros [|k] Hk; simpl; try lia.
  specialize (IH k ltac:(lia)). lia.
Qed.

Lemma binomial_at_least n : forall k,
  (1 <= k < n)%nat -> (n <= binomial n k)%nat.
Proof.
  induction n as [|n IH]; intros [|k] Hk; try lia.
  cbn [binomial]. destruct k as [|k].
  - rewrite binomial_one. replace (binomial n 0) with 1%nat by (destruct n; reflexivity). lia.
  - specialize (IH (S k) ltac:(lia)).
    pose proof (binomial_positive n (S (S k)) ltac:(lia)). lia.
Qed.

Lemma stackHolds_dec limit frames n k :
  {stackHolds limit frames n k} + {~ stackHolds limit frames n k}.
Proof.
  unfold stackHolds.
  destruct (le_dec 1 frames) as [Hone|Hone]; [|right; tauto].
  destruct (Z_lt_dec 1 k) as [Hk1|Hk1]; [|left; split; [assumption|lia]].
  destruct (Z_lt_dec k (Z.of_nat n)) as [Hkn|Hkn]; [|left; split; [assumption|lia]].
  destruct (le_dec (binomial (n - 1) (Z.to_nat k)) limit) as [Hargs|Hargs].
  - destruct (le_dec (n - 1) frames) as [Hdeep|Hdeep]; [left; tauto|].
    right. intros [_ H]. destruct (H (conj Hk1 Hkn)). contradiction.
  - right. intros [_ H]. destruct (H (conj Hk1 Hkn)). contradiction.
Qed.

(** What the limited engine returns, the engine without a limit returns. *)
Lemma Limited_getCombinations_Some limit {T : Type} frames :
  forall (arr : list T) k combos,
  Limited.getCombinations limit frames arr k = Some combos ->
  getCombinations arr k = Some combos.
Proof.
  induction frames as [|frames IH]; intros arr k combos; [discriminate|].
  destruct arr as [|first rest]; cbn [Limited.getCombinations getCombinations].
  - destruct (k =? 1); [auto|]. destruct (k =? Z.of_nat (length (@nil T))); auto.
  - destruct (k =? 1); [auto|].
    destruct (k =? Z.of_nat (length (first :: rest))); [auto|].
    destruct (Limited.getCombinations limit frames rest (k - 1)) as [withFirst|] eqn:Hw;
      [|discriminate].
    destruct (Limited.getCombinations limit frames rest k) as [withoutFirst|] eqn:Hwo;
      [|discriminate].
    rewrite (IH _ _ _ Hw), (IH _ _ _ Hwo).
    destruct (limit <? length withoutFirst)%nat; [discriminate|auto].
Qed.

(** The outermost call passes the most arguments and nests the deepest. *)
Lemma Limited_getCombinations_fits limit {T : Type} (arr : list T) :
  forall frames k combos,
  getCombinations arr k = Some combos ->
  stackHolds limit frames (length arr) k ->
  Limited.getCombinations limit frames arr k = Some combos.
Proof.
  induction arr as [|first rest IH]; intros frames k combos Hrun [Hframes Hfits];
    (destruct frames as [|frames]; [lia|]).
  - exact Hrun.
  - assert (Hk : k = 1 \/ (k = 0 /\ first :: rest = []) \/
                   1 <= k <= Z.of_nat (length (first :: rest))).
    { apply getCombinations_returns. rewrite Hrun. discriminate. }
    cbn [Limited.getCombinations getCombinations] in Hrun |- *.
    destruct (Z.eqb_spec k 1) as [H1|H1]; [exact Hrun|].
    destruct (Z.eqb_spec k (Z.of_nat (length (first :: rest)))) as [Hn|Hn]; [exact Hrun|].
    destruct (getCombinations rest (k - 1)) as [withFirst|] eqn:Hw; [|discriminate].
    destruct (getCombinations rest k) as [withoutFirst|] eqn:Hwo; [|discriminate].
    cbn [length] in Hk, Hn, Hfits.
    assert (Hin : 1 < k < Z.of_nat (S (length rest)))
      by (destruct Hk as [?|[[? ?]|?]]; try lia; discriminate).
    destruct (Hfits Hin) as [Hbound Hdeep].
    rewrite Nat.sub_succ, Nat.sub_0_r in Hbound, Hdeep.
    assert (Hpascal : binomial (length rest) (Z.to_nat k)
                      = (binomial (length rest - 1) (Z.to_nat (k - 1))
                         + binomial (length rest - 1) (Z.to_nat k))%nat).
    { destruct (length rest) as [|m] eqn:Hm; [lia|].
      replace (Z.to_nat k) with (S (Z.to_nat (k - 1))) by lia.
      rewrite Nat.sub_succ, Nat.sub_0_r. reflexivity. }
    rewrite (IH frames _ _ Hw) by (split; [lia|intros _; lia]).
    rewrite (IH frames _ _ Hwo) by (split; [lia|intros _; lia]).
    rewrite (getCombinations_length _ _ _ Hwo).
    destruct (Nat.ltb_spec limit (binomial (length rest) (Z.to_nat k))); [lia|].
    exact Hrun.
Qed.

Lemma Limited_getCombinations_throws limit {T : Type} frames :
  forall (arr : list T) k,
  ~ stackHolds limit frames (length arr) k ->
  Limited.getCombinations limit frames arr k = None.
Proof.
  induction frames as [|frames IH]; intros arr k Hno; [reflexivity|].
  assert (Hk : 1 < k < Z.of_nat (length arr)).
  { destruct (Z_lt_dec 1 k); [|exfalso; apply Hno; split; [lia|intros; lia]].
    destruct (Z_lt_dec k (Z.of_nat (length arr))); [lia|].
    exfalso; apply Hno; split; [lia|intros; lia]. }
  destruct arr as [|first rest]; [simpl in Hk; lia|].
  cbn [Limited.getCombinations].
  destruct (Z.eqb_spec k 1); [lia|].
  destruct (Z.eqb_spec k (Z.of_nat (length (first :: rest)))); [lia|].
  cbn [length] in Hk, Hno.
  destruct (le_dec (length rest) (S frames)) as [Hdeep|Hdeep].
  - (* the arguments do not fit *)
    assert (Hmany : (limit < binomial (length rest) (Z.to_nat k))%nat).
    { apply Nat.nle_gt. intros Hle. apply Hno. split; [lia|]. intros _.
      rewrite Nat.sub_succ, Nat.sub_0_r. split; assumption. }
    destruct (Limited.getCombinations limit frames rest (k - 1)) as [withFirst|];
      [|reflexivity].
    destruct (Limited.getCombinations limit frames rest k) as [withoutFirst|] eqn:Hwo;
      [|reflexivity].
    apply Limited_getCombinations_Some, getCombinations_length in Hwo.
    rewrite Hwo.
    destruct (Nat.ltb_spec limit (binomial (length rest) (Z.to_nat k)));
      [reflexivity|lia].
  - (* the calls are nested too deep *)
    destruct (Z_lt_dec k (Z.of_nat (length rest))) as [Hinner|Hlast].
    + rewrite (IH rest k); [destruct (Limited.getCombinations limit frames rest (k - 1));
                             reflexivity|].
      intros [_ Hfits]. destruct (Hfits ltac:(lia)). lia.
    + rewrite (IH rest (k - 1)); [reflexivity|].
      intros [Hone Hfits].
      destruct (Z_lt_dec 1 (k - 1)) as [Hbig|Hsmall]; [|lia].
      destruct (Hfits ltac:(lia)). lia.
Qed.

Lemma Limited_evaluateHand_fits limit frames cs :
  stackHolds limit frames (length cs) 5 ->
  Limited.evaluateHand limit frames cs = evaluateHand cs.
Proof.
  intros Hfits. unfold Limited.evaluateHand, evaluateHand.
  destruct (Nat.ltb_spec (length cs) 5) as [|Hlen]; [reflexivity|].
  destruct (getCombinations_spec cs 5) as (combos & Hrun & _); [lia|].
  rewrite Hrun, (Limited_getCombinations_fits limit cs frames 5 combos Hrun Hfits).
  reflexivity.
Qed.

Lemma Limited_evaluateHand_throws limit frames cs :
  (5 <= length cs)%nat -> ~ stackHolds limit frames (length cs) 5 ->
  Limited.evaluateHand limit frames cs = Err StackOverflow.
Proof.
  intros Hlen Hno. unfold Limited.evaluateHand.
  destruct (Nat.ltb_spec (length cs) 5); [lia|].
  rewrite Limited_getCombinations_throws; [reflexivity|exact Hno].
Qed.

Lemma thirty_cards_fit limit frames n :
  (n <= 30)%nat -> 118755 <= Z.of_nat limit -> (29 <= frames)%nat ->
  stackHolds limit frames n 5.
Proof.
  intros Hn Hlimit Hframes. split; [lia|]. intros _.
  pose proof (binomial_grows 5%nat (n - 1)%nat 29%nat ltac:(lia)) as Hle.
  assert (Hc : Z.of_nat (binomial 29 5) = 118755) by (vm_compute; reflexivity).
  change (Z.to_nat 5) with 5%nat. lia.
Qed.

Lemma thirty_one_cards_do_not_fit limit frames n :
  (31 <= n)%nat -> Z.of_nat limit < 142506 -> ~ stackHolds limit frames n 5.
Proof.
  intros Hn Hlimit [_ Hfits]. destruct (Hfits ltac:(lia)) as [Hmany _].
  pose proof (binomial_grows 5%nat 30%nat (n - 1)%nat ltac:(lia)) as Hle.
  assert (Hc : Z.of_nat (binomial 30 5) = 142506) by (vm_compute; reflexivity).
  change (Z.to_nat 5) with 5%nat in Hmany. lia.
Qed.

(** C10 (as the code behaves).  [evaluateHand] throws "Need at least 5
    cards to evaluate hand" on fewer than five cards.  On five cards or
    more it returns the hand of one of the five-card subsequences of its
    input, and no five-card subsequence evaluates to a hand that compares
    above it, as long as the stack of the engine holds the evaluation: the
    five-card subsequences without the first card are no more than the
    arguments the engine passes in one call, and the calls nested down to
    the last card fit.  Otherwise it throws the RangeError.  When the
    engine passes 118755 arguments and nests 29 calls, every input of up
    to 30 cards is evaluated. *)
Theorem evaluateHand_best_within_limit (maxArguments maxFrames : nat) (cs : list Card) :
  ((length cs < 5)%nat ->
   Limited.evaluateHand maxArguments maxFrames cs = Err NeedFiveCards) /\
  ((5 <= length cs)%nat -> stackHolds maxArguments maxFrames (length cs) 5 ->
   exists best, Limited.evaluateHand maxArguments maxFrames cs = Ok best /\
     (exists c, c `sublist_of` cs /\ length c = 5%nat /\
                evaluateExactHand c = Ok best) /\
     (forall c, c `sublist_of` cs -> length c = 5%nat ->
        exists h, evaluateExactHand c = Ok h /\ compareHands h best <= 0)) /\
  ((5 <= length cs)%nat -> ~ stackHolds maxArguments maxFrames (length cs) 5 ->
   Limited.evaluateHand maxArguments maxFrames cs = Err StackOverflow) /\
  ((length cs <= 30)%nat -> 118755 <= Z.of_nat maxArguments -> (29 <= maxFrames)%nat ->
   stackHolds maxArguments maxFrames (length cs) 5).
Proof.
  split; [|split; [|split]].
  - intros Hlen. unfold Limited.evaluateHand.
    destruct (Nat.ltb_spec (length cs) 5); [reflexivity|lia].
  - intros Hlen Hfits. rewrite (Limited_evaluateHand_fits _ _ _ Hfits).
    destruct (evaluateHand_ok cs Hlen) as [best Hbest].
    exists best. split; [exact Hbest|].
    destruct (evaluateHand_facts cs best Hbest) as (_ & _ & Hfrom & Hall).
    split; assumption.
  - apply Limited_evaluateHand_throws.
  - apply thirty_cards_fit.
Qed.

(** C10 as stated fails: the first 31 cards of the deck are more than five
    cards and are not evaluated by an engine that passes fewer than 142506
    arguments in one call; and whatever the number of arguments the engine
    passes, an input of that many cards and seven more is not evaluated. *)
Lemma evaluateHand_refuses_long_input :
  (forall maxArguments maxFrames, Z.of_nat maxArguments < 142506 ->
     (5 <= length (take 31 createDeck))%nat /\
     Limited.evaluateHand maxArguments maxFrames (take 31 createDeck)
     = Err StackOverflow) /\
  (forall maxArguments maxFrames,
     let cs := repeat (mkCard Two Hearts) (maxArguments + 7) in
     (5 <= length cs)%nat /\
     Limited.evaluateHand maxArguments maxFrames cs = Err StackOverflow).
Proof.
  split.
  - intros limit frames Hlimit. split; [simpl; lia|].
    apply Limited_evaluateHand_throws; [simpl; lia|].
    apply thirty_one_cards_do_not_fit; [simpl; lia|exact Hlimit].
  - intros limit frames cs. subst cs. rewrite repeat_length. split; [lia|].
    apply Limited_evaluateHand_throws; rewrite repeat_length; [lia|].
    intros [_ Hfits]. destruct (Hfits ltac:(lia)) as [Hmany _].
    change (Z.to_nat 5) with 5%nat in Hmany.
    pose proof (binomial_at_least (limit + 7 - 1)%nat 5%nat ltac:(lia)). lia.
Qed.

(** X12.  [getCombinations(arr, k)] returns for [1 <= k <= arr.length] the
    [k]-element sub-sequences of [arr], each in the order of [arr], and
    there are "[arr.length] choose [k]" of them (21 for the seven cards of a
    showdown), as long as the stack of the engine holds the call: for
    [k = 1] and [k = arr.length], which return at once, there is room for
    one call, and otherwise the combinations without the first element,
    "[arr.length - 1] choose [k]", are no more than the arguments the engine
    passes in one call and the [arr.length - 1] nested calls fit.  For
    [k = 1] on the empty array it returns no combination, and for [k = 0]
    on the empty array a single one.  In every other case (a stack that
    does not hold the call, [k] zero or negative on a non-empty array, [k]
    above the length) it ends in the RangeError of the call stack. *)
Theorem getCombinations_chooses (maxArguments frames : nat) {T : Type}
    (arr : list T) (k : Z) :
  (Limited.getCombinations maxArguments frames arr k = None <->
   ~ stackHolds maxArguments frames (length arr) k \/
   (k <> 1 /\ (k < 0 \/ Z.of_nat (length arr) < k \/ (k = 0 /\ arr <> [])))) /\
  (forall combos, Limited.getCombinations maxArguments frames arr k = Some combos ->
     length combos = binomial (length arr) (Z.to_nat k) /\
     (1 <= k <= Z.of_nat (length arr) ->
      forall c, In c combos <-> c `sublist_of` arr /\ Z.of_nat (length c) = k)).
Proof.
  split.
  - destruct (getCombinations_ideal arr k) as [Hnone _].
    destruct (Limited.getCombinations maxArguments frames arr k) as [combos|] eqn:Hrun.
    + split; [discriminate|]. intros [Hno|Hout]; exfalso.
      * rewrite (Limited_getCombinations_throws _ _ _ _ Hno) in Hrun. discriminate.
      * apply Limited_getCombinations_Some in Hrun.
        assert (Hn : getCombinations arr k = None) by (apply Hnone; exact Hout).
        congruence.
    + split; [|reflexivity]. intros _.
      destruct (stackHolds_dec maxArguments frames (length arr) k) as [Hfits|Hno];
        [|left; exact Hno].
      right. apply Hnone.
      destruct (getCombinations arr k) as [combos|] eqn:Hideal; [|reflexivity].
      rewrite (Limited_getCombinations_fits _ _ _ _ _ Hideal Hfits) in Hrun.
      discriminate.
  - intros combos Hrun. apply Limited_getCombinations_Some in Hrun.
    exact (proj2 (getCombinations_ideal arr k) combos Hrun).
Qed.

(** ** The failures of [determineWinners] *)

Lemma Limited_evaluateHand_err limit frames cs e :
  Limited.evaluateHand limit frames cs = Err e ->
  (e = NeedFiveCards /\ (length cs < 5)%nat) \/
  (e = StackOverflow /\ (5 <= length cs)%nat /\
   ~ stackHolds limit frames (length cs) 5).
Proof.
  intros Herr. destruct (Nat.lt_ge_cases (length cs) 5) as [Hshort|Hlen].
  - left. split; [|exact Hshort]. unfold Limited.evaluateHand in Herr.
    destruct (Nat.ltb_spec (length cs) 5); [congruence|lia].
  - destruct (stackHolds_dec limit frames (length cs) 5) as [Hfits|Hno].
    + rewrite (Limited_evaluateHand_fits _ _ _ Hfits) in Herr.
      left. apply evaluateHand_err, Herr.
    + rewrite (Limited_evaluateHand_throws _ _ _ Hlen Hno) in Herr.
      right. split; [congruence|]. split; assumption.
Qed.

Lemma Limited_evaluateHand_ok limit frames cs :
  (exists best, Limited.evaluateHand limit frames cs = Ok best) <->
  (5 <= length cs)%nat /\ stackHolds limit frames (length cs) 5.
Proof.
  split.
  - intros [best Hbest]. destruct (Nat.lt_ge_cases (length cs) 5) as [Hshort|Hlen].
    + unfold Limited.evaluateHand in Hbest.
      destruct (Nat.ltb_spec (length cs) 5); [discriminate|lia].
    + split; [exact Hlen|].
      destruct (stackHolds_dec limit frames (length cs) 5) as [Hfits|Hno];
        [exact Hfits|].
      rewrite (Limited_evaluateHand_throws _ _ _ Hlen Hno) in Hbest. discriminate.
  - intros [Hlen Hfits]. rewrite (Limited_evaluateHand_fits _ _ _ Hfits).
    apply evaluateHand_ok, Hlen.
Qed.

Lemma Limited_evaluatePlayers_ok limit frames cc act hands :
  Limited.evaluatePlayers limit frames cc act = Ok hands ->
  forall i p, In (i, p) act ->
    exists h, Limited.evaluateHand limit frames (holeCards p ++ cc) = Ok h.
Proof.
  revert hands. induction act as [|[j q] rest IH]; simpl; intros hands; [intros _ ? ? []|].
  destruct (Limited.evaluateHand limit frames (holeCards q ++ cc)) as [hand|e] eqn:Hq;
    [|discriminate].
  destruct (Limited.evaluatePlayers limit frames cc rest) as [hs|e]; [|discriminate].
  intros _ i p [[= <- <-]|Hin]; [exists hand; exact Hq|].
  apply (IH hs eq_refl i p Hin).
Qed.

Lemma Limited_evaluatePlayers_err limit frames cc act e :
  Limited.evaluatePlayers limit frames cc act = Err e ->
  exists i p, In (i, p) act /\ Limited.evaluateHand limit frames (holeCards p ++ cc) = Err e.
Proof.
  induction act as [|[j q] rest IH]; simpl; [discriminate|].
  destruct (Limited.evaluateHand limit frames (holeCards q ++ cc)) as [hand|e'] eqn:Hq.
  - destruct (Limited.evaluatePlayers limit frames cc rest) as [hs|e']; [discriminate|].
    intros [= ->]. destruct (IH eq_refl) as (i & p & Hin & Hev).
    exists i, p. split; [now right|exact Hev].
  - intros [= ->]. exists j, q. split; [now left|exact Hq].
Qed.

Lemma Limited_evaluatePlayers_length limit frames cc act hands :
  Limited.evaluatePlayers limit frames cc act = Ok hands -> length hands = length act.
Proof.
  revert hands. induction act as [|[j q] rest IH]; simpl; intros hands.
  - now intros [= <-].
  - destruct (Limited.evaluateHand limit frames (holeCards q ++ cc)); [|discriminate].
    destruct (Limited.evaluatePlayers limit frames cc rest) as [hs|]; [|discriminate].
    intros [= <-]. simpl. now rewrite (IH hs).
Qed.

(** [determineWinners] fails as the evaluation of the players in the hand
    does. *)
Lemma Limited_determineWinners_status limit frames ps cc :
  match List.filter (fun ip => isInHand (snd ip)) (indexed ps) with
  | [] => Limited.determineWinners limit frames ps cc = Err NoActivePlayers
  | act =>
      match Limited.evaluatePlayers limit frames cc act with
      | Err e => Limited.determineWinners limit frames ps cc = Err e
      | Ok _ => exists winners, Limited.determineWinners limit frames ps cc = Ok winners
      end
  end.
Proof.
  unfold Limited.determineWinners.
  destruct (List.filter (fun ip => isInHand (snd ip)) (indexed ps))
    as [|[i p] [|ip2 rest]] eqn:Hact; [reflexivity| |].
  - simpl. destruct (Limited.evaluateHand limit frames (holeCards p ++ cc)) as [hand|e];
      [eexists|]; reflexivity.
  - destruct (Limited.evaluatePlayers limit frames cc ((i, p) :: ip2 :: rest))
      as [hands|e] eqn:Heval; [|reflexivity].
    apply Limited_evaluatePlayers_length in Heval.
    destruct hands as [|[i0 hand0] more]; [discriminate|]. eexists. reflexivity.
Qed.

(** X4.  [determineWinners] returns exactly when somebody is in the hand
    and every player in the hand has, with the board, five cards or more
    and no more than the stack of the engine holds the evaluation of.  It
    throws "No active players to determine winner" exactly when nobody is
    in the hand, "Need at least 5 cards to evaluate hand" only when a
    player in the hand has fewer than five cards, the RangeError of the
    call stack only when the stack does not hold the cards of a player in
    the hand, and nothing else.  With at most seven cards a player, and
    room for six arguments and six nested calls, it throws "Need at least 5
    cards to evaluate hand" exactly when a player in the hand has fewer
    than five cards. *)
Theorem determineWinners_failures (maxArguments maxFrames : nat) (ps : list Player)
    (communityCards : list Card) :
  let held p := length (holeCards p ++ communityCards) in
  let inHand p := In p ps /\ isInHand p = true in
  let outcome := Limited.determineWinners maxArguments maxFrames ps communityCards in
  (outcome = Err NoActivePlayers <-> forall p, In p ps -> isInHand p = false) /\
  ((exists winners, outcome = Ok winners) <->
     (exists p, inHand p) /\
     forall p, inHand p ->
       (5 <= held p)%nat /\ stackHolds maxArguments maxFrames (held p) 5) /\
  (outcome = Err NeedFiveCards -> exists p, inHand p /\ (held p < 5)%nat) /\
  (outcome = Err StackOverflow ->
     exists p, inHand p /\ (5 <= held p)%nat /\
       ~ stackHolds maxArguments maxFrames (held p) 5) /\
  (forall e, outcome = Err e ->
     e = NoActivePlayers \/ e = NeedFiveCards \/ e = StackOverflow) /\
  ((forall p, inHand p -> (held p <= 7)%nat) ->
   (6 <= maxArguments)%nat -> (6 <= maxFrames)%nat ->
     outcome <> Err StackOverflow /\
     (outcome = Err NeedFiveCards <-> exists p, inHand p /\ (held p < 5)%nat)).
Proof.
  intros held inHand outcome.
  pose proof (Limited_determineWinners_status maxArguments maxFrames ps communityCards)
    as Hstatus.
  fold outcome in Hstatus.
  pose proof (inHand_seats ps) as Hseats.
  assert (Hlook : forall p, In p ps <-> exists i, ps !! i = Some p).
  { intros p. rewrite <- list_elem_of_In. apply list_elem_of_lookup. }
  assert (Hact : forall p, inHand p <->
            exists i, In (i, p) (List.filter (fun ip => isInHand (snd ip)) (indexed ps))).
  { intros p. unfold inHand. rewrite Hlook. split.
    - intros [[i Hi] Hin]. exists i. apply Hseats. auto.
    - intros [i Hi]. apply Hseats in Hi as [Hi Hin]. eauto. }
  assert (Hseven : forall n, (n <= 7)%nat -> (6 <= maxArguments)%nat ->
            (6 <= maxFrames)%nat -> stackHolds maxArguments maxFrames n 5).
  { intros n Hn Hroom Hdeep. split; [lia|]. intros _.
    pose proof (binomial_grows 5%nat (n - 1)%nat 6%nat ltac:(lia)) as Hle.
    change (binomial 6 5) with 6%nat in Hle. change (Z.to_nat 5) with 5%nat. lia. }
  destruct (List.filter (fun ip => isInHand (snd ip)) (indexed ps))
    as [|[j q] act'] eqn:Hfilter.
  - assert (Hnone : forall p, ~ inHand p).
    { intros p Hp. apply Hact in Hp as [i []]. }
    assert (Hout : forall p, In p ps -> isInHand p = false).
    { intros p Hp. destruct (isInHand p) eqn:E; [|reflexivity].
      destruct (Hnone p (conj Hp E)). }
    rewrite Hstatus.
    split; [split; [intros _; exact Hout|reflexivity]|].
    split; [split; [intros [? [=]]|intros [[p Hp] _]; destruct (Hnone p Hp)]|].
    split; [discriminate|]. split; [discriminate|].
    split; [intros e [= <-]; now left|].
    intros _ _ _. split; [discriminate|].
    split; [discriminate|intros (p & Hp & _); destruct (Hnone p Hp)].
  - set (act := (j, q) :: act') in *.
    assert (Hq : inHand q) by (apply Hact; exists j; now left).
    assert (Hsome : ~ forall p, In p ps -> isInHand p = false).
    { intros Hout. destruct Hq as [Hq Hin]. rewrite (Hout q Hq) in Hin. discriminate. }
    destruct (Limited.evaluatePlayers maxArguments maxFrames communityCards act)
      as [hands|e] eqn:Heval.
    + destruct Hstatus as [winners Hwin].
      assert (Hall : forall p, inHand p ->
                (5 <= held p)%nat /\ stackHolds maxArguments maxFrames (held p) 5).
      { intros p Hp. apply Hact in Hp as [i Hi].
        apply Limited_evaluateHand_ok.
        apply (Limited_evaluatePlayers_ok _ _ _ _ _ Heval i p Hi). }
      rewrite Hwin.
      split; [split; [discriminate|intros H; destruct (Hsome H)]|].
      split; [split; [intros _; split; [exists q; exact Hq|exact Hall]|intros _; eauto]|].
      split; [discriminate|]. split; [discriminate|]. split; [discriminate|].
      intros _ _ _. split; [discriminate|]. split; [discriminate|].
      intros (p & Hp & Hshort). destruct (Hall p Hp). lia.
    + rewrite Hstatus.
      destruct (Limited_evaluatePlayers_err _ _ _ _ _ Heval) as (i & p & Hin & Hev).
      assert (Hp : inHand p) by (apply Hact; eauto).
      apply Limited_evaluateHand_err in Hev.
      split; [split; [|intros H; destruct (Hsome H)]|].
      { intros [= ->]. destruct Hev as [[[=] _]|[[=] _]]. }
      split.
      { split; [intros [? [=]]|]. intros [_ Hall]. destruct (Hall p Hp) as [Hfive Hfits].
        destruct Hev as [[_ Hshort]|(_ & _ & Hno)]; [fold (held p) in Hshort; lia|].
        destruct (Hno Hfits). }
      split.
      { intros [= ->]. destruct Hev as [[_ Hshort]|[[=] _]]. exists p. auto. }
      split.
      { intros [= ->]. destruct Hev as [[[=] _]|(_ & Hlen & Hno)]. exists p. auto. }
      split.
      { intros e' [= <-]. destruct Hev as [[-> _]|[-> _]]; auto. }
      intros Hfew Hroom Hdeep.
      destruct Hev as [[-> Hshort]|(_ & _ & Hno)].
      * split; [discriminate|]. split; [intros _; exists p; auto|reflexivity].
      * destruct (Hno (Hseven (held p) (Hfew p Hp) Hroom Hdeep)).
Qed.

(** ** Amounts that are not whole numbers *)

Section FractionalAmounts.
Import QArith_base Qround.
Local Open Scope Q_scope.

(** C2 (as the code behaves).  Heads-up with stacks of 1000 and blinds of
    10 and 20, the small blind raises by 20.25: the schema and
    [validateGameAction] accept the amount and the engine takes 30.25
    chips; the big blind calls 20.25, and the pot is 80.5 with 959.75 chips
    left to each player.  At the showdown [distributePot] hands the one
    winner [Math.floor(80.5)] chips and, [0] being below [80.5 % 1], one
    chip more: 81 chips out of a pot of 80.5.  The players then own 2000.5
    chips and the pot is empty, where the hand began with 2000. *)
Theorem fractional_raise_pays_more_than_pot :
  let amount := 81 # 4 in
  let smallBlind := Fractional.mkStake 990 10 10 in
  let bigBlind := Fractional.mkStake 980 20 20 in
  let blinds := Fractional.mkBetting 30 20 20 in
  Fractional.schemaAllows amount = true /\
  Fractional.validateGameAction Raise (Some amount) 20 990 10 = true /\
  exists raiser raised caller called,
    Fractional.raise amount smallBlind blinds = Some (raiser, raised) /\
    Fractional.validateGameAction Call None (Fractional.tableBet raised) 980 20 = true /\
    Fractional.call bigBlind raised = Some (caller, called) /\
    Fractional.pot called == 161 # 2 /\
    Fractional.chips raiser + Fractional.chips caller + Fractional.pot called == 2000 /\
    forall winner, (winner < 2)%nat ->
      let paid := Fractional.distributePot (Fractional.pot called) [winner]
                    [Fractional.chips raiser; Fractional.chips caller] in
      snd paid == 0 /\
      Fractional.total (fst paid)
      == Fractional.chips raiser + Fractional.chips caller + 81 /\
      ~ Fractional.total (fst paid) + snd paid == 2000.
Proof.
  cbv zeta. split; [reflexivity|]. split; [reflexivity|].
  eexists _, _, _, _. split; [vm_compute; reflexivity|].
  split; [reflexivity|]. split; [vm_compute; reflexivity|].
  split; [reflexivity|]. split; [reflexivity|].
  intros winner Hw.
  assert (winner = 0 \/ winner = 1)%nat as [-> | ->] by lia;
    (split; [reflexivity|]; split; [reflexivity|]; vm_compute; discriminate).
Qed.

End FractionalAmounts.

(** ** The split of a pot that need not be whole *)

Section FractionalPot.
Import QArith_base Qround.
Local Open Scope Q_scope.

Lemma below_lt i remainder :
  Fractional.below i remainder = true <-> inject_Z (Z.of_nat i) < remainder.
Proof.
  unfold Fractional.below. rewrite negb_true_iff.
  destruct (Qle_bool remainder (inject_Z (Z.of_nat i))) eqn:E.
  - apply Qle_bool_iff in E. split; [discriminate|]. intros Hlt.
    exfalso. apply (Qlt_not_le _ _ Hlt E).
  - split; [intros _|reflexivity]. apply Qnot_le_lt. intros Hle.
    apply Qle_bool_iff in Hle. congruence.
Qed.

Lemma below_ceiling i remainder :
  Fractional.below i remainder = (Z.of_nat i <? Qceiling remainder)%Z.
Proof.
  apply Bool.eq_true_iff_eq. rewrite below_lt, Z.ltb_lt. split.
  - intros Hlt. rewrite Zlt_Qlt. eapply Qlt_le_trans; [exact Hlt|apply Qle_ceiling].
  - intros Hlt. eapply Qle_lt_trans; [|apply Qceiling_lt].
    rewrite <- Zle_Qle. lia.
Qed.

(** The quotient and what is left of a pot that is not negative. *)
Lemma share_bounds (pot : Q) (count : nat) :
  0 <= pot -> (0 < count)%nat ->
  let n := inject_Z (Z.of_nat count) in
  let share := Fractional.floor (pot / n) in
  Fractional.remainder pot n = pot - n * share /\
  0 <= pot - n * share /\ pot - n * share < n.
Proof.
  intros Hpot Hcount n share.
  assert (Hn : 0 < n) by (subst n; rewrite <- (Zlt_Qlt 0); lia).
  assert (Hn0 : ~ n == 0) by (intros H; rewrite H in Hn; discriminate).
  assert (Hq : 0 <= pot / n).
  { apply Qle_shift_div_l; [exact Hn|]. now rewrite Qmult_0_l. }
  split.
  - unfold Fractional.remainder. cbv zeta.
    apply Qle_bool_iff in Hq. rewrite Hq. reflexivity.
  - subst share. unfold Fractional.floor.
    pose proof (Qfloor_le (pot / n)) as Hlow.
    pose proof (Qlt_floor (pot / n)) as Hhigh.
    rewrite inject_Z_plus in Hhigh.
    apply (Qmult_le_compat_r _ _ n) in Hlow; [|apply Qlt_le_weak, Hn].
    apply (Qmult_lt_compat_r _ _ n Hn) in Hhigh.
    assert (Hback : pot / n * n == pot).
    { rewrite Qmult_comm. apply Qmult_div_r, Hn0. }
    rewrite Hback in Hlow, Hhigh.
    set (q := inject_Z (Qfloor (pot / n))) in *.
    change (inject_Z 1) with 1 in Hhigh.
    split; Lqa.lra.
Qed.

Lemma awardChips_lookup_fractional share remainder winners : forall i chips,
  List.NoDup winners ->
  (forall k w c, winners !! k = Some w -> chips !! w = Some c ->
     Fractional.awardChips share remainder i winners chips !! w
     = Some (c + (share + (if Fractional.below (i + k) remainder then 1 else 0)))) /\
  (forall j, ~ In j winners ->
     Fractional.awardChips share remainder i winners chips !! j = chips !! j) /\
  length (Fractional.awardChips share remainder i winners chips) = length chips.
Proof.
  induction winners as [|w0 winners IH]; intros i chips Hnd; simpl.
  - split; [intros k w c Hk; discriminate|]. split; reflexivity.
  - apply List.NoDup_cons_iff in Hnd as [Hw0 Hnd].
    destruct (IH (S i)
                (alter (fun c => c + (share + (if Fractional.below i remainder
                                               then 1 else 0))) w0 chips) Hnd)
      as (Hwin & Hrest & Hlen).
    split; [|split].
    + intros [|k] w c Hk Hc; simpl in Hk.
      * injection Hk as ->. rewrite (Hrest w Hw0), list_lookup_alter_eq, Hc.
        simpl. rewrite Nat.add_0_r. reflexivity.
      * assert (Hne : w0 <> w).
        { intros ->. apply Hw0. rewrite <- list_elem_of_In.
          eapply list_elem_of_lookup_2, Hk. }
        rewrite (Hwin k w c Hk).
        -- replace (S i + k)%nat with (i + S k)%nat by lia. reflexivity.
        -- rewrite list_lookup_alter_ne by exact Hne. exact Hc.
    + intros j Hj. rewrite Hrest by tauto.
      apply list_lookup_alter_ne. tauto.
    + rewrite Hlen. apply length_alter.
Qed.

Lemma total_alter (f : Q -> Q) (extra : Q) : forall w chips c,
  (forall x, f x == x + extra) ->
  chips !! w = Some c ->
  Fractional.total (alter f w chips) == Fractional.total chips + extra.
Proof.
  intros w chips. revert w. induction chips as [|x chips IH]; intros [|w] c Hf Hc;
    try discriminate; simpl in *.
  - rewrite Hf. Lqa.lra.
  - rewrite (IH w c Hf Hc). Lqa.lra.
Qed.

Lemma extraChips_closed remainder : forall count i,
  Fractional.extraChips remainder i count
  = Z.max 0 (Z.min (Z.of_nat (i + count)) (Qceiling remainder) - Z.of_nat i).
Proof.
  induction count as [|count IH]; intros i; cbn [Fractional.extraChips].
  - lia.
  - rewrite IH, below_ceiling.
    destruct (Z.ltb_spec (Z.of_nat i) (Qceiling remainder)); lia.
Qed.

Lemma awardChips_total share remainder winners : forall i chips,
  Forall (fun w => (w < length chips)%nat) winners ->
  Fractional.total (Fractional.awardChips share remainder i winners chips)
  == Fractional.total chips
     + inject_Z (Z.of_nat (length winners)) * share
     + inject_Z (Fractional.extraChips remainder i (length winners)).
Proof.
  induction winners as [|w0 winners IH]; intros i chips Hrange.
  - simpl. change (inject_Z (Z.of_nat 0)) with 0. change (inject_Z 0) with 0. Lqa.lra.
  - apply List.Forall_cons_iff in Hrange as [Hw0 Hrange].
    destruct (lookup_lt_is_Some_2 chips w0 Hw0) as [c Hc].
    cbn [Fractional.awardChips length Fractional.extraChips]. cbv zeta.
    rewrite IH by (rewrite length_alter; exact Hrange).
    rewrite (total_alter _ (share + (if Fractional.below i remainder then 1 else 0))
               w0 chips c); [|intros x; reflexivity|exact Hc].
    rewrite Nat2Z.inj_succ, <- Z.add_1_r, !inject_Z_plus.
    change (inject_Z 1) with 1.
    destruct (Fractional.below i remainder); change (inject_Z 0) with 0;
      change (inject_Z 1) with 1; Lqa.lra.
Qed.

Lemma ceiling_unique (x : Q) (z : Z) :
  inject_Z (z - 1) < x -> x <= inject_Z z -> Qceiling x = z.
Proof.
  intros Hlow Hhigh.
  assert (Hle : (Qceiling x <= z)%Z).
  { rewrite <- (Qceiling_Z z). apply Qceiling_resp_le, Hhigh. }
  assert (Hge : (z - 1 < Qceiling x)%Z).
  { rewrite Zlt_Qlt. eapply Qlt_le_trans; [exact Hlow|apply Qle_ceiling]. }
  lia.
Qed.

Lemma whole_iff (x : Q) : inject_Z (Qceiling x) == x <-> inject_Z (Qfloor x) == x.
Proof.
  split; intros H.
  - rewrite <- H at 1. now rewrite Qfloor_Z.
  - rewrite <- H at 1. now rewrite Qceiling_Z.
Qed.

(** X5.  With one or more winners, each listed once, and a pot that is not
    negative, [distributePot] returns 0 for the rest of the pot; the winner
    listed at position [k] receives [Math.floor(pot / n)] chips and one
    more when [k] is below what is left of the pot, and nobody else
    changes.  The chips handed out are the pot rounded up to a whole
    number: they add up to the pot exactly when the pot is whole, and to
    more than the pot otherwise.  Without winners the pot is handed back
    untouched. *)
Theorem distributePot_shares (pot : Q) (winners : list nat) (chips : list Q) :
  Fractional.distributePot pot [] chips = (chips, pot) /\
  (winners <> [] -> List.NoDup winners -> 0 <= pot ->
   let n := inject_Z (Z.of_nat (length winners)) in
   let share := Fractional.floor (pot / n) in
   let left := pot - n * share in
   let chips' := fst (Fractional.distributePot pot winners chips) in
   snd (Fractional.distributePot pot winners chips) = 0 /\
   (0 <= left /\ left < n) /\
   (forall k w c, winners !! k = Some w -> chips !! w = Some c ->
      chips' !! w
      = Some (c + (share + (if Fractional.below k left then 1 else 0)))) /\
   (forall k, Fractional.below k left = true <-> inject_Z (Z.of_nat k) < left) /\
   (forall j, ~ In j winners -> chips' !! j = chips !! j) /\
   (Forall (fun w => (w < length chips)%nat) winners ->
      Fractional.total chips'
      == Fractional.total chips + inject_Z (Qceiling pot) /\
      (Fractional.total chips' == Fractional.total chips + pot
       <-> inject_Z (Qfloor pot) == pot))).
Proof.
  split; [reflexivity|].
  intros Hne Hnd Hpot n share left chips'. subst chips'.
  unfold Fractional.distributePot.
  destruct winners as [|w0 winners']; [contradiction|].
  set (winners := w0 :: winners') in *.
  replace (length winners =? 0)%nat with false by reflexivity.
  cbv iota zeta. cbn [fst snd]. fold n. fold share.
  destruct (share_bounds pot (length winners) Hpot ltac:(simpl; lia))
    as (Hrem & Hlow & Hhigh).
  cbv zeta in Hrem, Hlow, Hhigh. fold n in Hrem, Hlow, Hhigh.
  fold share in Hrem, Hlow, Hhigh. fold left in Hrem, Hlow, Hhigh.
  rewrite Hrem.
  destruct (awardChips_lookup_fractional share left winners 0 chips Hnd)
    as (Hwin & Hrest & _).
  split; [reflexivity|]. split; [split; assumption|]. split; [|split; [|split]].
  - intros k w c Hk Hc. rewrite (Hwin k w c Hk Hc). reflexivity.
  - intros k. apply below_lt.
  - exact Hrest.
  - intros Hrange.
    assert (Htotal : Fractional.total (Fractional.awardChips share left 0 winners chips)
                     == Fractional.total chips + inject_Z (Qceiling pot)).
    { rewrite awardChips_total by exact Hrange.
      rewrite extraChips_closed. fold n.
      assert (Hc0 : (0 <= Qceiling left)%Z).
      { rewrite <- (Qceiling_Z 0). apply Qceiling_resp_le, Hlow. }
      assert (Hcn : (Qceiling left <= Z.of_nat (length winners))%Z).
      { rewrite <- (Qceiling_Z (Z.of_nat (length winners))).
        apply Qceiling_resp_le, Qlt_le_weak, Hhigh. }
      replace (Z.max 0 (Z.min (Z.of_nat (0 + length winners)) (Qceiling left)
                        - Z.of_nat 0))
        with (Qceiling left) by lia.
      assert (Hceil : Qceiling pot
                      = (Z.of_nat (length winners) * Qfloor (pot / n)
                         + Qceiling left)%Z).
      { apply ceiling_unique.
        - pose proof (Qceiling_lt left) as Hlt.
          unfold Z.sub in *. rewrite !inject_Z_plus, inject_Z_mult in *.
          fold n. change (inject_Z (Qfloor (pot / n))) with share.
          unfold left in Hlt at 2. Lqa.lra.
        - pose proof (Qle_ceiling left) as Hle.
          rewrite inject_Z_plus, inject_Z_mult.
          fold n. change (inject_Z (Qfloor (pot / n))) with share.
          unfold left in Hle at 1. Lqa.lra. }
      rewrite Hceil, inject_Z_plus, inject_Z_mult.
      fold n. change (inject_Z (Qfloor (pot / n))) with share. Lqa.lra. }
    split; [exact Htotal|].
    rewrite Htotal, <- whole_iff. split; intros H; Lqa.lra.
Qed.

Lemma distributePot_shares_witness :
  let pot := 161 # 2 in
  let paid := Fractional.distributePot pot [0; 2]%nat [0; 0; 0] in
  map Qreduction.Qred (fst paid) = [41; 0; 40] /\
  Fractional.total (fst paid) == Fractional.total [0; 0; 0] + inject_Z (Qceiling pot) /\
  ~ Fractional.total (fst paid) == pot.
Proof.
  cbv zeta. split; [reflexivity|]. split.
  - refine (proj1 (proj2 (proj2 (proj2 (proj2 (proj2 (proj2
             (distributePot_shares (161 # 2) [0; 2]%nat [0; 0; 0]) _ _ _))))) _)).
    + discriminate.
    + repeat constructor; simpl; intuition lia.
    + discriminate.
    + repeat constructor; simpl; lia.
  - vm_compute. discriminate.
Defined.

End FractionalPot.

(** ** On whole numbers the two models of [distributePot] agree *)

Section WholeNumbers.
Import QArith_base Qround.
Local Open Scope Q_scope.

Lemma floor_unique (x : Q) (z : Z) :
  inject_Z z <= x -> x < inject_Z (z + 1) -> Qfloor x = z.
Proof.
  intros Hlow Hhigh.
  assert (Hge : (z <= Qfloor x)%Z).
  { rewrite <- (Qfloor_Z z). apply Qfloor_resp_le, Hlow. }
  assert (Hlt : (Qfloor x < z + 1)%Z).
  { rewrite Zlt_Qlt. eapply Qle_lt_trans; [apply Qfloor_le|exact Hhigh]. }
  lia.
Qed.

Lemma whole_quotient (pot : Z) (count : nat) :
  (0 <= pot)%Z -> (0 < count)%nat ->
  let n := Z.of_nat count in
  Fractional.floor (inject_Z pot / inject_Z n) = inject_Z (pot / n) /\
  Fractional.remainder (inject_Z pot) (inject_Z n) == inject_Z (Z.rem pot n).
Proof.
  intros Hpot Hcount n.
  assert (Hn : (0 < n)%Z) by (subst n; lia).
  assert (HnQ : 0 < inject_Z n) by (rewrite <- (Zlt_Qlt 0); exact Hn).
  pose proof (Z.div_mod pot n ltac:(lia)) as Hdiv.
  pose proof (Z.mod_pos_bound pot n Hn) as Hmod.
  assert (Hfloor : Qfloor (inject_Z pot / inject_Z n) = (pot / n)%Z).
  { apply floor_unique.
    - apply Qle_shift_div_l; [exact HnQ|].
      rewrite <- inject_Z_mult, <- Zle_Qle. nia.
    - apply Qlt_shift_div_r; [exact HnQ|].
      rewrite <- inject_Z_mult, <- Zlt_Qlt. nia. }
  split.
  - unfold Fractional.floor. now rewrite Hfloor.
  - unfold Fractional.remainder. cbv zeta.
    assert (Hq : Qle_bool 0 (inject_Z pot / inject_Z n) = true).
    { apply Qle_bool_iff. apply Qle_shift_div_l; [exact HnQ|].
      rewrite Qmult_0_l. now rewrite <- (Zle_Qle 0). }
    rewrite Hq, Hfloor, Z.rem_mod_nonneg by lia.
    rewrite <- inject_Z_mult. unfold Qminus. rewrite <- inject_Z_opp, <- inject_Z_plus.
    apply inject_Z_injective. lia.
Qed.

Lemma awardChips_whole (share remainder : Z) (shareQ remainderQ : Q) winners :
  shareQ == inject_Z share -> remainderQ == inject_Z remainder ->
  forall i ps cs,
    Forall2 (fun p c => inject_Z (chips p) == c) ps cs ->
    Forall2 (fun p c => inject_Z (chips p) == c)
      (awardChips share remainder (Z.of_nat i) winners ps)
      (Fractional.awardChips shareQ remainderQ i winners cs).
Proof.
  intros Hshare Hrem.
  induction winners as [|w winners IH]; intros i ps cs Hall; [exact Hall|].
  cbn [awardChips Fractional.awardChips]. cbv zeta.
  replace (Z.of_nat i + 1)%Z with (Z.of_nat (S i)) by lia.
  apply IH. apply Forall2_alter; [exact Hall|].
  intros p c _ _ Hpc. cbn [chips set_chips].
  assert (Hbelow : Fractional.below i remainderQ = (Z.of_nat i <? remainder)%Z).
  { apply Bool.eq_true_iff_eq. rewrite below_lt, Z.ltb_lt, Hrem, <- Zlt_Qlt. reflexivity. }
  rewrite Hbelow, !inject_Z_plus, Hpc, Hshare.
  destruct (Z.of_nat i <? remainder)%Z; reflexivity.
Qed.

(** The chips [distributePot] leaves to the players of a room with whole
    amounts are those of [Fractional.distributePot]. *)
Lemma distributePot_whole (pot' : Z) (winners : list nat) (ps : list Player) :
  (0 <= pot')%Z ->
  let whole := map (fun p => inject_Z (chips p)) in
  Forall2 Qeq (whole (fst (distributePot pot' winners ps)))
              (fst (Fractional.distributePot (inject_Z pot') winners (whole ps))) /\
  inject_Z (snd (distributePot pot' winners ps))
  == snd (Fractional.distributePot (inject_Z pot') winners (whole ps)).
Proof.
  intros Hpot whole.
  assert (Hself : forall l : list Player,
            Forall2 (fun p c => inject_Z (chips p) == c) l (whole l)).
  { induction l; constructor; [reflexivity|assumption]. }
  assert (Hmap : forall (l : list Player) cs,
            Forall2 (fun p c => inject_Z (chips p) == c) l cs ->
            Forall2 Qeq (whole l) cs).
  { induction 1; constructor; assumption. }
  unfold distributePot, Fractional.distributePot.
  destruct winners as [|w0 winners']; [split; [apply Hmap, Hself|reflexivity]|].
  set (winners := w0 :: winners').
  replace (length winners =? 0)%nat with false by reflexivity.
  cbv iota zeta. cbn [fst snd].
  destruct (whole_quotient pot' (length winners) Hpot ltac:(simpl; lia))
    as [Hshare Hrem].
  cbv zeta in Hshare, Hrem. split; [|reflexivity].
  apply Hmap.
  apply (awardChips_whole _ _ _ _ winners) with (i := 0%nat);
    [rewrite Hshare; reflexivity|exact Hrem|apply Hself].
Qed.

End WholeNumbers.

(** ** One deck for all rooms *)

Lemma table_eta (t : Table) : mkTable (room t) (deck t) = t.
Proof. destruct t. reflexivity. Qed.

(** Calls for one room, with no call for another room in between, run as
    on a table of that room. *)
Lemma serveAll_one_room roomId (calls : list ManagerCall) : forall m r,
  managerRooms m !! roomId = Some r ->
  let t := fold_left (fun t call => serveTable call t) calls
             (mkTable r (managerDeck m)) in
  let m' := serveAll (map (pair roomId) calls) m in
  managerDeck m' = deck t /\ managerRooms m' !! roomId = Some (room t).
Proof.
  induction calls as [|call calls IH]; intros m r Hr t m'; subst t m'.
  - split; [reflexivity|exact Hr].
  - set (t1 := serveTable call (mkTable r (managerDeck m))).
    change (fold_left (fun t call => serveTable call t) (call :: calls)
              (mkTable r (managerDeck m)))
      with (fold_left (fun t call => serveTable call t) calls t1).
    change (serveAll (map (pair roomId) (call :: calls)) m)
      with (serveAll (map (pair roomId) calls) (serve m (roomId, call))).
    assert (Hserve : serve m (roomId, call)
                     = mkManager (deck t1) (<[roomId := room t1]> (managerRooms m))).
    { unfold serve. cbn [fst snd]. rewrite Hr. reflexivity. }
    rewrite Hserve.
    specialize (IH (mkManager (deck t1) (<[roomId := room t1]> (managerRooms m)))
                  (room t1)).
    cbn [managerDeck managerRooms] in IH. rewrite table_eta in IH.
    apply IH. apply lookup_insert_eq.
Qed.

Lemma serveTable_requests (reqs : list PlayerActionRequest) : forall t,
  fold_left (fun t call => serveTable call t) (map Action reqs) t
  = handleRequests reqs t.
Proof.
  unfold handleRequests.
  induction reqs as [|req reqs IH]; intros t; [reflexivity|]. apply IH.
Qed.

(** X11.  As long as the manager serves the calls of one room only, from
    the start of its hand on, no card of that room is in two places: when
    the shuffled deck holds every card once and two cards for every active
    player, the hole cards of the room's players, its board and the
    manager's deck are distinct cards of the shuffled deck, whatever the
    requests.  The deck being the manager's, the start of a hand in another
    room replaces it: in room "A" of [twoRooms] the three of hearts is then
    dealt to the board while a player of the room holds it. *)
Theorem no_card_is_dealt_twice :
  (forall (m : Manager) (roomId : string) (r : Room) (shuffled : list Card)
          (reqs : list PlayerActionRequest),
     managerRooms m !! roomId = Some r ->
     List.NoDup shuffled ->
     (2 * length (List.filter isActive (players r)) <= length shuffled)%nat ->
     let m' := serveAll (map (pair roomId) (StartGame shuffled :: map Action reqs)) m in
     exists r', managerRooms m' !! roomId = Some r' /\
       List.NoDup (cardsHeld (players r') ++ communityCards (gameState r')
                   ++ managerDeck m') /\
       forall c, In c (cardsHeld (players r') ++ communityCards (gameState r')
                       ++ managerDeck m') -> In c shuffled) /\
  (let m' := serveAll twoRoomsEvents twoRooms in
   exists r' p, managerRooms m' !! "A" = Some r' /\
     playerAt r' 1 = Some p /\
     In (mkCard Three Hearts) (holeCards p) /\
     In (mkCard Three Hearts) (communityCards (gameState r')) /\
     ~ List.NoDup (cardsHeld (players r') ++ communityCards (gameState r'))).
Proof.
  split.
  - intros m roomId r shuffled reqs Hr Hnd Hlen m'.
    destruct (serveAll_one_room roomId (StartGame shuffled :: map Action reqs) m r Hr)
      as [Hdeck Hroom].
    cbv zeta in Hdeck, Hroom. fold m' in Hdeck, Hroom.
    cbn [fold_left serveTable] in Hdeck, Hroom.
    rewrite serveTable_requests in Hdeck, Hroom.
    exists (room (handleRequests reqs (beginHand shuffled (mkTable r (managerDeck m))))).
    split; [exact Hroom|]. rewrite Hdeck.
    apply (cards_stay_apart (mkTable r (managerDeck m)) shuffled reqs Hnd Hlen).
  - cbv zeta. eexists _, _. split; [vm_compute; reflexivity|].
    split; [reflexivity|]. split; [simpl; tauto|]. split; [simpl; tauto|].
    intros Hnd. simpl in Hnd.
    apply List.NoDup_cons_iff in Hnd as [_ Hnd].
    apply List.NoDup_cons_iff in Hnd as [_ Hnd].
    apply List.NoDup_cons_iff in Hnd as [Hin _].
    apply Hin. simpl. tauto.
Qed.
